(** * docx_dart (python-docx port source): OPC package layer, schema framework,
      table span algebra and length conversions

    A shallow embedding of the parts of [scripts/merged_files.py] that the
    specification's testable properties talk about, followed by the
    theorems that settle them.

    Layout: Part I holds the definitions, one module per source module;
    Part II holds the lemmas and theorems.

    Conventions of the embedding
    - a Python [int] is a [Z]; [len] and [range] counters are [nat];
    - a Python [str] is a [string]; ["%d" % n] is stdpp's [pretty];
    - a raised exception is the [Raise] branch of [result], carrying the
      exception class and its message;
    - a [dict] whose iteration order is observed is an association list in
      insertion order ([OrderedDict] below); a [dict] that is only looked up
      is a [gmap];
    - object identity ([is], default [==] on objects) is equality of an
      address: a [Part] is a [nat], an lxml element is addressed by its
      position in the tree;
    - a Python [float] is an IEEE-754 binary64 value, [spec_float] of the
      standard library with [prec = 53] and [emax = 1024]. *)

From Stdlib Require Import ZArith Ascii String List Lia SpecFloat Permutation Sorted.
From stdpp Require Import base option list strings gmap pretty sorting.

Open Scope Z_scope.

(* ===================================================================== *)
(** * Part I: definitions                                                  *)
(* ===================================================================== *)

(** ** Python exceptions and results *)

Module Py.

Inductive exn : Type :=
| KeyError (msg : string)
| ValueError (msg : string)
| IndexError (msg : string)
| TypeError (msg : string)
| OverflowError (msg : string)
| ZeroDivisionError (msg : string)
| AssertionError
| InvalidXmlError (msg : string)
| InvalidSpanError (msg : string).

Inductive result (A : Type) : Type :=
| Ok (a : A)
| Raise (e : exn).
Arguments Ok {A} a.
Arguments Raise {A} e.

Definition bind {A B : Type} (m : result A) (k : A -> result B) : result B :=
  match m with
  | Ok a => k a
  | Raise e => Raise e
  end.

Definition is_ok {A : Type} (m : result A) : bool :=
  match m with Ok _ => true | Raise _ => false end.

(** [str % (arg,)] with a single [%s] or [%d] conversion, already rendered. *)
Definition fmt1 (before arg after : string) : string := before +:+ arg +:+ after.

End Py.
Export Py.

#[export] Instance result_ret : MRet result := fun A a => Ok a.
#[export] Instance result_bind : MBind result := fun A B k m => Py.bind m k.
#[export] Instance result_fmap : FMap result :=
  fun A B f m => match m with Ok a => Ok (f a) | Raise e => Raise e end.

(** A computation whose recursion is driven by a counter: [None] when the
    counter runs out before the computation ends. *)
Definition fueled (A : Type) : Type := option (result A).

Definition lift {A : Type} (m : result A) : fueled A := Some m.

Definition fuel_bind {A B : Type} (m : fueled A) (k : A -> fueled B) : fueled B :=
  match m with
  | None => None
  | Some (Raise e) => Some (Raise e)
  | Some (Ok a) => k a
  end.

Notation "'do' x <- m ; k" := (fuel_bind m (fun x => k))
  (at level 10, x pattern, m at level 100, k at level 200,
   format "'[v' 'do'  x  <-  m ; '/' k ']'").

(** ** docx/shared.py: [Length] and its constructors *)

Module Float.

(** binary64 *)
Definition prec : Z := 53.
Definition emax : Z := 1024.

(** [float(n)] for an [int] [n]: correctly rounded (ties to even);
    [OverflowError] once the rounded value leaves the finite range. *)
Definition of_int (n : Z) : result spec_float :=
  match binary_normalize prec emax n 0 false with
  | S754_infinity _ => Raise (OverflowError "int too large to convert to float")
  | f => Ok f
  end.

(** [a / b] on floats: IEEE division, [ZeroDivisionError] on a zero divisor. *)
Definition truediv (a b : spec_float) : result spec_float :=
  match b with
  | S754_zero _ => Raise (ZeroDivisionError "float division by zero")
  | _ => Ok (SFdiv prec emax a b)
  end.

(** The integer nearest to [m * 2^e], ties to the even one. *)
Definition round_half_even (m : positive) (e : Z) : Z :=
  match e with
  | Zneg p =>
      let d := 2 ^ Zpos p in
      let q := Zpos m / d in
      let r := Zpos m mod d in
      match 2 * r ?= d with
      | Lt => q
      | Gt => q + 1
      | Eq => if Z.even q then q else q + 1
      end
  | _ => Zpos m * 2 ^ e
  end.

(** [round(x)] with one argument: an [int], round-half-to-even. *)
Definition round (x : spec_float) : result Z :=
  match x with
  | S754_zero _ => Ok 0
  | S754_finite s m e => Ok (cond_Zopp s (round_half_even m e))
  | S754_infinity _ => Raise (OverflowError "cannot convert float infinity to integer")
  | S754_nan => Raise (ValueError "cannot convert float NaN to integer")
  end.

(** A finite float [f] of sign [s] stands for [V * 2^e]: its mantissa,
    counted in units of [2^e], is [V]. *)
Definition stands_for (f : spec_float) (s : bool) (V e : Z) : Prop :=
  exists (M : positive) (E : Z),
    f = S754_finite s M E /\ e <= E /\ Zpos M * 2 ^ (E - e) = V.

(** The rounding location left after the last bit of [q] is shifted out. *)
Definition loc_after_shift (q : Z) (l : location) : location :=
  match Z.odd q, l with
  | false, loc_Exact => loc_Exact
  | false, loc_Inexact _ => loc_Inexact Lt
  | true, loc_Exact => loc_Inexact Eq
  | true, loc_Inexact _ => loc_Inexact Gt
  end.

End Float.

Module Length.

Definition _EMUS_PER_INCH : Z := 914400.
Definition _EMUS_PER_CM : Z := 360000.
Definition _EMUS_PER_MM : Z := 36000.
Definition _EMUS_PER_PT : Z := 12700.
Definition _EMUS_PER_TWIP : Z := 635.

(** [Length(emu)]: an [int] subclass, so the value itself. *)
Definition Length (emu : Z) : Z := emu.

Definition emu (self : Z) : Z := self.

(** [int(round(self / float(self._EMUS_PER_TWIP)))] *)
Definition twips (self : Z) : result Z :=
  d ← Float.of_int _EMUS_PER_TWIP;
  x ← Float.of_int self;
  q ← Float.truediv x d;
  Float.round q.

(** [float(635)], the divisor in [twips], written out: [635 * 2^43] with
    exponent [-43]. *)
Definition m635 : positive := 5585519069102080%positive.

(** [Emu(emu)] is [Length(int(emu))]. *)
Definition Emu (emu : Z) : Z := Length emu.

(** [Pt(points)] is [Length(int(points * 12700))]; [points] an [int] here. *)
Definition Pt (points : Z) : Z := Length (points * _EMUS_PER_PT).

(** [Twips(twips)] is [Length(int(twips * 635))]; [twips] an [int] here. *)
Definition Twips (twips : Z) : Z := Length (twips * _EMUS_PER_TWIP).

End Length.

(** ** A [dict] in insertion order, keyed by [str] *)

Module OrderedDict.
Section OrderedDict.
Context {V : Type}.

Definition keys (d : list (string * V)) : list string := map fst d.
Definition values (d : list (string * V)) : list V := map snd d.
Definition len (d : list (string * V)) : nat := length d.

(** [key in d] *)
Definition contains (key : string) (d : list (string * V)) : bool :=
  bool_decide (key ∈ keys d).

(** [d[key]], [None] standing for [KeyError] *)
Fixpoint getitem (key : string) (d : list (string * V)) : option V :=
  match d with
  | [] => None
  | (k, v) :: d' => if decide (k = key) then Some v else getitem key d'
  end.

(** [d[key] = value]: an existing key keeps its place, a new one goes last *)
Fixpoint setitem (key : string) (value : V) (d : list (string * V)) : list (string * V) :=
  match d with
  | [] => [(key, value)]
  | (k, v) :: d' =>
      if decide (k = key) then (key, value) :: d' else (k, v) :: setitem key value d'
  end.

(** [del d[key]] *)
Fixpoint delitem (key : string) (d : list (string * V)) : list (string * V) :=
  match d with
  | [] => []
  | (k, v) :: d' => if decide (k = key) then d' else (k, v) :: delitem key d'
  end.

End OrderedDict.
End OrderedDict.

(** ** docx/opc/rel.py: [Relationships] and [_Relationship] *)

Module Rel.

(** A [Part] object, known by its identity. *)
Definition Part : Type := nat.

(** The [target] of a relationship: a [Part] when the target mode is
    internal, a [str] reference when it is external.  The [is_external]
    argument of the constructors and of [add_relationship] is the choice of
    the constructor here ([cast] in the source states the same reading). *)
Inductive Target : Type :=
| Internal (part : Part)
| External (ref : string).

Record _Relationship : Type := mk_Relationship {
  rId : string;
  reltype : string;
  _target : Target;
  _baseURI : string
}.

Definition is_external (self : _Relationship) : bool :=
  match _target self with
  | External _ => true
  | Internal _ => false
  end.

Definition target_part (self : _Relationship) : result Part :=
  match _target self with
  | External _ =>
      Raise (ValueError
        "target_part property on _Relationship is undefined when target mode is External")
  | Internal part => Ok part
  end.

#[export] Instance Target_eq_dec : EqDecision Target.
Proof. solve_decision. Defined.

#[export] Instance _Relationship_eq_dec : EqDecision _Relationship.
Proof. solve_decision. Defined.

(** [Relationships(Dict[str, _Relationship])]: the dict itself ([items]) and
    the two attributes set in [__init__]. *)
Record Relationships : Type := mk_Relationships {
  items : list (string * _Relationship);
  baseURI : string;
  _target_parts_by_rId : list (string * Part)
}.

Definition new_Relationships (baseURI : string) : Relationships :=
  mk_Relationships [] baseURI [].

(** The dict invariant of a collection: its keys are distinct, as in any
    dict, and each relationship is stored under its own [rId], which is how
    [add_relationship] below, the only writer, stores it. *)
Definition well_formed (self : Relationships) : Prop :=
  NoDup (OrderedDict.keys (items self)) /\
  Forall (fun kv => rId (snd kv) = fst kv) (items self).

Definition add_relationship (self : Relationships) (reltype : string)
    (target : Target) (rId : string) : _Relationship * Relationships :=
  let rel := mk_Relationship rId reltype target (baseURI self) in
  let items' := OrderedDict.setitem rId rel (items self) in
  let by_rId' :=
    match target with
    | Internal part => OrderedDict.setitem rId part (_target_parts_by_rId self)
    | External _ => _target_parts_by_rId self
    end in
  (rel, mk_Relationships items' (baseURI self) by_rId').

(** The inner function of [_get_matching]. [rel_target] is
    [rel.target_ref if rel.is_external else rel.target_part], which is the
    stored target on either branch. *)
Definition matches (rel : _Relationship) (reltype' : string) (target : Target)
    (is_external' : bool) : bool :=
  if negb (bool_decide (reltype rel = reltype')) then false
  else if negb (bool_decide (is_external rel = is_external')) then false
  else
    let rel_target := _target rel in
    if negb (bool_decide (rel_target = target)) then false
    else true.

Definition _get_matching (self : Relationships) (reltype : string) (target : Target)
    (is_external : bool) : option _Relationship :=
  List.find (fun rel => matches rel reltype target is_external)
            (OrderedDict.values (items self)).

(** ["rId%d" % n] *)
Definition rId_candidate (n : nat) : string := "rId" +:+ pretty n.

(** [_next_rId]: the loop over [range(1, len(self) + 2)]; [None] is the
    implicit [return None] after the loop. *)
Definition _next_rId (self : Relationships) : option string :=
  List.find (fun rId_candidate => negb (OrderedDict.contains rId_candidate (items self)))
            (map rId_candidate (seq 1 (OrderedDict.len (items self) + 1))).

(** [get_or_add] and [get_or_add_ext_rel] return the relationship (resp. its
    rId) and the collection after the call.  [None] is the case where
    [_next_rId] fell off the end of its loop, which [next_rId_spec] in
    Part II shows cannot happen. *)
Definition get_or_add (self : Relationships) (reltype : string) (target_part : Part)
    : option (_Relationship * Relationships) :=
  match _get_matching self reltype (Internal target_part) false with
  | Some rel => Some (rel, self)
  | None =>
      match _next_rId self with
      | Some rId => Some (add_relationship self reltype (Internal target_part) rId)
      | None => None
      end
  end.

Definition get_or_add_ext_rel (self : Relationships) (reltype : string) (target_ref : string)
    : option (string * Relationships) :=
  match _get_matching self reltype (External target_ref) true with
  | Some rel => Some (rId rel, self)
  | None =>
      match _next_rId self with
      | Some rId' =>
          let '(rel, self') := add_relationship self reltype (External target_ref) rId' in
          Some (rId rel, self')
      | None => None
      end
  end.

(** What a lookup-then-add call ([get_or_add], [get_or_add_ext_rel]) does for
    the requested [(reltype, target)]: the relationship it answers with was
    present, or is newly stored last under the id [_next_rId] gave. *)
Inductive added (self : Relationships) (reltype' : string) (target : Target)
    (rel : _Relationship) (self' : Relationships) : Prop :=
| was_present :
    _get_matching self reltype' target (is_external rel) = Some rel ->
    self' = self -> added self reltype' target rel self'
| newly_added :
    _get_matching self reltype' target (is_external rel) = None ->
    Some (rId rel) = _next_rId self ->
    rId rel ∉ OrderedDict.keys (items self) ->
    rel = mk_Relationship (rId rel) reltype' target (baseURI self) ->
    items self' = items self ++ [(rId rel, rel)] ->
    added self reltype' target rel self'.

Definition _get_rel_of_type (self : Relationships) (reltype' : string) : result _Relationship :=
  let matching :=
    filter (fun rel => reltype rel = reltype') (OrderedDict.values (items self)) in
  match matching with
  | [] => Raise (KeyError (fmt1 "no relationship of type '" reltype' "' in collection"))
  | [rel] => Ok rel
  | _ :: _ :: _ =>
      Raise (ValueError (fmt1 "multiple relationships of type '" reltype' "' in collection"))
  end.

Definition part_with_reltype (self : Relationships) (reltype : string) : result Part :=
  rel ← _get_rel_of_type self reltype;
  target_part rel.

End Rel.

(** ** docx/opc/packuri.py: [PackURI] *)

Module PackURI.

(** [s.rfind(c)] for a one-character [c]: the highest index, [-1] if none. *)
Fixpoint rfind_from (c : ascii) (s : string) (i : Z) : Z :=
  match s with
  | EmptyString => -1
  | String a s' =>
      let later := rfind_from c s' (i + 1) in
      if 0 <=? later then later else if decide (a = c) then i else -1
  end.

Definition rfind (c : ascii) (s : string) : Z := rfind_from c s 0.

(** [s[i:]] and [s[:i]] for [0 <= i] *)
Fixpoint drop_str (n : nat) (s : string) : string :=
  match n, s with
  | O, _ => s
  | S n', String _ s' => drop_str n' s'
  | S _, EmptyString => EmptyString
  end.

Fixpoint take_str (n : nat) (s : string) : string :=
  match n, s with
  | S n', String a s' => String a (take_str n' s')
  | _, _ => EmptyString
  end.

(** [posixpath.splitext(p)]: split at the last dot of the last path
    component, leading dots of that component not counting. *)
Definition splitext (p : string) : string * string :=
  let sepIndex := rfind "/"%char p in
  let dotIndex := rfind "."%char p in
  if sepIndex <? dotIndex then
    (* the [while filenameIndex < dotIndex] loop *)
    if existsb (fun filenameIndex =>
                  negb (bool_decide (String.get filenameIndex p = Some "."%char)))
               (seq (Z.to_nat (sepIndex + 1)) (Z.to_nat (dotIndex - (sepIndex + 1))))
    then (take_str (Z.to_nat dotIndex) p, drop_str (Z.to_nat dotIndex) p)
    else (p, EmptyString)
  else (p, EmptyString).

(** [PackURI.ext] *)
Definition ext (self : string) : string :=
  let raw_ext := snd (splitext self) in
  match raw_ext with
  | String "."%char rest => rest
  | _ => raw_ext
  end.

End PackURI.

(** ** docx/opc/shared.py and docx/opc/pkgreader.py: content types *)

Module ContentTypes.
Section ContentTypes.

(** [str.lower], on whatever character repertoire the strings are read in. *)
Variable lower : string -> string.

(** [CaseInsensitiveDict]: a dict whose three overridden methods lower the
    key first.  It is created empty and only looked up, so a [gmap]. *)
Definition cid_contains (key : string) (d : gmap string string) : bool :=
  bool_decide (is_Some (d !! lower key)).

Definition cid_getitem (key : string) (d : gmap string string) : result string :=
  match d !! lower key with
  | Some value => Ok value
  | None => Raise (KeyError (lower key))
  end.

Definition cid_setitem (key value : string) (d : gmap string string) : gmap string string :=
  <[lower key := value]> d.

Record _ContentTypeMap : Type := mk_ContentTypeMap {
  _overrides : gmap string string;
  _defaults : gmap string string
}.

Definition new_ContentTypeMap : _ContentTypeMap := mk_ContentTypeMap ∅ ∅.

(** [__getitem__]; [partname] is a [PackURI], so the [isinstance] guard
    passes. *)
Definition getitem (self : _ContentTypeMap) (partname : string) : result string :=
  if cid_contains partname (_overrides self) then cid_getitem partname (_overrides self)
  else if cid_contains (PackURI.ext partname) (_defaults self)
  then cid_getitem (PackURI.ext partname) (_defaults self)
  else Raise (KeyError
         (fmt1 "no content type for partname '" partname "' in [Content_Types].xml")).

Definition _add_default (self : _ContentTypeMap) (extension content_type : string)
    : _ContentTypeMap :=
  mk_ContentTypeMap (_overrides self) (cid_setitem extension content_type (_defaults self)).

Definition _add_override (self : _ContentTypeMap) (partname content_type : string)
    : _ContentTypeMap :=
  mk_ContentTypeMap (cid_setitem partname content_type (_overrides self)) (_defaults self).

(** [from_xml], from the parsed [<Override>] and [<Default>] children of
    [<Types>] in document order, each a (key, content type) pair. *)
Definition from_xml (overrides defaults : list (string * string)) : _ContentTypeMap :=
  let ct_map := new_ContentTypeMap in
  let ct_map := foldl (fun m o => _add_override m (fst o) (snd o)) ct_map overrides in
  foldl (fun m d => _add_default m (fst d) (snd d)) ct_map defaults.

(** The entry of [l] written last under a key equal to [key] up to case. *)
Definition last_entry (key : string) (l : list (string * string)) : option string :=
  snd <$> List.find (fun kv => bool_decide (lower (fst kv) = lower key)) (rev l).

End ContentTypes.

(** ASCII lowering, to run examples with. *)
Definition ascii_lower_char (c : ascii) : ascii :=
  let n := nat_of_ascii c in
  if (Nat.leb 65 n && Nat.leb n 90)%bool then ascii_of_nat (n + 32) else c.

Fixpoint ascii_lower (s : string) : string :=
  match s with
  | EmptyString => EmptyString
  | String c s' => String (ascii_lower_char c) (ascii_lower s')
  end.

End ContentTypes.

(** ** Depth-first traversal with a visited list

    The three graph walks of the source ([walk_parts], [walk_rels],
    [_walk_phys_parts]) are one traversal: go through the targets of a
    source in order, skip a target already in [visited], otherwise append it
    to [visited], yield it and walk its own targets.  [dfs] is that traversal
    on an abstract graph; the walks are compared with it in Part II.  The
    recursion is not structural, so it takes fuel: [None] is "fuel ran out",
    which Part II shows does not happen once the fuel exceeds the number of
    nodes. *)

Module Dfs.
Section Dfs.
Context {N : Type} `{EqDecision N}.
Variable succs : N -> list N.

Definition dfs_loop (rec : N -> list N -> option (list N * list N))
    : list N -> list N -> option (list N * list N) :=
  fix loop (todo visited : list N) {struct todo} :=
    match todo with
    | [] => Some ([], visited)
    | n :: todo' =>
        if bool_decide (n ∈ visited) then loop todo' visited
        else
          match rec n (visited ++ [n]) with
          | None => None
          | Some (ys, visited1) =>
              match loop todo' visited1 with
              | None => None
              | Some (zs, visited2) => Some (n :: ys ++ zs, visited2)
              end
          end
    end.

Fixpoint dfs (fuel : nat) (todo visited : list N) {struct fuel}
    : option (list N * list N) :=
  match fuel with
  | O => None
  | S fuel' => dfs_loop (fun n v => dfs fuel' (succs n) v) todo visited
  end.

(** How many of the nodes [U] are not in [visited]: what bounds the depth of
    the recursion. *)
Definition unvisited (U visited : list N) : nat :=
  length (filter (fun u => u ∉ visited) U).

(** [n] is reached from one of [roots] along edges [a -> b], [b ∈ succs a]. *)
Definition reachable (roots : list N) (n : N) : Prop :=
  exists r, r ∈ roots /\ rtc (fun a b => b ∈ succs a) r n.

(** What a finished traversal has done. *)
Record post (todo visited ys visited' : list N) : Prop := mk_post {
  post_visited : visited' = visited ++ ys;
  post_fresh : forall y, y ∈ ys -> y ∉ visited;
  post_NoDup : NoDup ys;
  post_todo : forall t, t ∈ todo -> t ∈ visited';
  post_closed : forall y, y ∈ ys -> forall z, z ∈ succs y -> z ∈ visited';
  post_reached : forall y, y ∈ ys -> reachable todo y
}.

End Dfs.
End Dfs.

(** ** docx/opc/package.py: [iter_parts] and [iter_rels] on the live graph *)

Module Package.
Import Rel.

(** The object graph of a package: the package's own relationship
    collection and the collection of each part.  [rels] of a part is created
    empty on first use, so a part without an entry has no relationships. *)
Record OpcPackage : Type := mk_OpcPackage {
  rels : Relationships;
  part_rels : gmap Part Relationships
}.

(** [source: OpcPackage | Part] *)
Inductive Source : Type :=
| ThePackage
| APart (part : Part).

(** [source.rels] *)
Definition rels_of (self : OpcPackage) (source : Source) : Relationships :=
  match source with
  | ThePackage => rels self
  | APart part => default (new_Relationships EmptyString) (part_rels self !! part)
  end.

(** The inner functions of [iter_parts] and [iter_rels].  [None] is "fuel
    ran out"; the second component of a result is [visited] after the
    walk (the list is shared and mutated in the source). *)
Fixpoint walk_parts (fuel : nat) (self : OpcPackage) (source : Source) (visited : list Part)
    {struct fuel} : option (list Part * list Part) :=
  match fuel with
  | O => None
  | S fuel' =>
      (fix loop (rels : list _Relationship) (visited : list Part) {struct rels} :=
         match rels with
         | [] => Some ([], visited)
         | rel :: rels' =>
             match _target rel with
             | External _ => loop rels' visited (* if rel.is_external: continue *)
             | Internal part => (* part = rel.target_part *)
                 if bool_decide (part ∈ visited) then loop rels' visited
                 else
                   let visited := visited ++ [part] in
                   match walk_parts fuel' self (APart part) visited with
                   | None => None
                   | Some (parts, visited) =>
                       match loop rels' visited with
                       | None => None
                       | Some (parts', visited) => Some (part :: parts ++ parts', visited)
                       end
                   end
             end
         end) (OrderedDict.values (items (rels_of self source))) visited
  end.

Fixpoint walk_rels (fuel : nat) (self : OpcPackage) (source : Source) (visited : list Part)
    {struct fuel} : option (list _Relationship * list Part) :=
  match fuel with
  | O => None
  | S fuel' =>
      (fix loop (rels : list _Relationship) (visited : list Part) {struct rels} :=
         match rels with
         | [] => Some ([], visited)
         | rel :: rels' =>
             (* yield rel *)
             match _target rel with
             | External _ =>
                 match loop rels' visited with
                 | None => None
                 | Some (yielded', visited) => Some (rel :: yielded', visited)
                 end
             | Internal part =>
                 if bool_decide (part ∈ visited) then
                   match loop rels' visited with
                   | None => None
                   | Some (yielded', visited) => Some (rel :: yielded', visited)
                   end
                 else
                   let visited := visited ++ [part] in
                   match walk_rels fuel' self (APart part) visited with
                   | None => None
                   | Some (yielded, visited) =>
                       match loop rels' visited with
                       | None => None
                       | Some (yielded', visited) =>
                           Some (rel :: yielded ++ yielded', visited)
                       end
                   end
             end
         end) (OrderedDict.values (items (rels_of self source))) visited
  end.

Definition iter_parts (fuel : nat) (self : OpcPackage) : option (list Part) :=
  fst <$> walk_parts fuel self ThePackage [].

Definition iter_rels (fuel : nat) (self : OpcPackage) : option (list _Relationship) :=
  fst <$> walk_rels fuel self ThePackage [].

(** The parts a collection points to, in order. *)
Definition internal_targets (rels : Relationships) : list Part :=
  omap (fun rel => match _target rel with Internal part => Some part | External _ => None end)
       (OrderedDict.values (items rels)).

(** The relationships of a source, as the walks read them. *)
Definition rels_values (self : OpcPackage) (source : Source) : list _Relationship :=
  OrderedDict.values (items (rels_of self source)).

(** The graph the walks traverse, and every part that occurs in it. *)
Definition part_succs (self : OpcPackage) (part : Part) : list Part :=
  internal_targets (rels_of self (APart part)).

Definition all_targets (self : OpcPackage) : list Part :=
  internal_targets (rels self) ++
  flat_map (fun kv => internal_targets (snd kv)) (map_to_list (part_rels self)).

End Package.

(** ** docx/opc/pkgreader.py: the part walk at load time *)

Module PkgReader.
Section PkgReader.

(** [PackURI.from_rel_ref(baseURI, relative_ref)], a [posixpath]
    computation on the two strings. *)
Variable from_rel_ref : string -> string -> string.

Record _SerializedRelationship : Type := mk_SerializedRelationship {
  _baseURI : string;
  _rId : string;
  _reltype : string;
  _target_mode : string;
  _target_ref : string
}.

(** [RTM.EXTERNAL] *)
Definition RTM_EXTERNAL : string := "External".

Definition is_external (self : _SerializedRelationship) : bool :=
  bool_decide (_target_mode self = RTM_EXTERNAL).

Definition target_partname (self : _SerializedRelationship) : result string :=
  if is_external self then
    Raise (ValueError
      "target_partname attribute on Relationship is undefined where TargetMode == External")
  else Ok (from_rel_ref (_baseURI self) (_target_ref self)).

(** The physical package: the blob of each member that is a part, and the
    parsed relationships item of each source that has one (both keyed by the
    partname of the part resp. source). *)
Record PhysPkgReader : Type := mk_PhysPkgReader {
  members : gmap string string;
  rels_items : gmap string (list _SerializedRelationship)
}.

(** [blob_for]: [KeyError] from the zip archive when there is no such member *)
Definition blob_for (self : PhysPkgReader) (pack_uri : string) : result string :=
  match members self !! pack_uri with
  | Some blob => Ok blob
  | None => Raise (KeyError (fmt1 "There is no item named '" pack_uri "' in the archive"))
  end.

(** [PackageReader._srels_for]: the relationships of [source_uri], none when
    it has no rels item. *)
Definition _srels_for (phys_reader : PhysPkgReader) (source_uri : string)
    : list _SerializedRelationship :=
  default [] (rels_items phys_reader !! source_uri).

(** The 4-tuple [(partname, blob, reltype, srels)] that is yielded. *)
Definition spart_tuple : Type := string * string * string * list _SerializedRelationship.

Definition tuple_partname (t : spart_tuple) : string := fst (fst (fst t)).

Fixpoint _walk_phys_parts (fuel : nat) (phys_reader : PhysPkgReader)
    (srels : list _SerializedRelationship) (visited_partnames : list string)
    {struct fuel} : option (result (list spart_tuple * list string)) :=
  match fuel with
  | O => None
  | S fuel' =>
      (fix loop (srels : list _SerializedRelationship) (visited_partnames : list string)
           {struct srels} :=
         match srels with
         | [] => Some (Ok ([], visited_partnames))
         | srel :: srels' =>
             if is_external srel then loop srels' visited_partnames
             else
               match target_partname srel with
               | Raise e => Some (Raise e)
               | Ok partname =>
                   if bool_decide (partname ∈ visited_partnames)
                   then loop srels' visited_partnames
                   else
                     let visited_partnames := visited_partnames ++ [partname] in
                     let reltype := _reltype srel in
                     let part_srels := _srels_for phys_reader partname in
                     match blob_for phys_reader partname with
                     | Raise e => Some (Raise e)
                     | Ok blob =>
                         match _walk_phys_parts fuel' phys_reader part_srels
                                                visited_partnames with
                         | None => None
                         | Some (Raise e) => Some (Raise e)
                         | Some (Ok (yielded, visited_partnames)) =>
                             match loop srels' visited_partnames with
                             | None => None
                             | Some (Raise e) => Some (Raise e)
                             | Some (Ok (yielded', visited_partnames)) =>
                                 Some (Ok ((partname, blob, reltype, part_srels)
                                             :: yielded ++ yielded',
                                           visited_partnames))
                             end
                         end
                     end
               end
         end) srels visited_partnames
  end.

(** The partnames a list of serialized relationships points to, in order. *)
Definition target_partnames (srels : list _SerializedRelationship) : list string :=
  omap (fun srel => if is_external srel then None
                    else Some (from_rel_ref (_baseURI srel) (_target_ref srel)))
       srels.

Definition partname_succs (phys_reader : PhysPkgReader) (partname : string) : list string :=
  target_partnames (_srels_for phys_reader partname).

Definition all_target_partnames (phys_reader : PhysPkgReader)
    (pkg_srels : list _SerializedRelationship) : list string :=
  target_partnames pkg_srels ++
  flat_map (fun kv => target_partnames (snd kv)) (map_to_list (rels_items phys_reader)).

(** A yielded tuple carries the blob and the relationships of its part. *)
Definition tuple_ok (phys_reader : PhysPkgReader) (t : spart_tuple) : Prop :=
  let '(partname, blob, reltype, srels) := t in
  members phys_reader !! partname = Some blob /\
  srels = _srels_for phys_reader partname.

(** Every part a relationship points to is a member of the package. *)
Definition closed (phys_reader : PhysPkgReader) (pkg_srels : list _SerializedRelationship)
    : Prop :=
  forall partname, partname ∈ all_target_partnames phys_reader pkg_srels ->
                   is_Some (members phys_reader !! partname).

End PkgReader.
End PkgReader.

(** ** docx/oxml/xmlchemy.py: elements and the child-element descriptors

    An lxml element is its tag, its attributes in document order and its
    child elements in document order.  Tags and attribute names are kept in
    their namespace-prefixed form (["w:tc"]): [qn], which maps a prefixed
    name to its Clark name over the fixed [nsmap], is one-to-one on them, so
    it is the identity here.  A child of an element is known by its
    position among the children. *)

Module Oxml.

#[warnings="-register-all"] Inductive Element : Type := mk_Element {
  tag : string;
  attrib : list (string * string);
  children : list Element
}.

Definition qn (nsptag : string) : string := nsptag.

(** [OxmlElement(nsptag_str)]: a loose element with no attributes and no
    children. *)
Definition OxmlElement (nsptag_str : string) : Element :=
  mk_Element (qn nsptag_str) [] [].

Definition set_children (self : Element) (children' : list Element) : Element :=
  mk_Element (tag self) (attrib self) children'.

Definition set_attrib (self : Element) (attrib' : list (string * string)) : Element :=
  mk_Element (tag self) attrib' (children self).

(** The child at a position.  Positions come from [find_index],
    [findall_index] and the inserters, so they hold a child; a position
    that holds none reads as a bare element. *)
#[export] Instance Element_inhabited : Inhabited Element :=
  populate (mk_Element EmptyString [] []).

Definition child_at (self : Element) (index : nat) : Element :=
  children self !!! index.

(** *** lxml: [find], [findall], [append], [insert], [remove], [get], [set] *)

(** The position of the first child with [tag'], as [find] finds it. *)
Fixpoint find_index (tag' : string) (children : list Element) : option nat :=
  match children with
  | [] => None
  | child :: rest =>
      if decide (tag child = tag') then Some O
      else S <$> find_index tag' rest
  end.

Definition find (self : Element) (tag' : string) : option Element :=
  i ← find_index tag' (children self); children self !! i.

Definition findall (self : Element) (tag' : string) : list Element :=
  filter (fun child => tag child = tag') (children self).

(** The positions of the children [findall] returns, counted from
    [first]. *)
Fixpoint findall_from (first : nat) (tag' : string) (children : list Element) : list nat :=
  match children with
  | [] => []
  | child :: rest =>
      if decide (tag child = tag') then first :: findall_from (S first) tag' rest
      else findall_from (S first) tag' rest
  end.

Definition findall_index (self : Element) (tag' : string) : list nat :=
  findall_from O tag' (children self).

Definition append (self : Element) (child : Element) : Element :=
  set_children self (children self ++ [child]).

(** [self.insert(index, child)] and [successor.addprevious(child)] for the
    child at [index]: the new child takes that position. *)
Definition insert (self : Element) (index : nat) (child : Element) : Element :=
  set_children self (take index (children self) ++ child :: drop index (children self)).

(** [self.remove(child)] for the child at [index] *)
Definition remove (self : Element) (index : nat) : Element :=
  set_children self (delete index (children self)).

(** [self[index] = child]: what mutating the child at [index] in place does
    to its parent. *)
Definition replace (self : Element) (index : nat) (child : Element) : Element :=
  set_children self (<[index := child]> (children self)).

Definition get (self : Element) (name : string) : option string :=
  OrderedDict.getitem name (attrib self).

Definition set (self : Element) (name value : string) : Element :=
  set_attrib self (OrderedDict.setitem name value (attrib self)).

(** [if name in self.attrib: del self.attrib[name]] *)
Definition del_attrib (self : Element) (name : string) : Element :=
  set_attrib self (OrderedDict.delitem name (attrib self)).

(** *** [BaseOxmlElement] *)

(** [first_child_found_in] over its [tagnames]: the child, by its position. *)
Fixpoint first_child_found_in (self : Element) (tagnames : list string) : option nat :=
  match tagnames with
  | [] => None
  | tagname :: rest =>
      match find_index (qn tagname) (children self) with
      | Some child => Some child
      | None => first_child_found_in self rest
      end
  end.

Definition insert_element_before (self : Element) (elm : Element) (tagnames : list string)
    : Element :=
  match first_child_found_in self tagnames with
  | Some successor => insert self successor elm
  | None => append self elm
  end.

(** [remove_all(tagname)] *)
Definition remove_all (self : Element) (tagname : string) : Element :=
  set_children self (filter (fun child => tag child <> qn tagname) (children self)).

(** *** The child-element descriptors *)

Inductive ChildKind : Type :=
| Choice
| OneAndOnlyOne
| OneOrMore
| ZeroOrMore
| ZeroOrOne.

Record _BaseChildElement : Type := mk_BaseChildElement {
  kind : ChildKind;
  _nsptagname : string;
  _successors : list string
}.

(** Whether [populate_class_members] of the kind calls [_add_inserter]. *)
Definition adds_inserter (k : ChildKind) : bool :=
  match k with
  | OneAndOnlyOne => false
  | Choice | OneOrMore | ZeroOrMore | ZeroOrOne => true
  end.

(** [_insert_child] of [_add_inserter], the one body every kind shares. *)
Definition _insert_child (d : _BaseChildElement) (obj child : Element) : Element :=
  insert_element_before obj child (_successors d).

(** The [_insert_x] method generated for a descriptor, if any. *)
Definition insert_method (d : _BaseChildElement) : option (Element -> Element -> Element) :=
  if adds_inserter (kind d) then Some (_insert_child d) else None.

(** [_creator]: [OxmlElement(self._nsptagname)] *)
Definition new_child_element (d : _BaseChildElement) : Element :=
  OxmlElement (_nsptagname d).

(** [get_child_element] of [_getter]: the child, by its position. *)
Definition get_child_element (d : _BaseChildElement) (obj : Element) : option nat :=
  find_index (qn (_nsptagname d)) (children obj).

(** Where [_insert_child] puts the child. *)
Definition inserted_at (d : _BaseChildElement) (obj : Element) : nat :=
  match first_child_found_in obj (_successors d) with
  | Some successor => successor
  | None => length (children obj)
  end.

(** [_add_child] of [_add_adder], with no [attrs]: the position of the new
    child and the parent with the child inserted. *)
Definition _add_child (d : _BaseChildElement) (obj : Element) : nat * Element :=
  let child := new_child_element d in
  (inserted_at d obj, _insert_child d obj child).

(** [get_or_add_child] of [_add_get_or_adder] *)
Definition get_or_add_child (d : _BaseChildElement) (obj : Element) : nat * Element :=
  match get_child_element d obj with
  | Some child => (child, obj)
  | None => _add_child d obj
  end.

(** [_remove_child] of [_add_remover] *)
Definition _remove_child (d : _BaseChildElement) (obj : Element) : Element :=
  remove_all obj (_nsptagname d).

(** *** The content model a list of children is checked against *)

(** The position of [t] in the sequence of tags [tag_seq]. *)
Fixpoint rank (tag_seq : list string) (t : string) : nat :=
  match tag_seq with
  | [] => O
  | s :: rest => if decide (s = t) then O else S (rank rest t)
  end.

(** [children] is consistent with the sequence [tag_seq]: each child carries
    a tag of the sequence, and the tags appear in the order of the sequence
    (a tag may repeat). *)
Definition in_sequence (tag_seq : list string) (children : list Element) : Prop :=
  Forall (fun child => tag child ∈ tag_seq) children /\
  StronglySorted (fun c1 c2 => (rank tag_seq (tag c1) <= rank tag_seq (tag c2))%nat) children.

End Oxml.

(** ** [docx.oxml.simpletypes]: the simple types of the table elements *)

Module SimpleTypes.

(** *** [int(str)] and [str(int)] *)

(** What [int(s)] accepts of a string of ASCII characters: white space
    around, one sign, decimal digits with single underscores between them.
    The interpreter's limit on the number of digits and the decimal digits
    outside ASCII are left out. *)
Definition is_space (c : ascii) : bool :=
  let n := nat_of_ascii c in
  ((n =? 32) || ((9 <=? n) && (n <=? 13)) || ((28 <=? n) && (n <=? 31)))%nat.

Definition digit_value (c : ascii) : option Z :=
  let n := Z.of_nat (nat_of_ascii c) in
  if (48 <=? n) && (n <=? 57) then Some (n - 48) else None.

Fixpoint lstrip (s : list ascii) : list ascii :=
  match s with
  | [] => []
  | c :: rest => if is_space c then lstrip rest else s
  end.

Definition strip (s : list ascii) : list ascii :=
  rev (lstrip (rev (lstrip s))).

Fixpoint more_digits (s : list ascii) (value : Z) (after_underscore : bool) : option Z :=
  match s with
  | [] => if after_underscore then None else Some value
  | c :: rest =>
      if decide (c = "_"%char) then
        if after_underscore then None else more_digits rest value true
      else
        match digit_value c with
        | Some d => more_digits rest (10 * value + d) false
        | None => None
        end
  end.

Definition digits (s : list ascii) : option Z :=
  match s with
  | [] => None
  | c :: rest =>
      match digit_value c with
      | Some d => more_digits rest d false
      | None => None
      end
  end.

Definition int (s : string) : result Z :=
  let signed :=
    match strip (list_ascii_of_string s) with
    | "+"%char :: rest => digits rest
    | "-"%char :: rest => Z.opp <$> digits rest
    | rest => digits rest
    end in
  match signed with
  | Some value => Ok value
  | None => Raise (ValueError (fmt1 "invalid literal for int() with base 10: '" s "'"))
  end.

Definition str (value : Z) : string := pretty value.

(** *** [BaseSimpleType] and the types derived from it

    [validate_int] only checks the class of the value, and a [Z] is an
    [int]; likewise [validate_string]. *)

Definition validate_int_in_range (value min_inclusive max_inclusive : Z) : result unit :=
  if (value <? min_inclusive) || (value >? max_inclusive) then
    Raise (ValueError ("value must be in range " +:+ str min_inclusive +:+ " to "
                       +:+ str max_inclusive +:+ " inclusive, got " +:+ str value))
  else Ok tt.

Module BaseIntType.
Definition convert_from_xml (str_value : string) : result Z := int str_value.
Definition convert_to_xml (value : Z) : string := str value.
End BaseIntType.

Module XsdInt.
Definition validate (value : Z) : result unit :=
  validate_int_in_range value (-2147483648) 2147483647.
Definition from_xml (xml_value : string) : result Z :=
  BaseIntType.convert_from_xml xml_value.
Definition to_xml (value : Z) : result string :=
  _ ← validate value; Ok (BaseIntType.convert_to_xml value).
End XsdInt.

(** [class ST_DecimalNumber(XsdInt): pass] *)
Module ST_DecimalNumber := XsdInt.

Module ST_Merge.
Definition CONTINUE : string := "continue".
Definition RESTART : string := "restart".
Definition _members : list string := [CONTINUE; RESTART].
Definition validate (value : string) : result unit :=
  if bool_decide (value ∈ _members) then Ok tt
  else Raise (ValueError (fmt1 "must be one of ('continue', 'restart'), got '" value "'")).
Definition from_xml (xml_value : string) : result string := Ok xml_value.
Definition to_xml (value : string) : result string :=
  _ ← validate value; Ok value.
End ST_Merge.

Module ST_TblWidth.
Definition valid_values : list string := ["auto"; "dxa"; "nil"; "pct"].
Definition validate (value : string) : result unit :=
  if bool_decide (value ∈ valid_values) then Ok tt
  else Raise (ValueError
                (fmt1 "must be one of ('auto', 'dxa', 'nil', 'pct'), got '" value "'")).
Definition from_xml (xml_value : string) : result string := Ok xml_value.
Definition to_xml (value : string) : result string :=
  _ ← validate value; Ok value.
End ST_TblWidth.

End SimpleTypes.

(** ** [docx.oxml.xmlchemy]: the attribute descriptors *)

Module Attribute.
Import Oxml.

Section Attribute.
Context {A : Type} `{EqDecision A}.
Variable _attr_name : string.
Variable from_xml : string -> result A.
Variable to_xml : A -> result string.

(** [_clark_name]: [qn] of a prefixed name, the name itself otherwise;
    the two agree since [qn] keeps the name. *)
Definition _clark_name : string := qn _attr_name.

(** *** [RequiredAttribute]

    The message of [InvalidXmlError] names the element by its tag, here in
    the prefixed form. *)

Definition required_get_attr_value (obj : Element) : result A :=
  match get obj _clark_name with
  | None =>
      Raise (InvalidXmlError ("required '" +:+ _attr_name
                              +:+ "' attribute not present on element " +:+ tag obj))
  | Some attr_str_value => from_xml attr_str_value
  end.

Definition required_set_attr_value (obj : Element) (value : A) : result Element :=
  str_value ← to_xml value;
  Ok (set obj _clark_name str_value).

(** *** [OptionalAttribute] with its [default] *)

Variable _default : option A.

Definition optional_get_attr_value (obj : Element) : result (option A) :=
  match get obj _clark_name with
  | None => Ok _default
  | Some attr_str_value => Some <$> from_xml attr_str_value
  end.

Definition optional_set_attr_value (obj : Element) (value : option A) : result Element :=
  match value with
  | None => Ok (del_attrib obj _clark_name)
  | Some v =>
      if decide (value = _default) then Ok (del_attrib obj _clark_name)
      else
        str_value ← to_xml v;
        Ok (set obj _clark_name str_value)
  end.

End Attribute.
End Attribute.

(** ** [docx.oxml.table]: rows, cells and the merge of cells

    The elements are those of [Oxml]; each class of the source is a module
    here.  A method that changes an element returns the changed element.
    The methods of a cell that look at its row or its table take the
    [w:tbl] element and the address of the cell in it, the position of its
    row among the children of the table and its own position among the
    children of the row, and return the changed table.  When a method
    raises, the tree is not handed on. *)

Module Table.
Import Oxml SimpleTypes Attribute.

(** [sum(...)] of a generator of [int]s, any of which may raise *)
Fixpoint sum_of (items : list (result Z)) (start : Z) : result Z :=
  match items with
  | [] => Ok start
  | item :: rest => value ← item; sum_of rest (start + value)
  end.

(** [l.index(x)] *)
Fixpoint index_of (x : nat) (l : list nat) : result nat :=
  match l with
  | [] => Raise (ValueError "list.index(x): x not in list")
  | y :: rest => if decide (y = x) then Ok O else S <$> index_of x rest
  end.

(** *** [CT_DecimalNumber] *)
Module CT_DecimalNumber.
Definition val : Element -> result Z :=
  required_get_attr_value "w:val" ST_DecimalNumber.from_xml.
Definition set_val : Element -> Z -> result Element :=
  required_set_attr_value "w:val" ST_DecimalNumber.to_xml.
End CT_DecimalNumber.

(** *** [CT_VMerge] *)
Module CT_VMerge.
Definition val : Element -> result (option string) :=
  optional_get_attr_value "w:val" ST_Merge.from_xml (Some ST_Merge.CONTINUE).
Definition set_val : Element -> option string -> result Element :=
  optional_set_attr_value "w:val" ST_Merge.to_xml (Some ST_Merge.CONTINUE).
End CT_VMerge.

(** *** [CT_TblWidth] *)
Module CT_TblWidth.
Definition w : Element -> result Z :=
  required_get_attr_value "w:w" XsdInt.from_xml.
Definition set_w : Element -> Z -> result Element :=
  required_set_attr_value "w:w" XsdInt.to_xml.
Definition type : Element -> result string :=
  required_get_attr_value "w:type" ST_TblWidth.from_xml.
Definition set_type : Element -> string -> result Element :=
  required_set_attr_value "w:type" ST_TblWidth.to_xml.

Definition width (self : Element) : result (option Z) :=
  type_ ← type self;
  if decide (type_ <> "dxa") then Ok None
  else w_ ← w self; Ok (Some (Length.Twips w_)).

Definition set_width (self : Element) (value : Z) : result Element :=
  self ← set_type self "dxa";
  twips ← Length.twips (Length.Emu value);
  set_w self twips.
End CT_TblWidth.

(** *** [CT_TcPr] *)
Module CT_TcPr.

Definition _tag_seq : list string :=
  [ "w:cnfStyle"; "w:tcW"; "w:gridSpan"; "w:hMerge"; "w:vMerge"; "w:tcBorders";
    "w:shd"; "w:noWrap"; "w:tcMar"; "w:textDirection"; "w:tcFitText"; "w:vAlign";
    "w:hideMark"; "w:headers"; "w:cellIns"; "w:cellDel"; "w:cellMerge";
    "w:tcPrChange" ].

Definition tcW : _BaseChildElement :=
  mk_BaseChildElement ZeroOrOne "w:tcW" (drop 2 _tag_seq).
Definition gridSpan : _BaseChildElement :=
  mk_BaseChildElement ZeroOrOne "w:gridSpan" (drop 3 _tag_seq).
Definition vMerge : _BaseChildElement :=
  mk_BaseChildElement ZeroOrOne "w:vMerge" (drop 5 _tag_seq).
Definition vAlign : _BaseChildElement :=
  mk_BaseChildElement ZeroOrOne "w:vAlign" (drop 12 _tag_seq).

Definition grid_span (self : Element) : result Z :=
  match get_child_element gridSpan self with
  | None => Ok 1
  | Some gridSpan => CT_DecimalNumber.val (child_at self gridSpan)
  end.

Definition set_grid_span (self : Element) (value : Z) : result Element :=
  let self := _remove_child gridSpan self in
  if value >? 1 then
    let '(gridSpan, self) := get_or_add_child gridSpan self in
    child ← CT_DecimalNumber.set_val (child_at self gridSpan) value;
    Ok (replace self gridSpan child)
  else Ok self.

Definition vMerge_val (self : Element) : result (option string) :=
  match get_child_element vMerge self with
  | None => Ok None
  | Some vMerge => CT_VMerge.val (child_at self vMerge)
  end.

Definition set_vMerge_val (self : Element) (value : option string) : result Element :=
  let self := _remove_child vMerge self in
  match value with
  | None => Ok self
  | Some _ =>
      let '(vMerge, self) := _add_child vMerge self in
      child ← CT_VMerge.set_val (child_at self vMerge) value;
      Ok (replace self vMerge child)
  end.

Definition width (self : Element) : result (option Z) :=
  match get_child_element tcW self with
  | None => Ok None
  | Some tcW => CT_TblWidth.width (child_at self tcW)
  end.

Definition set_width (self : Element) (value : Z) : result Element :=
  let '(tcW, self) := get_or_add_child tcW self in
  child ← CT_TblWidth.set_width (child_at self tcW) value;
  Ok (replace self tcW child).

End CT_TcPr.

(** *** [CT_TrPr] *)
Module CT_TrPr.

Definition _tag_seq : list string :=
  [ "w:cnfStyle"; "w:divId"; "w:gridBefore"; "w:gridAfter"; "w:wBefore"; "w:wAfter";
    "w:cantSplit"; "w:trHeight"; "w:tblHeader"; "w:tblCellSpacing"; "w:jc";
    "w:hidden"; "w:ins"; "w:del"; "w:trPrChange" ].

Definition gridAfter : _BaseChildElement :=
  mk_BaseChildElement ZeroOrOne "w:gridAfter" (drop 4 _tag_seq).
Definition gridBefore : _BaseChildElement :=
  mk_BaseChildElement ZeroOrOne "w:gridBefore" (drop 3 _tag_seq).

Definition grid_before (self : Element) : result Z :=
  match get_child_element gridBefore self with
  | None => Ok 0
  | Some gridBefore => CT_DecimalNumber.val (child_at self gridBefore)
  end.

End CT_TrPr.

(** *** [CT_P], as far as a cell looks into its paragraphs *)
Module CT_P.
Definition r_lst (self : Element) : list nat := findall_index self (qn "w:r").
End CT_P.

(** [isinstance(e, CT_P)]: the class of an element is looked up by its tag. *)
Definition is_CT_P (e : Element) : bool := bool_decide (tag e = qn "w:p").

(** *** [CT_Tc], the methods that look at the cell alone *)
Module CT_Tc_element.

Definition tcPr : _BaseChildElement := mk_BaseChildElement ZeroOrOne "w:tcPr" [].

(** [get_or_add_tcPr], over the [_insert_tcPr] of the class, which is
    [self.insert(0, tcPr)] *)
Definition get_or_add_tcPr (self : Element) : nat * Element :=
  match get_child_element tcPr self with
  | Some tcPr => (tcPr, self)
  | None => (O, insert self 0 (new_child_element tcPr))
  end.

Definition grid_span (self : Element) : result Z :=
  match get_child_element tcPr self with
  | None => Ok 1
  | Some tcPr => CT_TcPr.grid_span (child_at self tcPr)
  end.

Definition set_grid_span (self : Element) (value : Z) : result Element :=
  let '(tcPr, self) := get_or_add_tcPr self in
  child ← CT_TcPr.set_grid_span (child_at self tcPr) value;
  Ok (replace self tcPr child).

Definition vMerge (self : Element) : result (option string) :=
  match get_child_element tcPr self with
  | None => Ok None
  | Some tcPr => CT_TcPr.vMerge_val (child_at self tcPr)
  end.

Definition set_vMerge (self : Element) (value : option string) : result Element :=
  let '(tcPr, self) := get_or_add_tcPr self in
  child ← CT_TcPr.set_vMerge_val (child_at self tcPr) value;
  Ok (replace self tcPr child).

Definition width (self : Element) : result (option Z) :=
  match get_child_element tcPr self with
  | None => Ok None
  | Some tcPr => CT_TcPr.width (child_at self tcPr)
  end.

Definition set_width (self : Element) (value : Z) : result Element :=
  let '(tcPr, self) := get_or_add_tcPr self in
  child ← CT_TcPr.set_width (child_at self tcPr) value;
  Ok (replace self tcPr child).

Definition block_item_tags : list string := [qn "w:p"; qn "w:tbl"; qn "w:sdt"].

Definition is_block_item (child : Element) : bool :=
  bool_decide (tag child ∈ block_item_tags).

(** [iter_block_items], by position, counted from [first] *)
Fixpoint block_items_from (first : nat) (children : list Element) : list nat :=
  match children with
  | [] => []
  | child :: rest =>
      if is_block_item child then first :: block_items_from (S first) rest
      else block_items_from (S first) rest
  end.

Definition iter_block_items (self : Element) : list nat :=
  block_items_from O (children self).

Definition _new_p : Element := OxmlElement "w:p".

Definition _is_empty (self : Element) : result bool :=
  let block_items := iter_block_items self in
  if (1 <? length block_items)%nat then Ok false
  else
    match block_items with
    | [] => Raise (IndexError "list index out of range")
    | only_item :: _ =>
        let only_item := child_at self only_item in
        Ok (is_CT_P only_item && (length (CT_P.r_lst only_item) =? 0)%nat)
    end.

Definition _remove_trailing_empty_p (self : Element) : result Element :=
  match last (iter_block_items self) with
  | None => Raise (IndexError "list index out of range")
  | Some last_content_elm =>
      let p := child_at self last_content_elm in
      if negb (is_CT_P p) then Ok self
      else if (0 <? length (CT_P.r_lst p))%nat then Ok self
      else Ok (remove self last_content_elm)
  end.

(** [self.width and other_tc.width]: what is added to the width of this
    cell, if anything; the second operand is read only when the first is
    there and not zero. *)
Definition widths_to_add (self other_tc : Element) : result (option (Z * Z)) :=
  self_width ← width self;
  match self_width with
  | None => Ok None
  | Some self_width =>
      if self_width =? 0 then Ok None
      else
        other_width ← width other_tc;
        match other_width with
        | None => Ok None
        | Some other_width =>
            if other_width =? 0 then Ok None else Ok (Some (self_width, other_width))
        end
  end.

Definition _add_width_of (self other_tc : Element) : result Element :=
  widths ← widths_to_add self other_tc;
  match widths with
  | None => Ok self
  | Some (self_width, other_width) =>
      set_width self (Length.Length (self_width + other_width))
  end.

End CT_Tc_element.

(** *** [CT_Row] *)
Module CT_Row.

Definition trPr : _BaseChildElement := mk_BaseChildElement ZeroOrOne "w:trPr" [].

Definition tc_lst (self : Element) : list nat := findall_index self (qn "w:tc").

Definition grid_before (self : Element) : result Z :=
  match get_child_element trPr self with
  | None => Ok 0
  | Some trPr => CT_TrPr.grid_before (child_at self trPr)
  end.

(** The [for] loop of [tc_at_grid_offset]: [None] when the loop ends, by
    [break] or at the end of the cells, without returning. *)
Fixpoint tc_at_remaining_offset (self : Element) (tcs : list nat) (remaining_offset : Z)
    : result (option nat) :=
  match tcs with
  | [] => Ok None
  | tc :: rest =>
      if remaining_offset <? 0 then Ok None
      else if remaining_offset =? 0 then Ok (Some tc)
      else
        grid_span ← CT_Tc_element.grid_span (child_at self tc);
        tc_at_remaining_offset self rest (remaining_offset - grid_span)
  end.

Definition no_tc_at (grid_offset : Z) : exn :=
  ValueError (fmt1 "no `tc` element at grid_offset=" (str grid_offset) EmptyString).

Definition tc_at_grid_offset (self : Element) (grid_offset : Z) : result nat :=
  grid_before ← grid_before self;
  let remaining_offset := grid_offset - grid_before in
  found ← tc_at_remaining_offset self (tc_lst self) remaining_offset;
  match found with
  | Some tc => Ok tc
  | None => Raise (no_tc_at grid_offset)
  end.

End CT_Row.

(** *** [CT_Tbl] *)
Module CT_Tbl.

Definition tr_lst (self : Element) : list nat := findall_index self (qn "w:tr").

Definition with_attrs (nsptag : string) (attrs : list (string * string))
    (children : list Element) : Element :=
  mk_Element (qn nsptag) attrs children.

(** [_tcs_xml], [_trs_xml], [_tblGrid_xml] and [_tbl_xml], as the elements
    [parse_xml] makes of the text *)
Definition _tcs_xml (col_count : Z) (col_width : Z) : result (list Element) :=
  twips ← Length.twips col_width;
  Ok (replicate (Z.to_nat col_count)
        (with_attrs "w:tc" []
           [ with_attrs "w:tcPr" []
               [ with_attrs "w:tcW" [("w:type", "dxa"); ("w:w", str twips)]%string [] ];
             with_attrs "w:p" [] [] ])).

Definition _trs_xml (row_count col_count : Z) (col_width : Z) : result (list Element) :=
  tcs ← _tcs_xml col_count col_width;
  Ok (replicate (Z.to_nat row_count) (with_attrs "w:tr" [] tcs)).

(** The loop of [_tblGrid_xml] formats the width once for each column, so
    with no column it does not convert it. *)
Definition _tblGrid_xml (col_count : Z) (col_width : Z) : result Element :=
  if col_count <=? 0 then Ok (with_attrs "w:tblGrid" [] [])
  else
    twips ← Length.twips col_width;
    Ok (with_attrs "w:tblGrid" []
          (replicate (Z.to_nat col_count)
             (with_attrs "w:gridCol" [("w:w", str twips)]%string []))).

Definition new_tbl (rows cols : Z) (width : Z) : result Element :=
  let col_width := if cols >? 0 then Length.Emu (width / cols) else Length.Emu 0 in
  tblGrid ← _tblGrid_xml cols col_width;
  trs ← _trs_xml rows cols col_width;
  Ok (with_attrs "w:tbl" []
        ([ with_attrs "w:tblPr" []
             [ with_attrs "w:tblW" [("w:type", "auto"); ("w:w", "0")]%string [];
               with_attrs "w:tblLook"
                 [ ("w:firstColumn", "1"); ("w:firstRow", "1"); ("w:lastColumn", "0");
                   ("w:lastRow", "0"); ("w:noHBand", "0"); ("w:noVBand", "1");
                   ("w:val", "04A0") ]%string [] ];
           tblGrid ] ++ trs)).

End CT_Tbl.

(** *** [CT_Tc], the methods that look at the row and the table *)

(** A [w:tc] in a table: the position of its [w:tr] among the children of
    the [w:tbl], and its own position among the children of that [w:tr]. *)
Record address : Type := mk_address {
  tr_at : nat;
  tc_at : nat
}.

#[export] Instance address_eq_dec : EqDecision address.
Proof. solve_decision. Defined.

(** [l[i]] of a list *)
Definition list_getitem {A : Type} (l : list A) (i : Z) : result A :=
  let i := if i <? 0 then Z.of_nat (length l) + i else i in
  match (if i <? 0 then None else l !! Z.to_nat i) with
  | Some x => Ok x
  | None => Raise (IndexError "list index out of range")
  end.

Module CT_Tc.

(** [_tr]: the row of the cell *)
Definition _tr (tbl : Element) (self : address) : Element :=
  child_at tbl (tr_at self).

(** The element at an address, and the table with another element there *)
Definition element (tbl : Element) (self : address) : Element :=
  child_at (_tr tbl self) (tc_at self).

Definition put (tbl : Element) (self : address) (tc : Element) : Element :=
  replace tbl (tr_at self) (replace (_tr tbl self) (tc_at self) tc).

Definition _tr_idx (tbl : Element) (self : address) : result Z :=
  Z.of_nat <$> index_of (tr_at self) (CT_Tbl.tr_lst tbl).

(** [preceding-sibling::w:tr[1]] of the row *)
Definition _tr_above (tbl : Element) (self : address) : result nat :=
  match last (filter (fun tr => tr < tr_at self)%nat (CT_Tbl.tr_lst tbl)) with
  | Some tr => Ok tr
  | None => Raise (ValueError "no tr above topmost tr in w:tbl")
  end.

Definition _tr_below (tbl : Element) (self : address) : result (option nat) :=
  let tr_lst := CT_Tbl.tr_lst tbl in
  tr_idx ← index_of (tr_at self) tr_lst;
  Ok (tr_lst !! S tr_idx).

(** [grid_offset], which looks at the row only *)
Definition grid_offset_in (tr : Element) (tc : nat) : result Z :=
  grid_before ← CT_Row.grid_before tr;
  preceding_tc_grid_spans ←
    sum_of ((fun tc' => CT_Tc_element.grid_span (child_at tr tc'))
              <$> filter (fun tc' => tc' < tc)%nat (CT_Row.tc_lst tr)) 0;
  Ok (grid_before + preceding_tc_grid_spans).

Definition grid_offset (tbl : Element) (self : address) : result Z :=
  grid_offset_in (_tr tbl self) (tc_at self).

Definition left (tbl : Element) (self : address) : result Z :=
  grid_offset tbl self.

Definition right (tbl : Element) (self : address) : result Z :=
  grid_offset ← grid_offset tbl self;
  grid_span ← CT_Tc_element.grid_span (element tbl self);
  Ok (grid_offset + grid_span).

Definition _tc_above (tbl : Element) (self : address) : result address :=
  tr_above ← _tr_above tbl self;
  grid_offset ← grid_offset tbl self;
  tc ← CT_Row.tc_at_grid_offset (child_at tbl tr_above) grid_offset;
  Ok (mk_address tr_above tc).

Definition _tc_below (tbl : Element) (self : address) : result (option address) :=
  tr_below ← _tr_below tbl self;
  match tr_below with
  | None => Ok None
  | Some tr_below =>
      grid_offset ← grid_offset tbl self;
      tc ← CT_Row.tc_at_grid_offset (child_at tbl tr_below) grid_offset;
      Ok (Some (mk_address tr_below tc))
  end.

(** [_next_tc]: the first of [following-sibling::w:tc] *)
Definition _next_tc (tbl : Element) (self : address) : option address :=
  mk_address (tr_at self)
    <$> head (filter (fun tc => tc_at self < tc)%nat (CT_Row.tc_lst (_tr tbl self))).

Fixpoint top_fuel (fuel : nat) (tbl : Element) (self : address) : fueled Z :=
  match fuel with
  | O => None
  | S fuel =>
      do vMerge <- lift (CT_Tc_element.vMerge (element tbl self));
      if bool_decide (vMerge = None \/ vMerge = Some ST_Merge.RESTART) then
        lift (_tr_idx tbl self)
      else
        do tc_above <- lift (_tc_above tbl self);
        top_fuel fuel tbl tc_above
  end.

(** Each call of [top] is on a row above the one before. *)
Definition top (tbl : Element) (self : address) : fueled Z :=
  top_fuel (S (tr_at self)) tbl self.

Fixpoint bottom_fuel (fuel : nat) (tbl : Element) (self : address) : fueled Z :=
  match fuel with
  | O => None
  | S fuel =>
      do vMerge <- lift (CT_Tc_element.vMerge (element tbl self));
      do continued <-
        match vMerge with
        | None => lift (Ok None)
        | Some _ =>
            do tc_below <- lift (_tc_below tbl self);
            match tc_below with
            | None => lift (Ok None)
            | Some tc_below =>
                do vMerge_below <- lift (CT_Tc_element.vMerge (element tbl tc_below));
                if decide (vMerge_below = Some ST_Merge.CONTINUE)
                then lift (Ok (Some tc_below))
                else lift (Ok None)
            end
        end;
      match continued with
      | Some tc_below => bottom_fuel fuel tbl tc_below
      | None => do tr_idx <- lift (_tr_idx tbl self); lift (Ok (tr_idx + 1))
      end
  end.

(** Each call of [bottom] is on a row below the one before. *)
Definition bottom (tbl : Element) (self : address) : fueled Z :=
  bottom_fuel (S (length (children tbl))) tbl self.

(** [_move_content_to].  [other_tc.append(block_element)] moves the element
    out of this cell; the iteration has read the next child before it hands
    out one, so every block item is moved. *)
Definition _move_content_to (tbl : Element) (self other_tc : address) : result Element :=
  if decide (other_tc = self) then Ok tbl
  else
    is_empty ← CT_Tc_element._is_empty (element tbl self);
    if (is_empty : bool) then Ok tbl
    else
      other ← CT_Tc_element._remove_trailing_empty_p (element tbl other_tc);
      let tbl := put tbl other_tc other in
      let self_element := element tbl self in
      let block_items :=
        child_at self_element <$> CT_Tc_element.iter_block_items self_element in
      let tbl :=
        foldl (fun tbl block_element =>
                 put tbl other_tc (append (element tbl other_tc) block_element))
              tbl block_items in
      let self_element := element tbl self in
      let tbl :=
        put tbl self
          (set_children self_element
             (filter (fun child => CT_Tc_element.is_block_item child = false)
                     (children self_element))) in
      Ok (put tbl self (append (element tbl self) CT_Tc_element._new_p)).

(** [_remove]: [parent_element.remove(self)] *)
Definition _remove (tbl : Element) (self : address) : Element :=
  replace tbl (tr_at self) (remove (_tr tbl self) (tc_at self)).

Definition _swallow_next_tc (tbl : Element) (self : address) (grid_width : Z)
    (top_tc : address) : result Element :=
  match _next_tc tbl self with
  | None => Raise (InvalidSpanError "not enough grid columns")
  | Some next_tc =>
      grid_span ← CT_Tc_element.grid_span (element tbl self);
      next_grid_span ← CT_Tc_element.grid_span (element tbl next_tc);
      if grid_span + next_grid_span >? grid_width then
        Raise (InvalidSpanError "span is not rectangular")
      else
        tbl ← _move_content_to tbl next_tc top_tc;
        widened ← CT_Tc_element._add_width_of (element tbl self) (element tbl next_tc);
        let tbl := put tbl self widened in
        grid_span ← CT_Tc_element.grid_span (element tbl self);
        next_grid_span ← CT_Tc_element.grid_span (element tbl next_tc);
        spanned ← CT_Tc_element.set_grid_span (element tbl self)
                    (grid_span + next_grid_span);
        let tbl := put tbl self spanned in
        Ok (_remove tbl next_tc)
  end.

(** The [while] loop of [_span_to_width] *)
Fixpoint swallow_while (fuel : nat) (tbl : Element) (self : address) (grid_width : Z)
    (top_tc : address) : fueled Element :=
  match fuel with
  | O => None
  | S fuel =>
      do grid_span <- lift (CT_Tc_element.grid_span (element tbl self));
      if grid_span <? grid_width then
        do tbl <- lift (_swallow_next_tc tbl self grid_width top_tc);
        swallow_while fuel tbl self grid_width top_tc
      else lift (Ok tbl)
  end.

(** Each turn of the loop takes a cell out of the row. *)
Definition _span_to_width (tbl : Element) (self : address) (grid_width : Z)
    (top_tc : address) (vMerge : option string) : fueled Element :=
  do tbl <- lift (_move_content_to tbl self top_tc);
  do tbl <- swallow_while (S (length (children (_tr tbl self)))) tbl self grid_width top_tc;
  do merged <- lift (CT_Tc_element.set_vMerge (element tbl self) vMerge);
  lift (Ok (put tbl self merged)).

Fixpoint _grow_to_fuel (fuel : nat) (tbl : Element) (self : address) (width height : Z)
    (top_tc : option address) : fueled Element :=
  match fuel with
  | O => None
  | S fuel =>
      let top_tc := default self top_tc in
      let vMerge_val :=
        if decide (top_tc <> self) then Some ST_Merge.CONTINUE
        else if height =? 1 then None else Some ST_Merge.RESTART in
      do tbl <- _span_to_width tbl self width top_tc vMerge_val;
      if height >? 1 then
        do tc_below <- lift (_tc_below tbl self);
        match tc_below with
        | None => lift (Raise AssertionError)
        | Some tc_below => _grow_to_fuel fuel tbl tc_below width (height - 1) (Some top_tc)
        end
      else lift (Ok tbl)
  end.

(** Each call of [_grow_to] is with a [height] one less. *)
Definition _grow_to (tbl : Element) (self : address) (width height : Z)
    (top_tc : option address) : fueled Element :=
  _grow_to_fuel (S (Z.to_nat height)) tbl self width height top_tc.

Definition not_rectangular : exn := InvalidSpanError "requested span not rectangular".

Definition raise_on_inverted_L (tbl : Element) (a b : address) : fueled unit :=
  do a_top <- top tbl a;
  do b_top <- top tbl b;
  do _ <-
    (if a_top =? b_top then
       do a_bottom <- bottom tbl a;
       do b_bottom <- bottom tbl b;
       if negb (a_bottom =? b_bottom) then lift (Raise not_rectangular) else lift (Ok tt)
     else lift (Ok tt));
  do a_left <- lift (left tbl a);
  do b_left <- lift (left tbl b);
  if a_left =? b_left then
    do a_right <- lift (right tbl a);
    do b_right <- lift (right tbl b);
    if negb (a_right =? b_right) then lift (Raise not_rectangular) else lift (Ok tt)
  else lift (Ok tt).

Definition raise_on_tee_shaped (tbl : Element) (a b : address) : fueled unit :=
  do a_top <- top tbl a;
  do b_top <- top tbl b;
  let '(top_most, other) := if a_top <? b_top then (a, b) else (b, a) in
  do top_most_top <- top tbl top_most;
  do other_top <- top tbl other;
  do _ <-
    (if top_most_top <? other_top then
       do top_most_bottom <- bottom tbl top_most;
       do other_bottom <- bottom tbl other;
       if top_most_bottom >? other_bottom then lift (Raise not_rectangular)
       else lift (Ok tt)
     else lift (Ok tt));
  do a_left <- lift (left tbl a);
  do b_left <- lift (left tbl b);
  let '(left_most, other) := if a_left <? b_left then (a, b) else (b, a) in
  do left_most_left <- lift (left tbl left_most);
  do other_left <- lift (left tbl other);
  if left_most_left <? other_left then
    do left_most_right <- lift (right tbl left_most);
    do other_right <- lift (right tbl other);
    if left_most_right >? other_right then lift (Raise not_rectangular)
    else lift (Ok tt)
  else lift (Ok tt).

Definition _span_dimensions (tbl : Element) (self other_tc : address)
    : fueled (Z * Z * Z * Z) :=
  do _ <- raise_on_inverted_L tbl self other_tc;
  do _ <- raise_on_tee_shaped tbl self other_tc;
  do self_top <- top tbl self;
  do other_top <- top tbl other_tc;
  let top := Z.min self_top other_top in
  do self_left <- lift (left tbl self);
  do other_left <- lift (left tbl other_tc);
  let left := Z.min self_left other_left in
  do self_bottom <- bottom tbl self;
  do other_bottom <- bottom tbl other_tc;
  let bottom := Z.max self_bottom other_bottom in
  do self_right <- lift (right tbl self);
  do other_right <- lift (right tbl other_tc);
  let right := Z.max self_right other_right in
  lift (Ok (top, left, bottom - top, right - left)).

(** [merge]: the top-left cell of the span and the table after the merge *)
Definition merge (tbl : Element) (self other_tc : address) : fueled (address * Element) :=
  do (top, left, height, width) <- _span_dimensions tbl self other_tc;
  do tr <- lift (list_getitem (CT_Tbl.tr_lst tbl) top);
  do tc <- lift (CT_Row.tc_at_grid_offset (child_at tbl tr) left);
  let top_tc := mk_address tr tc in
  do tbl <- _grow_to tbl top_tc width height None;
  lift (Ok (top_tc, tbl)).

End CT_Tc.

(** *** The grid spans of the cells of a row, as the theorems speak of them *)

Definition span_of (tr : Element) (tc : nat) : result Z :=
  CT_Tc_element.grid_span (child_at tr tc).

Definition readable (tr : Element) (tcs : list nat) : Prop :=
  Forall (fun tc => is_ok (span_of tr tc)) tcs.

Definition spans_not_negative (tr : Element) (tcs : list nat) : Prop :=
  Forall (fun tc => exists s, span_of tr tc = Ok s /\ 0 <= s) tcs.

(** The cell that starts at a grid column of a row of the table, found the
    way [merge] finds the top-left cell of the span. *)
Definition cell_at (tbl : Element) (row_idx col_idx : Z) : result address :=
  tr ← list_getitem (CT_Tbl.tr_lst tbl) row_idx;
  tc ← CT_Row.tc_at_grid_offset (child_at tbl tr) col_idx;
  Ok (mk_address tr tc).

(** *** The extent of a cell, and the shapes of two extents that
    [_span_dimensions] turns down *)

Record extent : Type := mk_extent {
  extent_top : Z;
  extent_left : Z;
  extent_bottom : Z;
  extent_right : Z
}.

Definition extent_of (tbl : Element) (self : address) (e : extent) : Prop :=
  CT_Tc.top tbl self = Some (Ok (extent_top e)) /\
  CT_Tc.left tbl self = Ok (extent_left e) /\
  CT_Tc.bottom tbl self = Some (Ok (extent_bottom e)) /\
  CT_Tc.right tbl self = Ok (extent_right e).

(** The same top with different bottoms, or the same left with different
    rights *)
Definition inverted_L (a b : extent) : Prop :=
  (extent_top a = extent_top b /\ extent_bottom a <> extent_bottom b) \/
  (extent_left a = extent_left b /\ extent_right a <> extent_right b).

(** One starts before the other and ends after it, on either axis *)
Definition tee_shaped (a b : extent) : Prop :=
  (extent_top a < extent_top b /\ extent_bottom b < extent_bottom a) \/
  (extent_top b < extent_top a /\ extent_bottom a < extent_bottom b) \/
  (extent_left a < extent_left b /\ extent_right b < extent_right a) \/
  (extent_left b < extent_left a /\ extent_right a < extent_right b).

(** *** Rows and tables written out, for the examples *)

Module Examples.

(** [<w:tc><w:p/></w:tc>] *)
Definition tc_plain : Element :=
  CT_Tbl.with_attrs "w:tc" [] [CT_Tbl.with_attrs "w:p" [] []].

(** [<w:tc><w:tcPr><w:gridSpan w:val=.../></w:tcPr><w:p/></w:tc>] *)
Definition tc_spanning (val : string) : Element :=
  CT_Tbl.with_attrs "w:tc" []
    [ CT_Tbl.with_attrs "w:tcPr" []
        [ CT_Tbl.with_attrs "w:gridSpan" [("w:val"%string, val)] [] ];
      CT_Tbl.with_attrs "w:p" [] [] ].

(** [<w:tc><w:tcPr><w:gridSpan/></w:tcPr><w:p/></w:tc>], the required
    attribute missing *)
Definition tc_span_unreadable : Element :=
  CT_Tbl.with_attrs "w:tc" []
    [ CT_Tbl.with_attrs "w:tcPr" [] [ CT_Tbl.with_attrs "w:gridSpan" [] [] ];
      CT_Tbl.with_attrs "w:p" [] [] ].

Definition tr_of (tcs : list Element) : Element := CT_Tbl.with_attrs "w:tr" [] tcs.

(** The cell [_tcs_xml] writes, [w] its width in twips as text *)
Definition tc_of_width (w : string) : Element :=
  CT_Tbl.with_attrs "w:tc" []
    [ CT_Tbl.with_attrs "w:tcPr" []
        [ CT_Tbl.with_attrs "w:tcW" [("w:type", "dxa"); ("w:w", w)]%string [] ];
      CT_Tbl.with_attrs "w:p" [] [] ].

(** The table [_tbl_xml] writes for three rows and three columns *)
Definition tbl_3x3 (w : string) : Element :=
  CT_Tbl.with_attrs "w:tbl" []
    ([ CT_Tbl.with_attrs "w:tblPr" []
         [ CT_Tbl.with_attrs "w:tblW" [("w:type", "auto"); ("w:w", "0")]%string [];
           CT_Tbl.with_attrs "w:tblLook"
             [ ("w:firstColumn", "1"); ("w:firstRow", "1"); ("w:lastColumn", "0");
               ("w:lastRow", "0"); ("w:noHBand", "0"); ("w:noVBand", "1");
               ("w:val", "04A0") ]%string [] ];
       CT_Tbl.with_attrs "w:tblGrid" []
         (replicate 3 (CT_Tbl.with_attrs "w:gridCol" [("w:w"%string, w)] [])) ]
     ++ replicate 3 (tr_of (replicate 3 (tc_of_width w)))).

Definition tbl_of (trs : list Element) : Element :=
  CT_Tbl.with_attrs "w:tbl" []
    ([ CT_Tbl.with_attrs "w:tblPr" [] []; CT_Tbl.with_attrs "w:tblGrid" [] [] ] ++ trs).

(** A row of a cell two columns wide and two cells one column wide *)
Definition row_2_1_1 : Element := tr_of [tc_spanning "2"; tc_plain; tc_plain].

(** A row whose second cell has the grid span [-1] *)
Definition row_negative_span : Element :=
  tr_of [tc_spanning "2"; tc_spanning "-1"; tc_plain].

Definition row_unreadable_span : Element := tr_of [tc_span_unreadable; tc_plain].

(** Two rows over three grid columns: a cell two columns wide at column 0
    and a cell at column 2, over three cells one column wide *)
Definition tbl_wide_first : Element :=
  tbl_of [ tr_of [tc_spanning "2"; tc_plain]; tr_of [tc_plain; tc_plain; tc_plain] ].

(** Two rows over three grid columns: a cell at column 0 and a cell two
    columns wide at column 1, over three cells one column wide *)
Definition tbl_wide_second : Element :=
  tbl_of [ tr_of [tc_plain; tc_spanning "2"]; tr_of [tc_plain; tc_plain; tc_plain] ].

End Examples.

End Table.

(* ===================================================================== *)
(** * Part I, continued: the code around the functions above             *)
(* ===================================================================== *)

(** ** docx/opc/part.py and docx/opc/package.py: the relationships of a
    part *)

Module PartRels.
Import Rel.

(** [Relationships.related_parts] *)
Definition related_parts (self : Relationships) : list (string * Part) :=
  _target_parts_by_rId self.

(** [related_parts] and the collection agree: the dict holds exactly the
    internal relationships, each rId with its target part. *)
Definition in_step (rels : Relationships) : Prop :=
  forall rId part,
    OrderedDict.getitem rId (related_parts rels) = Some part <->
    exists rel, OrderedDict.getitem rId (items rels) = Some rel /\
                _target rel = Internal part.

(** [Part.load_rel] and [OpcPackage.load_rel], on the [rels] of the source *)
Definition load_rel (rels : Relationships) (reltype : string) (target : Target)
    (rId : string) : _Relationship * Relationships :=
  add_relationship rels reltype target rId.

(** [Part.relate_to], on the [rels] of the part: the rId and the collection
    after the call.  [OpcPackage.relate_to] is the branch of an internal
    target. *)
Definition relate_to (rels : Relationships) (target : Target) (reltype : string)
    : option (string * Relationships) :=
  match target with
  | External target_ref => get_or_add_ext_rel rels reltype target_ref
  | Internal part =>
      match get_or_add rels reltype part with
      | Some (rel, rels') => Some (rId rel, rels')
      | None => None
      end
  end.

(** [del self.rels[rId]]: the dict loses the key; the parts by rId are a
    second dict, which [del] does not touch. *)
Definition del_rel (rels : Relationships) (rId : string) : result Relationships :=
  if OrderedDict.contains rId (items rels) then
    Ok (mk_Relationships (OrderedDict.delitem rId (items rels)) (baseURI rels)
                         (_target_parts_by_rId rels))
  else Raise (KeyError rId).

(** [Part.drop_rel]; [_rel_ref_count] is what the part counts for the rId,
    0 for a [Part] that is not an [XmlPart]. *)
Definition drop_rel (rels : Relationships) (_rel_ref_count : Z) (rId : string)
    : result Relationships :=
  if _rel_ref_count <? 2 then del_rel rels rId else Ok rels.

(** [XmlPart._rel_ref_count]: the [r:id] attributes of the whole tree of the
    part that hold [rId] *)
Fixpoint r_ids (e : Oxml.Element) : list string :=
  match Oxml.get e (Oxml.qn "r:id") with
  | Some v => [v]
  | None => []
  end ++ flat_map r_ids (Oxml.children e).

Definition _rel_ref_count (element : Oxml.Element) (rId : string) : Z :=
  Z.of_nat (length (filter (fun _rId => _rId = rId) (r_ids element))).

(** The relationship collections that [relate_to] makes of a new one *)
Inductive related_by_relate_to (baseURI : string) : Relationships -> Prop :=
| related_new : related_by_relate_to baseURI (new_Relationships baseURI)
| related_step rels target reltype rId rels' :
    related_by_relate_to baseURI rels ->
    relate_to rels target reltype = Some (rId, rels') ->
    related_by_relate_to baseURI rels'.

End PartRels.

(** ** docx/opc/packuri.py: the constructor of [PackURI] *)

Module Packuri.

(** [PackURI.__new__]: [pack_uri_str[0]] is an [IndexError] on the empty
    string. *)
Definition new (pack_uri_str : string) : result string :=
  match pack_uri_str with
  | EmptyString => Raise (IndexError "string index out of range")
  | String c _ =>
      if negb (bool_decide (c = "/"%char)) then
        Raise (ValueError (fmt1 "PackURI must begin with slash, got '" pack_uri_str "'"))
      else Ok pack_uri_str
  end.

(** [membername]: [self[1:]] *)
Definition membername (self : string) : string := PackURI.drop_str 1 self.

End Packuri.

(** ** docx/opc/package.py: [OpcPackage.next_partname] *)

Module NextPartname.
Import Rel Package.

(** A printf-style template with a single [%d] replacement item: the text
    before it and the text after it. *)
Record template : Type := mk_template {
  before : string;
  after : string
}.

(** [template % n] for [n] of [range(1, ...)] *)
Definition format (tmpl : template) (n : nat) : string :=
  fmt1 (before tmpl) (pretty n) (after tmpl).

Section NextPartname.

(** [part.partname] of each part object *)
Variable partname : Part -> string.

(** [next_partname]: [Ok None] is the implicit [return None] after the
    loop. *)
Definition next_partname (fuel : nat) (self : OpcPackage) (tmpl : template)
    : fueled (option string) :=
  match iter_parts fuel self with
  | None => None
  | Some parts =>
      let partnames : gset string := list_to_set (partname <$> parts) in
      match List.find (fun candidate_partname =>
                         negb (bool_decide (candidate_partname ∈ partnames)))
                      (map (format tmpl) (seq 1 (size partnames + 1))) with
      | Some candidate_partname => Some (Some <$> Packuri.new candidate_partname)
      | None => Some (Ok None)
      end
  end.

End NextPartname.
End NextPartname.

(** ** docx/opc/oxml.py: the elements of [[Content_Types].xml] and of a
    [.rels] item

    [parse_xml] of ['<Default xmlns="..."/>'] is a loose element of that
    tag in the namespace; tags are kept in prefixed form as above. *)

Module OpcOxml.
Import Oxml.

Module CT_Default.
Definition content_type (self : Element) : option string := get self "ContentType".
Definition extension (self : Element) : option string := get self "Extension".
Definition new (ext content_type : string) : Element :=
  let default := OxmlElement "ct:Default" in
  let default := set default "Extension" ext in
  set default "ContentType" content_type.
End CT_Default.

Module CT_Override.
Definition content_type (self : Element) : option string := get self "ContentType".
Definition new (partname content_type : string) : Element :=
  let override := OxmlElement "ct:Override" in
  let override := set override "PartName" partname in
  set override "ContentType" content_type.
Definition partname (self : Element) : option string := get self "PartName".
End CT_Override.

(** [RELATIONSHIP_TARGET_MODE] *)
Module RTM.
Definition EXTERNAL : string := "External".
Definition INTERNAL : string := "Internal".
End RTM.

Module CT_Relationship.
Definition new (rId reltype target target_mode : string) : Element :=
  let relationship := OxmlElement "pr:Relationship" in
  let relationship := set relationship "Id" rId in
  let relationship := set relationship "Type" reltype in
  let relationship := set relationship "Target" target in
  if bool_decide (target_mode = RTM.EXTERNAL)
  then set relationship "TargetMode" RTM.EXTERNAL
  else relationship.
Definition rId (self : Element) : option string := get self "Id".
Definition reltype (self : Element) : option string := get self "Type".
Definition target_ref (self : Element) : option string := get self "Target".
(** [self.get("TargetMode", RTM.INTERNAL)] *)
Definition target_mode (self : Element) : string :=
  default RTM.INTERNAL (get self "TargetMode").
End CT_Relationship.

Module CT_Relationships.
Definition add_rel (self : Element) (rId reltype target : string) (is_external : bool)
    : Element :=
  let target_mode := if is_external then RTM.EXTERNAL else RTM.INTERNAL in
  let relationship := CT_Relationship.new rId reltype target target_mode in
  append self relationship.
Definition new : Element := OxmlElement "pr:Relationships".
Definition Relationship_lst (self : Element) : list Element :=
  findall self (qn "pr:Relationship").
End CT_Relationships.

Module CT_Types.
Definition add_default (self : Element) (ext content_type : string) : Element :=
  let default := CT_Default.new ext content_type in
  append self default.
Definition add_override (self : Element) (partname content_type : string) : Element :=
  let override := CT_Override.new partname content_type in
  append self override.
Definition defaults (self : Element) : list Element := findall self (qn "ct:Default").
Definition new : Element := OxmlElement "ct:Types".
Definition overrides (self : Element) : list Element := findall self (qn "ct:Override").
End CT_Types.

End OpcOxml.

(** ** docx/opc/spec.py and docx/opc/pkgwriter.py: the content types item
    the writer composes *)

Module Spec.

Definition default_content_types : list (string * string) :=
  [ ("bin", "application/vnd.openxmlformats-officedocument.presentationml.printerSettings");
    ("bin", "application/vnd.openxmlformats-officedocument.spreadsheetml.printerSettings");
    ("bin", "application/vnd.openxmlformats-officedocument.wordprocessingml.printerSettings");
    ("bmp", "image/bmp");
    ("emf", "image/x-emf");
    ("fntdata", "application/x-fontdata");
    ("gif", "image/gif");
    ("jpe", "image/jpeg");
    ("jpeg", "image/jpeg");
    ("jpg", "image/jpeg");
    ("png", "image/png");
    ("rels", "application/vnd.openxmlformats-package.relationships+xml");
    ("tif", "image/tiff");
    ("tiff", "image/tiff");
    ("wdp", "image/vnd.ms-photo");
    ("wmf", "image/x-wmf");
    ("xlsx", "application/vnd.openxmlformats-officedocument.spreadsheetml.sheet");
    ("xml", "application/xml") ]%string.

End Spec.

(** [sorted] on a list of [str]: ascending in the order of [str], which
    compares character by character.  The keys of a dict are distinct, so
    the result does not depend on the sorting algorithm. *)
Definition str_le (a b : string) : Prop := String.leb a b = true.

#[export] Instance str_le_dec : RelDecision str_le.
Proof. intros a b. unfold str_le. apply _. Defined.

Definition sorted (l : list string) : list string := merge_sort str_le l.

Module PkgWriter.
Import Oxml OpcOxml.
Section PkgWriter.

(** [str.lower] *)
Variable lower : string -> string.

(** [_defaults] is a [CaseInsensitiveDict], [_overrides] a plain dict *)
Record _ContentTypesItem : Type := mk_ContentTypesItem {
  _defaults : gmap string string;
  _overrides : gmap string string
}.

Definition new_ContentTypesItem : _ContentTypesItem := mk_ContentTypesItem ∅ ∅.

Definition _add_content_type (self : _ContentTypesItem) (partname content_type : string)
    : _ContentTypesItem :=
  let ext := PackURI.ext partname in
  if bool_decide ((lower ext, content_type) ∈ Spec.default_content_types) then
    mk_ContentTypesItem (ContentTypes.cid_setitem lower ext content_type (_defaults self))
                        (_overrides self)
  else
    mk_ContentTypesItem (_defaults self) (<[partname := content_type]> (_overrides self)).

(** [from_parts]; a part is given by what its [partname] and
    [content_type] properties return. *)
Definition from_parts (parts : list (string * string)) : _ContentTypesItem :=
  let cti := new_ContentTypesItem in
  let cti := mk_ContentTypesItem
               (ContentTypes.cid_setitem lower "rels"
                  "application/vnd.openxmlformats-package.relationships+xml" (_defaults cti))
               (_overrides cti) in
  let cti := mk_ContentTypesItem
               (ContentTypes.cid_setitem lower "xml" "application/xml" (_defaults cti))
               (_overrides cti) in
  foldl (fun cti part => _add_content_type cti (fst part) (snd part)) cti parts.

(** A part goes to the defaults when its extension, lowered, and its
    content type are a pair of [default_content_types]. *)
Definition is_default (part : string * string) : Prop :=
  (lower (PackURI.ext (fst part)), snd part) ∈ Spec.default_content_types.

(** No two parts have partnames that are equal up to case. *)
Definition distinct_up_to_case (parts : list (string * string)) : Prop :=
  forall p1 p2, p1 ∈ parts -> p2 ∈ parts -> lower (fst p1) = lower (fst p2) -> p1 = p2.

(** The parts of extension [bin] whose content type is one of its defaults
    have the same content type. *)
Definition bin_agree (parts : list (string * string)) : Prop :=
  forall p1 p2, p1 ∈ parts -> p2 ∈ parts ->
    lower (PackURI.ext (fst p1)) = "bin"%string ->
    lower (PackURI.ext (fst p2)) = "bin"%string ->
    ("bin"%string, snd p1) ∈ Spec.default_content_types ->
    ("bin"%string, snd p2) ∈ Spec.default_content_types ->
    snd p1 = snd p2.

(** What [from_parts] leaves in the two dicts *)
Record composed (parts : list (string * string)) (cti : _ContentTypesItem) : Prop := {
  overrides_sound : forall pn ct,
    _overrides cti !! pn = Some ct -> (pn, ct) ∈ parts /\ ~ is_default (pn, ct);
  overrides_complete : forall p,
    p ∈ parts -> ~ is_default p -> _overrides cti !! fst p = Some (snd p);
  defaults_lowered : forall k v, _defaults cti !! k = Some v -> lower k = k;
  defaults_complete : forall p,
    p ∈ parts -> is_default p -> _defaults cti !! lower (PackURI.ext (fst p)) = Some (snd p)
}.

(** The [(key, value)] pairs that the loops of [_element] write, for the
    keys in the order they are gone through *)
Definition pairs_of (d : gmap string string) (ks : list string) : list (string * string) :=
  omap (fun k => pair k <$> d !! k) ks.

(** [d.keys()] of a dict whose order of keys is not recorded *)
Definition keys (d : gmap string string) : list string := fst <$> map_to_list d.

(** [d[key]] on the plain dict *)
Definition dict_getitem (key : string) (d : gmap string string) : result string :=
  match d !! key with
  | Some value => Ok value
  | None => Raise (KeyError key)
  end.

(** The two loops of [_element] *)
Fixpoint add_defaults (self : _ContentTypesItem) (_types_elm : Element) (exts : list string)
    : result Element :=
  match exts with
  | [] => Ok _types_elm
  | ext :: exts' =>
      content_type ← ContentTypes.cid_getitem lower ext (_defaults self);
      add_defaults self (CT_Types.add_default _types_elm ext content_type) exts'
  end.

Fixpoint add_overrides (self : _ContentTypesItem) (_types_elm : Element)
    (partnames : list string) : result Element :=
  match partnames with
  | [] => Ok _types_elm
  | partname :: partnames' =>
      content_type ← dict_getitem partname (_overrides self);
      add_overrides self (CT_Types.add_override _types_elm partname content_type) partnames'
  end.

Definition _element (self : _ContentTypesItem) : result Element :=
  let _types_elm := CT_Types.new in
  _types_elm ← add_defaults self _types_elm (sorted (keys (_defaults self)));
  add_overrides self _types_elm (sorted (keys (_overrides self))).

(** [_ContentTypeMap.from_xml] of docx/opc/pkgreader.py on the parsed
    [<Types>] element.  [None] is an [<Override>] or [<Default>] child that
    lacks one of its two attributes, whose getter then answers [None]: as a
    key that is an [AttributeError] at [key.lower()], as a content type it
    is stored as it is. *)
Definition attr_pairs (key value : Element -> option string) (elms : list Element)
    : option (list (string * string)) :=
  mapM (fun elm => k ← key elm; v ← value elm; Some (k, v)) elms.

Definition from_xml_element (types_elm : Element) : option ContentTypes._ContentTypeMap :=
  overrides ← attr_pairs CT_Override.partname CT_Override.content_type
                         (CT_Types.overrides types_elm);
  defaults ← attr_pairs CT_Default.extension CT_Default.content_type
                        (CT_Types.defaults types_elm);
  Some (ContentTypes.from_xml lower overrides defaults).

End PkgWriter.
End PkgWriter.

(** ** docx/opc/rel.py and docx/opc/pkgreader.py: a relationships item,
    written and read *)

Module RelsItem.
Import Rel Oxml OpcOxml.
Section RelsItem.

(** [part.partname] of each part object, and [PackURI.relative_ref], a
    [posixpath] computation on the partname and the base URI *)
Variable partname : Part -> string.
Variable relative_ref : string -> string -> string.

(** [_Relationship.target_ref] *)
Definition target_ref (self : _Relationship) : string :=
  match _target self with
  | External ref => ref
  | Internal target => relative_ref (partname target) (_baseURI self)
  end.

(** [Relationships.xml], before serialization *)
Definition xml_element (self : Relationships) : Element :=
  let rels_elm := CT_Relationships.new in
  foldl (fun rels_elm rel =>
           CT_Relationships.add_rel rels_elm (rId rel) (reltype rel) (target_ref rel)
                                    (is_external rel))
        rels_elm (OrderedDict.values (items self)).

(** [_SerializedRelationship.__init__]; [None] is an attribute [Id], [Type]
    or [Target] that is absent, for which the object holds [None]. *)
Definition new_SerializedRelationship (baseURI : string) (rel_elm : Element)
    : option PkgReader._SerializedRelationship :=
  _rId ← CT_Relationship.rId rel_elm;
  _reltype ← CT_Relationship.reltype rel_elm;
  _target_ref ← CT_Relationship.target_ref rel_elm;
  Some (PkgReader.mk_SerializedRelationship baseURI _rId _reltype
          (CT_Relationship.target_mode rel_elm) _target_ref).

(** [_SerializedRelationships.load_from_xml] on the parsed element, [None]
    for [rels_item_xml is None] *)
Definition load_from_xml (baseURI : string) (rels_elm : option Element)
    : option (list PkgReader._SerializedRelationship) :=
  match rels_elm with
  | None => Some []
  | Some rels_elm =>
      mapM (new_SerializedRelationship baseURI) (CT_Relationships.Relationship_lst rels_elm)
  end.

End RelsItem.
End RelsItem.

(** ** docx/oxml/xmlchemy.py: [ZeroOrOneChoice] and its [Choice]s, and the
    getter of [OneAndOnlyOne] *)

Module ChoiceGroup.
Import Oxml.

(** A [ZeroOrOneChoice]: the tag names of its [choices], in their order,
    and its [successors], which [populate_class_members] hands to each
    choice. *)
Record ZeroOrOneChoice : Type := mk_ZeroOrOneChoice {
  _member_nsptagnames : list string;
  _successors : list string
}.

(** The choice of [nsptagname] once the group has populated it *)
Definition choice (group : ZeroOrOneChoice) (nsptagname : string) : _BaseChildElement :=
  mk_BaseChildElement Choice nsptagname (_successors group).

(** [get_group_member_element] of [_choice_getter] *)
Definition get_group_member_element (group : ZeroOrOneChoice) (obj : Element) : option nat :=
  first_child_found_in obj (_member_nsptagnames group).

(** [_remove_choice_group] of [_add_group_remover] *)
Definition _remove_choice_group (group : ZeroOrOneChoice) (obj : Element) : Element :=
  foldl remove_all obj (_member_nsptagnames group).

(** [get_or_change_to_child] of [_add_get_or_change_to_method] *)
Definition get_or_change_to_child (group : ZeroOrOneChoice) (nsptagname : string)
    (obj : Element) : nat * Element :=
  match get_child_element (choice group nsptagname) obj with
  | Some child => (child, obj)
  | None =>
      let obj := _remove_choice_group group obj in
      _add_child (choice group nsptagname) obj
  end.

(** [get_child_element] of [OneAndOnlyOne._getter] *)
Definition required_child_element (nsptagname : string) (obj : Element) : result nat :=
  match find_index (qn nsptagname) (children obj) with
  | None =>
      Raise (InvalidXmlError
               (fmt1 "required ``<" nsptagname ">`` child element not present"))
  | Some child => Ok child
  end.

End ChoiceGroup.

(** ** docx/oxml/simpletypes.py: more of the simple types *)

Module SimpleTypesMore.
Import SimpleTypes.

Module XsdLong.
Definition validate (value : Z) : result unit :=
  validate_int_in_range value (-9223372036854775808) 9223372036854775807.
Definition from_xml (xml_value : string) : result Z :=
  BaseIntType.convert_from_xml xml_value.
Definition to_xml (value : Z) : result string :=
  _ ← validate value; Ok (BaseIntType.convert_to_xml value).
End XsdLong.

Module XsdUnsignedInt.
Definition validate (value : Z) : result unit :=
  validate_int_in_range value 0 4294967295.
Definition from_xml (xml_value : string) : result Z :=
  BaseIntType.convert_from_xml xml_value.
Definition to_xml (value : Z) : result string :=
  _ ← validate value; Ok (BaseIntType.convert_to_xml value).
End XsdUnsignedInt.

Module XsdUnsignedLong.
Definition validate (value : Z) : result unit :=
  validate_int_in_range value 0 18446744073709551615.
Definition from_xml (xml_value : string) : result Z :=
  BaseIntType.convert_from_xml xml_value.
Definition to_xml (value : Z) : result string :=
  _ ← validate value; Ok (BaseIntType.convert_to_xml value).
End XsdUnsignedLong.

(** [validate] of [XsdBoolean] passes for a [bool]. *)
Module XsdBoolean.
Definition convert_from_xml (str_value : string) : result bool :=
  if negb (bool_decide (str_value ∈ ["1"; "0"; "true"; "false"]%string)) then
    Raise (InvalidXmlError
             (fmt1 "value must be one of '1', '0', 'true' or 'false', got '" str_value "'"))
  else Ok (bool_decide (str_value ∈ ["1"; "true"]%string)).
Definition convert_to_xml (value : bool) : string := if value then "1" else "0".
Definition from_xml (xml_value : string) : result bool := convert_from_xml xml_value.
Definition to_xml (value : bool) : result string := Ok (convert_to_xml value).
End XsdBoolean.

Module ST_OnOff.
Definition convert_from_xml (str_value : string) : result bool :=
  if negb (bool_decide (str_value ∈ ["1"; "0"; "true"; "false"; "on"; "off"]%string)) then
    Raise (InvalidXmlError
             (fmt1 "value must be one of '1', '0', 'true', 'false', 'on', or 'off', got '"
                   str_value "'"))
  else Ok (bool_decide (str_value ∈ ["1"; "true"; "on"]%string)).
Definition from_xml (xml_value : string) : result bool := convert_from_xml xml_value.
Definition to_xml (value : bool) : result string := Ok (XsdBoolean.convert_to_xml value).
End ST_OnOff.

(** An integer type reads back what it writes: a value of the range is
    written as its decimal text, which reads back as the value; a value
    outside the range is refused. *)
Definition int_type_reads_back (lo hi : Z) (to_xml : Z -> result string)
    (from_xml : string -> result Z) : Prop :=
  forall value,
    (lo <= value <= hi ->
       to_xml value = Ok (str value) /\ from_xml (str value) = Ok value) /\
    (~ (lo <= value <= hi) -> exists msg, to_xml value = Raise (ValueError msg)).

End SimpleTypesMore.

(** ** docx/shared.py: [RGBColor], and [ST_HexColor] of
    docx/oxml/simpletypes.py *)

Module Color.
Import SimpleTypes.

(** The hexadecimal digits of a number, upper case, most significant
    first; [fuel] bounds the number of digits. *)
Definition hex_digit (d : Z) : ascii :=
  if d <? 10 then ascii_of_nat (Z.to_nat (48 + d)) else ascii_of_nat (Z.to_nat (55 + d)).

Fixpoint hex_digits (fuel : nat) (n : Z) (acc : string) : string :=
  match fuel with
  | O => acc
  | S fuel =>
      let acc := String (hex_digit (n mod 16)) acc in
      if n / 16 =? 0 then acc else hex_digits fuel (n / 16) acc
  end.

(** ["%02X" % value]: upper-case hexadecimal, padded with zeros to two
    characters, the sign counting as one. *)
Definition format_02X (value : Z) : string :=
  let digits := hex_digits (S (Z.to_nat (Z.log2 (Z.abs value)))) (Z.abs value) EmptyString in
  if value <? 0 then "-" +:+ digits
  else if (String.length digits <? 2)%nat then "0" +:+ digits else digits.

(** [int(s, 16)] on ASCII: white space around, one sign, an optional [0x]
    prefix, hexadecimal digits with single underscores between them (one may
    follow the prefix). *)
Definition hex_value (c : ascii) : option Z :=
  let n := Z.of_nat (nat_of_ascii c) in
  if (48 <=? n) && (n <=? 57) then Some (n - 48)
  else if (65 <=? n) && (n <=? 70) then Some (n - 55)
  else if (97 <=? n) && (n <=? 102) then Some (n - 87)
  else None.

Fixpoint more_hex_digits (s : list ascii) (value : Z) (after_underscore : bool) : option Z :=
  match s with
  | [] => if after_underscore then None else Some value
  | c :: rest =>
      if decide (c = "_"%char) then
        if after_underscore then None else more_hex_digits rest value true
      else
        match hex_value c with
        | Some d => more_hex_digits rest (16 * value + d) false
        | None => None
        end
  end.

Definition hex_number (s : list ascii) : option Z :=
  match s with
  | [] => None
  | c :: rest =>
      match hex_value c with
      | Some d => more_hex_digits rest d false
      | None => None
      end
  end.

Definition prefixed_hex_number (s : list ascii) : option Z :=
  match s with
  | "0"%char :: x :: rest =>
      if bool_decide (x = "x"%char \/ x = "X"%char) then
        match rest with
        | "_"%char :: rest' => hex_number rest'
        | _ => hex_number rest
        end
      else hex_number s
  | _ => hex_number s
  end.

Definition int16 (s : string) : result Z :=
  let signed :=
    match strip (list_ascii_of_string s) with
    | "+"%char :: rest => prefixed_hex_number rest
    | "-"%char :: rest => Z.opp <$> prefixed_hex_number rest
    | rest => prefixed_hex_number rest
    end in
  match signed with
  | Some value => Ok value
  | None => Raise (ValueError (fmt1 "invalid literal for int() with base 16: '" s "'"))
  end.

(** A value that is written in two characters which read back as the
    value *)
Definition byte_reads_back (n : nat) : bool :=
  match int16 (format_02X (Z.of_nat n)) with
  | Ok value => (value =? Z.of_nat n) && (String.length (format_02X (Z.of_nat n)) =? 2)%nat
  | Raise _ => false
  end.

(** [RGBColor], a tuple of three [int]s *)
Definition RGBColor : Type := Z * Z * Z.

Definition new (r g b : Z) : result RGBColor :=
  let msg := "RGBColor() takes three integer values 0-255"%string in
  if existsb (fun val => (val <? 0) || (val >? 255)) [r; g; b]
  then Raise (ValueError msg)
  else Ok (r, g, b).

(** [__str__] *)
Definition to_str (self : RGBColor) : string :=
  let '(r, g, b) := self in format_02X r +:+ format_02X g +:+ format_02X b.

Definition from_string (rgb_hex_str : string) : result RGBColor :=
  r ← int16 (PackURI.take_str 2 rgb_hex_str);
  g ← int16 (PackURI.take_str 2 (PackURI.drop_str 2 rgb_hex_str));
  b ← int16 (PackURI.drop_str 4 rgb_hex_str);
  new r g b.

(** [ST_HexColor]: what [from_xml] answers with is the string ["auto"] or a
    color. *)
Module ST_HexColor.
Definition convert_from_xml (str_value : string) : result (string + RGBColor) :=
  if bool_decide (str_value = "auto"%string) then Ok (inl "auto"%string)
  else inr <$> from_string str_value.
Definition convert_to_xml (value : RGBColor) : string := to_str value.
Definition from_xml (xml_value : string) : result (string + RGBColor) :=
  convert_from_xml xml_value.
Definition to_xml (value : RGBColor) : result string := Ok (convert_to_xml value).
End ST_HexColor.

End Color.

(** ** docx/oxml/table.py and docx/table.py: the cells of a table, as
    [Table.cell] hands them out *)

Module TableCells.
Import Oxml SimpleTypes Table.

(** [CT_Tbl.col_count]: [len(self.tblGrid.gridCol_lst)], [tblGrid] being a
    required child *)
Definition col_count (tbl : Element) : result Z :=
  tblGrid ← ChoiceGroup.required_child_element "w:tblGrid" tbl;
  Ok (Z.of_nat (length (findall_index (child_at tbl tblGrid) (qn "w:gridCol")))).

(** [CT_Tbl.iter_tcs] *)
Definition iter_tcs (tbl : Element) : list address :=
  flat_map (fun tr => mk_address tr <$> CT_Row.tc_lst (child_at tbl tr)) (CT_Tbl.tr_lst tbl).

(** [range(n)] *)
Definition range (n : Z) : list Z := Z.of_nat <$> seq 0 (Z.to_nat n).

(** The inner loop of [Table._cells].  A [_Cell] is known by the [w:tc] it
    is the proxy of, so a list of cells is the list of the addresses of
    their [w:tc]s. *)
Fixpoint cells_of_tc (tbl : Element) (col_count : Z) (tc : address) (idxs : list Z)
    (cells : list address) : result (list address) :=
  match idxs with
  | [] => Ok cells
  | grid_span_idx :: idxs' =>
      vMerge ← CT_Tc_element.vMerge (CT_Tc.element tbl tc);
      cells ←
        (if decide (vMerge = Some ST_Merge.CONTINUE) then
           cell ← list_getitem cells (- col_count); Ok (cells ++ [cell])
         else if grid_span_idx >? 0 then
           cell ← list_getitem cells (-1); Ok (cells ++ [cell])
         else Ok (cells ++ [tc]));
      cells_of_tc tbl col_count tc idxs' cells
  end.

Fixpoint cells_of_tcs (tbl : Element) (col_count : Z) (tcs : list address)
    (cells : list address) : result (list address) :=
  match tcs with
  | [] => Ok cells
  | tc :: tcs' =>
      grid_span ← CT_Tc_element.grid_span (CT_Tc.element tbl tc);
      cells ← cells_of_tc tbl col_count tc (range grid_span) cells;
      cells_of_tcs tbl col_count tcs' cells
  end.

(** [Table._cells] *)
Definition _cells (tbl : Element) : result (list address) :=
  col_count ← col_count tbl;
  cells_of_tcs tbl col_count (iter_tcs tbl) [].

(** [Table.cell] *)
Definition cell (tbl : Element) (row_idx col_idx : Z) : result address :=
  _column_count ← col_count tbl;
  let cell_idx := col_idx + (row_idx * _column_count) in
  cells ← _cells tbl;
  list_getitem cells cell_idx.

End TableCells.

(** ** [posixpath], as far as [PackURI] uses it, and the rest of
    docx/opc/packuri.py

    The functions of [posixpath] are those of the Python library, on [str]
    paths. *)

Module Posixpath.

(** [s.startswith(prefix)] and [s.endswith("/")] *)
Definition startswith (prefix s : string) : bool := String.prefix prefix s.

Fixpoint endswith_sep (s : string) : bool :=
  match s with
  | EmptyString => false
  | String c EmptyString => bool_decide (c = "/"%char)
  | String _ s' => endswith_sep s'
  end.

(** [s.split("/")] *)
Fixpoint split_sep (s : string) : list string :=
  match s with
  | EmptyString => [EmptyString]
  | String c s' =>
      if decide (c = "/"%char) then EmptyString :: split_sep s'
      else
        match split_sep s' with
        | comp :: comps => String c comp :: comps
        | [] => [String c EmptyString]
        end
  end.

(** ["/".join(comps)] *)
Fixpoint join_sep (comps : list string) : string :=
  match comps with
  | [] => EmptyString
  | [comp] => comp
  | comp :: comps' => comp +:+ "/" +:+ join_sep comps'
  end.

(** [s.rstrip("/")] *)
Fixpoint rstrip_sep (s : string) : string :=
  match s with
  | EmptyString => EmptyString
  | String c s' =>
      match rstrip_sep s' with
      | EmptyString => if decide (c = "/"%char) then EmptyString else String c EmptyString
      | rest => String c rest
      end
  end.

(** [posixpath.split(p)]; [head != sep*len(head)] is: something is left
    of [head] when its slashes at the end are taken off. *)
Definition split (p : string) : string * string :=
  let i := Z.to_nat (PackURI.rfind "/"%char p + 1) in
  let head := PackURI.take_str i p in
  let tail := PackURI.drop_str i p in
  let head :=
    if negb (bool_decide (head = EmptyString)) && negb (bool_decide (rstrip_sep head = EmptyString))
    then rstrip_sep head else head in
  (head, tail).

(** One step of [posixpath.join(a, *p)], for the next [b] of [p] *)
Definition join_step (path b : string) : string :=
  if startswith "/" b then b
  else if bool_decide (path = EmptyString) || endswith_sep path then path +:+ b
  else path +:+ "/" +:+ b.

Definition join (a : string) (p : list string) : string := foldl join_step a p.

(** The loop of [posixpath.normpath] over the components *)
Definition normpath_step (initial_slashes : nat) (new_comps : list string) (comp : string)
    : list string :=
  if bool_decide (comp ∈ [EmptyString; "."%string]) then new_comps
  else if negb (bool_decide (comp = ".."%string))
          || (bool_decide (initial_slashes = O) && bool_decide (new_comps = []))
          || (negb (bool_decide (new_comps = []))
              && bool_decide (last new_comps = Some ".."%string))
  then new_comps ++ [comp]
  else if negb (bool_decide (new_comps = [])) then removelast new_comps
  else new_comps.

Definition normpath (path : string) : string :=
  if bool_decide (path = EmptyString) then "."%string
  else
    let initial_slashes :=
      if startswith "/" path then
        if startswith "//" path && negb (startswith "///" path) then 2%nat else 1%nat
      else O in
    let comps := split_sep path in
    let new_comps := foldl (normpath_step initial_slashes) [] comps in
    let path := join_sep new_comps in
    let path :=
      match initial_slashes with
      | O => path
      | 1%nat => "/" +:+ path
      | _ => "//" +:+ path
      end in
    if bool_decide (path = EmptyString) then "."%string else path.

(** [posixpath.commonprefix] of two lists of components: the prefix the
    smaller and the larger of the two have in common, which is the prefix
    the two have in common. *)
Fixpoint commonprefix (s1 s2 : list string) : list string :=
  match s1, s2 with
  | c1 :: s1', c2 :: s2' => if decide (c1 = c2) then c1 :: commonprefix s1' s2' else []
  | _, _ => []
  end.

(** A path component that is a name: not empty, not [.] or [..], and
    without a slash. *)
Definition plain_name (comp : string) : Prop :=
  comp <> EmptyString /\ comp <> "."%string /\ comp <> ".."%string /\
  split_sep comp = [comp].

(** The components [join] and [relpath] put together: names and [..] *)
Definition joinable (c : string) : Prop :=
  c <> EmptyString /\ startswith "/" c = false /\ endswith_sep c = false.

(** The absolute path of the names [comps], a normalized one *)
Definition abs_path_of (comps : list string) : string := "/" +:+ join_sep comps.

Section Cwd.

(** [os.getcwd()] *)
Variable cwd : string.

Definition abspath (path : string) : string :=
  let path := if negb (startswith "/" path) then join cwd [path] else path in
  normpath path.

(** [posixpath.relpath(path, start)] *)
Definition relpath (path start : string) : result string :=
  if bool_decide (path = EmptyString) then Raise (ValueError "no path specified")
  else
    let start_list :=
      filter (fun x => x <> EmptyString) (split_sep (abspath start)) in
    let path_list :=
      filter (fun x => x <> EmptyString) (split_sep (abspath path)) in
    let i := length (commonprefix start_list path_list) in
    let rel_list := replicate (length start_list - i) ".."%string ++ drop i path_list in
    match rel_list with
    | [] => Ok "."%string
    | a :: p => Ok (join a p)
    end.

End Cwd.
End Posixpath.

Module PackURIMethods.
Section PackURIMethods.
Variable cwd : string.

Definition from_rel_ref (baseURI relative_ref : string) : result string :=
  let joined_uri := Posixpath.join baseURI [relative_ref] in
  let abs_uri := Posixpath.abspath cwd joined_uri in
  Packuri.new abs_uri.

Definition baseURI (self : string) : string := fst (Posixpath.split self).

Definition filename (self : string) : string := snd (Posixpath.split self).

Definition relative_ref (self baseURI : string) : result string :=
  if bool_decide (baseURI = "/"%string) then Ok (PackURI.drop_str 1 self)
  else Posixpath.relpath cwd self baseURI.

Definition rels_uri (self : string) : result string :=
  let rels_filename := fmt1 EmptyString (filename self) ".rels" in
  let rels_uri_str := Posixpath.join (baseURI self) ["_rels"%string; rels_filename] in
  Packuri.new rels_uri_str.

End PackURIMethods.
End PackURIMethods.

(** ** docx/table.py: [Table.add_row] and [Table.add_column] *)

Module TableGrow.
Import Oxml SimpleTypes Table.

Section TableGrow.

(** [ST_UniversalMeasure.convert_from_xml], which reads a measure with its
    unit through [float] *)
Variable ST_UniversalMeasure_convert_from_xml : string -> result Z.

(** ["i" in s] *)
Fixpoint has_char (c : ascii) (s : string) : bool :=
  match s with
  | EmptyString => false
  | String a s' => bool_decide (a = c) || has_char c s'
  end.

(** [ST_TwipsMeasure] *)
Definition ST_TwipsMeasure_convert_from_xml (str_value : string) : result Z :=
  if has_char "i" str_value || has_char "m" str_value || has_char "p" str_value
  then ST_UniversalMeasure_convert_from_xml str_value
  else value ← int str_value; Ok (Length.Twips value).

Definition ST_TwipsMeasure_convert_to_xml (value : Z) : result string :=
  let emu := Length.Emu value in
  twips ← Length.twips emu;
  Ok (str twips).

Definition ST_TwipsMeasure_to_xml (value : Z) : result string :=
  _ ← validate_int_in_range value 0 18446744073709551615;
  ST_TwipsMeasure_convert_to_xml value.

(** [CT_TblGridCol.w] *)
Definition gridCol_w : Element -> result (option Z) :=
  Attribute.optional_get_attr_value "w:w" ST_TwipsMeasure_convert_from_xml None.

Definition set_gridCol_w : Element -> option Z -> result Element :=
  Attribute.optional_set_attr_value "w:w" ST_TwipsMeasure_to_xml None.

(** The descriptors [tr] of [CT_Tbl], [tc] of [CT_Row] and [gridCol] of
    [CT_TblGrid] *)
Definition tr : _BaseChildElement := mk_BaseChildElement ZeroOrMore "w:tr" [].
Definition tc : _BaseChildElement := mk_BaseChildElement ZeroOrMore "w:tc" [].
Definition gridCol : _BaseChildElement :=
  mk_BaseChildElement ZeroOrMore "w:gridCol" ["w:tblGridChange"%string].

(** [CT_Tc.new()], which is [_new_tc] of a row *)
Definition CT_Tc_new : Element :=
  CT_Tbl.with_attrs "w:tc" [] [CT_Tbl.with_attrs "w:p" [] []].

(** [add_tr], [add_gridCol]: the position of the new child and the parent
    with it; [add_tc] likewise, with the new cell of [_new_tc] *)
Definition add_tr (tbl : Element) : nat * Element := _add_child tr tbl.
Definition add_gridCol (tblGrid : Element) : nat * Element := _add_child gridCol tblGrid.
Definition add_tc (row : Element) : nat * Element :=
  (inserted_at tc row, _insert_child tc row CT_Tc_new).

(** A width, if any, of a whole number of twips that [XsdInt] holds *)
Definition whole_twips (w : option Z) : Prop :=
  match w with
  | None => True
  | Some width => exists twips, width = 635 * twips /\ 0 <= twips <= 2147483647
  end.

(** The cell [add_row] makes for a column of that width *)
Definition row_cell (w : option Z) : Element :=
  match w with
  | None => CT_Tc_new
  | Some width => Examples.tc_of_width (str (width / 635))
  end.

(** The loop of [add_row] over the grid columns; [tr_at] is the position
    of the new row. *)
Fixpoint add_row_cells (tbl : Element) (tblGrid : Element) (tr_at : nat)
    (gridCol_lst : list nat) : result Element :=
  match gridCol_lst with
  | [] => Ok tbl
  | gridCol :: rest =>
      let '(tc, row) := add_tc (child_at tbl tr_at) in
      let tbl := replace tbl tr_at row in
      w ← gridCol_w (child_at tblGrid gridCol);
      tbl ←
        match w with
        | None => Ok tbl
        | Some w =>
            cell ← CT_Tc_element.set_width (child_at row tc) w;
            Ok (CT_Tc.put tbl (mk_address tr_at tc) cell)
        end;
      add_row_cells tbl tblGrid tr_at rest
  end.

(** [Table.add_row]: the position of the new row and the table after *)
Definition add_row (tbl : Element) : result (nat * Element) :=
  let '(tr, tbl) := add_tr tbl in
  tblGrid ← ChoiceGroup.required_child_element "w:tblGrid" tbl;
  let tblGrid_element := child_at tbl tblGrid in
  tbl ← add_row_cells tbl tblGrid_element tr
          (findall_index tblGrid_element (qn "w:gridCol"));
  Ok (tr, tbl).

(** The loop of [add_column] over the rows *)
Fixpoint add_column_cells (tbl : Element) (width : Z) (tr_lst : list nat) : result Element :=
  match tr_lst with
  | [] => Ok tbl
  | tr :: rest =>
      let '(tc, row) := add_tc (child_at tbl tr) in
      cell ← CT_Tc_element.set_width (child_at row tc) width;
      let tbl := replace tbl tr (replace row tc cell) in
      add_column_cells tbl width rest
  end.

(** [Table.add_column]: the position of the new [w:gridCol] in the
    [w:tblGrid] and the table after *)
Definition add_column (tbl : Element) (width : Z) : result (nat * Element) :=
  tblGrid ← ChoiceGroup.required_child_element "w:tblGrid" tbl;
  let '(gridCol, tblGrid_element) := add_gridCol (child_at tbl tblGrid) in
  gridCol_element ← set_gridCol_w (child_at tblGrid_element gridCol) (Some width);
  let tbl := replace tbl tblGrid (replace tblGrid_element gridCol gridCol_element) in
  tbl ← add_column_cells tbl width (CT_Tbl.tr_lst tbl);
  Ok (gridCol, tbl).

End TableGrow.
End TableGrow.

(** ** docx/oxml/table.py: the table [new_tbl] makes, and the table a merge
    of a rectangle of its cells leaves *)

Module MergedTable.
Import Oxml SimpleTypes Table.

(** The [w:vMerge] child of the [w:tcPr] of a cell with that vertical
    merge: [continue] is the default of [w:val] and is not written. *)
Definition vMerge_children (vMerge : option string) : list Element :=
  match vMerge with
  | None => []
  | Some val =>
      [ CT_Tbl.with_attrs "w:vMerge"
          (if decide (val = ST_Merge.CONTINUE) then [] else [("w:val"%string, val)]) [] ]
  end.

(** The values [CT_Tc.vMerge] takes *)
Definition merge_value (vMerge : option string) : Prop :=
  vMerge = None \/ vMerge = Some ST_Merge.RESTART \/ vMerge = Some ST_Merge.CONTINUE.

(** [<w:tc><w:tcPr><w:tcW w:type="dxa" w:w=.../><w:gridSpan w:val=.../>
    <w:vMerge w:val=.../></w:tcPr><w:p/></w:tc>], the [w:gridSpan] there for
    a span above 1 and the [w:vMerge] for a vertical merge *)
Definition tc_spanned (twips grid_span : Z) (vMerge : option string) : Element :=
  CT_Tbl.with_attrs "w:tc" []
    [ CT_Tbl.with_attrs "w:tcPr" []
        (CT_Tbl.with_attrs "w:tcW" [("w:type", "dxa"); ("w:w", str twips)]%string []
         :: (if grid_span >? 1
             then [CT_Tbl.with_attrs "w:gridSpan" [("w:val"%string, str grid_span)] []]
             else [])
         ++ vMerge_children vMerge);
      CT_Tbl.with_attrs "w:p" [] [] ].

Section MergedTable.

(** The width of a column in twips and the count of columns *)
Variables (twips : Z) (cols : nat).

Definition tc_new : Element := Examples.tc_of_width (str twips).

Definition tr_new : Element := Examples.tr_of (replicate cols tc_new).

(** The row with [before] cells, then a cell over [grid_span] columns,
    then [after] cells *)
Definition tr_spanned (before grid_span after : nat) (vMerge : option string) : Element :=
  Examples.tr_of
    (replicate before tc_new
     ++ tc_spanned (Z.of_nat grid_span * twips) (Z.of_nat grid_span) vMerge
        :: replicate after tc_new).

(** The table of [_tbl_xml] with these rows *)
Definition tbl_of_rows (rows : list Element) : Element :=
  CT_Tbl.with_attrs "w:tbl" []
    (CT_Tbl.with_attrs "w:tblPr" []
       [ CT_Tbl.with_attrs "w:tblW" [("w:type", "auto"); ("w:w", "0")]%string [];
         CT_Tbl.with_attrs "w:tblLook"
           [ ("w:firstColumn", "1"); ("w:firstRow", "1"); ("w:lastColumn", "0");
             ("w:lastRow", "0"); ("w:noHBand", "0"); ("w:noVBand", "1");
             ("w:val", "04A0") ]%string [] ]
     :: CT_Tbl.with_attrs "w:tblGrid" []
          (replicate cols (CT_Tbl.with_attrs "w:gridCol" [("w:w"%string, str twips)] []))
     :: rows).

Definition tbl_new (rows : nat) : Element := tbl_of_rows (replicate rows tr_new).

(** The rows of the new table after the cells of [height] rows from row
    [top] and [width] columns from column [left] are merged *)
Definition rows_merged (rows top left height width : nat) : list Element :=
  replicate top tr_new
  ++ tr_spanned left width (cols - left - width)
       (if (height =? 1)%nat then None else Some ST_Merge.RESTART)
     :: replicate (height - 1)
          (tr_spanned left width (cols - left - width) (Some ST_Merge.CONTINUE))
  ++ replicate (rows - top - height) tr_new.

Definition tbl_merged (rows top left height width : nat) : Element :=
  tbl_of_rows (rows_merged rows top left height width).

(** The cell that stands for row [r] and grid column [c] of that table:
    the cell at the top left of the span for the places of the span, and
    the own cell of the place elsewhere, which in a row of the span and
    after it has moved left by the cells taken in. *)
Definition cell_of_merged (top left height width r c : nat) : address :=
  if decide ((top <= r < top + height)%nat /\ (left <= c < left + width)%nat)
  then mk_address (S (S top)) left
  else if decide ((top <= r < top + height)%nat /\ (left + width <= c)%nat)
       then mk_address (S (S r)) (c + 1 - width)
       else mk_address (S (S r)) c.

(** The cells of row [r] of that table as [Table._cells] lists them, one
    for each grid column: the cell at the top left of the span stands for
    the grid columns of the span. *)
Definition row_cells_merged (top left height width r : nat) : list address :=
  if decide (top <= r < top + height)%nat then
    (mk_address (S (S r)) <$> seq 0 left)
    ++ replicate width (mk_address (S (S top)) left)
    ++ (mk_address (S (S r)) <$> seq (S left) (cols - left - width))
  else mk_address (S (S r)) <$> seq 0 cols.

End MergedTable.

End MergedTable.

(* ===================================================================== *)
(** * Part II: lemmas and theorems                                         *)
(* ===================================================================== *)


(** ** Relationship collections *)

Module RelFacts.
Import Rel.

(** *** Facts on [List.find] and on ordered dicts *)

Lemma find_first {A : Type} (f : A -> bool) (l : list A) (x : A) :
  List.find f l = Some x ->
  exists l1 l2, l = l1 ++ x :: l2 /\ f x = true /\ Forall (fun y => f y = false) l1.
Proof.
  induction l as [|a l IH]; simpl; [discriminate|].
  destruct (f a) eqn:Ha.
  - intros [= ->]. exists [], l. auto.
  - intros Hx. destruct (IH Hx) as (l1 & l2 & -> & Hfx & Hl1).
    exists (a :: l1), l2. auto.
Qed.

Lemma find_app_skip {A : Type} (f : A -> bool) (l1 l2 : list A) :
  Forall (fun y => f y = false) l1 -> List.find f (l1 ++ l2) = List.find f l2.
Proof.
  induction 1 as [|a l1 Ha _ IH]; simpl; [reflexivity|]. now rewrite Ha.
Qed.

Lemma find_none_iff {A : Type} (f : A -> bool) (l : list A) :
  List.find f l = None <-> Forall (fun y => f y = false) l.
Proof.
  induction l as [|a l IH]; simpl.
  - split; auto.
  - destruct (f a) eqn:Ha; split.
    + discriminate.
    + intros H. apply Forall_cons_1 in H as [H _]. congruence.
    + intros H. constructor; [assumption|]. now apply IH.
    + intros H. apply Forall_cons_1 in H as [_ H]. now apply IH.
Qed.

Lemma setitem_fresh {V : Type} (key : string) (value : V) (d : list (string * V)) :
  key ∉ OrderedDict.keys d -> OrderedDict.setitem key value d = d ++ [(key, value)].
Proof.
  induction d as [|[k v] d IH]; simpl; [reflexivity|].
  intros Hk. apply not_elem_of_cons in Hk as [Hne Hk].
  destruct (decide (k = key)) as [->|_]; [congruence|]. now rewrite IH.
Qed.

Lemma rId_candidate_inj : Inj (=) (=) rId_candidate.
Proof.
  intros n m H. unfold rId_candidate in H.
  apply (inj (String.app "rId")) in H. now apply (inj pretty) in H.
Qed.

Lemma rId_candidates_NoDup (start len : nat) :
  NoDup (map rId_candidate (seq start len)).
Proof.
  apply (NoDup_fmap_2 rId_candidate). apply NoDup_ListNoDup, seq_NoDup.
Qed.

(** Some candidate in [range(1, len + 2)] is free: there are [len + 1]
    distinct candidates and only [len] keys. *)
Lemma free_candidate_exists (keys : list string) :
  exists n, (1 <= n <= length keys + 1)%nat /\ rId_candidate n ∉ keys.
Proof.
  destruct (decide (Forall (fun c => c ∈ keys)
              (map rId_candidate (seq 1 (length keys + 1))))) as [Hall|Hnot].
  - exfalso.
    assert (Hsub : map rId_candidate (seq 1 (length keys + 1)) ⊆+ keys).
    { apply NoDup_submseteq; [apply rId_candidates_NoDup|].
      intros x Hx. rewrite Forall_forall in Hall. now apply Hall. }
    apply submseteq_length in Hsub.
    rewrite length_map, length_seq in Hsub. lia.
  - apply not_Forall_Exists in Hnot; [|intros c; apply _].
    apply Exists_exists in Hnot as (c & Hc & Hfree).
    apply list_elem_of_fmap in Hc as (n & -> & Hn).
    apply elem_of_seq in Hn. exists n. split; [lia|assumption].
Qed.

Lemma find_map_seq_first {A : Type} (f : A -> bool) (g : nat -> A) (a len : nat) (c : A) :
  List.find f (map g (seq a len)) = Some c ->
  exists n, c = g n /\ (a <= n < a + len)%nat /\ f (g n) = true /\
            forall m, (a <= m < n)%nat -> f (g m) = false.
Proof.
  revert a. induction len as [|len IH]; intros a; simpl; [discriminate|].
  destruct (f (g a)) eqn:Ha.
  - intros [= <-]. exists a. repeat split; [lia|lia|assumption|lia].
  - intros Hc. destruct (IH _ Hc) as (n & -> & Hn & Hfn & Hmin).
    exists n. repeat split; [lia|lia|assumption|].
    intros m Hm. destruct (decide (m = a)) as [->|Hne]; [assumption|].
    apply Hmin. lia.
Qed.

(** The loop of [_next_rId] returns the first free candidate. *)
Lemma next_rId_spec (self : Relationships) :
  exists n,
    _next_rId self = Some (rId_candidate n) /\
    (1 <= n <= OrderedDict.len (items self) + 1)%nat /\
    (rId_candidate n ∉ OrderedDict.keys (items self)) /\
    (forall m, (1 <= m < n)%nat -> rId_candidate m ∈ OrderedDict.keys (items self)).
Proof.
  unfold _next_rId, OrderedDict.len, OrderedDict.contains.
  set (ks := OrderedDict.keys (items self)).
  assert (Hlen : length (items self) = length ks)
    by (unfold ks, OrderedDict.keys; now rewrite length_map).
  rewrite Hlen.
  destruct (List.find _ _) as [c|] eqn:Hfind.
  - apply find_map_seq_first in Hfind as (n & -> & Hn & Hfree & Hmin).
    apply negb_true_iff, bool_decide_eq_false in Hfree.
    exists n. split; [reflexivity|]. split; [lia|]. split; [assumption|].
    intros m Hm. specialize (Hmin m Hm).
    now apply negb_false_iff, bool_decide_eq_true in Hmin.
  - exfalso. apply find_none_iff in Hfind.
    destruct (free_candidate_exists ks) as (n & Hn & Hfree).
    rewrite Forall_forall in Hfind.
    specialize (Hfind (rId_candidate n)).
    rewrite negb_false_iff, bool_decide_eq_true in Hfind.
    apply Hfree, Hfind. apply list_elem_of_fmap. exists n. split; [reflexivity|].
    apply elem_of_seq. lia.
Qed.

(** *** The dict invariant of a collection

    Every collection is built from [new_Relationships] by [add_relationship]
    (and [del]): its keys are distinct, as in any dict, and each
    relationship is stored under its own [rId]. *)

Lemma keys_setitem {V : Type} (key : string) (value : V) (d : list (string * V)) :
  key ∈ OrderedDict.keys d ->
  OrderedDict.keys (OrderedDict.setitem key value d) = OrderedDict.keys d.
Proof.
  induction d as [|[k v] d IH]; simpl; intros Hk.
  - now apply elem_of_nil in Hk.
  - destruct (decide (k = key)) as [->|Hne]; [reflexivity|]. simpl.
    apply elem_of_cons in Hk as [->|Hk]; [congruence|]. now rewrite IH.
Qed.

Lemma setitem_Forall {V : Type} (P : string * V -> Prop) key value (d : list (string * V)) :
  Forall P d -> P (key, value) -> Forall P (OrderedDict.setitem key value d).
Proof.
  induction 1 as [|[k v] d Hkv Hd IH]; simpl; intros Hnew.
  - now constructor.
  - destruct (decide (k = key)); constructor; auto.
Qed.

Lemma add_relationship_well_formed self reltype target rId' :
  well_formed self -> well_formed (snd (add_relationship self reltype target rId')).
Proof.
  intros [Hnd Hid]. unfold add_relationship. simpl. split; simpl.
  - destruct (decide (rId' ∈ OrderedDict.keys (items self))) as [Hin|Hout].
    + now rewrite keys_setitem.
    + rewrite setitem_fresh by assumption. unfold OrderedDict.keys.
      rewrite map_app. simpl. apply NoDup_app. split; [assumption|].
      split; [|apply NoDup_singleton].
      intros x Hx Hx'. apply list_elem_of_singleton in Hx'. now subst.
  - now apply setitem_Forall.
Qed.

Lemma new_Relationships_well_formed baseURI : well_formed (new_Relationships baseURI).
Proof. split; simpl; constructor. Qed.

Lemma NoDup_keys_functional {V : Type} (d : list (string * V)) k (x y : V) :
  NoDup (OrderedDict.keys d) -> (k, x) ∈ d -> (k, y) ∈ d -> x = y.
Proof.
  induction d as [|[k' v'] d IH]; simpl; intros Hnd Hx Hy.
  - now apply elem_of_nil in Hx.
  - apply NoDup_cons in Hnd as [Hk' Hnd].
    assert (Hkey : forall z, (k', z) ∈ d -> False).
    { intros z Hz. apply Hk'. apply list_elem_of_fmap. now exists (k', z). }
    apply elem_of_cons in Hx as [Hx|Hx]; apply elem_of_cons in Hy as [Hy|Hy].
    + congruence.
    + injection Hx as -> ->. now destruct (Hkey y).
    + injection Hy as -> ->. now destruct (Hkey x).
    + now apply IH.
Qed.

(** Two entries of a well-formed collection with the same [rId] are one. *)
Lemma well_formed_rId_inj self rel1 rel2 :
  well_formed self ->
  rel1 ∈ OrderedDict.values (items self) ->
  rel2 ∈ OrderedDict.values (items self) ->
  rId rel1 = rId rel2 -> rel1 = rel2.
Proof.
  intros [Hnd Hid] H1 H2 Heq.
  apply list_elem_of_fmap in H1 as ([k1 r1] & -> & H1).
  apply list_elem_of_fmap in H2 as ([k2 r2] & -> & H2).
  simpl in *. rewrite Forall_forall in Hid.
  pose proof (Hid _ H1) as E1. pose proof (Hid _ H2) as E2. simpl in *.
  assert (Hk : k1 = k2) by congruence. rewrite <- Hk in H2.
  exact (NoDup_keys_functional (items self) k1 r1 r2 Hnd H1 H2).
Qed.

(** *** [_get_matching], [get_or_add] and [get_or_add_ext_rel] *)

Lemma matches_spec rel reltype' target is_external' :
  matches rel reltype' target is_external' = true <->
  reltype rel = reltype' /\ is_external rel = is_external' /\ _target rel = target.
Proof.
  unfold matches. repeat case_bool_decide; simpl; intuition congruence.
Qed.

Lemma get_matching_Some self reltype' target is_external' rel :
  _get_matching self reltype' target is_external' = Some rel ->
  rel ∈ OrderedDict.values (items self) /\
  reltype rel = reltype' /\ is_external rel = is_external' /\ _target rel = target.
Proof.
  unfold _get_matching. intros H.
  apply find_first in H as (l1 & l2 & Hsplit & Hm & _).
  split; [|now apply matches_spec].
  rewrite Hsplit. apply elem_of_app. right. left.
Qed.

Lemma add_relationship_fresh self reltype' target rId' :
  rId' ∉ OrderedDict.keys (items self) ->
  let '(rel, self') := add_relationship self reltype' target rId' in
  rel = mk_Relationship rId' reltype' target (baseURI self) /\
  items self' = items self ++ [(rId', rel)].
Proof.
  intros Hfresh. unfold add_relationship. simpl.
  split; [reflexivity|]. now apply setitem_fresh.
Qed.

Lemma get_or_add_added self reltype' part :
  exists rel self',
    get_or_add self reltype' part = Some (rel, self') /\
    added self reltype' (Internal part) rel self' /\
    is_external rel = false.
Proof.
  unfold get_or_add.
  destruct (_get_matching self reltype' (Internal part) false) as [rel|] eqn:Hm.
  - exists rel, self. pose proof (get_matching_Some _ _ _ _ _ Hm) as (_ & _ & Hext & _).
    split; [reflexivity|]. split; [|assumption].
    apply was_present; [now rewrite Hext|reflexivity].
  - destruct (next_rId_spec self) as (n & Hnext & _ & Hfree & _).
    rewrite Hnext.
    pose proof (add_relationship_fresh self reltype' (Internal part) _ Hfree) as Hadd.
    destruct (add_relationship self reltype' (Internal part) (rId_candidate n))
      as [rel self'] eqn:Hcall.
    destruct Hadd as [Hrel Hitems].
    exists rel, self'. split; [reflexivity|].
    assert (Hid : rId rel = rId_candidate n) by now subst rel.
    assert (Hext : is_external rel = false) by now subst rel.
    split; [|assumption].
    apply newly_added; rewrite ?Hext, ?Hid; solve [assumption | symmetry; assumption].
Qed.

Lemma get_or_add_ext_rel_added self reltype' ref :
  exists rel self',
    get_or_add_ext_rel self reltype' ref = Some (rId rel, self') /\
    added self reltype' (External ref) rel self' /\
    is_external rel = true.
Proof.
  unfold get_or_add_ext_rel.
  destruct (_get_matching self reltype' (External ref) true) as [rel|] eqn:Hm.
  - exists rel, self. pose proof (get_matching_Some _ _ _ _ _ Hm) as (_ & _ & Hext & _).
    split; [reflexivity|]. split; [|assumption].
    apply was_present; [now rewrite Hext|reflexivity].
  - destruct (next_rId_spec self) as (n & Hnext & _ & Hfree & _).
    rewrite Hnext.
    pose proof (add_relationship_fresh self reltype' (External ref) _ Hfree) as Hadd.
    destruct (add_relationship self reltype' (External ref) (rId_candidate n))
      as [rel self'] eqn:Hcall.
    destruct Hadd as [Hrel Hitems].
    exists rel, self'. split; [reflexivity|].
    assert (Hid : rId rel = rId_candidate n) by now subst rel.
    assert (Hext : is_external rel = true) by now subst rel.
    split; [|assumption].
    apply newly_added; rewrite ?Hext, ?Hid; solve [assumption | symmetry; assumption].
Qed.

(** After the call the relationship is the one a second lookup finds. *)
Lemma added_then_matching self reltype' target rel self' :
  added self reltype' target rel self' ->
  _target rel = target /\ reltype rel = reltype' /\
  rel ∈ OrderedDict.values (items self') /\
  _get_matching self' reltype' target (is_external rel) = Some rel /\
  (length (items self') <= length (items self) + 1)%nat.
Proof.
  intros [Hm ->|Hm Hnext Hfresh Hrel Hitems].
  - pose proof (get_matching_Some _ _ _ _ _ Hm) as (Hin & Hrt & _ & Htgt).
    repeat split; try assumption. lia.
  - assert (Htgt : _target rel = target) by (rewrite Hrel; reflexivity).
    assert (Hrt : reltype rel = reltype') by (rewrite Hrel; reflexivity).
    repeat split; try assumption.
    + rewrite Hitems. unfold OrderedDict.values. rewrite map_app.
      apply elem_of_app. right. simpl. left.
    + unfold _get_matching in *. rewrite Hitems.
      unfold OrderedDict.values in *. rewrite map_app. simpl.
      apply find_none_iff in Hm. rewrite find_app_skip by assumption.
      simpl. assert (Hself : matches rel reltype' target (is_external rel) = true)
        by now apply matches_spec.
      now rewrite Hself.
    + rewrite Hitems, length_app. simpl. lia.
Qed.

Lemma added_well_formed self reltype' target rel self' :
  well_formed self -> added self reltype' target rel self' -> well_formed self'.
Proof.
  intros Hwf [Hm ->|Hm Hnext Hfresh Hrel Hitems]; [assumption|].
  destruct Hwf as [Hnd Hid]. split.
  - rewrite Hitems. unfold OrderedDict.keys in *. rewrite map_app. simpl.
    apply NoDup_app. split; [assumption|]. split; [|apply NoDup_singleton].
    intros x Hx Hx'. apply list_elem_of_singleton in Hx'. now subst.
  - rewrite Hitems. apply Forall_app. split; [assumption|].
    constructor; [reflexivity|constructor].
Qed.

Lemma added_rId_key self reltype' target rel self' :
  well_formed self -> added self reltype' target rel self' ->
  rId rel ∈ OrderedDict.keys (items self').
Proof.
  intros Hwf Hadd.
  pose proof (added_well_formed _ _ _ _ _ Hwf Hadd) as [_ Hid'].
  pose proof (added_then_matching _ _ _ _ _ Hadd) as (_ & _ & Hin & _).
  apply list_elem_of_fmap in Hin as ([k r] & -> & Hin).
  rewrite Forall_forall in Hid'. pose proof (Hid' _ Hin) as E. simpl in *.
  rewrite E. apply list_elem_of_fmap. now exists (k, r).
Qed.

(** A second request for another target gets another rId. *)
Lemma added_twice_distinct self reltype' target1 target2 rel1 self1 rel2 self2 :
  well_formed self ->
  target1 <> target2 ->
  added self reltype' target1 rel1 self1 ->
  added self1 reltype' target2 rel2 self2 ->
  rId rel1 <> rId rel2.
Proof.
  intros Hwf Hne Hadd1 Hadd2 Heq.
  pose proof (added_well_formed _ _ _ _ _ Hwf Hadd1) as Hwf1.
  pose proof (added_then_matching _ _ _ _ _ Hadd1) as (Ht1 & _ & Hin1 & _).
  destruct Hadd2 as [Hm2 ->|Hm2 Hnext2 Hfresh2 Hrel2 Hitems2].
  - pose proof (get_matching_Some _ _ _ _ _ Hm2) as (Hin2 & _ & _ & Ht2).
    assert (rel1 = rel2) by exact (well_formed_rId_inj _ _ _ Hwf1 Hin1 Hin2 Heq).
    congruence.
  - apply Hfresh2. rewrite <- Heq.
    exact (added_rId_key _ _ _ _ _ Hwf Hadd1).
Qed.

(** *** The claims on relationship collections *)

(** C2. In every relationship collection [_next_rId] returns ["rId<n>"] for
    the smallest [n >= 1] whose ["rId<n>"] is not a key: such an [n] exists
    within the scanned range [1 .. len + 1], so the allocation always
    succeeds; this is the id [get_or_add] and [get_or_add_ext_rel] give to
    the relationship they add when none matches; and a collection whose keys
    are exactly [rId1] and [rId3] allocates [rId2]. *)
Theorem next_rId_fills_gaps (self : Relationships) :
  (exists n : nat,
      _next_rId self = Some (rId_candidate n) /\
      (1 <= n <= OrderedDict.len (items self) + 1)%nat /\
      (rId_candidate n ∉ OrderedDict.keys (items self)) /\
      (forall m : nat, (1 <= m < n)%nat -> rId_candidate m ∈ OrderedDict.keys (items self))) /\
  (forall reltype' part,
      _get_matching self reltype' (Internal part) false = None ->
      exists rel self',
        get_or_add self reltype' part = Some (rel, self') /\
        _next_rId self = Some (rId rel) /\
        OrderedDict.getitem (rId rel) (items self') = Some rel) /\
  (forall reltype' ref,
      _get_matching self reltype' (External ref) true = None ->
      exists rel self',
        get_or_add_ext_rel self reltype' ref = Some (rId rel, self') /\
        _next_rId self = Some (rId rel) /\
        OrderedDict.getitem (rId rel) (items self') = Some rel) /\
  ((forall k, k ∈ OrderedDict.keys (items self) <-> k = "rId1"%string \/ k = "rId3"%string) ->
   _next_rId self = Some "rId2"%string).
Proof.
  assert (Hget : forall reltype' target rel self',
             added self reltype' target rel self' ->
             _get_matching self reltype' target (is_external rel) = None ->
             _next_rId self = Some (rId rel) /\
             OrderedDict.getitem (rId rel) (items self') = Some rel).
  { intros reltype' target rel self' [Hm _|_ Hnext Hfresh _ Hitems] Hnone; [congruence|].
    split; [now symmetry|]. rewrite Hitems. clear -Hfresh.
    induction (items self) as [|[k v] d IH]; simpl in *.
    - now rewrite decide_True.
    - apply not_elem_of_cons in Hfresh as [Hne Hfresh].
      rewrite decide_False by congruence. now apply IH. }
  split; [apply next_rId_spec|]. split; [|split].
  - intros reltype' part Hnone.
    destruct (get_or_add_added self reltype' part) as (rel & self' & Hcall & Hadd & Hext).
    exists rel, self'. split; [assumption|].
    apply (Hget _ _ _ _ Hadd). now rewrite Hext.
  - intros reltype' ref Hnone.
    destruct (get_or_add_ext_rel_added self reltype' ref) as (rel & self' & Hcall & Hadd & Hext).
    exists rel, self'. split; [assumption|].
    apply (Hget _ _ _ _ Hadd). now rewrite Hext.
  - intros Hkeys.
    destruct (next_rId_spec self) as (n & Hnext & Hn & Hfree & Hused).
    rewrite Hnext. f_equal.
    assert (H1 : n <> 1%nat).
    { intros ->. apply Hfree, Hkeys. now left. }
    assert (H2 : ~ (2 < n)%nat).
    { intros Hlt. assert (Hin : rId_candidate 2 ∈ OrderedDict.keys (items self))
        by (apply Hused; lia).
      apply Hkeys in Hin as [Hin|Hin]; discriminate Hin. }
    replace n with 2%nat by lia. reflexivity.
Qed.

Lemma next_rId_fills_gaps_witness :
  _next_rId (mk_Relationships
               [("rId1"%string, mk_Relationship "rId1" "image" (Internal 7%nat) "/word");
                ("rId3"%string, mk_Relationship "rId3" "hyperlink" (External "http://a/") "/word")]
               "/word" [("rId1"%string, 7%nat)])
  = Some "rId2"%string.
Proof.
  apply (proj2 (proj2 (proj2 (next_rId_fills_gaps _)))).
  intros k. simpl. rewrite !elem_of_cons, elem_of_nil. tauto.
Defined.

(** C3. In every (well-formed) relationship collection, [get_or_add] called
    twice with the same [(reltype, target_part)] returns the same
    relationship both times, the second call changes nothing and the first
    adds at most one entry; called with a different target it returns a
    different rId, a key that was not in the collection when no relationship
    to that target existed; the same holds for [get_or_add_ext_rel] and
    [(reltype, target_ref)]; and an internal relationship never matches an
    external request, nor an external one an internal request. *)
Theorem get_or_add_dedup (self : Relationships) (reltype' : string) :
  well_formed self ->
  (forall part, exists rel self1,
      get_or_add self reltype' part = Some (rel, self1) /\
      get_or_add self1 reltype' part = Some (rel, self1) /\
      (length (items self1) <= length (items self) + 1)%nat) /\
  (forall part1 part2 rel1 self1 rel2 self2,
      part1 <> part2 ->
      get_or_add self reltype' part1 = Some (rel1, self1) ->
      get_or_add self1 reltype' part2 = Some (rel2, self2) ->
      rId rel1 <> rId rel2 /\
      (_get_matching self1 reltype' (Internal part2) false = None ->
       rId rel2 ∉ OrderedDict.keys (items self1))) /\
  (forall ref, exists rId1 self1,
      get_or_add_ext_rel self reltype' ref = Some (rId1, self1) /\
      get_or_add_ext_rel self1 reltype' ref = Some (rId1, self1) /\
      (length (items self1) <= length (items self) + 1)%nat) /\
  (forall ref1 ref2 rId1 self1 rId2 self2,
      ref1 <> ref2 ->
      get_or_add_ext_rel self reltype' ref1 = Some (rId1, self1) ->
      get_or_add_ext_rel self1 reltype' ref2 = Some (rId2, self2) ->
      rId1 <> rId2 /\
      (_get_matching self1 reltype' (External ref2) true = None ->
       rId2 ∉ OrderedDict.keys (items self1))) /\
  (forall rel target, is_external rel = false -> matches rel reltype' target true = false) /\
  (forall rel target, is_external rel = true -> matches rel reltype' target false = false) /\
  (forall part ref rel self1 rId2 self2,
      get_or_add self reltype' part = Some (rel, self1) ->
      get_or_add_ext_rel self1 reltype' ref = Some (rId2, self2) ->
      is_external rel = false /\ rId rel <> rId2).
Proof.
  intros Hwf.
  assert (Hfreshkey : forall s target rel s',
             added s reltype' target rel s' ->
             _get_matching s reltype' target (is_external rel) = None ->
             rId rel ∉ OrderedDict.keys (items s)).
  { intros s target rel s' [Hm _|_ _ Hfresh _ _] Hnone; [congruence|assumption]. }
  split; [|split; [|split; [|split; [|split; [|split]]]]].
  - intros part.
    destruct (get_or_add_added self reltype' part) as (rel & self1 & Hcall & Hadd & Hext).
    exists rel, self1. split; [assumption|].
    pose proof (added_then_matching _ _ _ _ _ Hadd) as (_ & _ & _ & Hm & Hlen).
    split; [|assumption]. unfold get_or_add. rewrite Hext in Hm. now rewrite Hm.
  - intros part1 part2 rel1 self1 rel2 self2 Hne Hcall1 Hcall2.
    destruct (get_or_add_added self reltype' part1) as (r1 & s1 & Hc1 & Hadd1 & Hext1).
    rewrite Hcall1 in Hc1. injection Hc1 as <- <-.
    destruct (get_or_add_added self1 reltype' part2) as (r2 & s2 & Hc2 & Hadd2 & Hext2).
    rewrite Hcall2 in Hc2. injection Hc2 as <- <-.
    split.
    + eapply (added_twice_distinct self reltype' (Internal part1) (Internal part2));
        [assumption|congruence|eassumption|eassumption].
    + intros Hnone. apply (Hfreshkey _ _ _ _ Hadd2). now rewrite Hext2.
  - intros ref.
    destruct (get_or_add_ext_rel_added self reltype' ref) as (rel & self1 & Hcall & Hadd & Hext).
    exists (rId rel), self1. split; [assumption|].
    pose proof (added_then_matching _ _ _ _ _ Hadd) as (_ & _ & _ & Hm & Hlen).
    split; [|assumption]. unfold get_or_add_ext_rel. rewrite Hext in Hm. now rewrite Hm.
  - intros ref1 ref2 rId1 self1 rId2 self2 Hne Hcall1 Hcall2.
    destruct (get_or_add_ext_rel_added self reltype' ref1) as (r1 & s1 & Hc1 & Hadd1 & Hext1).
    rewrite Hcall1 in Hc1. injection Hc1 as -> <-.
    destruct (get_or_add_ext_rel_added self1 reltype' ref2) as (r2 & s2 & Hc2 & Hadd2 & Hext2).
    rewrite Hcall2 in Hc2. injection Hc2 as -> <-.
    split.
    + eapply (added_twice_distinct self reltype' (External ref1) (External ref2));
        [assumption|congruence|eassumption|eassumption].
    + intros Hnone. apply (Hfreshkey _ _ _ _ Hadd2). now rewrite Hext2.
  - intros rel target Hint. unfold matches. rewrite Hint.
    case_bool_decide; reflexivity.
  - intros rel target Hext. unfold matches. rewrite Hext.
    case_bool_decide; reflexivity.
  - intros part ref rel self1 rId2 self2 Hcall1 Hcall2.
    destruct (get_or_add_added self reltype' part) as (r1 & s1 & Hc1 & Hadd1 & Hext1).
    rewrite Hcall1 in Hc1. injection Hc1 as <- <-.
    destruct (get_or_add_ext_rel_added self1 reltype' ref) as (r2 & s2 & Hc2 & Hadd2 & Hext2).
    rewrite Hcall2 in Hc2. injection Hc2 as -> <-.
    split; [assumption|].
    eapply (added_twice_distinct self reltype' (Internal part) (External ref));
      [assumption|congruence|eassumption|eassumption].
Qed.

Lemma get_or_add_dedup_witness :
  well_formed (snd (add_relationship (new_Relationships "/word") "image" (Internal 7%nat) "rId1")) /\
  exists rel self1,
    get_or_add (snd (add_relationship (new_Relationships "/word") "image" (Internal 7%nat) "rId1"))
               "image" 8%nat = Some (rel, self1) /\
    get_or_add self1 "image" 8%nat = Some (rel, self1) /\
    (length (items self1) <= 1 + 1)%nat.
Proof.
  assert (Hwf : well_formed
            (snd (add_relationship (new_Relationships "/word") "image" (Internal 7%nat) "rId1"))).
  { apply add_relationship_well_formed, new_Relationships_well_formed. }
  split; [exact Hwf|].
  exact (proj1 (get_or_add_dedup _ "image" Hwf) 8%nat).
Defined.

(** C6, as the code has it. [part_with_reltype(reltype)] raises [KeyError]
    when no relationship of that type exists and [ValueError] ("multiple
    relationships") when more than one does, never picking one of several;
    when exactly one exists it returns that relationship's target part if the
    relationship is internal, and raises the [ValueError] of [target_part]
    if it is external. *)
Theorem part_with_reltype_unique (self : Relationships) (reltype' : string) :
  let matching :=
    filter (fun rel => reltype rel = reltype') (OrderedDict.values (items self)) in
  (matching = [] ->
   part_with_reltype self reltype' =
     Raise (KeyError (fmt1 "no relationship of type '" reltype' "' in collection"))) /\
  (forall rel part, matching = [rel] -> _target rel = Internal part ->
   part_with_reltype self reltype' = Ok part) /\
  (forall rel ref, matching = [rel] -> _target rel = External ref ->
   part_with_reltype self reltype' =
     Raise (ValueError
       "target_part property on _Relationship is undefined when target mode is External")) /\
  ((1 < length matching)%nat ->
   part_with_reltype self reltype' =
     Raise (ValueError (fmt1 "multiple relationships of type '" reltype' "' in collection"))).
Proof.
  intros matching. unfold part_with_reltype, _get_rel_of_type. fold matching.
  repeat split.
  - now intros ->.
  - intros rel part -> Ht. simpl. unfold target_part. now rewrite Ht.
  - intros rel ref -> Ht. simpl. unfold target_part. now rewrite Ht.
  - destruct matching as [|r1 [|r2 m]]; simpl; intros Hlen; [lia|lia|reflexivity].
Qed.

Lemma part_with_reltype_unique_witness :
  part_with_reltype
    (mk_Relationships
       [("rId1"%string, mk_Relationship "rId1" "styles" (Internal 4%nat) "/word");
        ("rId2"%string, mk_Relationship "rId2" "image" (Internal 5%nat) "/word")]
       "/word" [("rId1"%string, 4%nat); ("rId2"%string, 5%nat)])
    "styles" = Ok 4%nat.
Proof.
  refine (proj1 (proj2 (part_with_reltype_unique _ "styles")) _ 4%nat _ _);
    reflexivity.
Defined.

(** C6 as stated fails: with exactly one relationship of the type, an
    external one, nothing is returned. *)
Lemma part_with_reltype_external_counterexample :
  let self :=
    mk_Relationships
      [("rId1"%string, mk_Relationship "rId1" "hyperlink" (External "http://a/") "/word")]
      "/word" [] in
  length (filter (fun rel => reltype rel = "hyperlink"%string)
                 (OrderedDict.values (items self))) = 1%nat /\
  part_with_reltype self "hyperlink" =
    Raise (ValueError
      "target_part property on _Relationship is undefined when target mode is External") /\
  ~ exists target, part_with_reltype self "hyperlink" = Ok target.
Proof.
  simpl. split; [reflexivity|]. split; [reflexivity|].
  intros [target H]. discriminate H.
Qed.

End RelFacts.

(** ** Lengths: [Twips], [Pt] and the [twips] property *)

Module LengthFacts.
Import Length Float.

(** *** Binary digits *)

Lemma digits2_pos_bounds (p : positive) :
  2 ^ (Zpos (digits2_pos p) - 1) <= Zpos p < 2 ^ Zpos (digits2_pos p).
Proof.
  induction p as [p IH|p IH|]; simpl digits2_pos.
  - rewrite Pos2Z.inj_succ. replace (Z.succ (Zpos (digits2_pos p)) - 1)
      with (Z.succ (Zpos (digits2_pos p) - 1)) by lia.
    rewrite !Z.pow_succ_r by lia. lia.
  - rewrite Pos2Z.inj_succ. replace (Z.succ (Zpos (digits2_pos p)) - 1)
      with (Z.succ (Zpos (digits2_pos p) - 1)) by lia.
    rewrite !Z.pow_succ_r by lia. lia.
  - simpl. lia.
Qed.

Lemma Zdigits2_eq (m d : Z) :
  0 < d -> 2 ^ (d - 1) <= m < 2 ^ d -> Zdigits2 m = d.
Proof.
  intros Hd [Hlo Hhi].
  assert (Hm : 0 < m) by (pose proof (Z.pow_pos_nonneg 2 (d - 1)); lia).
  destruct m as [|p|p]; try lia. simpl.
  pose proof (digits2_pos_bounds p) as [Plo Phi].
  set (d' := Zpos (digits2_pos p)) in *.
  assert (d' - 1 < d) by (apply (Z.pow_lt_mono_r_iff 2); lia).
  assert (d - 1 < d') by (apply (Z.pow_lt_mono_r_iff 2); lia).
  lia.
Qed.

Lemma iter_xO_pow2 (p n : positive) :
  Zpos (Pos.iter xO p n) = Zpos p * 2 ^ Zpos n.
Proof.
  induction n as [|n IH] using Pos.peano_ind.
  - simpl. lia.
  - rewrite Pos.iter_succ, Pos2Z.inj_succ, Z.pow_succ_r by lia.
    rewrite Pos2Z.inj_xO, IH. lia.
Qed.

(** *** Rounding a mantissa to 53 bits *)

Lemma fexp_53 (e : Z) : -1074 <= e -> fexp 53 1024 (53 + e) - e = 0.
Proof. unfold fexp, emin. lia. Qed.

Lemma fexp_54 (e : Z) : -1075 <= e -> fexp 53 1024 (54 + e) - e = 1.
Proof. unfold fexp, emin. lia. Qed.

Lemma shr_fexp_53 (m e : Z) (l : location) :
  2 ^ 52 <= m < 2 ^ 53 -> -1074 <= e ->
  shr_fexp 53 1024 m e l = (shr_record_of_loc m l, e).
Proof.
  intros Hm He. unfold shr_fexp.
  rewrite (Zdigits2_eq m 53) by lia. now rewrite fexp_53.
Qed.

Lemma shr_fexp_54 (m e : Z) (l : location) :
  2 ^ 53 <= m < 2 ^ 54 -> -1075 <= e ->
  shr_fexp 53 1024 m e l = (shr_1 (shr_record_of_loc m l), e + 1).
Proof.
  intros Hm He. unfold shr_fexp.
  rewrite (Zdigits2_eq m 54) by lia. now rewrite fexp_54.
Qed.

Lemma loc_of_shr_record_of_loc (m : Z) (l : location) :
  loc_of_shr_record (shr_record_of_loc m l) = l /\ shr_m (shr_record_of_loc m l) = m.
Proof. destruct l as [|[]]; simpl; auto. Qed.

(** Second stage of [binary_round_aux]: the rounded mantissa has 53 bits, or
    is [2^53] after a carry. *)
Lemma round_stage2 (s : bool) (M e : Z) :
  2 ^ 52 <= M <= 2 ^ 53 -> -1074 <= e <= 970 ->
  stands_for
    (let '(mrs'', e'') := shr_fexp 53 1024 M e loc_Exact in
     match shr_m mrs'' with
     | Z0 => S754_zero s
     | Zpos m => if Z.leb e'' (1024 - 53) then S754_finite s m e'' else S754_infinity s
     | Zneg _ => S754_nan
     end) s M e.
Proof.
  intros HM He.
  destruct (Z.eq_dec M (2 ^ 53)) as [->|Hne].
  - rewrite shr_fexp_54 by lia. simpl shr_m.
    replace (e + 1 <=? 1024 - 53) with true by (symmetry; apply Z.leb_le; lia).
    eexists _, (e + 1). split; [reflexivity|]. split; [lia|].
    replace (e + 1 - e) with 1 by lia. reflexivity.
  - rewrite shr_fexp_53 by lia. simpl shr_m.
    destruct M as [|m|m]; try lia.
    replace (e <=? 1024 - 53) with true by (symmetry; apply Z.leb_le; lia).
    exists m, e. split; [reflexivity|]. split; [lia|].
    rewrite Z.sub_diag. simpl. lia.
Qed.

Lemma round_nearest_even_bounds (m : Z) (l : location) :
  m <= round_nearest_even m l <= m + 1.
Proof. destruct l as [|[]]; simpl; try destruct (Z.even m); lia. Qed.

Lemma binary_round_aux_53 (s : bool) (q e : Z) (l : location) :
  2 ^ 52 <= q < 2 ^ 53 -> -1074 <= e <= 970 ->
  stands_for (binary_round_aux 53 1024 s q e l) s (round_nearest_even q l) e.
Proof.
  intros Hq He. unfold binary_round_aux.
  rewrite shr_fexp_53 by lia.
  destruct (loc_of_shr_record_of_loc q l) as [-> ->].
  apply round_stage2; [|assumption].
  pose proof (round_nearest_even_bounds q l). lia.
Qed.

Lemma shr_1_spec (m : Z) (r s : bool) :
  0 < m -> shr_1 (Build_shr_record m r s) = Build_shr_record (m / 2) (Z.odd m) (orb r s).
Proof.
  intros Hm. destruct m as [|p|p]; try lia.
  destruct p as [p|p|]; simpl shr_1.
  - rewrite Pos2Z.inj_xI. f_equal.
    apply (Z.div_unique _ _ _ 1); lia.
  - rewrite Pos2Z.inj_xO. f_equal.
    apply (Z.div_unique _ _ _ 0); lia.
  - reflexivity.
Qed.

Lemma binary_round_aux_54 (s : bool) (q e : Z) (l : location) :
  2 ^ 53 <= q < 2 ^ 54 -> -1075 <= e <= 969 ->
  stands_for (binary_round_aux 53 1024 s q e l) s
             (2 * round_nearest_even (q / 2) (loc_after_shift q l)) e.
Proof.
  intros Hq He. unfold binary_round_aux.
  rewrite shr_fexp_54 by lia.
  assert (Hrec : shr_1 (shr_record_of_loc q l) =
                 shr_record_of_loc (q / 2) (loc_after_shift q l)).
  { unfold loc_after_shift.
    destruct l as [|[]]; simpl shr_record_of_loc; rewrite shr_1_spec by lia;
      destruct (Z.odd q); reflexivity. }
  rewrite Hrec.
  destruct (loc_of_shr_record_of_loc (q / 2) (loc_after_shift q l)) as [-> ->].
  assert (Hh : 2 ^ 52 <= q / 2 < 2 ^ 53).
  { split.
    - apply Z.div_le_lower_bound; lia.
    - apply Z.div_lt_upper_bound; lia. }
  pose proof (round_nearest_even_bounds (q / 2) (loc_after_shift q l)) as Hb.
  destruct (round_stage2 s (round_nearest_even (q / 2) (loc_after_shift q l)) (e + 1))
    as (M & E & Hf & HE & HV); [lia|lia|].
  exists M, E. split; [exact Hf|]. split; [lia|].
  replace (E - e) with (Z.succ (E - (e + 1))) by lia.
  rewrite Z.pow_succ_r by lia. lia.
Qed.

(** *** [float(n)] for [|n| < 2^53] is exact *)

Lemma binary_round_aux_canonical (s : bool) (m : positive) (e : Z) :
  2 ^ 52 <= Zpos m < 2 ^ 53 -> -1074 <= e <= 971 ->
  binary_round_aux 53 1024 s (Zpos m) e loc_Exact = S754_finite s m e.
Proof.
  intros Hm He. unfold binary_round_aux.
  rewrite shr_fexp_53 by lia. simpl shr_record_of_loc. simpl shr_m.
  simpl loc_of_shr_record. simpl round_nearest_even.
  rewrite shr_fexp_53 by lia. simpl shr_m.
  replace (e <=? 1024 - 53) with true by (symmetry; apply Z.leb_le; lia).
  reflexivity.
Qed.

Lemma binary_round_int (s : bool) (p : positive) :
  Zpos p < 2 ^ 53 ->
  exists (m1 : positive) (e1 : Z),
    binary_round 53 1024 s p 0 = S754_finite s m1 e1 /\
    -52 <= e1 <= 0 /\ 2 ^ 52 <= Zpos m1 < 2 ^ 53 /\ Zpos m1 = Zpos p * 2 ^ (- e1).
Proof.
  intros Hp. unfold binary_round.
  pose proof (digits2_pos_bounds p) as [Hlo Hhi].
  set (d := Zpos (digits2_pos p)) in *.
  assert (Hd : 1 <= d <= 53).
  { split; [unfold d; lia|].
    assert (d - 1 < 53) by (apply (Z.pow_lt_mono_r_iff 2); lia). lia. }
  replace (fexp 53 1024 (d + 0)) with (d - 53) by (unfold fexp, emin; lia).
  unfold shl_align. replace (d - 53 - 0) with (d - 53) by lia.
  destruct (d - 53) as [|dd|dd] eqn:He1; [|lia|].
  - assert (Hd53 : d = 53) by lia. rewrite Hd53 in Hlo, Hhi.
    change (53 - 1) with 52 in Hlo.
    exists p, 0. rewrite binary_round_aux_canonical by lia.
    split; [reflexivity|]. split; [lia|]. split; [lia|simpl; lia].
  - assert (Hdd : Zpos dd = 53 - d) by lia.
    assert (Hm : Zpos (Pos.iter xO p dd) = Zpos p * 2 ^ (53 - d))
      by (rewrite iter_xO_pow2, Hdd; reflexivity).
    assert (Hb : 2 ^ 52 <= Zpos p * 2 ^ (53 - d) < 2 ^ 53).
    { assert (E52 : 2 ^ 52 = 2 ^ (d - 1) * 2 ^ (53 - d))
        by (rewrite <- Z.pow_add_r by lia; f_equal; lia).
      assert (E53 : 2 ^ 53 = 2 ^ d * 2 ^ (53 - d))
        by (rewrite <- Z.pow_add_r by lia; f_equal; lia).
      assert (0 < 2 ^ (53 - d)) by (apply Z.pow_pos_nonneg; lia).
      rewrite E52, E53.
      split; [apply Z.mul_le_mono_nonneg_r; lia|apply Z.mul_lt_mono_pos_r; lia]. }
    exists (Pos.iter xO p dd), (Zneg dd).
    rewrite binary_round_aux_canonical by lia.
    split; [reflexivity|]. split; [lia|]. split; [lia|].
    rewrite Hm. f_equal. f_equal. lia.
Qed.

Lemma of_int_635 : Float.of_int _EMUS_PER_TWIP = Ok (S754_finite false m635 (-43)).
Proof. vm_compute. reflexivity. Qed.

(** *** Division by [float(635)] *)

Lemma SFdiv_by_635 (s : bool) (m1 : positive) (e1 : Z) :
  2 ^ 52 <= Zpos m1 < 2 ^ 53 -> -52 <= e1 <= 0 ->
  SFdiv 53 1024 (S754_finite s m1 e1) (S754_finite false m635 (-43)) =
  binary_round_aux 53 1024 s ((Zpos m1 * 2 ^ 10) / 635) (e1 - 10)
    (if (Zpos m1 * 2 ^ 10) mod 635 =? 0 then loc_Exact
     else loc_Inexact (2 * ((Zpos m1 * 2 ^ 10) mod 635) ?= 635)).
Proof.
  intros Hm He. unfold SFdiv, SFdiv_core_binary.
  rewrite (Zdigits2_eq (Zpos m1) 53) by lia.
  replace (Zdigits2 (Zpos m635)) with 53 by (vm_compute; reflexivity).
  replace (Z.min (fexp 53 1024 (53 + e1 - (53 + -43))) (e1 - -43)) with (e1 - 10)
    by (unfold fexp, emin; lia).
  replace (e1 - -43 - (e1 - 10)) with 53 by lia.
  cbv beta iota.
  rewrite Z.shiftl_mul_pow2 by lia.
  set (N := Zpos m1 * 2 ^ 10).
  assert (HN : Zpos m1 * 2 ^ 53 = N * 2 ^ 43).
  { unfold N. rewrite <- Z.mul_assoc, <- Z.pow_add_r by lia. reflexivity. }
  assert (H635 : Zpos m635 = 635 * 2 ^ 43) by (vm_compute; reflexivity).
  rewrite HN, H635.
  assert (Hq : (N * 2 ^ 43) / (635 * 2 ^ 43) = N / 635).
  { apply Z.div_mul_cancel_r; lia. }
  assert (Hr : (N * 2 ^ 43) mod (635 * 2 ^ 43) = (N mod 635) * 2 ^ 43).
  { apply Z.mul_mod_distr_r; lia. }
  unfold Z.div, Z.modulo in Hq, Hr.
  destruct (Z.div_eucl (N * 2 ^ 43) (635 * 2 ^ 43)) as [q r].
  subst q r. fold (Z.div N 635). fold (Z.modulo N 635).
  rewrite xorb_false_r. f_equal.
  unfold new_location.
  replace (Z.even (635 * 2 ^ 43)) with true by (vm_compute; reflexivity).
  unfold new_location_even.
  assert (Hrho : 0 <= N mod 635 < 635) by (apply Z.mod_pos_bound; lia).
  destruct (Z.eqb_spec (N mod 635) 0) as [E0|E0].
  - rewrite E0. reflexivity.
  - destruct (Z.eqb_spec (N mod 635 * 2 ^ 43) 0) as [E1|E1]; [lia|].
    f_equal.
    replace (2 * (N mod 635 * 2 ^ 43)) with ((2 * (N mod 635)) * 2 ^ 43) by lia.
    symmetry. apply Zmult_compare_compat_r. lia.
Qed.

(** *** [round] of a float that stands close enough to an integer *)

Lemma round_stands_for (f : spec_float) (s : bool) (V e K : Z) :
  stands_for f s V e -> e < 0 ->
  2 * Z.abs (V - K * 2 ^ (- e)) < 2 ^ (- e) ->
  Float.round f = Ok (cond_Zopp s K).
Proof.
  intros (M & E & -> & HE & HV) He Hclose.
  unfold Float.round. f_equal. f_equal. unfold round_half_even.
  assert (HD : 0 < 2 ^ (- e)) by (apply Z.pow_pos_nonneg; lia).
  set (D := 2 ^ (- e)) in *.
  assert (Hclose' : - D < 2 * (V - K * D) < D) by lia. clear Hclose.
  destruct E as [|pp|pp].
  - replace (0 - e) with (- e) in HV by lia. fold D in HV.
    simpl (2 ^ 0). nia.
  - assert (Hc : 0 < 2 ^ Zpos pp) by (apply Z.pow_pos_nonneg; lia).
    assert (Hsplit : 2 ^ (Zpos pp - e) = 2 ^ Zpos pp * D)
      by (unfold D; rewrite <- Z.pow_add_r by lia; f_equal; lia).
    rewrite Hsplit in HV. set (X := 2 ^ Zpos pp) in *. nia.
  - set (d := 2 ^ Zpos pp).
    assert (Hd : 0 < d) by (apply Z.pow_pos_nonneg; lia).
    assert (Hc : 0 < 2 ^ (Zneg pp - e)) by (apply Z.pow_pos_nonneg; lia).
    assert (Hsplit : D = d * 2 ^ (Zneg pp - e)).
    { unfold D, d. rewrite <- Z.pow_add_r by lia. f_equal. lia. }
    set (c := 2 ^ (Zneg pp - e)) in *.
    rewrite Hsplit in Hclose'.
    assert (Hnear : - d < 2 * (Zpos M - K * d) < d) by nia.
    pose proof (Z.div_mod (Zpos M) d ltac:(lia)) as Hdm.
    pose proof (Z.mod_pos_bound (Zpos M) d Hd) as Hr.
    set (q := Zpos M / d) in *. set (r := Zpos M mod d) in *.
    assert (Hcases : q - K <= -2 \/ q - K = -1 \/ q - K = 0 \/ 1 <= q - K) by lia.
    destruct (Z.compare_spec (2 * r) d) as [Heq|Hlt|Hgt];
      destruct Hcases as [Hc1|[Hc1|[Hc1|Hc1]]]; try (exfalso; nia); lia.
Qed.

(** *** The quotient by [float(635)], rounded *)

Lemma twips_of_finite (s : bool) (p : positive) (K t : Z) :
  Zpos p = 635 * K + t -> Z.abs t <= 317 ->
  Zpos p < 2 ^ 52 \/ (t = 0 /\ Zpos p < 2 ^ 53) ->
  exists m1 e1,
    binary_round 53 1024 s p 0 = S754_finite s m1 e1 /\
    Float.round (SFdiv 53 1024 (S754_finite s m1 e1) (S754_finite false m635 (-43))) =
      Ok (cond_Zopp s K).
Proof.
  intros Hz Ht Hrange.
  assert (Hp : Zpos p < 2 ^ 53) by (destruct Hrange as [H|[_ H]]; lia).
  destruct (binary_round_int s p Hp) as (m1 & e1 & Hx & He1 & Hm1 & Hval).
  exists m1, e1. split; [assumption|].
  rewrite SFdiv_by_635 by assumption.
  set (D := 2 ^ (10 - e1)).
  assert (HN : Zpos m1 * 2 ^ 10 = Zpos p * D).
  { unfold D. rewrite Hval, <- Z.mul_assoc, <- Z.pow_add_r by lia.
    f_equal. f_equal. lia. }
  assert (HD10 : 2 ^ 10 <= D) by (apply Z.pow_le_mono_r; lia).
  assert (HD11 : t <> 0 -> 2 ^ 11 <= D).
  { intros Hne. apply Z.pow_le_mono_r; [lia|].
    destruct Hrange as [H52|[H0 _]]; [|contradiction].
    destruct (Z.eq_dec e1 0) as [->|]; [|lia].
    simpl in Hval. lia. }
  assert (HDeven : exists D', D = 2 * D').
  { exists (2 ^ (9 - e1)). unfold D.
    replace (10 - e1) with (Z.succ (9 - e1)) by lia.
    now rewrite Z.pow_succ_r by lia. }
  set (N := Zpos m1 * 2 ^ 10) in *.
  pose proof (Z.div_mod N 635 ltac:(lia)) as HNdm.
  pose proof (Z.mod_pos_bound N 635 ltac:(lia)) as Hrho.
  set (q := N / 635) in *. set (rho := N mod 635) in *.
  assert (HKD : N = 635 * (K * D) + t * D) by (rewrite HN, Hz; ring).
  assert (HtD : - 317 * D <= t * D <= 317 * D) by nia.
  assert (Hexact : t = 0 -> rho = 0 /\ q = K * D).
  { intros ->. assert (N = 635 * (K * D)) by lia.
    assert (rho = 0 /\ q = K * D); [|assumption].
    assert (635 * (q - K * D) + rho = 0) by lia. lia. }
  assert (Hq : 2 ^ 52 <= q < 2 ^ 54).
  { unfold q. split.
    - apply Z.div_le_lower_bound; lia.
    - apply Z.div_lt_upper_bound; lia. }
  assert (HDe : 2 ^ (- (e1 - 10)) = D) by (unfold D; f_equal; lia).
  change (2 ^ 10) with 1024 in HD10. change (2 ^ 11) with 2048 in HD11.
  change (2 ^ 52) with 4503599627370496 in Hq.
  change (2 ^ 54) with 18014398509481984 in Hq.
  destruct (Z_lt_ge_dec q (2 ^ 53)) as [Hlt|Hge].
  - eapply (round_stands_for _ s _ (e1 - 10) K);
      [apply binary_round_aux_53; lia | lia |].
    rewrite HDe.
    destruct (Z.eqb_spec rho 0) as [E0|E0]; simpl round_nearest_even.
    + lia.
    + destruct (Z.compare_spec (2 * rho) 635); lia.
  - eapply (round_stands_for _ s _ (e1 - 10) K);
      [apply binary_round_aux_54; lia | lia |].
    rewrite HDe.
    pose proof (Z.div_mod q 2 ltac:(lia)) as Hq2.
    rewrite Zmod_odd in Hq2.
    assert (Hodd : t = 0 -> Z.odd q = false).
    { intros H0. destruct (Hexact H0) as [_ ->]. destruct HDeven as [D' ->].
      replace (K * (2 * D')) with (2 * (K * D')) by ring.
      rewrite Z.odd_mul. reflexivity. }
    set (h := q / 2) in *.
    unfold loc_after_shift.
    destruct (Z.eq_dec t 0) as [Ht0|Ht0].
    + rewrite (Hodd Ht0) in *. destruct (Hexact Ht0) as [Hr0 HqK].
      destruct (Z.eqb_spec rho 0) as [_|]; [|contradiction].
      simpl round_nearest_even. lia.
    + specialize (HD11 Ht0).
      destruct (Z.odd q); destruct (Z.eqb_spec rho 0) as [E0|E0];
        simpl round_nearest_even; try destruct (Z.even h); lia.
Qed.

(** *** The [twips] property *)

(** Within the range where [float] is fine enough, [twips] is the integer
    nearest to [emu / 635]. *)
Lemma twips_nearest (emu K t : Z) :
  emu = 635 * K + t -> Z.abs t <= 317 ->
  Z.abs emu < 2 ^ 52 \/ (t = 0 /\ Z.abs emu < 2 ^ 53) ->
  twips emu = Ok K.
Proof.
  intros Hz Ht Hrange. unfold twips. rewrite of_int_635.
  unfold mbind, result_bind, Py.bind.
  destruct emu as [|p|p].
  - assert (K = 0) by lia. subst K. vm_compute. reflexivity.
  - destruct (twips_of_finite false p K t) as (m1 & e1 & Hx & Hround);
      [lia|lia|lia|].
    unfold Float.of_int, binary_normalize. fold Float.prec Float.emax in Hx.
    rewrite Hx. unfold Float.truediv. exact Hround.
  - destruct (twips_of_finite true p (- K) (- t)) as (m1 & e1 & Hx & Hround);
      [lia|lia|lia|].
    unfold Float.of_int, binary_normalize. fold Float.prec Float.emax in Hx.
    rewrite Hx. unfold Float.truediv.
    replace K with (cond_Zopp true (- K)) by (simpl; lia). exact Hround.
Qed.

(** C9, as the code has it. [Twips(1440)] is exactly 914400 EMU and [Pt(12)]
    exactly 152400 EMU; for every EMU value that is a multiple of 635 and
    smaller than [2^53] in magnitude, taking [.twips] and constructing
    [Twips] of the result gives the value back exactly; and for every EMU
    value smaller than [2^52] in magnitude, [Twips] of its [.twips] is the
    multiple of 635 nearest to it. *)
Theorem twips_round_trip :
  Twips 1440 = 914400 /\
  Pt 12 = 152400 /\
  (forall emu : Z,
      emu mod 635 = 0 -> Z.abs emu < 2 ^ 53 ->
      exists tw, twips (Length emu) = Ok tw /\ Twips tw = emu) /\
  (forall emu : Z,
      Z.abs emu < 2 ^ 52 ->
      exists tw, twips (Length emu) = Ok tw /\ 2 * Z.abs (Twips tw - emu) < 635).
Proof.
  split; [reflexivity|]. split; [reflexivity|]. split.
  - intros emu Hmod Hrange. exists (emu / 635).
    pose proof (Z.div_mod emu 635 ltac:(lia)) as Hdm. rewrite Hmod in Hdm.
    split.
    + apply (twips_nearest emu (emu / 635) 0); [lia|simpl; lia|].
      right. split; [reflexivity|assumption].
    + unfold Twips, Length, _EMUS_PER_TWIP. lia.
  - intros emu Hrange. exists ((emu + 317) / 635).
    pose proof (Z.div_mod (emu + 317) 635 ltac:(lia)) as Hdm.
    pose proof (Z.mod_pos_bound (emu + 317) 635 ltac:(lia)) as Hr.
    split.
    + apply (twips_nearest emu ((emu + 317) / 635) (((emu + 317) mod 635) - 317));
        [lia|lia|]. left. assumption.
    + unfold Twips, Length, _EMUS_PER_TWIP. lia.
Qed.

Lemma twips_round_trip_witness :
  exists tw, twips (Length 914400) = Ok tw /\ Twips tw = 914400.
Proof.
  refine (proj1 (proj2 (proj2 twips_round_trip)) 914400 _ _).
  - reflexivity.
  - vm_compute. reflexivity.
Defined.

(** C9 as stated fails once the value is too large for a [float]: the
    multiple [635 * (2^53 + 1)] of 635 does not come back, and
    [635 * (2^43 + 1) + 317] is not rounded to the nearest twip. *)
Lemma twips_large_counterexample :
  (635 * (2 ^ 53 + 1)) mod 635 = 0 /\
  twips (Length (635 * (2 ^ 53 + 1))) = Ok (2 ^ 53 + 2) /\
  Twips (2 ^ 53 + 2) <> 635 * (2 ^ 53 + 1) /\
  ~ (exists tw, twips (Length (635 * (2 ^ 53 + 1))) = Ok tw /\
                Twips tw = 635 * (2 ^ 53 + 1)) /\
  twips (Length (635 * (2 ^ 43 + 1) + 317)) = Ok (2 ^ 43 + 2).
Proof.
  split; [vm_compute; reflexivity|].
  assert (H : twips (Length (635 * (2 ^ 53 + 1))) = Ok (2 ^ 53 + 2))
    by (vm_compute; reflexivity).
  split; [exact H|]. split; [vm_compute; discriminate|]. split.
  - intros (tw & Htw & Hback). rewrite H in Htw. injection Htw as <-.
    vm_compute in Hback. discriminate Hback.
  - vm_compute. reflexivity.
Qed.

End LengthFacts.

(** ** Content-type resolution *)

Module ContentTypesFacts.
Import ContentTypes.

Section ContentTypesFacts.
Variable lower : string -> string.

Lemma foldl_add_override_defaults (l : list (string * string)) (m : _ContentTypeMap) :
  _defaults (foldl (fun m o => _add_override lower m (fst o) (snd o)) m l) = _defaults m.
Proof. revert m. induction l as [|o l IH]; intros m; simpl; [reflexivity|]. now rewrite IH. Qed.

Lemma foldl_add_default_overrides (l : list (string * string)) (m : _ContentTypeMap) :
  _overrides (foldl (fun m d => _add_default lower m (fst d) (snd d)) m l) = _overrides m.
Proof. revert m. induction l as [|o l IH]; intros m; simpl; [reflexivity|]. now rewrite IH. Qed.

(** What a lowered key looks up after the entries of [l] were written in
    order: the last entry whose key lowers to it. *)
Lemma lookup_foldl_setitem (l : list (string * string)) (k : string) :
  foldl (fun d kv => cid_setitem lower (fst kv) (snd kv) d) ∅ l !! lower k
  = last_entry lower k l.
Proof.
  unfold last_entry.
  induction l as [|[k' v'] l IH] using rev_ind; [reflexivity|].
  rewrite foldl_app, rev_app_distr. simpl. unfold cid_setitem at 1. simpl.
  case_bool_decide as Hk.
  - rewrite Hk. now rewrite lookup_insert_eq.
  - rewrite lookup_insert_ne by assumption. exact IH.
Qed.

Lemma overrides_foldl (l : list (string * string)) (m : _ContentTypeMap) :
  _overrides (foldl (fun m o => _add_override lower m (fst o) (snd o)) m l)
  = foldl (fun d kv => cid_setitem lower (fst kv) (snd kv) d) (_overrides m) l.
Proof. revert m. induction l as [|o l IH]; intros m; simpl; [reflexivity|]. now rewrite IH. Qed.

Lemma defaults_foldl (l : list (string * string)) (m : _ContentTypeMap) :
  _defaults (foldl (fun m d => _add_default lower m (fst d) (snd d)) m l)
  = foldl (fun d kv => cid_setitem lower (fst kv) (snd kv) d) (_defaults m) l.
Proof. revert m. induction l as [|o l IH]; intros m; simpl; [reflexivity|]. now rewrite IH. Qed.

Lemma overrides_from_xml (overrides defaults : list (string * string)) (k : string) :
  _overrides (from_xml lower overrides defaults) !! lower k = last_entry lower k overrides.
Proof.
  unfold from_xml. rewrite foldl_add_default_overrides, overrides_foldl.
  apply lookup_foldl_setitem.
Qed.

Lemma defaults_from_xml (overrides defaults : list (string * string)) (k : string) :
  _defaults (from_xml lower overrides defaults) !! lower k = last_entry lower k defaults.
Proof.
  unfold from_xml. rewrite defaults_foldl, foldl_add_override_defaults.
  apply lookup_foldl_setitem.
Qed.

Lemma last_entry_Some (k : string) (l : list (string * string)) (ct : string) :
  last_entry lower k l = Some ct ->
  exists key, (key, ct) ∈ l /\ lower key = lower k.
Proof.
  unfold last_entry. destruct (List.find _ _) as [[key ct']|] eqn:Hfind; [|discriminate].
  intros [= <-]. apply find_some in Hfind as [Hin Hkey].
  apply bool_decide_eq_true in Hkey. exists key. split; [|assumption].
  apply list_elem_of_In. now apply in_rev.
Qed.

Lemma last_entry_None (k : string) (l : list (string * string)) :
  last_entry lower k l = None ->
  forall key ct, (key, ct) ∈ l -> lower key <> lower k.
Proof.
  unfold last_entry. destruct (List.find _ _) as [[key ct']|] eqn:Hfind; [discriminate|].
  intros _ key ct Hin Heq.
  assert (Hf := find_none _ _ Hfind (key, ct)). simpl in Hf.
  rewrite bool_decide_eq_true_2 in Hf by assumption.
  assert (true = false); [|discriminate]. apply Hf.
  rewrite <- in_rev. now apply list_elem_of_In.
Qed.

(** C5. For the content-type map read from a [[Content_Types].xml] and every
    partname, resolution returns the Override written for that partname (the
    last one, keys compared without case) when there is one, whatever the
    Defaults say; otherwise the Default written for the partname's extension
    (again the last, compared without case); and when neither exists it
    fails with a [KeyError] whose message names the partname. *)
Theorem content_type_resolution (overrides defaults : list (string * string))
    (partname : string) :
  let ct_map := from_xml lower overrides defaults in
  (forall ct, last_entry lower partname overrides = Some ct ->
     getitem lower ct_map partname = Ok ct /\
     exists key, (key, ct) ∈ overrides /\ lower key = lower partname) /\
  (forall ct, last_entry lower partname overrides = None ->
     last_entry lower (PackURI.ext partname) defaults = Some ct ->
     getitem lower ct_map partname = Ok ct /\
     (forall key ct', (key, ct') ∈ overrides -> lower key <> lower partname) /\
     exists extension, (extension, ct) ∈ defaults /\
                       lower extension = lower (PackURI.ext partname)) /\
  (last_entry lower partname overrides = None ->
   last_entry lower (PackURI.ext partname) defaults = None ->
   getitem lower ct_map partname =
     Raise (KeyError
       (fmt1 "no content type for partname '" partname "' in [Content_Types].xml")) /\
   (forall key ct', (key, ct') ∈ overrides -> lower key <> lower partname) /\
   (forall extension ct', (extension, ct') ∈ defaults ->
                          lower extension <> lower (PackURI.ext partname))).
Proof.
  intros ct_map. unfold getitem, cid_contains, cid_getitem. subst ct_map.
  rewrite overrides_from_xml, defaults_from_xml.
  split; [|split].
  - intros ct Ho. rewrite Ho. rewrite bool_decide_eq_true_2 by eauto.
    split; [reflexivity|]. now apply last_entry_Some.
  - intros ct Ho Hd. rewrite Ho, Hd.
    rewrite bool_decide_eq_false_2 by (intros [? ?]; discriminate).
    rewrite bool_decide_eq_true_2 by eauto.
    split; [reflexivity|]. split; [now apply last_entry_None|now apply last_entry_Some].
  - intros Ho Hd. rewrite Ho, Hd.
    rewrite !bool_decide_eq_false_2 by (intros [? ?]; discriminate).
    split; [reflexivity|]. split; now apply last_entry_None.
Qed.

End ContentTypesFacts.

Lemma content_type_resolution_witness :
  getitem ascii_lower
    (from_xml ascii_lower
       [("/word/Document.xml"%string, "application/main+xml"%string)]
       [("xml"%string, "application/xml"%string)])
    "/word/document.XML" = Ok "application/main+xml"%string.
Proof.
  refine (proj1 (proj1 (content_type_resolution ascii_lower _ _ _) _ _)).
  vm_compute. reflexivity.
Defined.

End ContentTypesFacts.

(** ** The depth-first traversal *)

Module DfsFacts.
Import Dfs.

Section DfsFacts.
Context {N : Type} `{EqDecision N}.
Variable succs : N -> list N.

Local Abbreviation dfs := (dfs succs).
Local Abbreviation unvisited := (@unvisited N _).

Local Abbreviation post := (post succs).

Lemma reachable_cons_r (t : N) (todo : list N) (y : N) :
  reachable succs todo y -> reachable succs (t :: todo) y.
Proof. intros (r & Hr & Hpath). exists r. split; [now right|assumption]. Qed.

Lemma reachable_step (n : N) (todo : list N) (y : N) :
  reachable succs (succs n) y -> reachable succs (n :: todo) y.
Proof.
  intros (r & Hr & Hpath). exists n. split; [left|].
  eapply rtc_l; [exact Hr|exact Hpath].
Qed.

Lemma dfs_post (fuel : nat) :
  forall todo visited ys visited',
    dfs fuel todo visited = Some (ys, visited') -> post todo visited ys visited'.
Proof.
  induction fuel as [|fuel IHfuel]; [discriminate|].
  intros todo. simpl.
  induction todo as [|n todo IHtodo]; intros visited ys visited'; simpl.
  - intros [= <- <-]. split; try (intros ? H'; now apply elem_of_nil in H').
    + now rewrite app_nil_r.
    + constructor.
  - case_bool_decide as Hn.
    + intros Hloop. destruct (IHtodo _ _ _ Hloop) as [Hv Hf Hnd Ht Hc Hr].
      split; try assumption.
      * intros t [->|Ht']%elem_of_cons; [|now apply Ht].
        rewrite Hv. apply elem_of_app. now left.
      * intros y Hy. apply reachable_cons_r. now apply Hr.
    + destruct (Dfs.dfs succs fuel (succs n) (visited ++ [n])) as [[ys1 v1]|] eqn:Hrec;
        [|discriminate].
      destruct (dfs_loop _ todo v1) as [[zs v2]|] eqn:Hloop; [|discriminate].
      intros [= <- <-].
      destruct (IHfuel _ _ _ _ Hrec) as [Hv1 Hf1 Hnd1 Ht1 Hc1 Hr1].
      destruct (IHtodo _ _ _ Hloop) as [Hv2 Hf2 Hnd2 Ht2 Hc2 Hr2].
      assert (Hsub : forall x, x ∈ v1 -> x ∈ v2).
      { intros x Hx. rewrite Hv2. apply elem_of_app. now left. }
      assert (Hn1 : n ∈ v1).
      { rewrite Hv1. apply elem_of_app. left. apply elem_of_app. right. left. }
      split.
      * rewrite Hv2, Hv1. rewrite <- !app_assoc. reflexivity.
      * intros y [->|[Hy|Hy]%elem_of_app]%elem_of_cons.
        -- assumption.
        -- intros Hyv. apply (Hf1 y Hy). apply elem_of_app. now left.
        -- intros Hyv. apply (Hf2 y Hy). rewrite Hv1.
           apply elem_of_app. left. apply elem_of_app. now left.
      * apply NoDup_cons. split.
        -- intros [Hy|Hy]%elem_of_app.
           ++ apply (Hf1 n Hy). apply elem_of_app. right. left.
           ++ apply (Hf2 n Hy). exact Hn1.
        -- apply NoDup_app. split; [assumption|]. split; [|assumption].
           intros y Hy1 Hy2. apply (Hf2 y Hy2). rewrite Hv1.
           apply elem_of_app. now right.
      * intros t [->|Ht']%elem_of_cons; [now apply Hsub|now apply Ht2].
      * intros y [->|[Hy|Hy]%elem_of_app]%elem_of_cons z Hz.
        -- apply Hsub. now apply Ht1.
        -- apply Hsub. now apply (Hc1 y).
        -- now apply (Hc2 y).
      * intros y [->|[Hy|Hy]%elem_of_app]%elem_of_cons.
        -- exists n. split; [left|constructor].
        -- apply reachable_step. now apply Hr1.
        -- apply reachable_cons_r. now apply Hr2.
Qed.

(** From an empty [visited], exactly the reachable nodes are yielded, once. *)
Lemma dfs_reachable (fuel : nat) (todo ys visited' : list N) :
  dfs fuel todo [] = Some (ys, visited') ->
  visited' = ys /\ NoDup ys /\ forall n, n ∈ ys <-> reachable succs todo n.
Proof.
  intros Hdfs. destruct (dfs_post _ _ _ _ _ Hdfs) as [Hv Hf Hnd Ht Hc Hr].
  simpl in Hv. subst visited'. split; [reflexivity|]. split; [assumption|].
  intros n. split; [apply Hr|].
  intros (r & Hr0 & Hpath). apply Ht in Hr0.
  induction Hpath as [x|x y z Hxy _ IH]; [assumption|].
  apply IH. now apply (Hc x).
Qed.

(** More fuel does not change a result. *)
Lemma dfs_fuel_mono (fuel : nat) :
  forall todo visited r,
    dfs fuel todo visited = Some r ->
    forall fuel', (fuel <= fuel')%nat -> dfs fuel' todo visited = Some r.
Proof.
  induction fuel as [|fuel IHfuel]; [discriminate|].
  intros todo visited r Hdfs [|fuel'] Hle; [lia|].
  revert visited r Hdfs. simpl.
  induction todo as [|n todo IHtodo]; intros visited r; simpl; [trivial|].
  case_bool_decide as Hn; [apply IHtodo|].
  destruct (Dfs.dfs succs fuel (succs n) (visited ++ [n])) as [[ys1 v1]|] eqn:Hrec;
    [|discriminate].
  rewrite (IHfuel _ _ _ Hrec fuel') by lia.
  destruct (dfs_loop _ todo v1) as [[zs v2]|] eqn:Hloop; [|discriminate].
  now rewrite (IHtodo _ _ Hloop).
Qed.

(** *** Termination: the nodes not yet visited bound the depth *)

Lemma unvisited_mono (U v v' : list N) :
  (forall x, x ∈ v -> x ∈ v') -> (unvisited U v' <= unvisited U v)%nat.
Proof.
  intros Hsub. unfold unvisited.
  induction U as [|u U IH]; [reflexivity|].
  rewrite !filter_cons. repeat case_decide; simpl; try lia.
  exfalso. auto.
Qed.

Lemma unvisited_visit (U v : list N) (n : N) :
  n ∈ U -> n ∉ v -> (unvisited U (v ++ [n]) < unvisited U v)%nat.
Proof.
  intros HnU Hnv. unfold unvisited.
  induction U as [|u U IH]; [now apply elem_of_nil in HnU|].
  assert (Hle : (length (filter (fun u => u ∉ v ++ [n]) U)
                 <= length (filter (fun u => u ∉ v) U))%nat).
  { apply (unvisited_mono U v (v ++ [n])). intros x Hx. apply elem_of_app. now left. }
  rewrite !filter_cons.
  apply elem_of_cons in HnU as [<-|HnU].
  - rewrite decide_False by (intros Hn; apply Hn, elem_of_app; right; left).
    rewrite decide_True by assumption. simpl. lia.
  - specialize (IH HnU).
    destruct (decide (u ∉ v ++ [n])) as [H1|H1], (decide (u ∉ v)) as [H2|H2];
      simpl; try lia.
    exfalso. apply H2. intros Hu. apply H1, elem_of_app. now left.
Qed.

Section Termination.
Variable U : list N.
Hypothesis U_closed : forall u, u ∈ U -> forall z, z ∈ succs u -> z ∈ U.

Lemma dfs_terminates (fuel : nat) :
  forall todo visited,
    (forall t, t ∈ todo -> t ∈ U) ->
    (unvisited U visited < fuel)%nat ->
    is_Some (dfs fuel todo visited).
Proof.
  induction fuel as [|fuel IHfuel]; [intros; lia|].
  intros todo. simpl.
  induction todo as [|n todo IHtodo]; intros visited Htodo Hfuel; simpl; [eauto|].
  assert (HnU : n ∈ U) by (apply Htodo; left).
  assert (Htodo' : forall t, t ∈ todo -> t ∈ U) by (intros t Ht; apply Htodo; now right).
  case_bool_decide as Hn; [now apply IHtodo|].
  pose proof (unvisited_visit U visited n HnU Hn) as Hless.
  destruct (IHfuel (succs n) (visited ++ [n])) as [[ys1 v1] Hrec];
    [now apply U_closed|lia|].
  rewrite Hrec.
  destruct (dfs_post _ _ _ _ _ Hrec) as [Hv1 _ _ _ _ _].
  destruct (IHtodo v1) as [[zs v2] Hloop]; [assumption| |].
  - assert (unvisited U v1 <= unvisited U visited)%nat; [|lia].
    apply unvisited_mono. intros x Hx. rewrite Hv1.
    apply elem_of_app. left. apply elem_of_app. now left.
  - rewrite Hloop. eauto.
Qed.

(** With more fuel than there are nodes, the traversal from an empty
    [visited] returns, and returns the reachable nodes, each once. *)
Lemma dfs_total (todo : list N) :
  (forall t, t ∈ todo -> t ∈ U) ->
  exists ys,
    (forall fuel, (length U < fuel)%nat -> dfs fuel todo [] = Some (ys, ys)) /\
    NoDup ys /\ forall n, n ∈ ys <-> reachable succs todo n.
Proof.
  intros Htodo.
  assert (Hbound : (unvisited U [] < S (length U))%nat).
  { unfold unvisited. pose proof (length_filter (fun u => u ∉ []) U). lia. }
  destruct (dfs_terminates (S (length U)) todo [] Htodo Hbound) as [[ys v] Hdfs].
  destruct (dfs_reachable _ _ _ _ Hdfs) as (-> & Hnd & Hreach).
  exists ys. split; [|split; assumption].
  intros fuel Hfuel. apply (dfs_fuel_mono _ _ _ _ Hdfs). lia.
Qed.

End Termination.

End DfsFacts.
End DfsFacts.

(** ** The graph walks of the package and of the package reader *)

Module WalkFacts.
Import Rel Package DfsFacts.

(** *** [iter_parts] is the depth-first traversal *)

Lemma walk_parts_dfs (self : OpcPackage) (fuel : nat) :
  forall source visited,
    walk_parts fuel self source visited
    = Dfs.dfs (part_succs self) fuel (internal_targets (rels_of self source)) visited.
Proof.
  induction fuel as [|fuel IHfuel]; [reflexivity|].
  intros source visited. simpl. unfold internal_targets.
  generalize (OrderedDict.values (items (rels_of self source))). intros rels.
  revert visited. induction rels as [|rel rels IHrels]; intros visited; simpl; [reflexivity|].
  destruct (_target rel) as [part|ref]; simpl; [|apply IHrels].
  case_bool_decide; [apply IHrels|].
  rewrite IHfuel. fold (part_succs self part).
  destruct (Dfs.dfs _ fuel _ _) as [[ys v1]|]; [|reflexivity].
  now rewrite IHrels.
Qed.

Lemma walk_rels_dfs (self : OpcPackage) (fuel : nat) :
  forall source visited parts visited',
    Dfs.dfs (part_succs self) fuel (internal_targets (rels_of self source)) visited
      = Some (parts, visited') ->
    exists yielded,
      walk_rels fuel self source visited = Some (yielded, visited') /\
      yielded ≡ₚ rels_values self source
                 ++ flat_map (fun part => rels_values self (APart part)) parts.
Proof.
  induction fuel as [|fuel IHfuel]; [discriminate|].
  intros source visited parts visited'. simpl.
  unfold rels_values at 1, internal_targets.
  generalize (OrderedDict.values (items (rels_of self source))). intros rels.
  revert visited parts visited'.
  induction rels as [|rel rels IHrels]; intros visited parts visited'; simpl.
  - intros [= <- <-]. exists []. split; reflexivity.
  - destruct (_target rel) as [part|ref]; simpl.
    + case_bool_decide.
      * intros Hloop. destruct (IHrels _ _ _ Hloop) as (ys & -> & Hperm).
        exists (rel :: ys). split; [reflexivity|]. now rewrite Hperm.
      * fold (part_succs self part).
        destruct (Dfs.dfs _ fuel (part_succs self part) _) as [[ys1 v1]|] eqn:Hrec;
          [|discriminate].
        destruct (Dfs.dfs_loop _ _ v1) as [[zs v2]|] eqn:Hloop; [|discriminate].
        intros [= <- <-].
        destruct (IHfuel (APart part) _ _ _ Hrec) as (rs1 & -> & Hperm1).
        destruct (IHrels _ _ _ Hloop) as (rs2 & -> & Hperm2).
        exists (rel :: rs1 ++ rs2). split; [reflexivity|].
        rewrite Hperm1, Hperm2. simpl. rewrite flat_map_app.
        apply perm_skip.
        rewrite <- !app_assoc.
        etransitivity; [|apply Permutation_app_swap_app].
        apply Permutation_app_head.
        apply Permutation_app_swap_app.
    + intros Hloop. destruct (IHrels _ _ _ Hloop) as (ys & -> & Hperm).
      exists (rel :: ys). split; [reflexivity|]. now rewrite Hperm.
Qed.

Lemma all_targets_closed (self : OpcPackage) :
  forall u, u ∈ all_targets self ->
  forall z, z ∈ part_succs self u -> z ∈ all_targets self.
Proof.
  intros u _ z Hz. unfold part_succs, rels_of in Hz.
  destruct (part_rels self !! u) as [r|] eqn:Hu; simpl in Hz.
  - unfold all_targets. apply elem_of_app. right.
    apply list_elem_of_In, in_flat_map. exists (u, r).
    split; [|now apply list_elem_of_In].
    apply list_elem_of_In. now apply elem_of_map_to_list.
  - now apply elem_of_nil in Hz.
Qed.

(** *** The part walk of the package reader *)

Section PhysWalk.
Import PkgReader.
Variable from_rel_ref : string -> string -> string.
Variable phys_reader : PhysPkgReader.
Variable U : list string.
Hypothesis U_closed :
  forall u, u ∈ U -> forall z, z ∈ partname_succs from_rel_ref phys_reader u -> z ∈ U.
Hypothesis U_members : forall u, u ∈ U -> is_Some (members phys_reader !! u).

Lemma walk_phys_parts_dfs (fuel : nat) :
  forall srels visited,
    (forall t, t ∈ target_partnames from_rel_ref srels -> t ∈ U) ->
    match Dfs.dfs (partname_succs from_rel_ref phys_reader) fuel
                  (target_partnames from_rel_ref srels) visited with
    | None => _walk_phys_parts from_rel_ref fuel phys_reader srels visited = None
    | Some (ys, visited') =>
        exists tuples,
          _walk_phys_parts from_rel_ref fuel phys_reader srels visited
            = Some (Ok (tuples, visited')) /\
          map tuple_partname tuples = ys /\
          Forall (tuple_ok phys_reader) tuples
    end.
Proof.
  induction fuel as [|fuel IHfuel]; [reflexivity|].
  intros srels. simpl. unfold target_partname.
  induction srels as [|srel srels IHsrels]; intros visited Htargets; simpl.
  - exists []. repeat split. constructor.
  - simpl in Htargets.
    destruct (is_external srel) eqn:Hext; simpl in *; [now apply IHsrels|].
    set (partname := from_rel_ref (PkgReader._baseURI srel) (_target_ref srel)) in *.
    assert (HpU : partname ∈ U) by (apply Htargets; left).
    assert (Hrest : forall t, t ∈ target_partnames from_rel_ref srels -> t ∈ U)
      by (intros t Ht; apply Htargets; now right).
    case_bool_decide; [now apply IHsrels|].
    destruct (U_members partname HpU) as [blob Hblob].
    assert (Hb : blob_for phys_reader partname = Ok blob)
      by (unfold blob_for; now rewrite Hblob).
    rewrite Hb.
    specialize (IHfuel (_srels_for phys_reader partname) (visited ++ [partname])).
    fold (partname_succs from_rel_ref phys_reader partname) in IHfuel.
    specialize (IHfuel (U_closed partname HpU)).
    destruct (Dfs.dfs _ fuel (partname_succs from_rel_ref phys_reader partname) _)
      as [[ys1 v1]|]; [|now rewrite IHfuel].
    destruct IHfuel as (ts1 & -> & Hnames1 & Hok1).
    specialize (IHsrels v1 Hrest).
    destruct (Dfs.dfs_loop _ _ v1) as [[zs v2]|]; [|now rewrite IHsrels].
    destruct IHsrels as (ts2 & -> & Hnames2 & Hok2).
    eexists. split; [reflexivity|]. split.
    + simpl. rewrite map_app. now rewrite Hnames1, Hnames2.
    + constructor; [split; [assumption|reflexivity]|].
      apply Forall_app. now split.
Qed.

End PhysWalk.

Lemma all_target_partnames_closed from_rel_ref phys_reader pkg_srels :
  forall u, u ∈ PkgReader.all_target_partnames from_rel_ref phys_reader pkg_srels ->
  forall z, z ∈ PkgReader.partname_succs from_rel_ref phys_reader u ->
            z ∈ PkgReader.all_target_partnames from_rel_ref phys_reader pkg_srels.
Proof.
  intros u _ z Hz. unfold PkgReader.partname_succs, PkgReader._srels_for in Hz.
  destruct (PkgReader.rels_items phys_reader !! u) as [r|] eqn:Hu; simpl in Hz.
  - unfold PkgReader.all_target_partnames. apply elem_of_app. right.
    apply list_elem_of_In, in_flat_map. exists (u, r).
    split; [|now apply list_elem_of_In].
    apply list_elem_of_In. now apply elem_of_map_to_list.
  - now apply elem_of_nil in Hz.
Qed.

(** *** More fuel does not change what a walk returns *)

Lemma walk_rels_fuel_mono (self : OpcPackage) (fuel : nat) :
  forall source visited r,
    walk_rels fuel self source visited = Some r ->
    forall fuel', (fuel <= fuel')%nat -> walk_rels fuel' self source visited = Some r.
Proof.
  induction fuel as [|fuel IH]; [discriminate|].
  intros src v r Hw [|fuel'] Hle; [lia|]. revert Hw. simpl.
  generalize (OrderedDict.values (items (rels_of self src))). intros l.
  revert v r. induction l as [|rel l IHl]; intros v r; simpl; [trivial|].
  destruct (_target rel) as [part|ref].
  - case_bool_decide.
    + match goal with |- context [match ?X l v with _ => _ end] =>
        destruct (X l v) as [[y' v']|] eqn:Hl end; [|discriminate].
      now rewrite (IHl _ _ Hl).
    + destruct (walk_rels fuel self (APart part) (v ++ [part])) as [[y1 v1]|] eqn:Hr;
        [|discriminate].
      rewrite (IH _ _ _ Hr fuel') by lia.
      match goal with |- context [match ?X l v1 with _ => _ end] =>
        destruct (X l v1) as [[y' v']|] eqn:Hl end; [|discriminate].
      now rewrite (IHl _ _ Hl).
  - match goal with |- context [match ?X l v with _ => _ end] =>
      destruct (X l v) as [[y' v']|] eqn:Hl end; [|discriminate].
    now rewrite (IHl _ _ Hl).
Qed.

Lemma walk_phys_parts_fuel_mono from_rel_ref phys_reader (fuel : nat) :
  forall srels visited r,
    PkgReader._walk_phys_parts from_rel_ref fuel phys_reader srels visited = Some r ->
    forall fuel', (fuel <= fuel')%nat ->
      PkgReader._walk_phys_parts from_rel_ref fuel' phys_reader srels visited = Some r.
Proof.
  induction fuel as [|fuel IH]; [discriminate|].
  intros l v r Hw [|fuel'] Hle; [lia|]. revert Hw. simpl.
  revert v r. induction l as [|srel l IHl]; intros v r; simpl; [trivial|].
  destruct (PkgReader.is_external srel); [apply IHl|].
  destruct (PkgReader.target_partname from_rel_ref srel) as [partname|e]; [|trivial].
  case_bool_decide; [apply IHl|].
  destruct (PkgReader.blob_for phys_reader partname) as [blob|e]; [|trivial].
  destruct (PkgReader._walk_phys_parts from_rel_ref fuel phys_reader _ (v ++ [partname]))
    as [[[y1 v1]|e]|] eqn:Hr; [| |discriminate].
  - rewrite (IH _ _ _ Hr fuel') by lia.
    match goal with |- context [match ?X l v1 with _ => _ end] =>
      destruct (X l v1) as [[[y' v']|e]|] eqn:Hl end; [| |discriminate].
    + now rewrite (IHl _ _ Hl).
    + now rewrite (IHl _ _ Hl).
  - now rewrite (IH _ _ _ Hr fuel') by lia.
Qed.

(** *** The claim on the graph walks *)

(** C4. For every package graph, cyclic or not, [iter_parts] returns (any
    fuel above the number of relationship targets is enough, so the
    recursion is bounded) and yields exactly the parts reachable from the
    package through internal relationships, each once; [iter_rels] returns
    as well and yields the relationships of the package and of each of those
    parts, each once; and the part walk of the package reader, on a
    physical package that contains every part its relationships point to,
    returns one tuple per reachable partname, none twice, each with the blob
    and the relationships of its part. *)
Theorem graph_walks_visit_once :
  (forall self : OpcPackage,
      exists parts yielded_rels,
        (forall fuel, (length (all_targets self) < fuel)%nat ->
                      iter_parts fuel self = Some parts) /\
        NoDup parts /\
        (forall part, part ∈ parts <->
                      Dfs.reachable (part_succs self) (internal_targets (rels self)) part) /\
        (forall fuel, (length (all_targets self) < fuel)%nat ->
                      iter_rels fuel self = Some yielded_rels) /\
        yielded_rels ≡ₚ rels_values self ThePackage
                        ++ flat_map (fun part => rels_values self (APart part)) parts) /\
  (forall (from_rel_ref : string -> string -> string)
          (phys_reader : PkgReader.PhysPkgReader)
          (pkg_srels : list PkgReader._SerializedRelationship),
      PkgReader.closed from_rel_ref phys_reader pkg_srels ->
      exists sparts,
        (forall fuel,
            (length (PkgReader.all_target_partnames from_rel_ref phys_reader pkg_srels) < fuel)%nat ->
            PkgReader._walk_phys_parts from_rel_ref fuel phys_reader pkg_srels []
            = Some (Ok (sparts, map PkgReader.tuple_partname sparts))) /\
        NoDup (map PkgReader.tuple_partname sparts) /\
        (forall partname,
            partname ∈ map PkgReader.tuple_partname sparts <->
            Dfs.reachable (PkgReader.partname_succs from_rel_ref phys_reader)
                          (PkgReader.target_partnames from_rel_ref pkg_srels) partname) /\
        Forall (PkgReader.tuple_ok phys_reader) sparts).
Proof.
  split.
  - intros self.
    destruct (dfs_total (part_succs self) (all_targets self) (all_targets_closed self)
                        (internal_targets (rels self)))
      as (parts & Hfuel & Hnd & Hreach).
    { intros t Ht. unfold all_targets. apply elem_of_app. now left. }
    assert (Hdfs := Hfuel (S (length (all_targets self))) ltac:(lia)).
    destruct (walk_rels_dfs self _ ThePackage [] parts parts Hdfs) as (rs & Hrs & Hperm).
    exists parts, rs. repeat split.
    + intros fuel Hlt. unfold iter_parts. rewrite walk_parts_dfs.
      simpl rels_of. now rewrite (Hfuel fuel Hlt).
    + assumption.
    + apply Hreach.
    + apply Hreach.
    + intros fuel Hlt. unfold iter_rels.
      rewrite (walk_rels_fuel_mono self _ _ _ _ Hrs fuel) by lia. reflexivity.
    + assumption.
  - intros from_rel_ref phys_reader pkg_srels Hclosed.
    set (U := PkgReader.all_target_partnames from_rel_ref phys_reader pkg_srels).
    assert (Hroots : forall t, t ∈ PkgReader.target_partnames from_rel_ref pkg_srels -> t ∈ U).
    { intros t Ht. unfold U, PkgReader.all_target_partnames. apply elem_of_app. now left. }
    destruct (dfs_total (PkgReader.partname_succs from_rel_ref phys_reader) U
                (all_target_partnames_closed from_rel_ref phys_reader pkg_srels)
                (PkgReader.target_partnames from_rel_ref pkg_srels) Hroots)
      as (ys & Hfuel & Hnd & Hreach).
    assert (Hwalk := walk_phys_parts_dfs from_rel_ref phys_reader U
              (all_target_partnames_closed from_rel_ref phys_reader pkg_srels) Hclosed).
    assert (H1 := Hwalk (S (length U)) pkg_srels [] Hroots).
    rewrite (Hfuel (S (length U))) in H1 by lia.
    destruct H1 as (sparts & Hw & Hnames & Hok).
    exists sparts. rewrite Hnames. repeat split; try assumption; try apply Hreach.
    intros fuel Hlt.
    apply (walk_phys_parts_fuel_mono from_rel_ref phys_reader _ _ _ _ Hw). lia.
Qed.

Lemma graph_walks_visit_once_witness :
  exists sparts,
    PkgReader._walk_phys_parts (fun _ ref => ref) 4
      (PkgReader.mk_PhysPkgReader
         {[ "/a"%string := "A"%string; "/b"%string := "B"%string ]}
         {[ "/a"%string := [PkgReader.mk_SerializedRelationship "/" "rId1" "t" "Internal" "/b"];
            "/b"%string := [PkgReader.mk_SerializedRelationship "/" "rId1" "t" "Internal" "/a"] ]})
      [PkgReader.mk_SerializedRelationship "/" "rId1" "t" "Internal" "/a"] []
    = Some (Ok (sparts, map PkgReader.tuple_partname sparts)).
Proof.
  destruct (proj2 graph_walks_visit_once (fun _ ref => ref)
      (PkgReader.mk_PhysPkgReader
         {[ "/a"%string := "A"%string; "/b"%string := "B"%string ]}
         {[ "/a"%string := [PkgReader.mk_SerializedRelationship "/" "rId1" "t" "Internal" "/b"];
            "/b"%string := [PkgReader.mk_SerializedRelationship "/" "rId1" "t" "Internal" "/a"] ]})
      [PkgReader.mk_SerializedRelationship "/" "rId1" "t" "Internal" "/a"])
    as (sparts & Hwalk & _).
  - intros partname Hin. vm_compute in Hin.
    repeat (apply elem_of_cons in Hin as [->|Hin]); try (vm_compute; eauto).
    now apply elem_of_nil in Hin.
  - exists sparts. apply Hwalk. vm_compute. lia.
Defined.

(** A cycle: the package relates to part 1, part 1 to part 2 and part 2 back
    to part 1 (and to an external target). *)
Example iter_parts_cycle :
  let r0 := mk_Relationship "rId1" "doc" (Internal 1%nat) "/" in
  let r1 := mk_Relationship "rId1" "next" (Internal 2%nat) "/word" in
  let r2 := mk_Relationship "rId1" "back" (Internal 1%nat) "/word" in
  let r3 := mk_Relationship "rId2" "link" (External "http://a/") "/word" in
  let self :=
    mk_OpcPackage
      (mk_Relationships [("rId1"%string, r0)] "/" [("rId1"%string, 1%nat)])
      {[ 1%nat := mk_Relationships [("rId1"%string, r1)] "/word" [("rId1"%string, 2%nat)];
         2%nat := mk_Relationships [("rId1"%string, r2); ("rId2"%string, r3)] "/word"
                                   [("rId1"%string, 1%nat)] ]} in
  iter_parts 3 self = Some [1%nat; 2%nat] /\
  iter_rels 3 self = Some [r0; r1; r2; r3].
Proof. vm_compute. split; reflexivity. Qed.

End WalkFacts.

(** ** The inserters of the schema framework *)

Module OxmlFacts.
Import Oxml.

(** *** [find] and [first_child_found_in] *)

Lemma find_index_Some (t : string) (l : list Element) (i : nat) :
  find_index t l = Some i ->
  exists c, l !! i = Some c /\ tag c = t /\
            Forall (fun c' => tag c' <> t) (take i l).
Proof.
  revert i. induction l as [|a l IH]; intros i; simpl; [discriminate|].
  destruct (decide (tag a = t)) as [Ha|Ha].
  - intros [= <-]. exists a. repeat split; [assumption|constructor].
  - destruct (find_index t l) as [j|] eqn:Hj; [|discriminate].
    intros [= <-]. destruct (IH j eq_refl) as (c & Hc & Htag & Hbefore).
    exists c. repeat split; [assumption|assumption|]. simpl. now constructor.
Qed.

Lemma find_index_None (t : string) (l : list Element) :
  find_index t l = None <-> Forall (fun c => tag c <> t) l.
Proof.
  induction l as [|a l IH]; simpl; [split; [constructor|reflexivity]|].
  destruct (decide (tag a = t)) as [Ha|Ha].
  - split; [discriminate|]. intros H. apply Forall_cons in H as [H _]. contradiction.
  - destruct (find_index t l); simpl.
    + split; [discriminate|]. intros H. apply Forall_cons in H as [_ H].
      apply IH in H. discriminate.
    + split; [|reflexivity]. intros _. constructor; [assumption|]. now apply IH.
Qed.

(** The child found is the first child carrying the first of [tagnames]
    that any child carries. *)
Lemma first_child_found_in_Some (self : Element) (tagnames : list string) (i : nat) :
  first_child_found_in self tagnames = Some i ->
  exists c pre post,
    children self !! i = Some c /\
    tagnames = pre ++ tag c :: post /\
    Forall (fun c' => tag c' <> tag c) (take i (children self)) /\
    Forall (fun t => Forall (fun c' => tag c' <> t) (children self)) pre.
Proof.
  induction tagnames as [|t tagnames IH]; simpl; [discriminate|]. unfold qn.
  destruct (find_index t (children self)) as [j|] eqn:Hj.
  - intros [= <-]. destruct (find_index_Some _ _ _ Hj) as (c & Hc & <- & Hbefore).
    exists c, [], tagnames. repeat split; [assumption|assumption|constructor].
  - intros Hi. destruct (IH Hi) as (c & pre & post & Hc & -> & Hbefore & Hpre).
    exists c, (t :: pre), post. repeat split; [assumption|assumption|].
    constructor; [now apply find_index_None|assumption].
Qed.

Lemma first_child_found_in_None (self : Element) (tagnames : list string) :
  first_child_found_in self tagnames = None <->
  Forall (fun c => tag c ∉ tagnames) (children self).
Proof.
  induction tagnames as [|t tagnames IH]; simpl.
  - split; [|reflexivity]. intros _. apply Forall_forall. intros c _ H.
    now apply elem_of_nil in H.
  - unfold qn. destruct (find_index t (children self)) as [j|] eqn:Hj.
    + split; [discriminate|]. intros H.
      destruct (find_index_Some _ _ _ Hj) as (c & Hc & Htag & _).
      rewrite Forall_forall in H. exfalso.
      assert (Hin : c ∈ children self) by (eapply list_elem_of_lookup_2; eassumption).
      apply (H c Hin). rewrite Htag. left.
    + apply find_index_None in Hj. rewrite IH. rewrite !Forall_forall.
      rewrite Forall_forall in Hj.
      split; intros H c Hc.
      * intros [Heq|Hin]%elem_of_cons; [now apply (Hj c)|now apply (H c)].
      * intros Hin. apply (H c Hc). now right.
Qed.

(** *** Positions in a sequence of tags *)

Lemma rank_lookup (tag_seq : list string) (t : string) :
  t ∈ tag_seq -> tag_seq !! rank tag_seq t = Some t.
Proof.
  induction tag_seq as [|s l IH]; simpl; intros Hin; [now apply elem_of_nil in Hin|].
  destruct (decide (s = t)) as [->|Hne]; [reflexivity|]. simpl.
  apply elem_of_cons in Hin as [->|Hin]; [congruence|now apply IH].
Qed.

Lemma rank_app_r (l1 l2 : list string) (t : string) :
  t ∉ l1 -> rank (l1 ++ l2) t = (length l1 + rank l2 t)%nat.
Proof.
  induction l1 as [|s l1 IH]; simpl; intros Hnot; [reflexivity|].
  apply not_elem_of_cons in Hnot as [Hne Hnot].
  rewrite decide_False by congruence. now rewrite IH.
Qed.

(** A tag of the sequence that is not among the tags after position [k]
    sits at position [k] or before. *)
Lemma rank_not_after (tag_seq : list string) (k : nat) (t : string) :
  t ∈ tag_seq -> t ∉ drop (S k) tag_seq -> (rank tag_seq t <= k)%nat.
Proof.
  intros Hin Hnot. apply rank_lookup in Hin.
  destruct (Nat.le_gt_cases (rank tag_seq t) k) as [Hle|Hgt]; [assumption|].
  exfalso. apply Hnot. apply list_elem_of_lookup.
  exists (rank tag_seq t - S k)%nat. rewrite lookup_drop.
  now replace (S k + (rank tag_seq t - S k))%nat with (rank tag_seq t) by lia.
Qed.

Lemma rank_after (tag_seq : list string) (k : nat) (t : string) :
  NoDup tag_seq -> t ∈ drop (S k) tag_seq -> (k < rank tag_seq t)%nat.
Proof.
  intros Hnd Hin.
  rewrite <- (take_drop (S k) tag_seq) in Hnd.
  assert (Hnot : t ∉ take (S k) tag_seq).
  { intros Ht. apply NoDup_app in Hnd as (_ & Hdisj & _). now apply (Hdisj t). }
  assert (Hlen : (S k <= length tag_seq)%nat).
  { destruct (Nat.le_gt_cases (S k) (length tag_seq)) as [H|H]; [assumption|].
    rewrite drop_ge in Hin by lia. now apply elem_of_nil in Hin. }
  rewrite <- (take_drop (S k) tag_seq), rank_app_r by assumption.
  rewrite length_take. lia.
Qed.

(** In a duplicate-free sequence a later tag has a larger position. *)
Lemma rank_later (l1 l2 : list string) (t t' : string) :
  NoDup (l1 ++ t :: l2) -> t' ∈ l2 ->
  (rank (l1 ++ t :: l2) t < rank (l1 ++ t :: l2) t')%nat.
Proof.
  intros Hnd Hin.
  apply NoDup_app in Hnd as (_ & Hdisj & Hnd2).
  apply NoDup_cons in Hnd2 as [Ht _].
  assert (Hne : t <> t') by (intros ->; contradiction).
  assert (H1 : t ∉ l1) by (intros H; apply (Hdisj t H); left).
  assert (H2 : t' ∉ l1) by (intros H; apply (Hdisj t' H); now right).
  rewrite !rank_app_r by assumption. simpl.
  rewrite decide_True by reflexivity. rewrite decide_False by assumption. lia.
Qed.

(** *** Sorted lists *)

Lemma StronglySorted_insert {A : Type} (R : A -> A -> Prop) (l1 l2 : list A) (x : A) :
  StronglySorted R (l1 ++ l2) ->
  Forall (fun y => R y x) l1 -> Forall (fun z => R x z) l2 ->
  StronglySorted R (l1 ++ x :: l2).
Proof.
  induction l1 as [|a l1 IH]; simpl; intros Hs H1 H2.
  - now constructor.
  - apply StronglySorted_inv in Hs as [Hs Ha].
    apply Forall_cons in H1 as [Hax H1].
    constructor; [now apply IH|].
    apply Forall_app in Ha as [Ha1 Ha2].
    apply Forall_app. split; [assumption|]. now constructor.
Qed.

Lemma StronglySorted_app_r {A : Type} (R : A -> A -> Prop) (l1 l2 : list A) :
  StronglySorted R (l1 ++ l2) -> StronglySorted R l2.
Proof.
  induction l1 as [|a l1 IH]; simpl; intros Hs; [assumption|].
  apply StronglySorted_inv in Hs as [Hs _]. now apply IH.
Qed.

Lemma NoDup_drop_of {A : Type} (n : nat) (l : list A) : NoDup l -> NoDup (drop n l).
Proof.
  intros Hnd. rewrite <- (take_drop n l) in Hnd.
  now apply NoDup_app in Hnd as (_ & _ & Hnd).
Qed.

(** *** The claim on insertion *)

(** C1. Take an element whose children are consistent with its content
    model, the sequence [tag_seq], and a child declared, with any
    cardinality kind that generates an inserter, at position [k] of that
    sequence, its successors being the tags after a position [m] from [k]
    on: [m] is [k] for a child declared on its own, and the position of
    the last member for a member of a group of choices, no other member of
    which is there.  The generated inserter puts a new child immediately
    before the first existing child whose tag is among the successors, at
    the end when there is none, and the children are again consistent with
    the content model. *)
Theorem inserter_keeps_sequence (tag_seq : list string) (k m : nat)
    (d : _BaseChildElement) (obj child : Element) :
  NoDup tag_seq ->
  tag_seq !! k = Some (_nsptagname d) ->
  (k <= m)%nat ->
  _successors d = drop (S m) tag_seq ->
  Forall (fun c => rank tag_seq (tag c) <= k \/ m < rank tag_seq (tag c))%nat
         (children obj) ->
  adds_inserter (kind d) = true ->
  tag child = qn (_nsptagname d) ->
  in_sequence tag_seq (children obj) ->
  exists _insert_x before after,
    insert_method d = Some _insert_x /\
    children obj = before ++ after /\
    children (_insert_x obj child) = before ++ child :: after /\
    Forall (fun c => tag c ∉ _successors d) before /\
    match after with
    | [] => True
    | successor :: _ => tag successor ∈ _successors d
    end /\
    (Forall (fun c => tag c ∉ _successors d) (children obj) -> after = []) /\
    in_sequence tag_seq (children (_insert_x obj child)).
Proof.
  intros Hnd Hk Hkm Hsucc Hgap Hkind Htag [Hin Hsorted].
  unfold insert_method. rewrite Hkind.
  exists (_insert_child d).
  assert (Hchild_in : tag child ∈ tag_seq).
  { rewrite Htag. unfold qn. eapply list_elem_of_lookup_2. exact Hk. }
  assert (Hchild_rank : rank tag_seq (tag child) = k).
  { pose proof (rank_lookup _ _ Hchild_in) as Hr.
    rewrite Htag in Hr. unfold qn in Hr. rewrite Htag. unfold qn.
    eapply NoDup_lookup; eassumption. }
  assert (Hlow : forall c, c ∈ children obj -> tag c ∉ _successors d ->
                           (rank tag_seq (tag c) <= rank tag_seq (tag child))%nat).
  { intros c Hc Hnot. rewrite Hchild_rank. rewrite Hsucc in Hnot.
    assert (Hm : (rank tag_seq (tag c) <= m)%nat).
    { apply rank_not_after; [|assumption].
      rewrite Forall_forall in Hin. now apply Hin. }
    rewrite Forall_forall in Hgap. specialize (Hgap _ Hc). lia. }
  assert (Hhigh : forall c, tag c ∈ _successors d ->
                            (rank tag_seq (tag child) < rank tag_seq (tag c))%nat).
  { intros c Hc. rewrite Hchild_rank. rewrite Hsucc in Hc.
    apply rank_after in Hc; [lia|assumption]. }
  unfold _insert_child, insert_element_before.
  destruct (first_child_found_in obj (_successors d)) as [i|] eqn:Hfound.
  - destruct (first_child_found_in_Some _ _ _ Hfound)
      as (c & pre & post & Hc & Hsplit & Hfirst & Hpre).
    assert (Hc_succ : tag c ∈ _successors d).
    { rewrite Hsplit. apply elem_of_app. right. left. }
    assert (Hchildren : children obj = take i (children obj) ++ c :: drop (S i) (children obj)).
    { rewrite <- (take_drop_middle _ _ _ Hc) at 1. reflexivity. }
    assert (Hdrop : drop i (children obj) = c :: drop (S i) (children obj)).
    { now apply drop_S. }
    assert (Hbefore : Forall (fun c' => tag c' ∉ _successors d) (take i (children obj))).
    { apply Forall_forall. intros c' Hc' Hc'succ.
      (* [c'] stands before [c], so its tag is not later in the sequence *)
      assert (Hle : (rank tag_seq (tag c') <= rank tag_seq (tag c))%nat).
      { rewrite Hchildren in Hsorted.
        apply list_elem_of_split in Hc' as (l1 & l2 & Hl).
        rewrite Hl in Hsorted. rewrite <- app_assoc in Hsorted. simpl in Hsorted.
        apply StronglySorted_app_r in Hsorted.
        apply StronglySorted_inv in Hsorted as [_ Hall].
        rewrite Forall_forall in Hall. apply Hall.
        apply elem_of_app. right. left. }
      assert (Hne : tag c' <> tag c).
      { rewrite Forall_forall in Hfirst. now apply Hfirst. }
      rewrite Hsplit in Hc'succ.
      apply elem_of_app in Hc'succ as [Hp|Hp].
      - rewrite Forall_forall in Hpre. specialize (Hpre _ Hp).
        rewrite Forall_forall in Hpre. apply (Hpre c'); [|reflexivity].
        eapply subseteq_take; eassumption.
      - apply elem_of_cons in Hp as [Hp|Hp]; [contradiction|].
        assert (Hlt : (rank (_successors d) (tag c) < rank (_successors d) (tag c'))%nat).
        { rewrite Hsplit. apply rank_later; [|assumption].
          rewrite <- Hsplit, Hsucc. now apply NoDup_drop_of. }
        (* positions in [tag_seq] are those in the successors, shifted *)
        assert (Hshift : forall t, t ∈ _successors d ->
                  rank tag_seq t = (S m + rank (_successors d) t)%nat).
        { intros t Ht. rewrite Hsucc in Ht |- *.
          assert (Hnot : t ∉ take (S m) tag_seq).
          { intros Ht'. pose proof Hnd as Hnd'.
            rewrite <- (take_drop (S m) tag_seq) in Hnd'.
            apply NoDup_app in Hnd' as (_ & Hdisj & _). now apply (Hdisj t). }
          rewrite <- (take_drop (S m) tag_seq) at 1.
          rewrite rank_app_r by assumption. rewrite length_take.
          assert (S m <= length tag_seq)%nat; [|lia].
          destruct (Nat.le_gt_cases (S m) (length tag_seq)) as [H|H]; [assumption|].
          rewrite drop_ge in Ht by lia. now apply elem_of_nil in Ht. }
        rewrite (Hshift (tag c)) in Hle by assumption.
        rewrite (Hshift (tag c')) in Hle.
        + lia.
        + rewrite Hsplit. apply elem_of_app. right. now right. }
    exists (take i (children obj)), (drop i (children obj)).
    split; [reflexivity|]. split; [now rewrite take_drop|].
    split; [reflexivity|]. split; [assumption|].
    rewrite Hdrop. split; [assumption|]. split.
    { intros Hall. exfalso. rewrite Forall_forall in Hall. apply (Hall c); [|assumption].
      eapply list_elem_of_lookup_2; eassumption. }
    simpl. rewrite Hdrop. split.
    + rewrite <- Hdrop. apply Forall_app. split.
      * apply Forall_take. assumption.
      * constructor; [assumption|]. apply Forall_drop. assumption.
    + apply StronglySorted_insert.
      * now rewrite <- Hdrop, take_drop.
      * apply Forall_forall. intros c' Hc'. apply Hlow.
        -- eapply subseteq_take; eassumption.
        -- rewrite Forall_forall in Hbefore. now apply Hbefore.
      * assert (Hrest : Forall (fun z => (rank tag_seq (tag c) <= rank tag_seq (tag z))%nat)
                               (drop (S i) (children obj))).
        { rewrite Hchildren in Hsorted.
          apply StronglySorted_app_r in Hsorted.
          now apply StronglySorted_inv in Hsorted as [_ Hall]. }
        pose proof (Hhigh c Hc_succ) as Hc_high.
        constructor; [lia|].
        eapply Forall_impl; [exact Hrest|]. simpl. intros z Hz. lia.
  - apply first_child_found_in_None in Hfound.
    exists (children obj), []. split; [reflexivity|].
    split; [now rewrite app_nil_r|]. split; [reflexivity|].
    split; [assumption|]. split; [exact I|]. split; [reflexivity|].
    simpl. split.
    + apply Forall_app. split; [assumption|]. now constructor.
    + apply StronglySorted_insert.
      * now rewrite app_nil_r.
      * apply Forall_forall. intros c Hc. apply Hlow; [assumption|].
        rewrite Forall_forall in Hfound. now apply Hfound.
      * constructor.
Qed.

Lemma inserter_keeps_sequence_witness :
  exists _insert_x,
    insert_method (mk_BaseChildElement ZeroOrOne "w:gridSpan"
                     ["w:hMerge"; "w:vMerge"; "w:tcBorders"]%string) = Some _insert_x /\
    children (_insert_x
                (mk_Element "w:tcPr" []
                   [OxmlElement "w:tcW"; OxmlElement "w:vMerge"; OxmlElement "w:tcBorders"])
                (OxmlElement "w:gridSpan"))
    = [OxmlElement "w:tcW"; OxmlElement "w:gridSpan"; OxmlElement "w:vMerge";
       OxmlElement "w:tcBorders"].
Proof.
  destruct (inserter_keeps_sequence
              ["w:cnfStyle"; "w:tcW"; "w:gridSpan"; "w:hMerge"; "w:vMerge"; "w:tcBorders"]%string
              2%nat 2%nat
              (mk_BaseChildElement ZeroOrOne "w:gridSpan"
                 ["w:hMerge"; "w:vMerge"; "w:tcBorders"]%string)
              (mk_Element "w:tcPr" []
                 [OxmlElement "w:tcW"; OxmlElement "w:vMerge"; OxmlElement "w:tcBorders"])
              (OxmlElement "w:gridSpan"))
    as (ins & before & after & Hins & _).
  - apply (bool_decide_unpack _). vm_compute. reflexivity.
  - reflexivity.
  - lia.
  - reflexivity.
  - repeat constructor; vm_compute; lia.
  - reflexivity.
  - reflexivity.
  - split.
    + repeat constructor; simpl; rewrite !elem_of_cons; auto 10.
    + repeat constructor; simpl; lia.
  - exists ins. split; [exact Hins|].
    injection Hins as <-. vm_compute. reflexivity.
Defined.

End OxmlFacts.

(** ** [int(str(n))] is [n] *)

Module SimpleTypesFacts.
Import SimpleTypes.

Lemma list_ascii_of_string_app (s1 s2 : string) :
  list_ascii_of_string (s1 +:+ s2) = list_ascii_of_string s1 ++ list_ascii_of_string s2.
Proof.
  induction s1 as [|c s1 IH]; [reflexivity|].
  change (c :: list_ascii_of_string (s1 +:+ s2)
          = c :: (list_ascii_of_string s1 ++ list_ascii_of_string s2)).
  f_equal. exact IH.
Qed.

Lemma append_assoc (s1 s2 s3 : string) : (s1 +:+ s2) +:+ s3 = s1 +:+ (s2 +:+ s3).
Proof.
  induction s1 as [|c s1 IH]; [reflexivity|].
  change (String c ((s1 +:+ s2) +:+ s3) = String c (s1 +:+ (s2 +:+ s3))).
  f_equal. exact IH.
Qed.

Lemma pretty_N_go_app (x : N) (s : string) :
  pretty_N_go x s = pretty_N_go x EmptyString +:+ s.
Proof.
  revert s. induction (N.lt_wf_0 x) as [x _ IH]; intros s.
  destruct (decide (x = 0)%N) as [->|Hx].
  - now rewrite !pretty_N_go_0.
  - rewrite (pretty_N_go_step x s), (pretty_N_go_step x EmptyString) by lia.
    assert (Hlt : (x `div` 10 < x)%N) by (apply N.div_lt; lia).
    rewrite (IH _ Hlt (String _ s)).
    rewrite (IH _ Hlt (String _ EmptyString)).
    rewrite append_assoc. reflexivity.
Qed.

Lemma digit_value_pretty_N_char (x : N) :
  (x < 10)%N -> digit_value (pretty_N_char x) = Some (Z.of_N x).
Proof.
  intros Hx.
  assert (x = 0 \/ x = 1 \/ x = 2 \/ x = 3 \/ x = 4 \/ x = 5 \/ x = 6 \/ x = 7
          \/ x = 8 \/ x = 9)%N as Hcases by lia.
  repeat (destruct Hcases as [->|Hcases]; [reflexivity|]). subst x. reflexivity.
Qed.

Lemma digit_not_space (c : ascii) (d : Z) :
  digit_value c = Some d -> is_space c = false /\ c <> "_"%char /\ c <> "+"%char /\ c <> "-"%char.
Proof.
  destruct c as [[] [] [] [] [] [] [] []]; vm_compute; intros H; try discriminate H;
    repeat split; discriminate.
Qed.

Lemma more_digits_snoc (l : list ascii) (c : ascii) (value value' d : Z) (b : bool) :
  more_digits l value b = Some value' -> digit_value c = Some d ->
  more_digits (l ++ [c]) value b = Some (10 * value' + d).
Proof.
  intros Hl Hc. revert value b Hl. induction l as [|a l IH]; intros value b; simpl.
  - destruct b; [discriminate|]. intros [= <-].
    destruct (digit_not_space c d Hc) as (_ & Hus & _).
    rewrite decide_False by assumption. now rewrite Hc.
  - destruct (decide (a = "_"%char)).
    + destruct b; [discriminate|]. apply IH.
    + destruct (digit_value a); [apply IH|discriminate].
Qed.

Lemma digits_snoc (l : list ascii) (c : ascii) (value d : Z) :
  digits l = Some value -> digit_value c = Some d ->
  digits (l ++ [c]) = Some (10 * value + d).
Proof.
  destruct l as [|a l]; simpl; [discriminate|].
  destruct (digit_value a); [|discriminate]. apply more_digits_snoc.
Qed.

(** The digits [pretty] writes are read back, and none of them is white
    space. *)
Lemma digits_pretty_N_go (x : N) :
  (0 < x)%N ->
  digits (list_ascii_of_string (pretty_N_go x EmptyString)) = Some (Z.of_N x) /\
  Forall (fun c => is_space c = false) (list_ascii_of_string (pretty_N_go x EmptyString)).
Proof.
  induction (N.lt_wf_0 x) as [x _ IH]; intros Hx.
  rewrite pretty_N_go_step by assumption. rewrite pretty_N_go_app.
  rewrite list_ascii_of_string_app. simpl list_ascii_of_string at 2.
  assert (Hlt : (x `mod` 10 < 10)%N) by (apply N.mod_lt; lia).
  pose proof (digit_value_pretty_N_char _ Hlt) as Hc.
  destruct (digit_not_space _ _ Hc) as (Hsp & _).
  destruct (decide (x `div` 10 = 0)%N) as [Hz|Hnz].
  - rewrite Hz, pretty_N_go_0. simpl. rewrite Hc. split.
    + f_equal. rewrite (N.div_mod x 10) at 2 by lia. rewrite Hz. lia.
    + now repeat constructor.
  - destruct (IH (x `div` 10)%N) as [Hd Hns];
      [apply N.div_lt; lia|now apply N.neq_0_lt_0|].
    split.
    + rewrite (digits_snoc _ _ _ _ Hd Hc). f_equal.
      rewrite (N.div_mod x 10) at 3 by lia. lia.
    + apply Forall_app. split; [assumption|]. now repeat constructor.
Qed.

Lemma lstrip_no_space (l : list ascii) :
  Forall (fun c => is_space c = false) l -> lstrip l = l.
Proof. destruct 1 as [|c l Hc _]; simpl; [reflexivity|now rewrite Hc]. Qed.

Lemma strip_no_space (l : list ascii) :
  Forall (fun c => is_space c = false) l -> strip l = l.
Proof.
  intros Hl. unfold strip. rewrite (lstrip_no_space l Hl).
  rewrite lstrip_no_space.
  - apply rev_involutive.
  - apply List.Forall_rev. assumption.
Qed.

Lemma int_digits (s : string) (value : Z) :
  Forall (fun c => is_space c = false) (list_ascii_of_string s) ->
  digits (list_ascii_of_string s) = Some value ->
  int s = Ok value.
Proof.
  intros Hns Hd. unfold int. rewrite (strip_no_space _ Hns).
  destruct (list_ascii_of_string s) as [|c l]; [discriminate|].
  pose proof Hd as Hd'. simpl in Hd'.
  destruct (digit_value c) as [d|] eqn:Hc; [|discriminate].
  destruct (digit_not_space c d Hc) as (_ & _ & Hplus & Hminus).
  assert (Hhead : match c :: l with
                  | "+"%char :: rest => digits rest
                  | "-"%char :: rest => Z.opp <$> digits rest
                  | rest => digits rest
                  end = digits (c :: l)).
  { destruct c as [[] [] [] [] [] [] [] []]; try reflexivity; congruence. }
  rewrite Hhead, Hd. reflexivity.
Qed.

Lemma int_str (value : Z) : int (str value) = Ok value.
Proof.
  destruct value as [|p|p].
  - reflexivity.
  - unfold str, pretty, pretty_Z, pretty, pretty_positive, pretty, pretty_N.
    rewrite decide_False by discriminate.
    destruct (digits_pretty_N_go (N.pos p)) as [Hd Hns]; [lia|].
    now apply int_digits.
  - unfold str, pretty, pretty_Z, pretty, pretty_positive, pretty, pretty_N.
    rewrite decide_False by discriminate.
    destruct (digits_pretty_N_go (N.pos p)) as [Hd Hns]; [lia|].
    unfold int. rewrite list_ascii_of_string_app. simpl list_ascii_of_string at 1.
    rewrite strip_no_space by (constructor; [reflexivity|assumption]).
    simpl. rewrite Hd. reflexivity.
Qed.

End SimpleTypesFacts.

(** ** Rows, cells and the merge of cells *)

Module TableFacts.
Import Oxml SimpleTypes Table.

(** *** Positions of children *)

Lemma findall_from_bounds (first : nat) (tag' : string) (l : list Element) :
  Forall (fun i => first <= i)%nat (findall_from first tag' l) /\
  StronglySorted lt (findall_from first tag' l).
Proof.
  revert first. induction l as [|c l IH]; intros first; simpl.
  - split; constructor.
  - destruct (IH (S first)) as [Hge Hsorted].
    assert (Hge' : Forall (fun i => first <= i)%nat (findall_from (S first) tag' l)).
    { eapply Forall_impl; [exact Hge|]. simpl. intros. lia. }
    destruct (decide (tag c = tag')); [|now split].
    split.
    + constructor; [lia|assumption].
    + constructor; [assumption|].
      eapply Forall_impl; [exact Hge|]. simpl. intros. lia.
Qed.

Lemma tc_lst_sorted (tr : Element) : StronglySorted lt (CT_Row.tc_lst tr).
Proof. apply findall_from_bounds. Qed.

Lemma sorted_filter_lt (pre post : list nat) (x : nat) :
  StronglySorted lt (pre ++ x :: post) ->
  filter (fun y => y < x)%nat (pre ++ x :: post) = pre.
Proof.
  induction pre as [|p pre IH]; simpl; intros Hs.
  - apply StronglySorted_inv in Hs as [_ Hall].
    rewrite filter_cons_False by lia.
    induction post as [|q post IHp]; [reflexivity|].
    apply Forall_cons in Hall as [Hq Hall].
    rewrite filter_cons_False by lia. now apply IHp.
  - apply StronglySorted_inv in Hs as [Hs Hall].
    rewrite filter_cons_True.
    + f_equal. now apply IH.
    + rewrite Forall_forall in Hall. apply Hall.
      apply elem_of_app. right. left.
Qed.

Lemma sorted_lookup_le (l : list nat) (i j x y : nat) :
  StronglySorted lt l -> l !! i = Some x -> l !! j = Some y -> (i <= j)%nat -> (x <= y)%nat.
Proof.
  intros Hs. revert i j. induction Hs as [|a l Hs IH Hall]; intros i j Hi Hj Hij.
  - discriminate.
  - destruct i as [|i], j as [|j]; simpl in *.
    + injection Hi as <-. injection Hj as <-. lia.
    + injection Hi as <-. rewrite Forall_forall in Hall.
      assert (a < y)%nat; [|lia]. apply Hall. eapply list_elem_of_lookup_2. exact Hj.
    + lia.
    + eapply IH; eauto. lia.
Qed.

(** *** [sum] *)

Lemma sum_of_start (items : list (result Z)) (start : Z) :
  sum_of items start = (fun total => start + total) <$> sum_of items 0.
Proof.
  revert start. induction items as [|item items IH]; intros start; simpl.
  - f_equal. lia.
  - destruct item as [value|e]; simpl; [|reflexivity].
    change (sum_of items (start + value) = (fun total => start + total) <$> sum_of items value).
    rewrite (IH (start + value)), (IH value).
    destruct (sum_of items 0); simpl; [f_equal; lia|reflexivity].
Qed.

Lemma sum_of_cons_Ok (value : Z) (items : list (result Z)) (total : Z) :
  sum_of items 0 = Ok total -> sum_of (Ok value :: items) 0 = Ok (value + total).
Proof. intros H. simpl. rewrite sum_of_start, H. reflexivity. Qed.

Lemma sum_of_cons_inv (value : Z) (items : list (result Z)) (total : Z) :
  sum_of (Ok value :: items) 0 = Ok total -> sum_of items 0 = Ok (total - value).
Proof.
  simpl. rewrite sum_of_start. destruct (sum_of items 0); simpl; [|discriminate].
  intros [= <-]. f_equal. lia.
Qed.

(** *** The loop of [tc_at_grid_offset] *)

Section Row.
Variable tr : Element.

Local Abbreviation span_of := (span_of tr).
Local Abbreviation readable := (readable tr).
Local Abbreviation spans_not_negative := (spans_not_negative tr).

Lemma loop_sound (tcs : list nat) (remaining_offset : Z) (tc : nat) :
  CT_Row.tc_at_remaining_offset tr tcs remaining_offset = Ok (Some tc) ->
  exists pre post, tcs = pre ++ tc :: post /\
                   sum_of (span_of <$> pre) 0 = Ok remaining_offset.
Proof.
  revert remaining_offset. induction tcs as [|p rest IH]; intros rem; simpl.
  - discriminate.
  - destruct (rem <? 0) eqn:Hneg; [discriminate|].
    destruct (rem =? 0) eqn:Hzero.
    + intros [= <-]. exists [], rest. split; [reflexivity|].
      apply Z.eqb_eq in Hzero. now subst.
    + fold (span_of p). destruct (span_of p) as [s|e] eqn:Hs; simpl; [|discriminate].
      intros Hloop. destruct (IH _ Hloop) as (pre & post & -> & Hsum).
      exists (p :: pre), post. split; [reflexivity|].
      rewrite fmap_cons, Hs. rewrite (sum_of_cons_Ok _ _ _ Hsum). f_equal. lia.
Qed.

Lemma loop_returns (tcs : list nat) (remaining_offset : Z) :
  readable tcs ->
  exists found, CT_Row.tc_at_remaining_offset tr tcs remaining_offset = Ok found.
Proof.
  intros Hr. revert remaining_offset.
  induction Hr as [|p rest Hp Hr IH]; intros rem; simpl.
  - now exists None.
  - destruct (rem <? 0); [now exists None|].
    destruct (rem =? 0); [now exists (Some p)|].
    fold (span_of p). destruct (span_of p) as [s|e]; simpl; [|contradiction].
    apply IH.
Qed.

Lemma sum_not_negative (tcs : list nat) (total : Z) :
  spans_not_negative tcs -> sum_of (span_of <$> tcs) 0 = Ok total -> 0 <= total.
Proof.
  intros Hn. revert total. induction Hn as [|p rest (s & Hs & Hpos) Hn IH]; intros total.
  - simpl. intros [= <-]. lia.
  - rewrite fmap_cons, Hs. intros Hsum%sum_of_cons_inv.
    specialize (IH _ Hsum). lia.
Qed.

Lemma loop_complete (pre post : list nat) (tc : nat) (remaining_offset : Z) :
  spans_not_negative (pre ++ tc :: post) ->
  sum_of (span_of <$> pre) 0 = Ok remaining_offset ->
  exists pre' tc' post',
    pre ++ tc :: post = pre' ++ tc' :: post' /\
    CT_Row.tc_at_remaining_offset tr (pre ++ tc :: post) remaining_offset = Ok (Some tc') /\
    (length pre' <= length pre)%nat /\
    sum_of (span_of <$> pre') 0 = Ok remaining_offset.
Proof.
  revert remaining_offset. induction pre as [|p pre IH]; intros rem Hn Hsum.
  - simpl in Hsum. injection Hsum as <-.
    exists [], tc, post. simpl. repeat split; reflexivity || lia.
  - simpl in Hn. pose proof Hn as Hn'. apply Forall_cons in Hn' as [(s & Hs & Hpos) Hrest].
    rewrite fmap_cons, Hs in Hsum. pose proof (sum_of_cons_inv _ _ _ Hsum) as Hsum'.
    assert (Hpre : spans_not_negative pre).
    { unfold spans_not_negative in *. now apply Forall_app in Hrest as [Hrest _]. }
    pose proof (sum_not_negative _ _ Hpre Hsum') as Hge.
    destruct (Z.eq_dec rem 0) as [->|Hne].
    + exists [], p, (pre ++ tc :: post). simpl. repeat split; try reflexivity; lia.
    + destruct (IH _ Hrest Hsum') as (pre' & tc' & post' & Hsplit & Hloop & Hlen & Hsum'').
      exists (p :: pre'), tc', post'. simpl. rewrite Hsplit. split; [reflexivity|].
      split; [|split].
      * destruct (rem <? 0) eqn:Hneg; [apply Z.ltb_lt in Hneg; lia|].
        destruct (rem =? 0) eqn:Hzero; [apply Z.eqb_eq in Hzero; lia|].
        fold (span_of p). rewrite Hs. simpl. rewrite <- Hsplit. exact Hloop.
      * lia.
      * change (sum_of (span_of p :: (span_of <$> pre')) 0 = Ok rem).
        rewrite Hs. rewrite (sum_of_cons_Ok _ _ _ Hsum''). f_equal. lia.
Qed.

(** [grid_offset] of a cell of the row, from the cells before it *)
Lemma grid_offset_in_split (pre post : list nat) (tc : nat) :
  CT_Row.tc_lst tr = pre ++ tc :: post ->
  CT_Tc.grid_offset_in tr tc =
    (grid_before ← CT_Row.grid_before tr;
     preceding ← sum_of (span_of <$> pre) 0;
     Ok (grid_before + preceding)).
Proof.
  intros Hsplit. unfold CT_Tc.grid_offset_in.
  pose proof (tc_lst_sorted tr) as Hs. rewrite Hsplit in Hs |- *.
  rewrite (sorted_filter_lt _ _ _ Hs). reflexivity.
Qed.

Lemma sum_app_not_negative (l1 l2 : list nat) :
  spans_not_negative (l1 ++ l2) ->
  exists t1 t2,
    sum_of (span_of <$> l1) 0 = Ok t1 /\ sum_of (span_of <$> l2) 0 = Ok t2 /\
    sum_of (span_of <$> (l1 ++ l2)) 0 = Ok (t1 + t2) /\ 0 <= t1 /\ 0 <= t2.
Proof.
  induction l1 as [|p l1 IH]; simpl; intros Hn.
  - assert (Ht : exists t, sum_of (span_of <$> l2) 0 = Ok t /\ 0 <= t).
    { induction Hn as [|q l2 (s & Hs & Hpos) Hn IH].
      - exists 0. split; [reflexivity|lia].
      - destruct IH as (t & Ht & Hge). exists (s + t).
        change (sum_of (span_of q :: (span_of <$> l2)) 0 = Ok (s + t) /\ 0 <= s + t).
        rewrite Hs. split; [now apply sum_of_cons_Ok|lia]. }
    destruct Ht as (t & Ht & Hge). exists 0, t. repeat split; try assumption; try lia.
  - apply Forall_cons in Hn as [(s & Hs & Hpos) Hn].
    destruct (IH Hn) as (t1 & t2 & H1 & H2 & H12 & Hge1 & Hge2).
    exists (s + t1), t2.
    change (sum_of (span_of p :: (span_of <$> l1)) 0 = Ok (s + t1) /\
            sum_of (span_of <$> l2) 0 = Ok t2 /\
            sum_of (span_of p :: (span_of <$> (l1 ++ l2))) 0 = Ok (s + t1 + t2) /\
            0 <= s + t1 /\ 0 <= t2).
    rewrite Hs. repeat split; try assumption; try lia.
    + now apply sum_of_cons_Ok.
    + rewrite <- Z.add_assoc. now apply sum_of_cons_Ok.
Qed.

(** With no negative span, a cell further right starts no earlier than the
    end of a cell further left. *)
Lemma starts_in_order (pre mid post : list nat) (x y : nat) (start_x start_y span_x : Z) :
  CT_Row.tc_lst tr = pre ++ x :: mid ++ y :: post ->
  spans_not_negative (CT_Row.tc_lst tr) ->
  CT_Tc.grid_offset_in tr x = Ok start_x ->
  CT_Tc.grid_offset_in tr y = Ok start_y ->
  span_of x = Ok span_x ->
  start_x + span_x <= start_y.
Proof.
  intros Hsplit Hn Hx Hy Hspan.
  rewrite (grid_offset_in_split pre (mid ++ y :: post) x Hsplit) in Hx.
  assert (Hsplit' : CT_Row.tc_lst tr = (pre ++ x :: mid) ++ y :: post).
  { rewrite Hsplit, <- app_assoc. reflexivity. }
  rewrite (grid_offset_in_split _ _ y Hsplit') in Hy.
  destruct (CT_Row.grid_before tr) as [gb|e]; simpl in Hx, Hy; [|discriminate].
  rewrite Hsplit' in Hn. unfold Table.spans_not_negative in Hn.
  apply Forall_app in Hn as [Hn _].
  destruct (sum_app_not_negative pre (x :: mid) Hn) as (t1 & t2 & H1 & H2 & H12 & Hge1 & Hge2).
  rewrite H1 in Hx. rewrite H12 in Hy. simpl in Hx, Hy.
  injection Hx as <-. injection Hy as <-.
  apply Forall_app in Hn as [_ Hn].
  change (sum_of (span_of x :: (span_of <$> mid)) 0 = Ok t2) in H2.
  rewrite Hspan in H2. apply sum_of_cons_inv in H2.
  apply Forall_cons in Hn as [_ Hn].
  pose proof (sum_not_negative _ _ Hn H2). lia.
Qed.

End Row.

(** *** The claim on [tc_at_grid_offset] *)

(** C10, as the code has it.  In a row whose [grid_before] and whose cells'
    grid spans can be read, [tc_at_grid_offset] returns only a cell of the
    row whose starting grid offset, [grid_before] plus the grid spans of the
    cells before it, is the requested one, and it raises [ValueError] when
    no cell of the row starts there.  When in addition no grid span is
    negative, a cell that starts at the requested offset is found, the
    first of them, and an offset strictly inside the span of a cell, or
    past the start of the last cell, raises [ValueError]. *)
Theorem tc_at_grid_offset_exact (tr : Element) (grid_offset : Z) :
  is_ok (CT_Row.grid_before tr) ->
  readable tr (CT_Row.tc_lst tr) ->
  (forall tc, CT_Row.tc_at_grid_offset tr grid_offset = Ok tc ->
     tc ∈ CT_Row.tc_lst tr /\ CT_Tc.grid_offset_in tr tc = Ok grid_offset) /\
  ((forall tc, tc ∈ CT_Row.tc_lst tr -> CT_Tc.grid_offset_in tr tc <> Ok grid_offset) ->
     CT_Row.tc_at_grid_offset tr grid_offset = Raise (CT_Row.no_tc_at grid_offset)) /\
  (spans_not_negative tr (CT_Row.tc_lst tr) ->
     (forall tc, tc ∈ CT_Row.tc_lst tr -> CT_Tc.grid_offset_in tr tc = Ok grid_offset ->
        exists tc', CT_Row.tc_at_grid_offset tr grid_offset = Ok tc' /\ (tc' <= tc)%nat /\
                    CT_Tc.grid_offset_in tr tc' = Ok grid_offset) /\
     (forall tc start span,
        tc ∈ CT_Row.tc_lst tr -> CT_Tc.grid_offset_in tr tc = Ok start ->
        span_of tr tc = Ok span -> start < grid_offset < start + span ->
        CT_Row.tc_at_grid_offset tr grid_offset = Raise (CT_Row.no_tc_at grid_offset)) /\
     (forall tc start,
        last (CT_Row.tc_lst tr) = Some tc -> CT_Tc.grid_offset_in tr tc = Ok start ->
        start < grid_offset ->
        CT_Row.tc_at_grid_offset tr grid_offset = Raise (CT_Row.no_tc_at grid_offset))).
Proof.
  intros Hgb Hread.
  destruct (CT_Row.grid_before tr) as [gb|e] eqn:Egb; [clear Hgb|contradiction].
  assert (Hsound : forall tc, CT_Row.tc_at_grid_offset tr grid_offset = Ok tc ->
            tc ∈ CT_Row.tc_lst tr /\ CT_Tc.grid_offset_in tr tc = Ok grid_offset).
  { intros tc. unfold CT_Row.tc_at_grid_offset. rewrite Egb. simpl.
    destruct (CT_Row.tc_at_remaining_offset tr (CT_Row.tc_lst tr) (grid_offset - gb))
      as [[tc'|]|e] eqn:Hloop; simpl; try discriminate.
    intros [= ->].
    destruct (loop_sound _ _ _ _ Hloop) as (pre & post & Hsplit & Hsum).
    split.
    - rewrite Hsplit. apply elem_of_app. right. left.
    - rewrite (grid_offset_in_split _ _ _ _ Hsplit), Egb, Hsum. simpl. f_equal. lia. }
  assert (Hnone : (forall tc, tc ∈ CT_Row.tc_lst tr ->
                     CT_Tc.grid_offset_in tr tc <> Ok grid_offset) ->
            CT_Row.tc_at_grid_offset tr grid_offset = Raise (CT_Row.no_tc_at grid_offset)).
  { intros Hno.
    destruct (CT_Row.tc_at_grid_offset tr grid_offset) as [tc|e] eqn:Hres.
    - destruct (Hsound tc eq_refl) as [Hin Hoff]. now destruct (Hno tc Hin).
    - revert Hres. unfold CT_Row.tc_at_grid_offset. rewrite Egb. simpl.
      destruct (loop_returns tr _ (grid_offset - gb) Hread) as [found ->]. simpl.
      destruct found; [discriminate|]. intros [= <-]. reflexivity. }
  split; [exact Hsound|]. split; [exact Hnone|].
  intros Hn. split; [|split].
  - intros tc Hin Hoff.
    apply list_elem_of_split in Hin as (pre & post & Hsplit).
    rewrite (grid_offset_in_split _ _ _ _ Hsplit), Egb in Hoff. simpl in Hoff.
    destruct (sum_of (Table.span_of tr <$> pre) 0) as [t|e] eqn:Hsum; [|discriminate].
    simpl in Hoff. injection Hoff as Hoff.
    assert (Hrem : sum_of (Table.span_of tr <$> pre) 0 = Ok (grid_offset - gb)).
    { rewrite Hsum. f_equal. lia. }
    rewrite Hsplit in Hn.
    destruct (loop_complete tr pre post tc _ Hn Hrem)
      as (pre' & tc' & post' & Hsplit' & Hloop & Hlen & Hsum').
    rewrite <- Hsplit in Hloop, Hsplit'.
    assert (Hres : CT_Row.tc_at_grid_offset tr grid_offset = Ok tc').
    { unfold CT_Row.tc_at_grid_offset. rewrite Egb. simpl. rewrite Hloop. reflexivity. }
    exists tc'. split; [exact Hres|]. split; [|now apply Hsound].
    eapply (sorted_lookup_le (CT_Row.tc_lst tr) (length pre') (length pre)).
    + apply tc_lst_sorted.
    + rewrite Hsplit'. now apply list_lookup_middle.
    + rewrite Hsplit. now apply list_lookup_middle.
    + exact Hlen.
  - intros tc start span Hin Hstart Hspan Hinside.
    apply Hnone. intros tc' Hin' Hstart'.
    apply list_elem_of_split in Hin as (pre & post & Hsplit).
    rewrite Hsplit in Hin'.
    apply elem_of_app in Hin' as [Hin'|Hin'].
    + apply list_elem_of_split in Hin' as (p1 & p2 & ->).
      rewrite <- app_assoc in Hsplit. simpl in Hsplit.
      destruct (Forall_forall (fun tc => exists s, Table.span_of tr tc = Ok s /\ 0 <= s)
                  (CT_Row.tc_lst tr)) as [Hall _].
      destruct (Hall Hn tc') as (s' & Hs' & Hpos').
      { rewrite Hsplit. apply elem_of_app. right. left. }
      pose proof (starts_in_order tr p1 p2 post tc' tc _ _ _ Hsplit Hn Hstart' Hstart Hs').
      lia.
    + apply elem_of_cons in Hin' as [->|Hin'].
      * rewrite Hstart in Hstart'. injection Hstart' as ->. lia.
      * apply list_elem_of_split in Hin' as (p1 & p2 & ->).
        pose proof (starts_in_order tr pre p1 p2 tc tc' _ _ _ Hsplit Hn Hstart Hstart' Hspan).
        lia.
  - intros tc start Hlast Hstart Hpast.
    apply Hnone. intros tc' Hin' Hstart'.
    apply last_Some in Hlast as [pre Hsplit].
    rewrite Hsplit in Hin'.
    apply elem_of_app in Hin' as [Hin'|Hin'].
    + apply list_elem_of_split in Hin' as (p1 & p2 & ->).
      rewrite <- app_assoc in Hsplit. simpl in Hsplit.
      destruct (Forall_forall (fun tc => exists s, Table.span_of tr tc = Ok s /\ 0 <= s)
                  (CT_Row.tc_lst tr)) as [Hall _].
      destruct (Hall Hn tc') as (s' & Hs' & Hpos').
      { rewrite Hsplit. apply elem_of_app. right. left. }
      pose proof (starts_in_order tr p1 p2 [] tc' tc _ _ _ Hsplit Hn Hstart' Hstart Hs').
      lia.
    + apply list_elem_of_singleton in Hin' as ->.
      rewrite Hstart in Hstart'. injection Hstart' as ->. lia.
Qed.

Lemma tc_at_grid_offset_exact_witness :
  CT_Row.tc_at_grid_offset Examples.row_2_1_1 1 = Raise (CT_Row.no_tc_at 1) /\
  CT_Row.tc_at_grid_offset Examples.row_2_1_1 4 = Raise (CT_Row.no_tc_at 4) /\
  exists tc', CT_Row.tc_at_grid_offset Examples.row_2_1_1 3 = Ok tc' /\ (tc' <= 2)%nat /\
              CT_Tc.grid_offset_in Examples.row_2_1_1 tc' = Ok 3.
Proof.
  assert (Hgb : is_ok (CT_Row.grid_before Examples.row_2_1_1)) by exact I.
  assert (Hread : readable Examples.row_2_1_1 (CT_Row.tc_lst Examples.row_2_1_1)).
  { repeat constructor. }
  assert (Hn : spans_not_negative Examples.row_2_1_1 (CT_Row.tc_lst Examples.row_2_1_1)).
  { repeat (constructor; [eexists; split; [vm_compute; reflexivity|lia]|]). constructor. }
  split; [|split].
  - refine (proj1 (proj2 (proj2 (proj2 (tc_at_grid_offset_exact
                                             Examples.row_2_1_1 1 Hgb Hread)) Hn))
              0%nat 0 2 _ _ _ _).
    + vm_compute. left.
    + vm_compute. reflexivity.
    + vm_compute. reflexivity.
    + lia.
  - refine (proj2 (proj2 (proj2 (proj2 (tc_at_grid_offset_exact
                                             Examples.row_2_1_1 4 Hgb Hread)) Hn))
              2%nat 3 _ _ _).
    + vm_compute. reflexivity.
    + vm_compute. reflexivity.
    + lia.
  - refine (proj1 (proj2 (proj2 (tc_at_grid_offset_exact Examples.row_2_1_1 3 Hgb Hread)) Hn)
              2%nat _ _).
    + vm_compute. right. right. left.
    + vm_compute. reflexivity.
Defined.

(** C10 as stated fails: a cell that starts at the requested offset after a
    negative grid span is not found, and a grid span that cannot be read
    raises its own exception where no cell starts at the requested
    offset. *)
Lemma tc_at_grid_offset_counterexample :
  (CT_Row.tc_lst Examples.row_negative_span = [0; 1; 2]%nat /\
   CT_Tc.grid_offset_in Examples.row_negative_span 2 = Ok 1 /\
   CT_Row.tc_at_grid_offset Examples.row_negative_span 1 = Raise (CT_Row.no_tc_at 1)) /\
  (CT_Row.tc_lst Examples.row_unreadable_span = [0; 1]%nat /\
   CT_Tc.grid_offset_in Examples.row_unreadable_span 0 = Ok 0 /\
   (exists msg, CT_Tc.grid_offset_in Examples.row_unreadable_span 1
                = Raise (InvalidXmlError msg)) /\
   (exists msg, CT_Row.tc_at_grid_offset Examples.row_unreadable_span 1
                = Raise (InvalidXmlError msg))).
Proof. repeat split; try reflexivity; eexists; vm_compute; reflexivity. Qed.

(** *** Merging *)








(** The merge evaluated for some widths, a column of no width among them *)
Example merge_3x3_evaluated :
  Forall (fun width =>
    exists tbl a b tbl' below,
      CT_Tbl.new_tbl 3 3 width = Ok tbl /\
      cell_at tbl 0 0 = Ok a /\ cell_at tbl 1 1 = Ok b /\
      CT_Tc.merge tbl a b = Some (Ok (a, tbl')) /\
      CT_Tc_element.grid_span (CT_Tc.element tbl' a) = Ok 2 /\
      CT_Tc_element.vMerge (CT_Tc.element tbl' a) = Ok (Some ST_Merge.RESTART) /\
      CT_Tc._tc_below tbl' a = Ok (Some below) /\
      CT_Tc_element.vMerge (CT_Tc.element tbl' below) = Ok (Some ST_Merge.CONTINUE) /\
      CT_Tc_element.grid_span (CT_Tc.element tbl' below) = Ok 2)
    [0; 3; 5486400; 9144000].
Proof.
  repeat (constructor;
          [do 5 eexists; repeat (split; [vm_compute; reflexivity|]); vm_compute; reflexivity|]).
  constructor.
Qed.

(** C8 as stated fails: in the table whose row 0 has a cell two columns
    wide at column 0 and whose row 1 is uniform, merging the cells at row 0,
    column 0 and at row 1, column 2 succeeds, with the table written out
    and with the table made by [new_tbl] and a merge in its first row. *)
Lemma merge_wide_first_row_counterexample :
  (exists a b tbl',
     cell_at Examples.tbl_wide_first 0 0 = Ok a /\
     CT_Tc_element.grid_span (CT_Tc.element Examples.tbl_wide_first a) = Ok 2 /\
     cell_at Examples.tbl_wide_first 1 2 = Ok b /\
     CT_Tc_element.grid_span (CT_Tc.element Examples.tbl_wide_first b) = Ok 1 /\
     CT_Tc.merge Examples.tbl_wide_first a b = Some (Ok (a, tbl')) /\
     CT_Tc_element.grid_span (CT_Tc.element tbl' a) = Ok 3) /\
  (exists tbl0 a0 b0 tbl a b tbl',
     CT_Tbl.new_tbl 2 3 5486400 = Ok tbl0 /\
     cell_at tbl0 0 0 = Ok a0 /\ cell_at tbl0 0 1 = Ok b0 /\
     CT_Tc.merge tbl0 a0 b0 = Some (Ok (a0, tbl)) /\
     cell_at tbl 0 0 = Ok a /\
     CT_Tc_element.grid_span (CT_Tc.element tbl a) = Ok 2 /\
     cell_at tbl 1 2 = Ok b /\
     CT_Tc.merge tbl a b = Some (Ok (a, tbl')) /\
     CT_Tc_element.grid_span (CT_Tc.element tbl' a) = Ok 3).
Proof.
  split.
  - do 3 eexists. repeat (split; [vm_compute; reflexivity|]). vm_compute; reflexivity.
  - do 7 eexists. repeat (split; [vm_compute; reflexivity|]). vm_compute; reflexivity.
Qed.

(** *** [top] and [bottom] return *)

Lemma tr_above_lt (tbl : Element) (self : address) (tr : nat) :
  CT_Tc._tr_above tbl self = Ok tr -> (tr < tr_at self)%nat.
Proof.
  unfold CT_Tc._tr_above.
  destruct (last _) as [tr'|] eqn:Hlast; [|discriminate].
  intros [= <-]. apply last_Some in Hlast as [l' Hl'].
  assert (Hin : tr' ∈ filter (fun tr => tr < tr_at self)%nat (CT_Tbl.tr_lst tbl)).
  { rewrite Hl'. apply elem_of_app. right. left. }
  now apply list_elem_of_filter in Hin as [Hlt _].
Qed.

Lemma top_fuel_returns (fuel : nat) (tbl : Element) (self : address) :
  (tr_at self < fuel)%nat -> CT_Tc.top_fuel fuel tbl self <> None.
Proof.
  revert self. induction fuel as [|fuel IH]; intros self Hlt; [lia|].
  simpl. destruct (CT_Tc_element.vMerge (CT_Tc.element tbl self)) as [vMerge|e];
    simpl; [|discriminate].
  case_bool_decide; [discriminate|].
  unfold CT_Tc._tc_above.
  destruct (CT_Tc._tr_above tbl self) as [tr|e] eqn:Habove; simpl; [|discriminate].
  destruct (CT_Tc.grid_offset tbl self) as [off|e]; simpl; [|discriminate].
  destruct (CT_Row.tc_at_grid_offset (child_at tbl tr) off) as [tc|e]; simpl;
    [|discriminate].
  apply IH. simpl. apply tr_above_lt in Habove. lia.
Qed.

Lemma top_returns (tbl : Element) (self : address) : CT_Tc.top tbl self <> None.
Proof. apply top_fuel_returns. lia. Qed.

Lemma index_of_lookup (l : list nat) (i x : nat) :
  NoDup l -> l !! i = Some x -> index_of x l = Ok i.
Proof.
  intros Hnd. revert i. induction Hnd as [|y l Hy Hnd IH]; intros i Hi; [discriminate|].
  simpl. destruct i as [|i]; simpl in Hi.
  - injection Hi as ->. now rewrite decide_True.
  - rewrite decide_False.
    + now rewrite (IH _ Hi).
    + intros ->. apply Hy. eapply list_elem_of_lookup_2. exact Hi.
Qed.

Lemma sorted_lt_NoDup (l : list nat) : StronglySorted lt l -> NoDup l.
Proof.
  induction 1 as [|x l Hs IH Hall]; constructor; [|assumption].
  intros Hin. rewrite Forall_forall in Hall. specialize (Hall _ Hin). lia.
Qed.

Lemma findall_from_length (first : nat) (tag' : string) (l : list Element) :
  (length (findall_from first tag' l) <= length l)%nat.
Proof.
  revert first. induction l as [|c l IH]; intros first; simpl; [lia|].
  specialize (IH (S first)). destruct (decide (tag c = tag')); simpl; lia.
Qed.

Lemma tr_lst_NoDup (tbl : Element) : NoDup (CT_Tbl.tr_lst tbl).
Proof. apply sorted_lt_NoDup, findall_from_bounds. Qed.

Lemma bottom_fuel_returns (fuel : nat) (tbl : Element) (self : address) (tr_idx : nat) :
  CT_Tbl.tr_lst tbl !! tr_idx = Some (tr_at self) ->
  (length (CT_Tbl.tr_lst tbl) - tr_idx < fuel)%nat ->
  CT_Tc.bottom_fuel fuel tbl self <> None.
Proof.
  revert self tr_idx. induction fuel as [|fuel IH]; intros self tr_idx Hidx Hlt; [lia|].
  simpl. destruct (CT_Tc_element.vMerge (CT_Tc.element tbl self)) as [vMerge|e];
    simpl; [|discriminate].
  assert (Hown : forall A (k : Z -> fueled A),
            (forall z, k z <> None) ->
            fuel_bind (lift (CT_Tc._tr_idx tbl self)) k <> None).
  { intros A k Hk. destruct (CT_Tc._tr_idx tbl self); simpl; [apply Hk|discriminate]. }
  destruct vMerge as [vMerge|]; simpl; [|now apply Hown].
  unfold CT_Tc._tc_below, CT_Tc._tr_below.
  rewrite (index_of_lookup _ _ _ (tr_lst_NoDup tbl) Hidx). simpl.
  destruct (CT_Tbl.tr_lst tbl !! S tr_idx) as [tr_below|] eqn:Hbelow; simpl;
    [|now apply Hown].
  destruct (CT_Tc.grid_offset tbl self) as [off|e]; simpl; [|discriminate].
  destruct (CT_Row.tc_at_grid_offset (child_at tbl tr_below) off) as [tc|e]; simpl;
    [|discriminate].
  destruct (CT_Tc_element.vMerge (CT_Tc.element tbl (mk_address tr_below tc)))
    as [vMerge_below|e]; simpl; [|discriminate].
  destruct (decide (vMerge_below = Some ST_Merge.CONTINUE)); simpl; [|now apply Hown].
  apply (IH _ (S tr_idx)); [exact Hbelow|].
  apply lookup_lt_Some in Hbelow. lia.
Qed.

(** [bottom] returns for a cell whose row is a [w:tr] of the table; for
    another address it raises, in [index]. *)
Lemma bottom_returns (tbl : Element) (self : address) :
  CT_Tc.bottom tbl self <> None.
Proof.
  unfold CT_Tc.bottom.
  destruct (decide (tr_at self ∈ CT_Tbl.tr_lst tbl)) as [Hin|Hout].
  - apply list_elem_of_lookup in Hin as [tr_idx Hidx].
    apply (bottom_fuel_returns _ _ _ tr_idx Hidx).
    pose proof (findall_from_length 0 (qn "w:tr") (children tbl)).
    unfold CT_Tbl.tr_lst, findall_index in *. lia.
  - assert (Hraise : exists e, index_of (tr_at self) (CT_Tbl.tr_lst tbl) = Raise e).
    { clear -Hout. induction (CT_Tbl.tr_lst tbl) as [|y l IH]; simpl.
      - eexists. reflexivity.
      - apply not_elem_of_cons in Hout as [Hne Hout].
        rewrite decide_False by congruence.
        destruct (IH Hout) as [e ->]. eexists. reflexivity. }
    destruct Hraise as [e He].
    cbn [CT_Tc.bottom_fuel].
    destruct (CT_Tc_element.vMerge (CT_Tc.element tbl self)) as [vMerge|e'];
      simpl; [|discriminate].
    unfold CT_Tc._tc_below, CT_Tc._tr_below, CT_Tc._tr_idx. rewrite He.
    destruct vMerge; simpl; discriminate.
Qed.

(** The shapes [_span_dimensions] turns down, on the extents of two cells *)
Section Extents.
Variables (tbl : Element) (self other_tc : address).
Variables (self_top other_top self_bottom other_bottom : Z).
Variables (self_left other_left self_right other_right : Z).
Hypothesis Hself_top : CT_Tc.top tbl self = Some (Ok self_top).
Hypothesis Hother_top : CT_Tc.top tbl other_tc = Some (Ok other_top).
Hypothesis Hself_bottom : CT_Tc.bottom tbl self = Some (Ok self_bottom).
Hypothesis Hother_bottom : CT_Tc.bottom tbl other_tc = Some (Ok other_bottom).
Hypothesis Hself_left : CT_Tc.left tbl self = Ok self_left.
Hypothesis Hother_left : CT_Tc.left tbl other_tc = Ok other_left.
Hypothesis Hself_right : CT_Tc.right tbl self = Ok self_right.
Hypothesis Hother_right : CT_Tc.right tbl other_tc = Ok other_right.

Local Ltac extents :=
  repeat first
    [ rewrite Hself_top | rewrite Hother_top | rewrite Hself_bottom
    | rewrite Hother_bottom | rewrite Hself_left | rewrite Hother_left
    | rewrite Hself_right | rewrite Hother_right ];
  cbn [fuel_bind lift negb].

Local Ltac decide_tests :=
  repeat match goal with
         | |- context [if ?c then _ else _] => destruct c eqn:?; extents
         end.

Local Ltac tests_to_props :=
  repeat match goal with
         | H : (_ =? _) = true |- _ => apply Z.eqb_eq in H
         | H : (_ =? _) = false |- _ => apply Z.eqb_neq in H
         | H : (_ <? _) = true |- _ => apply Z.ltb_lt in H
         | H : (_ <? _) = false |- _ => apply Z.ltb_ge in H
         | H : (_ >? _) = true |- _ => rewrite Z.gtb_ltb in H
         | H : (_ >? _) = false |- _ => rewrite Z.gtb_ltb in H
         end.

Lemma span_dimensions_extents :
  CT_Tc._span_dimensions tbl self other_tc =
    if bool_decide
         ((self_top = other_top /\ self_bottom <> other_bottom) \/
          (self_left = other_left /\ self_right <> other_right) \/
          (self_top < other_top /\ other_bottom < self_bottom) \/
          (other_top < self_top /\ self_bottom < other_bottom) \/
          (self_left < other_left /\ other_right < self_right) \/
          (other_left < self_left /\ self_right < other_right))
    then Some (Raise CT_Tc.not_rectangular)
    else Some (Ok (Z.min self_top other_top, Z.min self_left other_left,
                   Z.max self_bottom other_bottom - Z.min self_top other_top,
                   Z.max self_right other_right - Z.min self_left other_left)).
Proof.
  unfold CT_Tc._span_dimensions, CT_Tc.raise_on_inverted_L, CT_Tc.raise_on_tee_shaped.
  extents. decide_tests; tests_to_props;
    (case_bool_decide as Hshape; [try reflexivity; exfalso; lia
                                 |try reflexivity; exfalso; apply Hshape; lia]).
Qed.

End Extents.

(** C8, as the code has it.  For two cells whose extents can be computed, [merge]
    raises [InvalidSpanError], from [_span_dimensions], when the cells
    have the same top and different bottoms, or the same left and
    different rights, or when on an axis one starts before the other and
    ends after it; for every other pair [_span_dimensions] returns the top,
    the left, the height and the width of the bounding box.  In the table
    whose row 0 has a cell two columns wide at column 0 and whose row 1 is
    uniform, merging the cells at row 0, column 0 and row 1, column 2
    succeeds with a span of three columns and two rows, and merging the
    cells at row 0, column 0 and row 1, column 0 raises.  Where the cell two
    columns wide is at column 1, merging the cells at row 0, column 0 and
    row 1, column 1 raises [InvalidSpanError] while the cells of row 0 are
    taken in. *)
Theorem merge_rejects_non_rectangular :
  (forall (tbl : Element) (self other_tc : address) (a b : extent),
     extent_of tbl self a -> extent_of tbl other_tc b ->
     (inverted_L a b \/ tee_shaped a b ->
        CT_Tc._span_dimensions tbl self other_tc
          = Some (Raise (InvalidSpanError "requested span not rectangular")) /\
        CT_Tc.merge tbl self other_tc
          = Some (Raise (InvalidSpanError "requested span not rectangular"))) /\
     (~ (inverted_L a b \/ tee_shaped a b) ->
        CT_Tc._span_dimensions tbl self other_tc
          = Some (Ok (Z.min (extent_top a) (extent_top b),
                      Z.min (extent_left a) (extent_left b),
                      Z.max (extent_bottom a) (extent_bottom b)
                        - Z.min (extent_top a) (extent_top b),
                      Z.max (extent_right a) (extent_right b)
                        - Z.min (extent_left a) (extent_left b))))) /\
  (exists a b c tbl' below,
     cell_at Examples.tbl_wide_first 0 0 = Ok a /\
     cell_at Examples.tbl_wide_first 1 2 = Ok b /\
     cell_at Examples.tbl_wide_first 1 0 = Ok c /\
     CT_Tc.merge Examples.tbl_wide_first a b = Some (Ok (a, tbl')) /\
     CT_Tc_element.grid_span (CT_Tc.element tbl' a) = Ok 3 /\
     CT_Tc_element.vMerge (CT_Tc.element tbl' a) = Ok (Some ST_Merge.RESTART) /\
     CT_Tc._tc_below tbl' a = Ok (Some below) /\
     CT_Tc_element.grid_span (CT_Tc.element tbl' below) = Ok 3 /\
     CT_Tc_element.vMerge (CT_Tc.element tbl' below) = Ok (Some ST_Merge.CONTINUE) /\
     CT_Tc.merge Examples.tbl_wide_first a c
       = Some (Raise (InvalidSpanError "requested span not rectangular"))) /\
  (exists a b,
     cell_at Examples.tbl_wide_second 0 0 = Ok a /\
     cell_at Examples.tbl_wide_second 1 1 = Ok b /\
     CT_Tc.merge Examples.tbl_wide_second a b
       = Some (Raise (InvalidSpanError "span is not rectangular"))).
Proof.
  split; [|split].
  - intros tbl self other_tc [ta la ba ra] [tb lb bb rb].
    unfold extent_of, inverted_L, tee_shaped. simpl.
    intros (Hta & Hla & Hba & Hra) (Htb & Hlb & Hbb & Hrb).
    pose proof (span_dimensions_extents tbl self other_tc ta tb ba bb la lb ra rb
                  Hta Htb Hba Hbb Hla Hlb Hra Hrb) as Hdims.
    split.
    + intros Hshape. rewrite bool_decide_eq_true_2 in Hdims by tauto.
      split; [exact Hdims|].
      unfold CT_Tc.merge. rewrite Hdims. reflexivity.
    + intros Hshape. rewrite bool_decide_eq_false_2 in Hdims by tauto.
      exact Hdims.
  - do 5 eexists. repeat (split; [vm_compute; reflexivity|]). vm_compute; reflexivity.
  - do 2 eexists. repeat (split; [vm_compute; reflexivity|]). vm_compute; reflexivity.
Qed.

Lemma merge_rejects_non_rectangular_witness :
  extent_of Examples.tbl_wide_first (mk_address 2 0) (mk_extent 0 0 1 2) /\
  extent_of Examples.tbl_wide_first (mk_address 3 0) (mk_extent 1 0 2 1) /\
  CT_Tc.merge Examples.tbl_wide_first (mk_address 2 0) (mk_address 3 0)
    = Some (Raise (InvalidSpanError "requested span not rectangular")).
Proof.
  assert (Ha : extent_of Examples.tbl_wide_first (mk_address 2 0) (mk_extent 0 0 1 2)).
  { repeat split; vm_compute; reflexivity. }
  assert (Hb : extent_of Examples.tbl_wide_first (mk_address 3 0) (mk_extent 1 0 2 1)).
  { repeat split; vm_compute; reflexivity. }
  split; [exact Ha|]. split; [exact Hb|].
  refine (proj2 (proj1 (proj1 merge_rejects_non_rectangular _ _ _ _ _ Ha Hb) _)).
  left. right. simpl. split; [reflexivity|lia].
Defined.

End TableFacts.

(* --------------------------------------------------------------------- *)
(** ** Lookups in a dict after it was written to *)

Module DictFacts.

Lemma getitem_setitem {V : Type} (key k : string) (value : V) (d : list (string * V)) :
  OrderedDict.getitem k (OrderedDict.setitem key value d)
  = if decide (key = k) then Some value else OrderedDict.getitem k d.
Proof.
  induction d as [|[k' v'] d IH]; simpl.
  - destruct (decide (key = k)); reflexivity.
  - destruct (decide (k' = key)) as [->|Hne]; simpl.
    + destruct (decide (key = k)); reflexivity.
    + destruct (decide (k' = k)) as [->|Hne'].
      * destruct (decide (key = k)); [congruence|reflexivity].
      * exact IH.
Qed.

Lemma getitem_None {V : Type} (k : string) (d : list (string * V)) :
  OrderedDict.getitem k d = None <-> k ∉ OrderedDict.keys d.
Proof.
  induction d as [|[k' v'] d IH]; simpl.
  - split; [intros _; apply not_elem_of_nil|reflexivity].
  - destruct (decide (k' = k)) as [->|Hne].
    + split; [discriminate|]. intros H. exfalso. apply H. left.
    + rewrite IH. rewrite not_elem_of_cons. split; [intros H; split; congruence|tauto].
Qed.

Lemma getitem_delitem {V : Type} (key k : string) (d : list (string * V)) :
  NoDup (OrderedDict.keys d) ->
  OrderedDict.getitem k (OrderedDict.delitem key d)
  = if decide (key = k) then None else OrderedDict.getitem k d.
Proof.
  induction d as [|[k' v'] d IH]; simpl; intros Hnd.
  - destruct (decide (key = k)); reflexivity.
  - apply NoDup_cons in Hnd as [Hk' Hnd].
    destruct (decide (k' = key)) as [->|Hne]; simpl.
    + destruct (decide (key = k)) as [->|Hne']; [|reflexivity].
      now apply getitem_None.
    + destruct (decide (k' = k)) as [->|Hne'].
      * destruct (decide (key = k)); [congruence|reflexivity].
      * now apply IH.
Qed.

Lemma keys_delitem {V : Type} (key : string) (d : list (string * V)) :
  OrderedDict.keys (OrderedDict.delitem key d) ⊆+ OrderedDict.keys d.
Proof.
  induction d as [|[k' v'] d IH]; simpl; [reflexivity|].
  destruct (decide (k' = key)); simpl.
  - now apply submseteq_cons.
  - now apply submseteq_skip.
Qed.

End DictFacts.

(* --------------------------------------------------------------------- *)
(** ** The relationships of a part: [relate_to], [related_parts],
    [drop_rel] *)

Module PartRelsFacts.
Import Rel PartRels RelFacts DictFacts.

Lemma added_in_step rels reltype' target rel rels' :
  added rels reltype' target rel rels' ->
  _target_parts_by_rId rels' =
    match _get_matching rels reltype' target (is_external rel), target with
    | None, Internal part => OrderedDict.setitem (rId rel) part (_target_parts_by_rId rels)
    | _, _ => _target_parts_by_rId rels
    end ->
  in_step rels -> in_step rels'.
Proof.
  intros [Hm ->|Hm Hnext Hfresh Hrel Hitems] Hby Hinv.
  - exact Hinv.
  - intros k part. unfold related_parts. rewrite Hby, Hm, Hitems.
    rewrite <- (setitem_fresh (rId rel) rel (items rels)) by assumption.
    rewrite getitem_setitem.
    assert (Htgt : _target rel = target) by (rewrite Hrel; reflexivity).
    destruct target as [p|ref].
    + rewrite getitem_setitem. destruct (decide (rId rel = k)) as [Heq|Hne].
      * split.
        -- intros [= ->]. eauto.
        -- intros (rel' & [= <-] & Ht). congruence.
      * apply Hinv.
    + destruct (decide (rId rel = k)) as [Heq|Hne].
      * subst k. split.
        -- intros Hk. apply Hinv in Hk as (rel' & Hk & _).
           exfalso. apply Hfresh.
           destruct (decide (rId rel ∈ OrderedDict.keys (items rels))) as [|Hn]; [assumption|].
           apply getitem_None in Hn. congruence.
        -- intros (rel' & [= <-] & Ht). congruence.
      * apply Hinv.
Qed.

Lemma relate_to_added rels target reltype' rId' rels' :
  relate_to rels target reltype' = Some (rId', rels') ->
  exists rel, rId rel = rId' /\ added rels reltype' target rel rels' /\
    _target_parts_by_rId rels' =
      match _get_matching rels reltype' target (is_external rel), target with
      | None, Internal part => OrderedDict.setitem (rId rel) part (_target_parts_by_rId rels)
      | _, _ => _target_parts_by_rId rels
      end.
Proof.
  destruct target as [part|ref]; simpl.
  - destruct (get_or_add_added rels reltype' part) as (rel & self' & Hg & Hadd & Hext).
    rewrite Hg. intros [= <- <-]. exists rel. split; [reflexivity|]. split; [assumption|].
    revert Hg. unfold get_or_add. rewrite Hext.
    destruct (_get_matching rels reltype' (Internal part) false) as [r|].
    + now intros [= _ <-].
    + destruct (_next_rId rels) as [r|]; [|discriminate].
      unfold add_relationship. now intros [= <- <-].
  - destruct (get_or_add_ext_rel_added rels reltype' ref) as (rel & self' & Hg & Hadd & Hext).
    rewrite Hg. intros [= <- <-]. exists rel. split; [reflexivity|]. split; [assumption|].
    revert Hg. unfold get_or_add_ext_rel. rewrite Hext.
    destruct (_get_matching rels reltype' (External ref) true) as [r|].
    + now intros [= _ <-].
    + destruct (_next_rId rels) as [r|]; [|discriminate].
      unfold add_relationship. now intros [= _ <-].
Qed.

Lemma related_by_relate_to_inv baseURI rels :
  related_by_relate_to baseURI rels -> well_formed rels /\ in_step rels.
Proof.
  induction 1 as [|rels target reltype' rId' rels' _ [Hwf Hinv] Hrel].
  - split; [apply new_Relationships_well_formed|].
    intros k part. simpl. split; [discriminate|]. now intros (rel & [=] & _).
  - apply relate_to_added in Hrel as (rel & _ & Hadd & Hby). split.
    + eapply added_well_formed; eassumption.
    + eapply added_in_step; eassumption.
Qed.

(** X1. In a collection that [relate_to] built from an empty one,
    [related_parts] maps an rId to a part exactly when the collection holds
    an internal relationship to that part under that rId; the rId
    [relate_to] answers with for a part is mapped to that part. *)
Theorem related_parts_in_step (baseURI : string) (rels : Relationships) :
  related_by_relate_to baseURI rels ->
  (forall rId part,
      OrderedDict.getitem rId (related_parts rels) = Some part <->
      exists rel, OrderedDict.getitem rId (items rels) = Some rel /\
                  _target rel = Internal part) /\
  (forall part reltype' rId rels',
      relate_to rels (Internal part) reltype' = Some (rId, rels') ->
      OrderedDict.getitem rId (related_parts rels') = Some part).
Proof.
  intros Hrel. destruct (related_by_relate_to_inv _ _ Hrel) as [Hwf Hinv].
  split; [exact Hinv|].
  intros part reltype' rId' rels' Hto.
  assert (Hrel' : related_by_relate_to baseURI rels') by (eapply related_step; eassumption).
  destruct (related_by_relate_to_inv _ _ Hrel') as [Hwf' Hinv'].
  apply relate_to_added in Hto as (rel & <- & Hadd & _).
  apply Hinv'. exists rel.
  pose proof (added_then_matching _ _ _ _ _ Hadd) as (Ht & _ & Hin & _).
  split; [|assumption].
  destruct Hwf' as [Hnd Hid].
  apply list_elem_of_fmap in Hin as ([k r] & -> & Hin). simpl.
  assert (k = rId r) as ->.
  { rewrite Forall_forall in Hid. symmetry. exact (Hid _ Hin). }
  clear - Hnd Hin. induction (items rels') as [|[k' v'] d IH]; [now apply elem_of_nil in Hin|].
  simpl in *. apply NoDup_cons in Hnd as [Hk' Hnd].
  apply elem_of_cons in Hin as [[= <- <-]|Hin].
  - now rewrite decide_True.
  - destruct (decide (k' = rId r)) as [->|Hne]; [|now apply IH].
    exfalso. apply Hk'. apply list_elem_of_fmap. now exists (rId r, r).
Qed.

Lemma related_parts_in_step_witness :
  related_by_relate_to "/word" (new_Relationships "/word") /\
  OrderedDict.getitem "rId1"
    (related_parts (snd (add_relationship (new_Relationships "/word") "image"
                                          (Internal 7%nat) "rId1")))
  = Some 7%nat.
Proof.
  split; [constructor|].
  apply (proj2 (related_parts_in_step "/word" (new_Relationships "/word")
                  (related_new "/word")) 7%nat "image"%string "rId1"%string).
  vm_compute. reflexivity.
Defined.

(** X2. [drop_rel] of an rId the part refers to less than twice deletes the
    relationship and nothing else from the collection, but leaves
    [related_parts] as it was: after dropping an internal relationship built
    by [relate_to], [related_parts] still answers for its rId.  An rId that
    is referred to twice or more is kept, and an rId that is not in the
    collection is a [KeyError]. *)
Theorem drop_rel_leaves_related_parts (baseURI : string) (rels : Relationships)
    (_rel_ref_count : Z) (rId : string) :
  related_by_relate_to baseURI rels ->
  (2 <= _rel_ref_count -> drop_rel rels _rel_ref_count rId = Ok rels) /\
  (_rel_ref_count < 2 -> OrderedDict.getitem rId (items rels) = None ->
   drop_rel rels _rel_ref_count rId = Raise (KeyError rId)) /\
  (forall rel, _rel_ref_count < 2 -> OrderedDict.getitem rId (items rels) = Some rel ->
   exists rels',
     drop_rel rels _rel_ref_count rId = Ok rels' /\
     OrderedDict.getitem rId (items rels') = None /\
     (forall k, k <> rId ->
        OrderedDict.getitem k (items rels') = OrderedDict.getitem k (items rels)) /\
     related_parts rels' = related_parts rels /\
     (forall part, _target rel = Internal part ->
        OrderedDict.getitem rId (related_parts rels') = Some part)).
Proof.
  intros Hrel. destruct (related_by_relate_to_inv _ _ Hrel) as [[Hnd Hid] Hinv].
  unfold drop_rel, del_rel, OrderedDict.contains. repeat split.
  - intros Hc. now rewrite (proj2 (Z.ltb_ge _ _) Hc).
  - intros Hc Hk. rewrite (proj2 (Z.ltb_lt _ _) Hc).
    apply getitem_None in Hk. now rewrite bool_decide_eq_false_2.
  - intros rel Hc Hk. rewrite (proj2 (Z.ltb_lt _ _) Hc).
    rewrite bool_decide_eq_true_2.
    2:{ destruct (decide (rId ∈ OrderedDict.keys (items rels))) as [|Hn]; [assumption|].
        apply getitem_None in Hn. congruence. }
    eexists. split; [reflexivity|]. simpl. repeat split.
    + rewrite getitem_delitem by assumption. now rewrite decide_True.
    + intros k Hne. rewrite getitem_delitem by assumption. now rewrite decide_False.
    + intros part Ht. apply Hinv. eauto.
Qed.

Lemma drop_rel_leaves_related_parts_witness :
  exists rels',
    drop_rel (snd (add_relationship (new_Relationships "/word") "image"
                                    (Internal 7%nat) "rId1")) 1 "rId1" = Ok rels' /\
    OrderedDict.getitem "rId1" (items rels') = None /\
    OrderedDict.getitem "rId1" (related_parts rels') = Some 7%nat.
Proof.
  assert (Hrel : related_by_relate_to "/word"
            (snd (add_relationship (new_Relationships "/word") "image"
                                   (Internal 7%nat) "rId1"))).
  { eapply (related_step "/word" (new_Relationships "/word") (Internal 7%nat) "image" "rId1").
    - constructor.
    - vm_compute. reflexivity. }
  destruct (proj2 (proj2 (drop_rel_leaves_related_parts "/word" _ 1 "rId1" Hrel))
              (mk_Relationship "rId1" "image" (Internal 7%nat) "/word"))
    as (rels' & Hd & Hnone & _ & _ & Hstale).
  - lia.
  - vm_compute. reflexivity.
  - exists rels'. split; [exact Hd|]. split; [exact Hnone|]. now apply Hstale.
Defined.

End PartRelsFacts.

(* --------------------------------------------------------------------- *)
(** ** [OpcPackage.next_partname] *)

Module NextPartnameFacts.
Import Rel Package NextPartname RelFacts DfsFacts WalkFacts SimpleTypesFacts.

Lemma append_inj_r (s1 s2 s : string) : s1 +:+ s = s2 +:+ s -> s1 = s2.
Proof.
  intros H. apply (f_equal list_ascii_of_string) in H.
  rewrite !list_ascii_of_string_app in H. apply app_inv_tail in H.
  rewrite <- (string_of_list_ascii_of_string s1), <- (string_of_list_ascii_of_string s2).
  now rewrite H.
Qed.

Lemma format_inj (tmpl : template) : Inj (=) (=) (format tmpl).
Proof.
  intros n m H. unfold format, fmt1 in H.
  apply (inj (String.app (before tmpl))) in H.
  apply append_inj_r in H. now apply (inj pretty) in H.
Qed.

(** Of the candidates numbered [1] to [size + 1], one is not among [size]
    names. *)
Lemma free_format_exists (tmpl : template) (names : gset string) :
  exists n, (1 <= n <= size names + 1)%nat /\ format tmpl n ∉ names.
Proof.
  destruct (decide (Forall (fun c => c ∈ names)
              (map (format tmpl) (seq 1 (size names + 1))))) as [Hall|Hnot].
  - exfalso.
    assert (Hsub : map (format tmpl) (seq 1 (size names + 1)) ⊆+ elements names).
    { apply NoDup_submseteq.
      - apply (NoDup_fmap_2 (format tmpl) (Inj0 := format_inj tmpl)). apply NoDup_seq.
      - intros x Hx. rewrite Forall_forall in Hall. apply elem_of_elements. now apply Hall. }
    apply submseteq_length in Hsub.
    rewrite length_map, length_seq in Hsub. unfold size, set_size in Hsub. simpl in Hsub. lia.
  - apply not_Forall_Exists in Hnot; [|intros c; apply _].
    apply Exists_exists in Hnot as (c & Hc & Hfree).
    apply list_elem_of_fmap in Hc as (n & -> & Hn).
    apply elem_of_seq in Hn. exists n. split; [lia|assumption].
Qed.

Lemma iter_parts_total (self : OpcPackage) :
  exists parts,
    (forall fuel, (length (all_targets self) < fuel)%nat -> iter_parts fuel self = Some parts) /\
    NoDup parts /\
    (forall part, part ∈ parts <->
                  Dfs.reachable (part_succs self) (internal_targets (rels self)) part).
Proof.
  destruct (dfs_total (part_succs self) (all_targets self) (all_targets_closed self)
                      (internal_targets (rels self)))
    as (parts & Hfuel & Hnd & Hreach).
  { intros t Ht. unfold all_targets. apply elem_of_app. now left. }
  exists parts. repeat split; try assumption; try apply Hreach.
  intros fuel Hlt. unfold iter_parts. rewrite walk_parts_dfs.
  simpl rels_of. now rewrite (Hfuel fuel Hlt).
Qed.

(** X3. [next_partname] returns: it makes a [PackURI] of the template filled
    with a number [n >= 1] such that no part of the package has that
    partname, while each smaller number from 1 on is taken by a part of the
    package; when the template begins with a slash the result is that
    partname.  The parts are those [iter_parts] yields. *)
Theorem next_partname_least_free (partname : Part -> string) (self : OpcPackage)
    (tmpl : template) :
  exists (n : nat) (parts : list Part),
    (forall fuel, (length (all_targets self) < fuel)%nat ->
       iter_parts fuel self = Some parts /\
       next_partname partname fuel self tmpl = Some (Some <$> Packuri.new (format tmpl n))) /\
    (1 <= n)%nat /\
    (forall part, part ∈ parts -> partname part <> format tmpl n) /\
    (forall m, (1 <= m < n)%nat -> exists part, part ∈ parts /\ partname part = format tmpl m) /\
    (forall rest, before tmpl = String "/" rest ->
       Packuri.new (format tmpl n) = Ok (format tmpl n)).
Proof.
  destruct (iter_parts_total self) as (parts & Hfuel & _ & _).
  set (partnames := (list_to_set (partname <$> parts) : gset string)).
  destruct (List.find (fun c => negb (bool_decide (c ∈ partnames)))
              (map (format tmpl) (seq 1 (size partnames + 1)))) as [c|] eqn:Hfind.
  - apply find_map_seq_first in Hfind as (n & -> & Hn & Hfree & Hleast).
    exists n, parts. repeat split.
    + now apply Hfuel.
    + unfold next_partname. rewrite (Hfuel fuel H). fold partnames.
      destruct (List.find _ _) as [c|] eqn:Hfind'.
      * apply find_map_seq_first in Hfind' as (n' & -> & Hn' & Hfree' & Hleast').
        destruct (Nat.lt_trichotomy n n') as [Hlt|[->|Hgt]]; [|reflexivity|].
        -- rewrite Hleast' in Hfree by lia. discriminate.
        -- rewrite Hleast in Hfree' by lia. discriminate.
      * rewrite find_none_iff, Forall_forall in Hfind'.
        rewrite Hfind' in Hfree; [discriminate|].
        apply list_elem_of_fmap. exists n. split; [reflexivity|]. apply elem_of_seq. lia.
    + lia.
    + intros part Hpart Heq. apply negb_true_iff, bool_decide_eq_false in Hfree.
      apply Hfree. unfold partnames. rewrite elem_of_list_to_set, <- Heq.
      apply list_elem_of_fmap. now exists part.
    + intros m Hm. specialize (Hleast m ltac:(lia)).
      apply negb_false_iff, bool_decide_eq_true in Hleast.
      unfold partnames in Hleast. rewrite elem_of_list_to_set in Hleast.
      apply list_elem_of_fmap in Hleast as (part & Heq & Hpart). now exists part.
    + intros rest Hb. unfold format, fmt1. rewrite Hb. reflexivity.
  - exfalso. destruct (free_format_exists tmpl partnames) as (n & Hn & Hfree).
    rewrite find_none_iff, Forall_forall in Hfind.
    specialize (Hfind (format tmpl n)).
    rewrite bool_decide_eq_false_2 in Hfind by assumption.
    assert (true = false); [|discriminate]. apply Hfind.
    apply list_elem_of_fmap. exists n. split; [reflexivity|]. apply elem_of_seq. lia.
Qed.

End NextPartnameFacts.

(* --------------------------------------------------------------------- *)
(** ** The content types item: written by [_ContentTypesItem], read by
    [_ContentTypeMap] *)

Module ContentTypesItemFacts.
Import Oxml OpcOxml PkgWriter ContentTypesFacts.

(** Apart from ["bin"], an extension has one default content type. *)
Lemma default_content_types_functional (ext ct1 ct2 : string) :
  (ext, ct1) ∈ Spec.default_content_types ->
  (ext, ct2) ∈ Spec.default_content_types ->
  ext <> "bin"%string -> ct1 = ct2.
Proof.
  intros H1 H2 Hbin. unfold Spec.default_content_types in *.
  repeat (apply elem_of_cons in H1 as [[= -> ->]|H1]);
    try (now apply elem_of_nil in H1); try congruence;
    repeat (apply elem_of_cons in H2 as [[= <-]|H2]);
    try (now apply elem_of_nil in H2); try reflexivity; try discriminate.
Qed.

Section Facts.
Variable lower : string -> string.
Hypothesis lower_idem : forall s, lower (lower s) = lower s.
Hypothesis lower_rels : lower "rels" = "rels"%string.
Hypothesis lower_xml : lower "xml" = "xml"%string.

Local Abbreviation is_default := (PkgWriter.is_default lower).
Local Abbreviation distinct_up_to_case := (PkgWriter.distinct_up_to_case lower).
Local Abbreviation bin_agree := (PkgWriter.bin_agree lower).
Local Abbreviation composed := (PkgWriter.composed lower).

Lemma last_entry_unique (k k0 v : string) (l : list (string * string)) :
  (forall k' v', (k', v') ∈ l -> lower k' = lower k -> v' = v) ->
  (k0, v) ∈ l -> lower k0 = lower k ->
  ContentTypes.last_entry lower k l = Some v.
Proof.
  intros Huniq Hin Hk.
  destruct (ContentTypes.last_entry lower k l) as [v'|] eqn:Hlast.
  - apply last_entry_Some in Hlast as (key & Hkey & Hlow). f_equal. eauto.
  - exfalso. exact (last_entry_None _ _ _ Hlast _ _ Hin Hk).
Qed.

Lemma last_entry_absent (k : string) (l : list (string * string)) :
  (forall k' v', (k', v') ∈ l -> lower k' <> lower k) ->
  ContentTypes.last_entry lower k l = None.
Proof.
  intros Hno. destruct (ContentTypes.last_entry lower k l) as [v'|] eqn:Hlast; [|reflexivity].
  apply last_entry_Some in Hlast as (key & Hkey & Hlow). exfalso.
  exact (Hno _ _ Hkey Hlow).
Qed.

Lemma from_parts_composed (parts : list (string * string)) :
  distinct_up_to_case parts -> bin_agree parts ->
  composed parts (from_parts lower parts) /\
  _defaults (from_parts lower parts) !! "rels"%string <> None /\
  (forall k v, _defaults (from_parts lower parts) !! k = Some v ->
               (k, v) ∈ Spec.default_content_types).
Proof.
  unfold from_parts.
  induction parts as [|[pn ct] parts IH] using rev_ind; intros Hdist Hbin.
  - simpl. unfold ContentTypes.cid_setitem. rewrite lower_rels, lower_xml.
    split; [split|split]; unfold PkgWriter.is_default in *.
    + intros pn ct. simpl. now rewrite lookup_empty.
    + intros p Hp. now apply elem_of_nil in Hp.
    + intros k v. simpl. intros Hk.
      apply lookup_insert_Some in Hk as [[<- _]|[_ Hk]]; [exact lower_xml|].
      apply lookup_insert_Some in Hk as [[<- _]|[_ Hk]]; [exact lower_rels|].
      now rewrite lookup_empty in Hk.
    + intros p Hp. now apply elem_of_nil in Hp.
    + simpl. rewrite lookup_insert_ne by discriminate. now rewrite lookup_insert_eq.
    + intros k v. simpl. intros Hk.
      apply lookup_insert_Some in Hk as [[<- <-]|[_ Hk]].
      { apply (bool_decide_unpack _). vm_compute. reflexivity. }
      apply lookup_insert_Some in Hk as [[<- <-]|[_ Hk]].
      { apply (bool_decide_unpack _). vm_compute. reflexivity. }
      now rewrite lookup_empty in Hk.
  - rewrite foldl_app. simpl.
    destruct IH as ([Hos Hoc Hdl Hdc] & Hrels & Hdct).
    { intros p1 p2 H1 H2. apply Hdist; apply elem_of_app; now left. }
    { intros p1 p2 H1 H2. apply Hbin; apply elem_of_app; now left. }
    set (cti := foldl _ _ parts) in *.
    unfold _add_content_type. simpl. case_bool_decide as Hdef; simpl.
    + split; [split|split]; cbn [_defaults _overrides]; unfold PkgWriter.is_default in *.
      * intros pn' ct' Hk. apply Hos in Hk as [Hin Hnd]. split; [|assumption].
        apply elem_of_app. now left.
      * intros p Hp Hnd. apply elem_of_app in Hp as [Hp|Hp]; [now apply Hoc|].
        apply list_elem_of_singleton in Hp as ->. now destruct Hnd.
      * intros k v. unfold ContentTypes.cid_setitem. intros Hk.
        apply lookup_insert_Some in Hk as [[<- _]|[_ Hk]]; [apply lower_idem|eauto].
      * intros p Hp Hpd. unfold ContentTypes.cid_setitem.
        destruct (decide (lower (PackURI.ext pn) = lower (PackURI.ext (fst p)))) as [Heq|Hne].
        -- rewrite Heq, lookup_insert_eq. f_equal.
           destruct (decide (lower (PackURI.ext pn) = "bin"%string)) as [Hb|Hb].
           ++ apply (Hbin (pn, ct) p); simpl; try congruence.
              apply elem_of_app. right. now left.
           ++ apply (default_content_types_functional (lower (PackURI.ext pn)));
                [assumption|rewrite Heq; exact Hpd|assumption].
        -- rewrite lookup_insert_ne by assumption.
           apply elem_of_app in Hp as [Hp|Hp]; [now apply Hdc|].
           apply list_elem_of_singleton in Hp as ->. now destruct Hne.
      * unfold ContentTypes.cid_setitem.
        destruct (decide (lower (PackURI.ext pn) = "rels"%string)) as [->|Hne].
        -- now rewrite lookup_insert_eq.
        -- now rewrite lookup_insert_ne.
      * intros k v. unfold ContentTypes.cid_setitem. intros Hk.
        apply lookup_insert_Some in Hk as [[<- <-]|[_ Hk]]; [assumption|eauto].
    + split; [split|split]; cbn [_defaults _overrides]; unfold PkgWriter.is_default in *.
      * intros pn' ct' Hk.
        apply lookup_insert_Some in Hk as [[<- <-]|[_ Hk]].
        -- split; [|assumption]. apply elem_of_app. right. now left.
        -- apply Hos in Hk as [Hin Hnd]. split; [|assumption]. apply elem_of_app. now left.
      * intros p Hp Hnd. destruct (decide (pn = fst p)) as [Heq|Hne].
        -- rewrite Heq, lookup_insert_eq. f_equal.
           assert (Hpp : (pn, ct) = p).
           { apply Hdist; simpl; [| |congruence].
             - apply elem_of_app. right. now left.
             - apply elem_of_app in Hp as [Hp|Hp]; apply elem_of_app; [now left|now right]. }
           now rewrite <- Hpp.
        -- rewrite lookup_insert_ne by assumption.
           apply elem_of_app in Hp as [Hp|Hp]; [now apply Hoc|].
           apply list_elem_of_singleton in Hp as ->. now destruct Hne.
      * exact Hdl.
      * intros p Hp Hpd. apply elem_of_app in Hp as [Hp|Hp]; [now apply Hdc|].
        apply list_elem_of_singleton in Hp as ->. now destruct Hdef.
      * exact Hrels.
      * exact Hdct.
Qed.

Lemma elem_of_pairs_of_sorted (d : gmap string string) (k v : string) :
  (k, v) ∈ pairs_of d (sorted (keys d)) <-> d !! k = Some v.
Proof.
  unfold pairs_of. rewrite list_elem_of_omap. split.
  - intros (k' & _ & Hk). destruct (d !! k') as [v'|] eqn:Hd; [|discriminate].
    simpl in Hk. now injection Hk as <- <-.
  - intros Hd. exists k. split; [|now rewrite Hd].
    unfold sorted. rewrite merge_sort_Permutation. unfold keys.
    apply list_elem_of_fmap. exists (k, v). split; [reflexivity|].
    now apply elem_of_map_to_list.
Qed.

Lemma keys_present (d : gmap string string) (k : string) :
  k ∈ sorted (keys d) -> is_Some (d !! k).
Proof.
  unfold sorted. rewrite merge_sort_Permutation. unfold keys.
  intros Hk. apply list_elem_of_fmap in Hk as ([k' v] & -> & Hk).
  apply elem_of_map_to_list in Hk. now exists v.
Qed.

Lemma add_defaults_returns (cti : _ContentTypesItem) (exts : list string) :
  forall elm,
    (forall k, k ∈ exts -> is_Some (_defaults cti !! k) /\ lower k = k) ->
    add_defaults lower cti elm exts
    = Ok (set_children elm
            (children elm ++
             map (fun kv => CT_Default.new (fst kv) (snd kv)) (pairs_of (_defaults cti) exts))).
Proof.
  induction exts as [|ext exts IH]; intros elm Hk; simpl.
  - rewrite app_nil_r. now destruct elm.
  - destruct (Hk ext ltac:(left)) as [[v Hv] Hlow].
    unfold ContentTypes.cid_getitem. rewrite Hlow, Hv. simpl.
    rewrite IH by (intros k Hin; apply Hk; now right).
    unfold CT_Types.add_default, append. simpl. now rewrite <- app_assoc.
Qed.

Lemma add_overrides_returns (cti : _ContentTypesItem) (partnames : list string) :
  forall elm,
    (forall k, k ∈ partnames -> is_Some (_overrides cti !! k)) ->
    add_overrides cti elm partnames
    = Ok (set_children elm
            (children elm ++
             map (fun kv => CT_Override.new (fst kv) (snd kv))
                 (pairs_of (_overrides cti) partnames))).
Proof.
  induction partnames as [|pn pns IH]; intros elm Hk; simpl.
  - rewrite app_nil_r. now destruct elm.
  - destruct (Hk pn ltac:(left)) as [v Hv].
    unfold dict_getitem. rewrite Hv. simpl.
    rewrite IH by (intros k Hin; apply Hk; now right).
    unfold CT_Types.add_override, append. simpl. now rewrite <- app_assoc.
Qed.

Lemma attr_pairs_defaults (l : list (string * string)) :
  attr_pairs CT_Default.extension CT_Default.content_type
    (map (fun kv => CT_Default.new (fst kv) (snd kv)) l) = Some l.
Proof.
  unfold attr_pairs. apply mapM_Some. induction l as [|[k v] l IH]; constructor; [|exact IH].
  vm_compute. reflexivity.
Qed.

Lemma attr_pairs_overrides (l : list (string * string)) :
  attr_pairs CT_Override.partname CT_Override.content_type
    (map (fun kv => CT_Override.new (fst kv) (snd kv)) l) = Some l.
Proof.
  unfold attr_pairs. apply mapM_Some. induction l as [|[k v] l IH]; constructor; [|exact IH].
  vm_compute. reflexivity.
Qed.

Lemma filter_map_all {A : Type} (f : A -> Element) (t : string) (l : list A) :
  (forall x, tag (f x) = t) -> filter (fun child => tag child = t) (map f l) = map f l.
Proof.
  intros Hf. induction l as [|x l IH]; [reflexivity|]. simpl.
  rewrite filter_cons_True by apply Hf. now rewrite IH.
Qed.

Lemma filter_map_none {A : Type} (f : A -> Element) (t : string) (l : list A) :
  (forall x, tag (f x) <> t) -> filter (fun child => tag child = t) (map f l) = [].
Proof.
  intros Hf. induction l as [|x l IH]; [reflexivity|]. simpl.
  rewrite filter_cons_False by apply Hf. exact IH.
Qed.

Lemma findall_types (ds os : list (string * string)) :
  let elm := set_children CT_Types.new
               (map (fun kv => CT_Default.new (fst kv) (snd kv)) ds ++
                map (fun kv => CT_Override.new (fst kv) (snd kv)) os) in
  CT_Types.defaults elm = map (fun kv => CT_Default.new (fst kv) (snd kv)) ds /\
  CT_Types.overrides elm = map (fun kv => CT_Override.new (fst kv) (snd kv)) os.
Proof.
  simpl. unfold CT_Types.defaults, CT_Types.overrides, findall. simpl.
  rewrite !filter_app. split.
  - rewrite filter_map_all by reflexivity.
    rewrite filter_map_none by (intros x; discriminate). apply app_nil_r.
  - rewrite filter_map_none by (intros x; discriminate).
    now rewrite filter_map_all by reflexivity.
Qed.


(** X4. The content types item the writer composes for a list of parts,
    read back by the reader's [_ContentTypeMap], answers for each part with
    the content type the part was written with.  This holds when no two of
    the parts have partnames equal up to case, and the parts whose content
    type is one of the three defaults of the extension [bin] agree on it;
    [lower] is idempotent and leaves [rels] and [xml] as they are. *)
Theorem content_types_round_trip (parts : list (string * string)) :
  distinct_up_to_case parts -> bin_agree parts ->
  exists types_elm ct_map,
    _element lower (from_parts lower parts) = Ok types_elm /\
    from_xml_element lower types_elm = Some ct_map /\
    forall partname content_type,
      (partname, content_type) ∈ parts ->
      ContentTypes.getitem lower ct_map partname = Ok content_type.
Proof.
  intros Hdist Hbin.
  destruct (from_parts_composed parts Hdist Hbin) as ([Hos Hoc Hdl Hdc] & _ & _).
  set (cti := from_parts lower parts) in *.
  set (ds := pairs_of (_defaults cti) (sorted (keys (_defaults cti)))).
  set (os := pairs_of (_overrides cti) (sorted (keys (_overrides cti)))).
  assert (Helm : _element lower cti
                 = Ok (set_children CT_Types.new
                         (map (fun kv => CT_Default.new (fst kv) (snd kv)) ds ++
                          map (fun kv => CT_Override.new (fst kv) (snd kv)) os))).
  { unfold _element. rewrite add_defaults_returns.
    2:{ intros k Hk. apply keys_present in Hk as [v Hv]. split; [now exists v|eauto]. }
    simpl. rewrite add_overrides_returns by (intros k Hk; now apply keys_present).
    simpl. reflexivity. }
  destruct (findall_types ds os) as [Hds Hos'].
  eexists. eexists. split; [exact Helm|]. split.
  { unfold from_xml_element. rewrite Hos', Hds, attr_pairs_overrides, attr_pairs_defaults.
    reflexivity. }
  intros pn ct Hin.
  unfold ContentTypes.getitem, ContentTypes.cid_contains, ContentTypes.cid_getitem.
  rewrite !overrides_from_xml, !defaults_from_xml.
  assert (Hdec : is_default (pn, ct) \/ ~ is_default (pn, ct)).
  { unfold PkgWriter.is_default. destruct (decide ((lower (PackURI.ext pn), ct)
                                            ∈ Spec.default_content_types)); auto. }
  destruct Hdec as [Hdef|Hdef].
  - rewrite (last_entry_absent pn os).
    2:{ intros k' v' Hk' Hlow. apply elem_of_pairs_of_sorted, Hos in Hk' as [Hk' Hnd].
        assert ((k', v') = (pn, ct)) as [= -> ->] by (now apply Hdist).
        contradiction. }
    rewrite bool_decide_eq_false_2 by (intros [? [=]]).
    rewrite (last_entry_unique (PackURI.ext pn) (lower (PackURI.ext pn)) ct ds).
    + rewrite bool_decide_eq_true_2 by eauto. reflexivity.
    + intros k' v' Hk' Hlow. apply elem_of_pairs_of_sorted in Hk'.
      rewrite (Hdl _ _ Hk') in Hlow. subst k'.
      specialize (Hdc _ Hin Hdef). simpl in Hdc. congruence.
    + apply elem_of_pairs_of_sorted. exact (Hdc _ Hin Hdef).
    + apply lower_idem.
  - rewrite (last_entry_unique pn pn ct os).
    + rewrite bool_decide_eq_true_2 by eauto. reflexivity.
    + intros k' v' Hk' Hlow. apply elem_of_pairs_of_sorted, Hos in Hk' as [Hk' Hnd].
      assert ((k', v') = (pn, ct)) as [= -> ->] by (now apply Hdist). reflexivity.
    + apply elem_of_pairs_of_sorted. exact (Hoc _ Hin Hdef).
    + reflexivity.
Qed.

End Facts.

Lemma content_types_round_trip_witness :
  exists types_elm ct_map,
    _element ContentTypes.ascii_lower
      (from_parts ContentTypes.ascii_lower
         [("/word/document.xml"%string, "application/main+xml"%string);
          ("/word/media/image1.PNG"%string, "image/png"%string)]) = Ok types_elm /\
    from_xml_element ContentTypes.ascii_lower types_elm = Some ct_map /\
    ContentTypes.getitem ContentTypes.ascii_lower ct_map "/word/media/image1.PNG"
    = Ok "image/png"%string.
Proof.
  destruct (content_types_round_trip ContentTypes.ascii_lower)
    with (parts := [("/word/document.xml"%string, "application/main+xml"%string);
                    ("/word/media/image1.PNG"%string, "image/png"%string)])
    as (types_elm & ct_map & Helm & Hmap & Hget).
  - intros s. induction s as [|c s IH]; [reflexivity|]. simpl. f_equal; [|exact IH].
    unfold ContentTypes.ascii_lower_char.
    destruct c as [[] [] [] [] [] [] [] []]; vm_compute; reflexivity.
  - reflexivity.
  - reflexivity.
  - intros p1 p2 H1 H2.
    repeat (apply elem_of_cons in H1 as [->|H1]); try (now apply elem_of_nil in H1);
      repeat (apply elem_of_cons in H2 as [->|H2]); try (now apply elem_of_nil in H2);
      vm_compute; congruence.
  - intros p1 p2 H1 H2.
    repeat (apply elem_of_cons in H1 as [->|H1]); try (now apply elem_of_nil in H1);
      repeat (apply elem_of_cons in H2 as [->|H2]); try (now apply elem_of_nil in H2);
      vm_compute; congruence.
  - exists types_elm, ct_map. split; [exact Helm|]. split; [exact Hmap|].
    apply Hget. right. left.
Defined.

End ContentTypesItemFacts.

(* --------------------------------------------------------------------- *)
(** ** A relationships item: written by [Relationships.xml], read by
    [_SerializedRelationships.load_from_xml] *)

Module RelsItemFacts.
Import Rel Oxml OpcOxml RelsItem.

Section Facts.
Variable partname : Part -> string.
Variable relative_ref : string -> string -> string.

Local Abbreviation rel_elm rel :=
  (CT_Relationship.new (rId rel) (reltype rel) (target_ref partname relative_ref rel)
                       (if is_external rel then RTM.EXTERNAL else RTM.INTERNAL)).

Lemma foldl_add_rel (rels : list _Relationship) :
  forall rels_elm,
    foldl (fun rels_elm rel =>
             CT_Relationships.add_rel rels_elm (rId rel) (reltype rel)
               (target_ref partname relative_ref rel) (is_external rel))
          rels_elm rels
    = set_children rels_elm (children rels_elm ++ map (fun rel => rel_elm rel) rels).
Proof.
  induction rels as [|rel rels IH]; intros rels_elm; simpl.
  - rewrite app_nil_r. now destruct rels_elm.
  - rewrite IH. unfold CT_Relationships.add_rel, append. simpl. now rewrite <- app_assoc.
Qed.

Lemma rel_elm_tag (rel : _Relationship) : tag (rel_elm rel) = "pr:Relationship"%string.
Proof. unfold CT_Relationship.new. destruct (is_external rel); reflexivity. Qed.

Lemma Relationship_lst_xml_element (self : Relationships) :
  CT_Relationships.Relationship_lst (xml_element partname relative_ref self)
  = map (fun rel => rel_elm rel) (OrderedDict.values (items self)).
Proof.
  unfold xml_element. rewrite foldl_add_rel. unfold CT_Relationships.Relationship_lst, findall.
  simpl. induction (OrderedDict.values (items self)) as [|rel rels IH]; [reflexivity|].
  simpl. rewrite filter_cons_True by apply rel_elm_tag. now rewrite IH.
Qed.

(** X5. Reading the element [Relationships.xml] builds gives one
    serialized relationship for each relationship of the collection, in the
    order of the collection, with the same rId and relationship type, the
    target reference of the relationship, and [is_external] as in the
    relationship. *)
Theorem rels_item_round_trip (self : Relationships) (baseURI' : string) :
  exists srels,
    load_from_xml baseURI' (Some (xml_element partname relative_ref self)) = Some srels /\
    Forall2 (fun rel srel =>
               PkgReader._baseURI srel = baseURI' /\
               PkgReader._rId srel = rId rel /\
               PkgReader._reltype srel = reltype rel /\
               PkgReader._target_ref srel = target_ref partname relative_ref rel /\
               PkgReader.is_external srel = is_external rel)
            (OrderedDict.values (items self)) srels.
Proof.
  exists (map (fun rel =>
                 PkgReader.mk_SerializedRelationship baseURI' (rId rel) (reltype rel)
                   (if is_external rel then RTM.EXTERNAL else RTM.INTERNAL)
                   (target_ref partname relative_ref rel))
              (OrderedDict.values (items self))).
  split.
  - unfold load_from_xml. rewrite Relationship_lst_xml_element.
    apply mapM_Some. induction (OrderedDict.values (items self)) as [|rel rels IH];
      constructor; [|exact IH].
    unfold new_SerializedRelationship, CT_Relationship.new.
    destruct (is_external rel); vm_compute; reflexivity.
  - induction (OrderedDict.values (items self)) as [|rel rels IH]; constructor; [|exact IH].
    simpl. repeat split. unfold PkgReader.is_external. simpl.
    destruct (is_external rel); reflexivity.
Qed.

End Facts.
End RelsItemFacts.

(* --------------------------------------------------------------------- *)
(** ** The child-element descriptors: [ZeroOrOne], [ZeroOrOneChoice]; the
    attribute descriptors *)

Module ChildFacts.
Import Oxml ChoiceGroup OxmlFacts.

Lemma find_index_lt (t : string) (l : list Element) (i : nat) :
  find_index t l = Some i -> (i < length l)%nat.
Proof.
  intros H. apply find_index_Some in H as (c & Hc & _). now apply lookup_lt_Some in Hc.
Qed.

Lemma find_index_first (t : string) (l1 l2 : list Element) (c : Element) :
  Forall (fun c' => tag c' <> t) l1 -> tag c = t ->
  find_index t (l1 ++ c :: l2) = Some (length l1).
Proof.
  intros Hl1 Hc. induction l1 as [|a l1 IH]; simpl.
  - now rewrite decide_True.
  - apply Forall_cons in Hl1 as [Ha Hl1]. rewrite decide_False by assumption.
    now rewrite IH.
Qed.

Lemma find_index_insert (t : string) (l : list Element) (i : nat) (c : Element) :
  Forall (fun c' => tag c' <> t) l -> tag c = t -> (i <= length l)%nat ->
  find_index t (take i l ++ c :: drop i l) = Some i.
Proof.
  intros Hl Hc Hi. rewrite find_index_first; [|now apply Forall_take|assumption].
  rewrite length_take. f_equal. lia.
Qed.

Lemma first_child_found_in_le (self : Element) (tagnames : list string) (i : nat) :
  first_child_found_in self tagnames = Some i -> (i < length (children self))%nat.
Proof.
  intros H. apply first_child_found_in_Some in H as (c & _ & _ & Hc & _).
  now apply lookup_lt_Some in Hc.
Qed.

Lemma inserted_at_le (d : _BaseChildElement) (obj : Element) :
  (inserted_at d obj <= length (children obj))%nat.
Proof.
  unfold inserted_at. destruct (first_child_found_in obj (Oxml._successors d)) eqn:H; [|lia].
  apply first_child_found_in_le in H. lia.
Qed.

(** [_insert_child] puts the child at [inserted_at] and moves nothing
    else. *)
Lemma insert_child_children (d : _BaseChildElement) (obj child : Element) :
  children (_insert_child d obj child)
  = take (inserted_at d obj) (children obj) ++ child :: drop (inserted_at d obj) (children obj).
Proof.
  unfold _insert_child, insert_element_before, inserted_at.
  destruct (first_child_found_in obj (Oxml._successors d)); simpl; [reflexivity|].
  now rewrite firstn_all, drop_all.
Qed.

Lemma insert_child_tag_attrib (d : _BaseChildElement) (obj child : Element) :
  tag (_insert_child d obj child) = tag obj /\
  attrib (_insert_child d obj child) = attrib obj.
Proof.
  unfold _insert_child, insert_element_before.
  destruct (first_child_found_in obj (Oxml._successors d)); simpl; auto.
Qed.

Lemma filter_insert_other {P : Element -> Prop} `{forall x, Decision (P x)}
    (l : list Element) (i : nat) (c : Element) :
  ~ P c -> filter P (take i l ++ c :: drop i l) = filter P l.
Proof.
  intros Hc. rewrite filter_app, filter_cons_False by assumption.
  now rewrite <- filter_app, take_drop.
Qed.

Lemma filter_all {A : Type} (P : A -> Prop) `{forall x, Decision (P x)} (l : list A) :
  Forall P l -> filter P l = l.
Proof.
  induction 1 as [|x l Hx _ IH]; [reflexivity|].
  rewrite filter_cons_True by assumption. now rewrite IH.
Qed.

Lemma filter_none {A : Type} (P : A -> Prop) `{forall x, Decision (P x)} (l : list A) :
  Forall (fun x => ~ P x) l -> filter P l = [].
Proof.
  induction 1 as [|x l Hx _ IH]; [reflexivity|].
  now rewrite filter_cons_False by assumption.
Qed.

Lemma remove_all_no_child (obj : Element) (tagname : string) :
  find_index (qn tagname) (children (remove_all obj tagname)) = None.
Proof.
  apply find_index_None. simpl. apply Forall_forall. intros c Hc.
  now apply list_elem_of_filter in Hc as [Hc _].
Qed.

Lemma remove_all_id (obj : Element) (tagname : string) :
  find_index (qn tagname) (children obj) = None -> remove_all obj tagname = obj.
Proof.
  intros H. apply find_index_None in H. unfold remove_all, set_children.
  rewrite filter_all by assumption. now destruct obj.
Qed.


Lemma remove_choice_group_children (ts : list string) :
  forall obj,
    children (foldl remove_all obj ts) = filter (fun c => tag c ∉ ts) (children obj) /\
    tag (foldl remove_all obj ts) = tag obj /\
    attrib (foldl remove_all obj ts) = attrib obj.
Proof.
  induction ts as [|t ts IH]; intros obj; simpl.
  - split; [|auto]. symmetry. apply filter_all. apply Forall_forall.
    intros c _. apply not_elem_of_nil.
  - destruct (IH (remove_all obj t)) as (-> & -> & ->). simpl. split; [|auto].
    rewrite list_filter_filter. apply list_filter_iff. intros c.
    rewrite not_elem_of_cons. unfold qn. split; intros [? ?]; split; auto.
Qed.

Lemma first_child_found_in_only (obj : Element) (t : string) (ts : list string) (i : nat) :
  t ∈ ts ->
  find_index (qn t) (children obj) = Some i ->
  (forall t', t' ∈ ts -> t' <> t -> find_index (qn t') (children obj) = None) ->
  first_child_found_in obj ts = Some i.
Proof.
  intros Hin Hfind Hothers. induction ts as [|t' ts IH]; [now apply elem_of_nil in Hin|].
  simpl. destruct (decide (t' = t)) as [->|Hne].
  - now rewrite Hfind.
  - rewrite (Hothers t') by (auto; left). apply IH.
    + apply elem_of_cons in Hin as [->|Hin]; [congruence|assumption].
    + intros t'' Ht''. apply Hothers. now right.
Qed.

(** X7. [get_or_change_to_x] of a choice that belongs to its group answers
    with a child of the tag of the choice, which the getter of the choice
    then finds.  When the element had no such child, the new child is
    afterwards the only child that belongs to the group, the group getter
    finds it, and the children outside the group are kept in their order;
    when it had one, nothing is changed. *)
Theorem choice_group_exclusive (group : ZeroOrOneChoice) (nsptagname : string)
    (obj : Element) :
  nsptagname ∈ _member_nsptagnames group ->
  let '(child, obj') := get_or_change_to_child group nsptagname obj in
  (exists c, children obj' !! child = Some c /\ tag c = qn nsptagname) /\
  get_child_element (choice group nsptagname) obj' = Some child /\
  (get_child_element (choice group nsptagname) obj = None ->
     filter (fun c => tag c ∈ _member_nsptagnames group) (children obj')
     = [new_child_element (choice group nsptagname)] /\
     filter (fun c => tag c ∉ _member_nsptagnames group) (children obj')
     = filter (fun c => tag c ∉ _member_nsptagnames group) (children obj) /\
     get_group_member_element group obj' = Some child) /\
  (forall present, get_child_element (choice group nsptagname) obj = Some present ->
     child = present /\ obj' = obj).
Proof.
  intros Hmember. unfold get_or_change_to_child, get_child_element.
  cbn [Oxml._nsptagname choice].
  destruct (find_index (qn nsptagname) (children obj)) as [i|] eqn:Hfind.
  - rewrite Hfind. split.
    { apply find_index_Some in Hfind as (c & Hc & Ht & _). eauto. }
    split; [reflexivity|]. split; [discriminate|]. intros present [= <-]. auto.
  - set (d := choice group nsptagname).
    set (obj1 := _remove_choice_group group obj).
    destruct (remove_choice_group_children (_member_nsptagnames group) obj)
      as (Hch & Htag & Hattr). fold (_remove_choice_group group obj) in Hch. fold obj1 in Hch.
    assert (Hout : Forall (fun c => tag c ∉ _member_nsptagnames group) (children obj1)).
    { rewrite Hch. apply Forall_forall. intros c Hc.
      now apply list_elem_of_filter in Hc as [Hc _]. }
    assert (Hnone : Forall (fun c => tag c <> qn nsptagname) (children obj1)).
    { eapply Forall_impl; [exact Hout|]. intros c Hc Heq. apply Hc. now rewrite Heq. }
    unfold _add_child. pose proof (inserted_at_le d obj1) as Hle.
    assert (Hnew : find_index (qn nsptagname)
                     (children (_insert_child d obj1 (new_child_element d)))
                   = Some (inserted_at d obj1)).
    { rewrite insert_child_children. now apply find_index_insert. }
    assert (Hat : children (_insert_child d obj1 (new_child_element d)) !! inserted_at d obj1
                  = Some (new_child_element d)).
    { rewrite insert_child_children.
      rewrite lookup_app_r by (rewrite length_take; lia).
      rewrite length_take. now replace (_ - _)%nat with O by lia. }
    split; [eauto|]. split; [exact Hnew|]. split; [|discriminate].
    intros _. rewrite insert_child_children. repeat split.
    + rewrite filter_app, filter_cons_True by exact Hmember.
      rewrite !filter_none; [reflexivity| |].
      * apply Forall_drop. eapply Forall_impl; [exact Hout|]. auto.
      * apply Forall_take. eapply Forall_impl; [exact Hout|]. auto.
    + rewrite filter_insert_other by (intros Hc; now apply Hc).
      rewrite Hch, list_filter_filter. apply list_filter_iff. tauto.
    + unfold get_group_member_element.
      apply (first_child_found_in_only _ nsptagname); [assumption| |].
      * rewrite insert_child_children. now apply find_index_insert.
      * intros t' Ht' Hne. apply find_index_None. rewrite insert_child_children.
        apply Forall_app. split; [|constructor].
        -- apply Forall_take. eapply Forall_impl; [exact Hout|].
           intros c Hc Heq. apply Hc. now rewrite Heq.
        -- simpl. unfold qn. congruence.
        -- apply Forall_drop. eapply Forall_impl; [exact Hout|].
           intros c Hc Heq. apply Hc. now rewrite Heq.
Qed.

Lemma choice_group_exclusive_witness :
  let group := mk_ZeroOrOneChoice ["w:pgSz"; "w:pgMar"]%string ["w:cols"]%string in
  let obj := mk_Element "w:sectPr" []
               [OxmlElement "w:headerReference"; OxmlElement "w:pgMar"; OxmlElement "w:cols"] in
  filter (fun c => tag c ∈ _member_nsptagnames group)
         (children (snd (get_or_change_to_child group "w:pgSz" obj)))
  = [OxmlElement "w:pgSz"].
Proof.
  intros group obj.
  pose proof (choice_group_exclusive group "w:pgSz" obj) as H.
  destruct (get_or_change_to_child group "w:pgSz" obj) as [child obj'] eqn:Hcall.
  destruct H as (_ & _ & Hnew & _).
  - vm_compute. left.
  - simpl. apply Hnew. vm_compute. reflexivity.
Defined.

(** *** The attribute descriptors *)

Section AttributeFacts.
Context {A : Type} `{EqDecision A}.
Variable _attr_name : string.
Variable from_xml : string -> result A.
Variable to_xml : A -> result string.
Variable _default : option A.


End AttributeFacts.


End ChildFacts.

(* --------------------------------------------------------------------- *)
(** ** The properties of a cell: span, vertical merge and width, set and
    read; the two orders of a merge *)

Module CellFacts.
Import Oxml SimpleTypes Table OxmlFacts ChildFacts SimpleTypesFacts LengthFacts TableFacts.

Lemma find_index_replace (t : string) (l : list Element) (i : nat) (c c' : Element) :
  l !! i = Some c -> tag c' = tag c -> find_index t (<[i := c']> l) = find_index t l.
Proof.
  revert i. induction l as [|a l IH]; intros i Hi Ht; [discriminate|].
  destruct i as [|i]; simpl in *.
  - injection Hi as ->. rewrite Ht. reflexivity.
  - now rewrite (IH _ Hi Ht).
Qed.

Lemma child_at_replace (obj : Element) (i : nat) (c : Element) :
  (i < length (children obj))%nat -> child_at (replace obj i c) i = c.
Proof.
  intros Hi. unfold child_at, replace. simpl.
  apply list_lookup_total_correct. now apply list_lookup_insert_eq.
Qed.

Lemma child_at_lookup (obj : Element) (i : nat) (c : Element) :
  children obj !! i = Some c -> child_at obj i = c.
Proof. intros H. unfold child_at. now apply list_lookup_total_correct. Qed.

(** [_add_child] where there is no such child yet *)
Lemma add_child_fresh (d : _BaseChildElement) (obj : Element) :
  find_index (qn (_nsptagname d)) (children obj) = None ->
  find_index (qn (_nsptagname d)) (children (snd (_add_child d obj)))
    = Some (fst (_add_child d obj)) /\
  children (snd (_add_child d obj)) !! fst (_add_child d obj) = Some (new_child_element d) /\
  tag (snd (_add_child d obj)) = tag obj.
Proof.
  intros Hnone. unfold _add_child. simpl. pose proof (inserted_at_le d obj) as Hle.
  rewrite insert_child_children. split; [|split].
  - apply find_index_insert; [now apply find_index_None|reflexivity|assumption].
  - rewrite lookup_app_r by (rewrite length_take; lia).
    rewrite length_take. now replace (_ - _)%nat with O by lia.
  - apply insert_child_tag_attrib.
Qed.

(** A child that is there or was just added, changed in place, then read *)
Lemma changed_child_found (d : _BaseChildElement) (obj : Element) (i : nat)
    (c c' : Element) :
  find_index (qn (_nsptagname d)) (children obj) = Some i ->
  children obj !! i = Some c -> tag c' = tag c ->
  find_index (qn (_nsptagname d)) (children (replace obj i c')) = Some i /\
  child_at (replace obj i c') i = c'.
Proof.
  intros Hfind Hc Ht. split.
  - unfold replace. simpl. now rewrite (find_index_replace _ _ _ _ _ Hc Ht).
  - apply child_at_replace. now apply lookup_lt_Some in Hc.
Qed.

Lemma get_or_add_tcPr_found (tc : Element) :
  exists c,
    find_index "w:tcPr" (children (snd (CT_Tc_element.get_or_add_tcPr tc)))
      = Some (fst (CT_Tc_element.get_or_add_tcPr tc)) /\
    children (snd (CT_Tc_element.get_or_add_tcPr tc)) !! fst (CT_Tc_element.get_or_add_tcPr tc)
      = Some c /\
    tag c = "w:tcPr"%string.
Proof.
  unfold CT_Tc_element.get_or_add_tcPr, get_child_element. simpl.
  destruct (find_index (qn "w:tcPr") (children tc)) as [i|] eqn:Hfind; simpl.
  - apply find_index_Some in Hfind as Hc. destruct Hc as (c & Hc & Ht & _). eauto.
  - exists (OxmlElement "w:tcPr"). auto.
Qed.

(** What is set on the [w:tcPr] of a cell is read from the cell. *)
Lemma through_tcPr {A : Type} (setter : Element -> result Element)
    (getter : Element -> result A) (absent : result A) (tc : Element) :
  (let '(tcPr, tc1) := CT_Tc_element.get_or_add_tcPr tc in
   child ← setter (child_at tc1 tcPr); Ok (replace tc1 tcPr child))
  = match setter (child_at (snd (CT_Tc_element.get_or_add_tcPr tc))
                           (fst (CT_Tc_element.get_or_add_tcPr tc))) with
    | Raise e => Raise e
    | Ok child =>
        Ok (replace (snd (CT_Tc_element.get_or_add_tcPr tc))
                    (fst (CT_Tc_element.get_or_add_tcPr tc)) child)
    end /\
  forall tcPr', 
    setter (child_at (snd (CT_Tc_element.get_or_add_tcPr tc))
                     (fst (CT_Tc_element.get_or_add_tcPr tc))) = Ok tcPr' ->
    tag tcPr' = "w:tcPr"%string ->
    match get_child_element CT_Tc_element.tcPr
            (replace (snd (CT_Tc_element.get_or_add_tcPr tc))
                     (fst (CT_Tc_element.get_or_add_tcPr tc)) tcPr') with
    | None => absent
    | Some tcPr => getter (child_at (replace (snd (CT_Tc_element.get_or_add_tcPr tc))
                                             (fst (CT_Tc_element.get_or_add_tcPr tc)) tcPr')
                                    tcPr)
    end = getter tcPr'.
Proof.
  destruct (get_or_add_tcPr_found tc) as (c & Hfind & Hc & Ht).
  destruct (CT_Tc_element.get_or_add_tcPr tc) as [i tc1]. simpl in *. split.
  - destruct (setter (child_at tc1 i)); reflexivity.
  - intros tcPr' _ Ht'.
    destruct (changed_child_found CT_Tc_element.tcPr tc1 i c tcPr' Hfind Hc) as [Hf Hat];
      [congruence|].
    unfold get_child_element.
    change (qn (_nsptagname CT_Tc_element.tcPr)) with "w:tcPr"%string in *.
    now rewrite Hf, Hat.
Qed.

(** The span of a [w:tcPr], set and read *)
Lemma tcPr_grid_span_set_get (tcPr : Element) (value : Z) :
  match CT_TcPr.set_grid_span tcPr value with
  | Ok tcPr' =>
      value <= 2147483647 /\ tag tcPr' = tag tcPr /\
      CT_TcPr.grid_span tcPr' = Ok (if value >? 1 then value else 1)
  | Raise e => 2147483647 < value /\ exists msg, e = ValueError msg
  end.
Proof.
  unfold CT_TcPr.set_grid_span.
  pose proof (remove_all_no_child tcPr "w:gridSpan") as Hnone.
  change (remove_all tcPr "w:gridSpan") with (_remove_child CT_TcPr.gridSpan tcPr) in Hnone.
  set (p1 := _remove_child CT_TcPr.gridSpan tcPr) in *.
  destruct (value >? 1) eqn:Hv.
  - unfold get_or_add_child, get_child_element.
    change (qn (_nsptagname CT_TcPr.gridSpan)) with (qn "w:gridSpan"). rewrite Hnone.
    destruct (add_child_fresh CT_TcPr.gridSpan p1 Hnone) as (Hfind & Hat & Htag).
    destruct (_add_child CT_TcPr.gridSpan p1) as [j p2]. simpl in Hfind, Hat, Htag.
    rewrite (child_at_lookup _ _ _ Hat).
    unfold CT_DecimalNumber.set_val, Attribute.required_set_attr_value,
      ST_DecimalNumber.to_xml, XsdInt.validate, validate_int_in_range.
    rewrite Z.gtb_ltb in Hv. apply Z.ltb_lt in Hv.
    destruct (value <? -2147483648) eqn:Hlo; [apply Z.ltb_lt in Hlo; lia|].
    destruct (value >? 2147483647) eqn:Hhi; simpl.
    + rewrite Z.gtb_ltb in Hhi. apply Z.ltb_lt in Hhi. split; [lia|eauto].
    + rewrite Z.gtb_ltb in Hhi. apply Z.ltb_ge in Hhi. split; [lia|]. split.
      * rewrite Htag. reflexivity.
      * unfold CT_TcPr.grid_span, get_child_element.
        change (qn (_nsptagname CT_TcPr.gridSpan)) with (qn "w:gridSpan").
        destruct (changed_child_found CT_TcPr.gridSpan p2 j _
                    (set (new_child_element CT_TcPr.gridSpan)
                         (Attribute._clark_name "w:val")
                         (BaseIntType.convert_to_xml value)) Hfind Hat eq_refl) as [Hf Hc'].
        change (qn (_nsptagname CT_TcPr.gridSpan)) with (qn "w:gridSpan") in Hf.
        rewrite Hf, Hc'.
        unfold CT_DecimalNumber.val, Attribute.required_get_attr_value. simpl.
        unfold ST_DecimalNumber.from_xml, BaseIntType.convert_from_xml,
          BaseIntType.convert_to_xml.
        apply int_str.
  - rewrite Z.gtb_ltb in Hv. apply Z.ltb_ge in Hv. split; [lia|]. split; [reflexivity|].
    unfold CT_TcPr.grid_span, get_child_element.
    change (qn (_nsptagname CT_TcPr.gridSpan)) with (qn "w:gridSpan"). now rewrite Hnone.
Qed.

(** X9. Setting the span of a cell and reading it: a value above 1 and
    within the range of [XsdInt] reads back as it was set, a value of 1 or
    less reads back as 1 (the [w:gridSpan] element is removed), and a value
    above the range is a [ValueError]. *)
Theorem grid_span_set_then_get (tc : Element) (value : Z) :
  (value <= 2147483647 ->
   exists tc',
     CT_Tc_element.set_grid_span tc value = Ok tc' /\
     CT_Tc_element.grid_span tc' = Ok (if value >? 1 then value else 1) /\
     tag tc' = tag tc) /\
  (2147483647 < value ->
   exists msg, CT_Tc_element.set_grid_span tc value = Raise (ValueError msg)).
Proof.
  unfold CT_Tc_element.set_grid_span, CT_Tc_element.grid_span.
  destruct (through_tcPr (fun p => CT_TcPr.set_grid_span p value) CT_TcPr.grid_span (Ok 1) tc)
    as [Hset Hget].
  destruct (get_or_add_tcPr_found tc) as (c & _ & Hc & Ht).
  rewrite Hset. clear Hset.
  pose proof (tcPr_grid_span_set_get
                (child_at (snd (CT_Tc_element.get_or_add_tcPr tc))
                          (fst (CT_Tc_element.get_or_add_tcPr tc))) value) as Hp.
  rewrite (child_at_lookup _ _ _ Hc) in *.
  assert (Htag : tag (snd (CT_Tc_element.get_or_add_tcPr tc)) = tag tc).
  { unfold CT_Tc_element.get_or_add_tcPr.
    destruct (get_child_element CT_Tc_element.tcPr tc); reflexivity. }
  destruct (CT_TcPr.set_grid_span c value) as [tcPr'|e].
  - destruct Hp as (Hle & Htag' & Hspan). split; [|lia].
    intros _. eexists. split; [reflexivity|]. split; [|exact Htag].
    rewrite (Hget tcPr' eq_refl) by congruence. exact Hspan.
  - destruct Hp as (Hgt & msg & ->). split; [lia|]. intros _. eauto.
Qed.

Lemma grid_span_set_then_get_witness :
  exists tc',
    CT_Tc_element.set_grid_span Examples.tc_plain 3 = Ok tc' /\
    CT_Tc_element.grid_span tc' = Ok 3.
Proof.
  destruct (proj1 (grid_span_set_then_get Examples.tc_plain 3)) as (tc' & Hset & Hget & _).
  - lia.
  - exists tc'. split; [exact Hset|exact Hget].
Defined.

Lemma get_or_add_child_found (d : _BaseChildElement) (obj : Element) :
  exists c,
    find_index (qn (_nsptagname d)) (children (snd (get_or_add_child d obj)))
      = Some (fst (get_or_add_child d obj)) /\
    children (snd (get_or_add_child d obj)) !! fst (get_or_add_child d obj) = Some c /\
    tag c = qn (_nsptagname d) /\
    tag (snd (get_or_add_child d obj)) = tag obj.
Proof.
  unfold get_or_add_child, get_child_element.
  destruct (find_index (qn (_nsptagname d)) (children obj)) as [i|] eqn:Hfind.
  - simpl. apply find_index_Some in Hfind as Hc. destruct Hc as (c & Hc & Ht & _). eauto.
  - destruct (add_child_fresh d obj Hfind) as (Hf & Hat & Htag).
    exists (new_child_element d). auto.
Qed.

Lemma tcPr_vMerge_set_get (tcPr : Element) (value : option string) :
  match CT_TcPr.set_vMerge_val tcPr value with
  | Ok tcPr' =>
      (value = None \/ value = Some ST_Merge.CONTINUE \/ value = Some ST_Merge.RESTART) /\
      tag tcPr' = tag tcPr /\ CT_TcPr.vMerge_val tcPr' = Ok value
  | Raise e =>
      (exists v, value = Some v /\ v <> ST_Merge.CONTINUE /\ v <> ST_Merge.RESTART) /\
      exists msg, e = ValueError msg
  end.
Proof.
  unfold CT_TcPr.set_vMerge_val.
  pose proof (remove_all_no_child tcPr "w:vMerge") as Hnone.
  change (remove_all tcPr "w:vMerge") with (_remove_child CT_TcPr.vMerge tcPr) in Hnone.
  set (p1 := _remove_child CT_TcPr.vMerge tcPr) in *.
  destruct value as [v|].
  - destruct (add_child_fresh CT_TcPr.vMerge p1 Hnone) as (Hfind & Hat & Htag).
    destruct (_add_child CT_TcPr.vMerge p1) as [j p2]. simpl in Hfind, Hat, Htag.
    rewrite (child_at_lookup _ _ _ Hat).
    unfold CT_VMerge.set_val, Attribute.optional_set_attr_value.
    assert (Hread : forall c',
              tag c' = "w:vMerge"%string ->
              CT_TcPr.vMerge_val (replace p2 j c') = CT_VMerge.val c').
    { intros c' Hc'. unfold CT_TcPr.vMerge_val, get_child_element.
      destruct (changed_child_found CT_TcPr.vMerge p2 j _ c' Hfind Hat Hc') as [Hf Hc2].
      change (qn (_nsptagname CT_TcPr.vMerge)) with (qn "w:vMerge") in Hf |- *.
      now rewrite Hf, Hc2. }
    destruct (decide (Some v = Some ST_Merge.CONTINUE)) as [Hd|Hd].
    + injection Hd as ->. split; [auto|]. split; [exact Htag|].
      rewrite Hread by reflexivity. reflexivity.
    + unfold ST_Merge.to_xml, ST_Merge.validate. case_bool_decide as Hin; simpl.
      * assert (v = ST_Merge.RESTART) as ->.
        { unfold ST_Merge._members in Hin.
          apply elem_of_cons in Hin as [->|Hin]; [congruence|].
          now apply list_elem_of_singleton in Hin. }
        split; [auto|]. split; [exact Htag|].
        rewrite Hread by reflexivity. reflexivity.
      * split; [|eauto]. exists v. split; [reflexivity|].
        unfold ST_Merge._members in Hin. split; intros ->; apply Hin.
        -- left.
        -- right. left.
  - split; [auto|]. split; [reflexivity|].
    unfold CT_TcPr.vMerge_val, get_child_element.
    change (qn (_nsptagname CT_TcPr.vMerge)) with (qn "w:vMerge"). now rewrite Hnone.
Qed.

(** X10. Setting the vertical merge of a cell and reading it: [None],
    ["continue"] and ["restart"] read back as they were set, and any other
    value is a [ValueError]. *)
Theorem vMerge_set_then_get (tc : Element) (value : option string) :
  (value = None \/ value = Some ST_Merge.CONTINUE \/ value = Some ST_Merge.RESTART ->
   exists tc',
     CT_Tc_element.set_vMerge tc value = Ok tc' /\
     CT_Tc_element.vMerge tc' = Ok value /\
     tag tc' = tag tc) /\
  (forall v, value = Some v -> v <> ST_Merge.CONTINUE -> v <> ST_Merge.RESTART ->
   exists msg, CT_Tc_element.set_vMerge tc value = Raise (ValueError msg)).
Proof.
  unfold CT_Tc_element.set_vMerge, CT_Tc_element.vMerge.
  destruct (through_tcPr (fun p => CT_TcPr.set_vMerge_val p value) CT_TcPr.vMerge_val
              (Ok None) tc) as [Hset Hget].
  destruct (get_or_add_tcPr_found tc) as (c & _ & Hc & Ht).
  rewrite Hset. clear Hset.
  pose proof (tcPr_vMerge_set_get
                (child_at (snd (CT_Tc_element.get_or_add_tcPr tc))
                          (fst (CT_Tc_element.get_or_add_tcPr tc))) value) as Hp.
  rewrite (child_at_lookup _ _ _ Hc) in *.
  assert (Htag : tag (snd (CT_Tc_element.get_or_add_tcPr tc)) = tag tc).
  { unfold CT_Tc_element.get_or_add_tcPr.
    destruct (get_child_element CT_Tc_element.tcPr tc); reflexivity. }
  destruct (CT_TcPr.set_vMerge_val c value) as [tcPr'|e].
  - destruct Hp as (Hval & Htag' & Hread). split.
    + intros _. eexists. split; [reflexivity|]. split; [|exact Htag].
      rewrite (Hget tcPr' eq_refl) by congruence. exact Hread.
    + intros v -> Hc1 Hc2. exfalso.
      destruct Hval as [|[[= ->]|[= ->]]]; [discriminate|now apply Hc1|now apply Hc2].
  - destruct Hp as ((v & -> & Hc1 & Hc2) & msg & ->). split.
    + intros [|[[= ->]|[= ->]]]; [discriminate|now destruct Hc1|now destruct Hc2].
    + intros v' _ _ _. eauto.
Qed.

Lemma vMerge_set_then_get_witness :
  exists tc',
    CT_Tc_element.set_vMerge Examples.tc_plain (Some ST_Merge.CONTINUE) = Ok tc' /\
    CT_Tc_element.vMerge tc' = Ok (Some ST_Merge.CONTINUE).
Proof.
  destruct (proj1 (vMerge_set_then_get Examples.tc_plain (Some ST_Merge.CONTINUE)))
    as (tc' & Hset & Hget & _).
  - right. left. reflexivity.
  - exists tc'. split; [exact Hset|exact Hget].
Defined.

Lemma tcPr_width_set_get (tcPr : Element) (value K t : Z) :
  value = 635 * K + t -> Z.abs t <= 317 ->
  Z.abs value < 2 ^ 52 \/ (t = 0 /\ Z.abs value < 2 ^ 53) ->
  match CT_TcPr.set_width tcPr value with
  | Ok tcPr' =>
      -2147483648 <= K <= 2147483647 /\ tag tcPr' = tag tcPr /\
      CT_TcPr.width tcPr' = Ok (Some (635 * K))
  | Raise e => ~ (-2147483648 <= K <= 2147483647) /\ exists msg, e = ValueError msg
  end.
Proof.
  intros Hv Ht Hrange. unfold CT_TcPr.set_width.
  destruct (get_or_add_child_found CT_TcPr.tcW tcPr) as (c & Hfind & Hat & Hc & Htag).
  destruct (get_or_add_child CT_TcPr.tcW tcPr) as [j p2]. simpl in Hfind, Hat, Htag.
  rewrite (child_at_lookup _ _ _ Hat).
  unfold CT_TblWidth.set_width, CT_TblWidth.set_type, Attribute.required_set_attr_value.
  change (ST_TblWidth.to_xml "dxa") with (Ok "dxa"%string : result string).
  cbn [mbind result_bind Py.bind].
  unfold Length.Emu, Length.Length. rewrite (twips_nearest value K t Hv Ht Hrange).
  cbn [mbind result_bind Py.bind].
  unfold CT_TblWidth.set_w, Attribute.required_set_attr_value, XsdInt.to_xml, XsdInt.validate,
    validate_int_in_range.
  destruct (K <? -2147483648) eqn:Hlo; simpl.
  { apply Z.ltb_lt in Hlo. split; [lia|eauto]. }
  apply Z.ltb_ge in Hlo.
  destruct (K >? 2147483647) eqn:Hhi; simpl.
  { rewrite Z.gtb_ltb in Hhi. apply Z.ltb_lt in Hhi. split; [lia|eauto]. }
  rewrite Z.gtb_ltb in Hhi. apply Z.ltb_ge in Hhi. split; [lia|]. split; [exact Htag|].
  unfold CT_TcPr.width, get_child_element.
  match goal with
  | |- context [replace p2 j ?c'] =>
      destruct (changed_child_found CT_TcPr.tcW p2 j c c' Hfind Hat) as [Hf Hc2];
        [simpl; congruence|]
  end.
  rewrite Hf, Hc2.
  unfold CT_TblWidth.width, CT_TblWidth.type, CT_TblWidth.w, Attribute.required_get_attr_value,
    Attribute._clark_name, get, set.
  cbn [attrib set_attrib].
  rewrite !DictFacts.getitem_setitem. unfold qn.
  destruct (decide ("w:w"%string = "w:type"%string)) as [Hx|_]; [discriminate|].
  destruct (decide ("w:type"%string = "w:type"%string)) as [_|Hx]; [|congruence].
  destruct (decide ("w:w"%string = "w:w"%string)) as [_|Hx]; [|congruence].
  cbn [ST_TblWidth.from_xml mbind result_bind Py.bind].
  destruct (decide ("dxa"%string <> "dxa"%string)) as [Hx|_]; [congruence|].
  unfold XsdInt.from_xml, BaseIntType.convert_from_xml, BaseIntType.convert_to_xml.
  rewrite int_str. cbn [mbind result_bind Py.bind].
  unfold Length.Twips, Length.Length, Length._EMUS_PER_TWIP. do 2 f_equal. lia.
Qed.

(** X11. Setting the width of a cell and reading it: the width that is read
    is the width that was set, rounded to a whole number of twips (of 635
    EMU each), for widths below [2^52] EMU in size; when that number of
    twips is outside the range of [XsdInt] the setter raises [ValueError]. *)
Theorem width_set_then_get (tc : Element) (value K t : Z) :
  value = 635 * K + t -> Z.abs t <= 317 -> Z.abs value < 2 ^ 52 ->
  (-2147483648 <= K <= 2147483647 ->
   exists tc',
     CT_Tc_element.set_width tc value = Ok tc' /\
     CT_Tc_element.width tc' = Ok (Some (635 * K)) /\
     tag tc' = tag tc) /\
  (~ (-2147483648 <= K <= 2147483647) ->
   exists msg, CT_Tc_element.set_width tc value = Raise (ValueError msg)).
Proof.
  intros Hv Ht Hrange.
  unfold CT_Tc_element.set_width, CT_Tc_element.width.
  destruct (through_tcPr (fun p => CT_TcPr.set_width p value) CT_TcPr.width (Ok None) tc)
    as [Hset Hget].
  destruct (get_or_add_tcPr_found tc) as (c & _ & Hc & Htc).
  rewrite Hset. clear Hset.
  pose proof (tcPr_width_set_get
                (child_at (snd (CT_Tc_element.get_or_add_tcPr tc))
                          (fst (CT_Tc_element.get_or_add_tcPr tc))) value K t Hv Ht
                (or_introl Hrange)) as Hp.
  rewrite (child_at_lookup _ _ _ Hc) in *.
  assert (Htag : tag (snd (CT_Tc_element.get_or_add_tcPr tc)) = tag tc).
  { unfold CT_Tc_element.get_or_add_tcPr.
    destruct (get_child_element CT_Tc_element.tcPr tc); reflexivity. }
  destruct (CT_TcPr.set_width c value) as [tcPr'|e].
  - destruct Hp as (HK & Htag' & Hread). split; [|intros Hn; now destruct Hn].
    intros _. eexists. split; [reflexivity|]. split; [|exact Htag].
    rewrite (Hget tcPr' eq_refl) by congruence. exact Hread.
  - destruct Hp as (HK & msg & ->). split; [intros HK'; now destruct HK|].
    intros _. eauto.
Qed.

Lemma width_set_then_get_witness :
  exists tc',
    CT_Tc_element.set_width Examples.tc_plain 914500 = Ok tc' /\
    CT_Tc_element.width tc' = Ok (Some 914400).
Proof.
  destruct (proj1 (width_set_then_get Examples.tc_plain 914500 1440 100
                     ltac:(reflexivity) ltac:(simpl; lia) ltac:(simpl; lia)))
    as (tc' & Hset & Hget & _).
  - lia.
  - exists tc'. split; [exact Hset|exact Hget].
Defined.

(** X12. [merge] does not depend on the order of its two cells: for cells
    whose extents can be computed, merging the first with the second and the
    second with the first give the same outcome, the same top-left cell and
    table or the same error. *)
Theorem merge_symmetric (tbl : Element) (a b : address) (ea eb : extent) :
  extent_of tbl a ea -> extent_of tbl b eb ->
  CT_Tc.merge tbl a b = CT_Tc.merge tbl b a.
Proof.
  intros (Hat & Hal & Hab & Har) (Hbt & Hbl & Hbb & Hbr).
  unfold CT_Tc.merge.
  rewrite (span_dimensions_extents tbl a b _ _ _ _ _ _ _ _ Hat Hbt Hab Hbb Hal Hbl Har Hbr).
  rewrite (span_dimensions_extents tbl b a _ _ _ _ _ _ _ _ Hbt Hat Hbb Hab Hbl Hal Hbr Har).
  rewrite (Z.min_comm (extent_top eb)), (Z.min_comm (extent_left eb)),
    (Z.max_comm (extent_bottom eb)), (Z.max_comm (extent_right eb)).
  repeat case_bool_decide; try reflexivity; exfalso; lia.
Qed.

Lemma merge_symmetric_witness :
  CT_Tc.merge (Examples.tbl_3x3 "1440") (mk_address 2 0) (mk_address 3 1)
  = CT_Tc.merge (Examples.tbl_3x3 "1440") (mk_address 3 1) (mk_address 2 0).
Proof.
  apply (merge_symmetric _ _ _ (mk_extent 0 0 1 1) (mk_extent 1 1 2 2));
    repeat split; vm_compute; reflexivity.
Defined.

(** *** The rows a cell extends over *)

Lemma tr_above_member (tbl : Element) (self : address) (tr : nat) :
  CT_Tc._tr_above tbl self = Ok tr -> tr ∈ CT_Tbl.tr_lst tbl /\ (tr < tr_at self)%nat.
Proof.
  intros H. split; [|now apply tr_above_lt in H].
  unfold CT_Tc._tr_above in H.
  destruct (last (filter _ (CT_Tbl.tr_lst tbl))) as [tr'|] eqn:Hlast; [|discriminate].
  injection H as ->. apply last_Some in Hlast as [l' Hl'].
  assert (Hin : tr ∈ filter (fun tr0 => tr0 < tr_at self)%nat (CT_Tbl.tr_lst tbl)).
  { rewrite Hl'. apply elem_of_app. right. left. }
  now apply list_elem_of_filter in Hin as [_ Hin].
Qed.

Lemma top_fuel_bound (fuel : nat) (tbl : Element) :
  forall self tr_idx t,
    CT_Tbl.tr_lst tbl !! tr_idx = Some (tr_at self) ->
    CT_Tc.top_fuel fuel tbl self = Some (Ok t) ->
    0 <= t <= Z.of_nat tr_idx.
Proof.
  induction fuel as [|fuel IH]; intros self tr_idx t Hidx; [discriminate|].
  cbn [CT_Tc.top_fuel].
  destruct (CT_Tc_element.vMerge (CT_Tc.element tbl self)) as [vMerge|e];
    cbn [fuel_bind lift]; [|discriminate].
  case_bool_decide.
  - unfold CT_Tc._tr_idx. rewrite (index_of_lookup _ _ _ (tr_lst_NoDup tbl) Hidx).
    cbn [fmap result_fmap lift]. intros [= <-]. lia.
  - unfold CT_Tc._tc_above.
    destruct (CT_Tc._tr_above tbl self) as [tr|e] eqn:Habove;
      cbn [mbind result_bind Py.bind fuel_bind lift]; [|discriminate].
    destruct (CT_Tc.grid_offset tbl self) as [off|e];
      cbn [mbind result_bind Py.bind fuel_bind lift]; [|discriminate].
    destruct (CT_Row.tc_at_grid_offset (child_at tbl tr) off) as [tc|e];
      cbn [mbind result_bind Py.bind fuel_bind lift]; [|discriminate].
    intros Htop. apply tr_above_member in Habove as [Hin Hlt].
    apply list_elem_of_lookup in Hin as [idx' Hidx'].
    assert (Hord : (idx' < tr_idx)%nat).
    { destruct (Nat.lt_ge_cases idx' tr_idx) as [|Hge]; [assumption|].
      pose proof (sorted_lookup_le _ _ _ _ _ (proj2 (findall_from_bounds 0 (qn "w:tr")
                    (children tbl))) Hidx Hidx' Hge). lia. }
    specialize (IH (mk_address tr tc) idx' t Hidx' Htop). lia.
Qed.

Lemma bottom_fuel_bound (fuel : nat) (tbl : Element) :
  forall self tr_idx b,
    CT_Tbl.tr_lst tbl !! tr_idx = Some (tr_at self) ->
    CT_Tc.bottom_fuel fuel tbl self = Some (Ok b) ->
    Z.of_nat tr_idx < b <= Z.of_nat (length (CT_Tbl.tr_lst tbl)).
Proof.
  induction fuel as [|fuel IH]; intros self tr_idx b Hidx; [discriminate|].
  cbn [CT_Tc.bottom_fuel].
  destruct (CT_Tc_element.vMerge (CT_Tc.element tbl self)) as [vMerge|e];
    cbn [fuel_bind lift]; [|discriminate].
  pose proof (lookup_lt_Some _ _ _ Hidx) as Hlen.
  assert (Hown : fuel_bind (lift (CT_Tc._tr_idx tbl self))
                   (fun tr_idx0 => lift (Ok (tr_idx0 + 1))) = Some (Ok b) ->
                 Z.of_nat tr_idx < b <= Z.of_nat (length (CT_Tbl.tr_lst tbl))).
  { unfold CT_Tc._tr_idx. rewrite (index_of_lookup _ _ _ (tr_lst_NoDup tbl) Hidx).
    cbn [fmap result_fmap lift fuel_bind]. intros [= <-]. lia. }
  destruct vMerge as [vMerge|]; cbn [fuel_bind lift]; [|exact Hown].
  unfold CT_Tc._tc_below, CT_Tc._tr_below.
  rewrite (index_of_lookup _ _ _ (tr_lst_NoDup tbl) Hidx).
  cbn [mbind result_bind Py.bind fuel_bind lift].
  destruct (CT_Tbl.tr_lst tbl !! S tr_idx) as [tr_below|] eqn:Hbelow;
    cbn [mbind result_bind Py.bind fuel_bind lift]; [|exact Hown].
  destruct (CT_Tc.grid_offset tbl self) as [off|e];
    cbn [mbind result_bind Py.bind fuel_bind lift]; [|discriminate].
  destruct (CT_Row.tc_at_grid_offset (child_at tbl tr_below) off) as [tc|e];
    cbn [mbind result_bind Py.bind fuel_bind lift]; [|discriminate].
  destruct (CT_Tc_element.vMerge (CT_Tc.element tbl (mk_address tr_below tc)))
    as [vMerge_below|e]; cbn [fuel_bind lift]; [|discriminate].
  destruct (decide (vMerge_below = Some ST_Merge.CONTINUE)); cbn [fuel_bind lift];
    [|exact Hown].
  intros Hb. specialize (IH (mk_address tr_below tc) (S tr_idx) b Hbelow Hb). lia.
Qed.

(** X18. [top] and [bottom] of a cell return, and for a cell in the row of
    index [tr_idx] of the table, a [top] that is computed lies in
    [0 .. tr_idx] and a [bottom] that is computed lies in
    [tr_idx + 1 .. len(tr_lst)]: the cell extends over its own row and
    stays within the table. *)
Theorem extent_rows_in_range (tbl : Element) (self : address) :
  exists top_result bottom_result,
    CT_Tc.top tbl self = Some top_result /\
    CT_Tc.bottom tbl self = Some bottom_result /\
    forall tr_idx : nat,
      CT_Tbl.tr_lst tbl !! tr_idx = Some (tr_at self) ->
      (forall t, top_result = Ok t -> 0 <= t <= Z.of_nat tr_idx) /\
      (forall b, bottom_result = Ok b ->
                 Z.of_nat tr_idx < b <= Z.of_nat (length (CT_Tbl.tr_lst tbl))).
Proof.
  pose proof (top_returns tbl self) as Ht. pose proof (bottom_returns tbl self) as Hb.
  destruct (CT_Tc.top tbl self) as [top_result|] eqn:Htop; [|contradiction].
  destruct (CT_Tc.bottom tbl self) as [bottom_result|] eqn:Hbottom; [|contradiction].
  exists top_result, bottom_result. split; [reflexivity|]. split; [reflexivity|].
  intros tr_idx Hidx. split.
  - intros t ->. exact (top_fuel_bound _ _ _ _ _ Hidx Htop).
  - intros b ->. exact (bottom_fuel_bound _ _ _ _ _ Hidx Hbottom).
Qed.

End CellFacts.

(* --------------------------------------------------------------------- *)
(** ** Simple types and colors: what is written is what is read *)

Module ValueFacts.
Import SimpleTypes SimpleTypesMore Color SimpleTypesFacts.

Lemma validate_int_in_range_spec (value lo hi : Z) :
  (lo <= value <= hi -> validate_int_in_range value lo hi = Ok tt) /\
  (~ (lo <= value <= hi) -> exists msg, validate_int_in_range value lo hi = Raise (ValueError msg)).
Proof.
  unfold validate_int_in_range.
  destruct (value <? lo) eqn:Hlo; simpl.
  - apply Z.ltb_lt in Hlo. split; [lia|eauto].
  - apply Z.ltb_ge in Hlo. destruct (value >? hi) eqn:Hhi.
    + rewrite Z.gtb_ltb in Hhi. apply Z.ltb_lt in Hhi. split; [lia|eauto].
    + rewrite Z.gtb_ltb in Hhi. apply Z.ltb_ge in Hhi. split; [reflexivity|lia].
Qed.

Lemma int_type_reads_back_of (lo hi : Z) (to_xml : Z -> result string) :
  (forall value, to_xml value =
                 (_ ← validate_int_in_range value lo hi; Ok (BaseIntType.convert_to_xml value))) ->
  int_type_reads_back lo hi to_xml BaseIntType.convert_from_xml.
Proof.
  intros Hto value. rewrite Hto.
  destruct (validate_int_in_range_spec value lo hi) as [Hin Hout]. split.
  - intros Hr. rewrite (Hin Hr). split; [reflexivity|apply int_str].
  - intros Hr. destruct (Hout Hr) as [msg ->]. eauto.
Qed.

(** X13. Each simple type reads back what it writes.  The integer types
    write a value within their range as its decimal text, which reads back
    as the value, and raise [ValueError] for a value outside it; the two
    boolean types write [1] and [0], which read back as [True] and [False];
    and [from_xml] of the boolean types accepts the listed literals and
    raises [InvalidXmlError] for any other text. *)
Theorem simple_types_read_back :
  int_type_reads_back (-2147483648) 2147483647 XsdInt.to_xml XsdInt.from_xml /\
  int_type_reads_back (-9223372036854775808) 9223372036854775807
                      XsdLong.to_xml XsdLong.from_xml /\
  int_type_reads_back 0 4294967295 XsdUnsignedInt.to_xml XsdUnsignedInt.from_xml /\
  int_type_reads_back 0 18446744073709551615
                      XsdUnsignedLong.to_xml XsdUnsignedLong.from_xml /\
  (forall value : bool,
     (exists s, XsdBoolean.to_xml value = Ok s /\ XsdBoolean.from_xml s = Ok value) /\
     (exists s, ST_OnOff.to_xml value = Ok s /\ ST_OnOff.from_xml s = Ok value)) /\
  (forall s : string,
     match XsdBoolean.from_xml s with
     | Ok true => s ∈ ["1"; "true"]%string
     | Ok false => s ∈ ["0"; "false"]%string
     | Raise e => (s ∉ ["1"; "0"; "true"; "false"]%string) /\
                  (exists msg, e = InvalidXmlError msg)
     end) /\
  (forall s : string,
     match ST_OnOff.from_xml s with
     | Ok true => s ∈ ["1"; "true"; "on"]%string
     | Ok false => s ∈ ["0"; "false"; "off"]%string
     | Raise e => (s ∉ ["1"; "0"; "true"; "false"; "on"; "off"]%string) /\
                  (exists msg, e = InvalidXmlError msg)
     end).
Proof.
  split; [|split; [|split; [|split; [|split; [|split]]]]];
    try (apply int_type_reads_back_of; reflexivity).
  - intros value.
    split; destruct value; eexists; (split; [reflexivity|vm_compute; reflexivity]).
  - intros s. unfold XsdBoolean.from_xml, XsdBoolean.convert_from_xml.
    case_bool_decide as Hin; simpl; [|split; [assumption|eauto]].
    case_bool_decide as Ht; [assumption|].
    repeat (apply elem_of_cons in Hin as [->|Hin]); try (now apply elem_of_nil in Hin);
      try (exfalso; apply Ht; apply (bool_decide_unpack _); vm_compute; reflexivity);
      apply (bool_decide_unpack _); vm_compute; reflexivity.
  - intros s. unfold ST_OnOff.from_xml, ST_OnOff.convert_from_xml.
    case_bool_decide as Hin; simpl; [|split; [assumption|eauto]].
    case_bool_decide as Ht; [assumption|].
    repeat (apply elem_of_cons in Hin as [->|Hin]); try (now apply elem_of_nil in Hin);
      try (exfalso; apply Ht; apply (bool_decide_unpack _); vm_compute; reflexivity);
      apply (bool_decide_unpack _); vm_compute; reflexivity.
Qed.

(** *** Colors *)

Lemma take_str_app (a rest : string) :
  PackURI.take_str (String.length a) (a +:+ rest) = a.
Proof.
  induction a as [|c a IH]; simpl.
  - now destruct rest.
  - f_equal. exact IH.
Qed.

Lemma length_append (a b : string) :
  String.length (a +:+ b) = (String.length a + String.length b)%nat.
Proof. induction a as [|c a IH]; simpl; [reflexivity|now rewrite IH]. Qed.

Lemma drop_str_app (a rest : string) :
  PackURI.drop_str (String.length a) (a +:+ rest) = rest.
Proof. induction a as [|c a IH]; simpl; [reflexivity|exact IH]. Qed.

Lemma bytes_read_back : forallb byte_reads_back (seq 0 256) = true.
Proof. vm_compute. reflexivity. Qed.

Lemma format_02X_byte (v : Z) :
  0 <= v <= 255 ->
  int16 (format_02X v) = Ok v /\ String.length (format_02X v) = 2%nat.
Proof.
  intros Hv. pose proof bytes_read_back as Hall.
  rewrite forallb_forall in Hall.
  specialize (Hall (Z.to_nat v)).
  assert (Hin : In (Z.to_nat v) (seq 0 256)) by (apply in_seq; lia).
  apply Hall in Hin. unfold byte_reads_back in Hin. rewrite Z2Nat.id in Hin by lia.
  destruct (int16 (format_02X v)) as [value|e]; [|discriminate].
  apply andb_true_iff in Hin as [H1 H2].
  apply Z.eqb_eq in H1. apply Nat.eqb_eq in H2. subst value. auto.
Qed.

(** X14. A color of three values in [0..255] is written as six upper-case
    hexadecimal characters, from which [RGBColor.from_string] and
    [ST_HexColor.from_xml] read the same color back; a value outside
    [0..255] is refused with [ValueError] when the color is made. *)
Theorem rgb_color_round_trip (r g b : Z) :
  (0 <= r <= 255 -> 0 <= g <= 255 -> 0 <= b <= 255 ->
   Color.new r g b = Ok (r, g, b) /\
   String.length (to_str (r, g, b)) = 6%nat /\
   from_string (to_str (r, g, b)) = Ok (r, g, b) /\
   (exists s, ST_HexColor.to_xml (r, g, b) = Ok s /\
              ST_HexColor.from_xml s = Ok (inr (r, g, b)))) /\
  (~ (0 <= r <= 255 /\ 0 <= g <= 255 /\ 0 <= b <= 255) ->
   exists msg, Color.new r g b = Raise (ValueError msg)).
Proof.
  split.
  - intros Hr Hg Hb.
    destruct (format_02X_byte r Hr) as [Hri Hrl].
    destruct (format_02X_byte g Hg) as [Hgi Hgl].
    destruct (format_02X_byte b Hb) as [Hbi Hbl].
    assert (Hnew : Color.new r g b = Ok (r, g, b)).
    { unfold Color.new. simpl.
      repeat match goal with
             | |- context [?x <? 0] => destruct (Z.ltb_spec x 0); [lia|]
             | |- context [?x >? 255] =>
                 rewrite (Z.gtb_ltb x 255); destruct (Z.ltb_spec 255 x); [lia|]
             end. reflexivity. }
    assert (Hlen : String.length (to_str (r, g, b)) = 6%nat).
    { unfold to_str. rewrite !length_append. lia. }
    assert (Hfrom : from_string (to_str (r, g, b)) = Ok (r, g, b)).
    { unfold from_string, to_str.
      set (fr := format_02X r) in *. set (fg := format_02X g) in *.
      set (fb := format_02X b) in *.
      assert (H1 : PackURI.take_str 2 (fr +:+ fg +:+ fb) = fr)
        by (rewrite <- Hrl; apply take_str_app).
      assert (H2 : PackURI.drop_str 2 (fr +:+ fg +:+ fb) = fg +:+ fb)
        by (rewrite <- Hrl; apply drop_str_app).
      assert (H3 : PackURI.take_str 2 (fg +:+ fb) = fg)
        by (rewrite <- Hgl; apply take_str_app).
      assert (H4 : PackURI.drop_str 4 (fr +:+ fg +:+ fb) = fb).
      { replace 4%nat with (String.length (fr +:+ fg)) by (rewrite length_append; lia).
        rewrite <- append_assoc. apply drop_str_app. }
      rewrite H1, H2, H3, H4, Hri, Hgi, Hbi. exact Hnew. }
    repeat split; try assumption.
    eexists. split; [reflexivity|].
    unfold ST_HexColor.from_xml, ST_HexColor.convert_from_xml, ST_HexColor.convert_to_xml.
    rewrite bool_decide_eq_false_2.
    + now rewrite Hfrom.
    + intros Hauto. rewrite Hauto in Hlen. discriminate.
  - intros Hout. unfold Color.new. simpl.
    destruct (_ || _ || _)%bool eqn:Hany; [eauto|].
    exfalso. apply Hout.
    repeat match type of Hany with
           | (_ || _)%bool = false => apply orb_false_iff in Hany as [? Hany]
           end.
    repeat match goal with
           | H : (_ || _)%bool = false |- _ => apply orb_false_iff in H as [? ?]
           | H : (_ <? _) = false |- _ => apply Z.ltb_ge in H
           | H : (_ >? _) = false |- _ => rewrite Z.gtb_ltb in H; apply Z.ltb_ge in H
           end.
    lia.
Qed.

Lemma rgb_color_round_trip_witness :
  from_string (to_str (60, 47, 128)) = Ok (60, 47, 128).
Proof.
  apply (proj1 (rgb_color_round_trip 60 47 128)); lia.
Defined.

End ValueFacts.

(* --------------------------------------------------------------------- *)
(** ** A new table and its cells *)

Module NewTableFacts.
Import Oxml SimpleTypes Table TableCells OxmlFacts SimpleTypesFacts LengthFacts TableFacts.

Lemma findall_from_replicate (first n : nat) (t : string) (e : Element) :
  tag e = t -> findall_from first t (replicate n e) = seq first n.
Proof.
  intros Ht. revert first. induction n as [|n IH]; intros first; simpl; [reflexivity|].
  rewrite decide_True by assumption. now rewrite IH.
Qed.

Lemma list_getitem_lookup {A : Type} (l : list A) (i : nat) (x : A) :
  l !! i = Some x -> list_getitem l (Z.of_nat i) = Ok x.
Proof.
  intros H. unfold list_getitem. cbv zeta.
  destruct (Z.ltb_spec (Z.of_nat i) 0) as [|_]; [lia|].
  destruct (Z.ltb_spec (Z.of_nat i) 0) as [|_]; [lia|]. now rewrite Nat2Z.id, H.
Qed.

(** The entry [c] of block [r] of a list made of blocks of length [m] *)
Lemma flat_map_blocks_lookup {A : Type} (f : nat -> list A) (a n m r c : nat) :
  (forall k, length (f k) = m) -> (r < n)%nat -> (c < m)%nat ->
  flat_map f (seq a n) !! (c + r * m)%nat = f (a + r)%nat !! c.
Proof.
  intros Hlen. revert a r. induction n as [|n IH]; intros a r Hr Hc; [lia|].
  simpl. destruct r as [|r].
  - rewrite lookup_app_l by (rewrite Hlen; lia). now rewrite Nat.add_0_r, Nat.add_0_r.
  - rewrite lookup_app_r by (rewrite Hlen; lia). rewrite Hlen.
    replace (c + S r * m - m)%nat with (c + r * m)%nat by lia.
    rewrite IH by lia. f_equal. f_equal. lia.
Qed.

Lemma flat_map_blocks_length {A : Type} (f : nat -> list A) (a n m : nat) :
  (forall k, length (f k) = m) -> length (flat_map f (seq a n)) = (n * m)%nat.
Proof.
  intros Hlen. revert a. induction n as [|n IH]; intros a; simpl; [reflexivity|].
  now rewrite length_app, Hlen, IH.
Qed.

Lemma address_blocks_NoDup (m : nat) (l : list nat) :
  NoDup l -> NoDup (flat_map (fun tr => mk_address tr <$> seq 0 m) l).
Proof.
  induction 1 as [|tr l Htr Hnd IH]; simpl; [constructor|].
  apply NoDup_app. split; [|split; [|exact IH]].
  - apply NoDup_fmap_2; [|apply NoDup_seq]. intros x y [=]. assumption.
  - intros a Ha Hrest. apply list_elem_of_fmap in Ha as (c & -> & _).
    apply list_elem_of_In, in_flat_map in Hrest as (tr' & Htr' & Hin).
    apply list_elem_of_In, list_elem_of_fmap in Hin as (c' & [= -> _] & _).
    apply Htr. now apply list_elem_of_In.
Qed.

Section NewTable.
Variables (rows cols : nat) (s : string).

(** The table [_tbl_xml] writes for [rows] rows and [cols] columns, [s] the
    column width in twips as text *)
Local Abbreviation tc0 := (Examples.tc_of_width s).
Local Abbreviation tr0 := (Examples.tr_of (replicate cols tc0)).
Local Abbreviation tbl0 :=
  (CT_Tbl.with_attrs "w:tbl" []
     ([ CT_Tbl.with_attrs "w:tblPr" []
          [ CT_Tbl.with_attrs "w:tblW" [("w:type", "auto"); ("w:w", "0")]%string [];
            CT_Tbl.with_attrs "w:tblLook"
              [ ("w:firstColumn", "1"); ("w:firstRow", "1"); ("w:lastColumn", "0");
                ("w:lastRow", "0"); ("w:noHBand", "0"); ("w:noVBand", "1");
                ("w:val", "04A0") ]%string [] ];
        CT_Tbl.with_attrs "w:tblGrid" []
          (replicate cols (CT_Tbl.with_attrs "w:gridCol" [("w:w"%string, s)] [])) ]
      ++ replicate rows tr0)).

Lemma tbl0_tr_lst : CT_Tbl.tr_lst tbl0 = seq 2 rows.
Proof.
  unfold CT_Tbl.tr_lst, findall_index. simpl.
  now rewrite findall_from_replicate.
Qed.

Lemma tbl0_row (r : nat) : (r < rows)%nat -> child_at tbl0 (2 + r) = tr0.
Proof.
  intros Hr. unfold child_at. simpl. apply list_lookup_total_correct.
  now apply lookup_replicate_2.
Qed.

Lemma tr0_tc_lst : CT_Row.tc_lst tr0 = seq 0 cols.
Proof.
  unfold CT_Row.tc_lst, findall_index. simpl. now rewrite findall_from_replicate.
Qed.

Lemma tr0_cell (c : nat) : (c < cols)%nat -> child_at tr0 c = tc0.
Proof.
  intros Hc. unfold child_at. simpl. apply list_lookup_total_correct.
  now apply lookup_replicate_2.
Qed.

Lemma tbl0_element (r c : nat) :
  (r < rows)%nat -> (c < cols)%nat -> CT_Tc.element tbl0 (mk_address (2 + r) c) = tc0.
Proof.
  intros Hr Hc. unfold CT_Tc.element, CT_Tc._tr. cbn [tr_at tc_at].
  now rewrite tbl0_row, tr0_cell.
Qed.

Lemma tbl0_col_count : col_count tbl0 = Ok (Z.of_nat cols).
Proof.
  unfold col_count, ChoiceGroup.required_child_element. simpl.
  unfold findall_index. simpl. rewrite findall_from_replicate by reflexivity.
  now rewrite length_seq.
Qed.

Lemma tbl0_iter_tcs :
  iter_tcs tbl0 = flat_map (fun tr => mk_address tr <$> seq 0 cols) (seq 2 rows).
Proof.
  unfold iter_tcs. rewrite tbl0_tr_lst.
  assert (H : forall a, Forall (fun tr => tr < 2 + rows)%nat (seq a (2 + rows - a)) -> True)
    by auto.
  clear H.
  assert (Hrows : forall tr, tr ∈ seq 2 rows -> child_at tbl0 tr = tr0).
  { intros tr Htr. apply elem_of_seq in Htr.
    replace tr with (2 + (tr - 2))%nat by lia. apply tbl0_row. lia. }
  induction (seq 2 rows) as [|tr l IH]; [reflexivity|].
  cbn [flat_map]. rewrite (Hrows tr) by left. rewrite tr0_tc_lst.
  f_equal. apply IH. intros tr' Htr'. apply Hrows. now right.
Qed.

Lemma cells_of_plain_tcs (cc : Z) (tcs : list address) :
  forall cells,
    Forall (fun tc => CT_Tc.element tbl0 tc = tc0) tcs ->
    cells_of_tcs tbl0 cc tcs cells = Ok (cells ++ tcs).
Proof.
  induction tcs as [|tc tcs IH]; intros cells Hall; cbn [cells_of_tcs].
  - now rewrite app_nil_r.
  - apply Forall_cons in Hall as [Htc Hall]. rewrite Htc.
    change (CT_Tc_element.grid_span tc0) with (Ok 1 : result Z).
    cbn [mbind result_bind Py.bind]. change (range 1) with [0].
    cbn [cells_of_tc]. rewrite Htc. change (CT_Tc_element.vMerge tc0) with (Ok None : result (option string)).
    cbn [mbind result_bind Py.bind]. rewrite decide_False by discriminate.
    change (0 >? 0) with false. cbn [mbind result_bind Py.bind].
    rewrite IH by assumption. now rewrite <- app_assoc.
Qed.

Lemma tbl0_cells :
  _cells tbl0 = Ok (flat_map (fun tr => mk_address tr <$> seq 0 cols) (seq 2 rows)).
Proof.
  unfold _cells. rewrite tbl0_col_count. cbn [mbind result_bind Py.bind].
  rewrite tbl0_iter_tcs. rewrite cells_of_plain_tcs; [reflexivity|].
  apply Forall_forall. intros tc Htc.
  apply list_elem_of_In, in_flat_map in Htc as (tr & Htr & Htc).
  apply list_elem_of_In, list_elem_of_fmap in Htc as (c & -> & Hc).
  apply list_elem_of_In, elem_of_seq in Htr. apply elem_of_seq in Hc.
  replace tr with (2 + (tr - 2))%nat by lia. apply tbl0_element; lia.
Qed.

Lemma find_index_replicate_other (t : string) (n : nat) (e : Element) :
  tag e <> t -> find_index t (replicate n e) = None.
Proof.
  intros Ht. induction n as [|n IH]; simpl; [reflexivity|].
  rewrite decide_False by assumption. now rewrite IH.
Qed.

Lemma tr0_remaining_offset (len k : nat) (c : nat) :
  (k + len = cols)%nat -> (k <= c < cols)%nat ->
  CT_Row.tc_at_remaining_offset tr0 (seq k len) (Z.of_nat c - Z.of_nat k) = Ok (Some c).
Proof.
  revert k. induction len as [|len IH]; intros k Hk Hc; [lia|].
  cbn [seq CT_Row.tc_at_remaining_offset].
  destruct (Z.ltb_spec (Z.of_nat c - Z.of_nat k) 0) as [|_]; [lia|].
  destruct (Z.eqb_spec (Z.of_nat c - Z.of_nat k) 0) as [Heq|Hne].
  - do 2 f_equal. lia.
  - rewrite tr0_cell by lia.
    change (CT_Tc_element.grid_span tc0) with (Ok 1 : result Z).
    cbn [mbind result_bind Py.bind].
    replace (Z.of_nat c - Z.of_nat k - 1) with (Z.of_nat c - Z.of_nat (S k)) by lia.
    apply IH; lia.
Qed.

Lemma tr0_tc_at_grid_offset (c : nat) :
  (c < cols)%nat -> CT_Row.tc_at_grid_offset tr0 (Z.of_nat c) = Ok c.
Proof.
  intros Hc. unfold CT_Row.tc_at_grid_offset, CT_Row.grid_before, get_child_element.
  simpl children. rewrite find_index_replicate_other by discriminate.
  cbn [mbind result_bind Py.bind]. rewrite tr0_tc_lst.
  pose proof (tr0_remaining_offset cols 0 c ltac:(lia) ltac:(lia)) as H.
  rewrite Z.sub_0_r in *. now rewrite H.
Qed.

End NewTable.

(** X15. A new table of [rows] rows and [cols] columns has that many rows
    and grid columns; its cells are [rows * cols] different cells; the cell
    [Table.cell] answers with for a row and a column is the cell that starts
    at that grid column of that row, it spans one column, is not vertically
    merged, and has the width of the table divided by [cols], rounded to a
    whole number of twips. *)
Theorem new_table_cells (rows cols width K t : Z) :
  0 <= rows -> 0 < cols ->
  width / cols = 635 * K + t -> Z.abs t <= 317 -> Z.abs (width / cols) < 2 ^ 52 ->
  exists tbl,
    CT_Tbl.new_tbl rows cols width = Ok tbl /\
    Z.of_nat (length (CT_Tbl.tr_lst tbl)) = rows /\
    col_count tbl = Ok cols /\
    (exists cells,
       _cells tbl = Ok cells /\ Z.of_nat (length cells) = rows * cols /\ NoDup cells) /\
    forall row_idx col_idx,
      0 <= row_idx < rows -> 0 <= col_idx < cols ->
      exists tc,
        cell tbl row_idx col_idx = Ok tc /\
        cell_at tbl row_idx col_idx = Ok tc /\
        CT_Tc_element.grid_span (CT_Tc.element tbl tc) = Ok 1 /\
        CT_Tc_element.vMerge (CT_Tc.element tbl tc) = Ok None /\
        CT_Tc_element.width (CT_Tc.element tbl tc) = Ok (Some (635 * K)).
Proof.
  intros Hrows Hcols Hw Ht Hrange.
  set (n := Z.to_nat rows). set (m := Z.to_nat cols).
  assert (Htwips : Length.twips (width / cols) = Ok K)
    by (apply (twips_nearest _ K t); auto).
  assert (Hnew : CT_Tbl.new_tbl rows cols width
                 = Ok (CT_Tbl.with_attrs "w:tbl" []
     ([ CT_Tbl.with_attrs "w:tblPr" []
          [ CT_Tbl.with_attrs "w:tblW" [("w:type", "auto"); ("w:w", "0")]%string [];
            CT_Tbl.with_attrs "w:tblLook"
              [ ("w:firstColumn", "1"); ("w:firstRow", "1"); ("w:lastColumn", "0");
                ("w:lastRow", "0"); ("w:noHBand", "0"); ("w:noVBand", "1");
                ("w:val", "04A0") ]%string [] ];
        CT_Tbl.with_attrs "w:tblGrid" []
          (replicate m (CT_Tbl.with_attrs "w:gridCol" [("w:w"%string, str K)] [])) ]
      ++ replicate n (Examples.tr_of (replicate m (Examples.tc_of_width (str K))))))).
  { unfold CT_Tbl.new_tbl, CT_Tbl._tblGrid_xml, CT_Tbl._trs_xml, CT_Tbl._tcs_xml.
    rewrite (proj2 (Z.gtb_lt cols 0)) by lia.
    destruct (Z.leb_spec cols 0) as [|_]; [lia|].
    unfold Length.Emu, Length.Length. rewrite Htwips. reflexivity. }
  eexists. split; [exact Hnew|].
  assert (Hblock : forall k : nat, length (mk_address k <$> seq 0 m) = m)
    by (intros k; now rewrite length_fmap, length_seq).
  split; [|split; [|split]].
  - rewrite tbl0_tr_lst, length_seq. unfold n. lia.
  - rewrite tbl0_col_count. unfold m. f_equal. lia.
  - eexists. split; [apply tbl0_cells|]. split.
    + rewrite (flat_map_blocks_length _ _ _ m) by exact Hblock. unfold n, m. nia.
    + apply address_blocks_NoDup, NoDup_seq.
  - intros row_idx col_idx Hr Hc.
    set (r := Z.to_nat row_idx). set (c := Z.to_nat col_idx).
    assert (Hrn : (r < n)%nat) by (unfold r, n; lia).
    assert (Hcm : (c < m)%nat) by (unfold c, m; lia).
    exists (mk_address (2 + r) c).
    assert (Helm := tbl0_element n m (str K) r c Hrn Hcm).
    split; [|split; [|split; [|split]]].
    + unfold cell. rewrite tbl0_col_count, tbl0_cells. cbn [mbind result_bind Py.bind].
      replace (col_idx + row_idx * Z.of_nat m) with (Z.of_nat (c + r * m))
        by (unfold c, r, m; nia).
      apply list_getitem_lookup.
      rewrite (flat_map_blocks_lookup _ 2 n m r c) by (exact Hblock || assumption).
      rewrite list_lookup_fmap, lookup_seq_lt by assumption. reflexivity.
    + unfold cell_at. rewrite tbl0_tr_lst.
      replace row_idx with (Z.of_nat r) by (unfold r; lia).
      rewrite (list_getitem_lookup _ r (2 + r)%nat) by (now apply lookup_seq_lt).
      cbn [mbind result_bind Py.bind]. rewrite tbl0_row by assumption.
      replace col_idx with (Z.of_nat c) by (unfold c; lia).
      now rewrite tr0_tc_at_grid_offset.
    + rewrite Helm. reflexivity.
    + rewrite Helm. reflexivity.
    + rewrite Helm. lazy -[int str Z.mul]. rewrite int_str. lazy -[Z.mul]. do 2 f_equal. lia.
Qed.

Lemma new_table_cells_witness :
  exists tbl tc,
    CT_Tbl.new_tbl 2 3 2743200 = Ok tbl /\
    cell tbl 1 2 = Ok tc /\
    CT_Tc_element.width (CT_Tc.element tbl tc) = Ok (Some 914400).
Proof.
  destruct (new_table_cells 2 3 2743200 1440 0) as (tbl & Hnew & _ & _ & _ & Hcell);
    try (vm_compute; congruence); try reflexivity; try lia.
  destruct (Hcell 1 2) as (tc & Hc & _ & _ & _ & Hw); try lia.
  exists tbl, tc. auto.
Defined.

End NewTableFacts.

(* --------------------------------------------------------------------- *)
(** ** Pack URIs: a relative reference and the partname it stands for *)

Module PackURIFacts.
Import Posixpath PackURIMethods SimpleTypesFacts ValueFacts.

Lemma split_sep_not_nil (s : string) : split_sep s <> [].
Proof.
  induction s as [|c s IH]; simpl; [discriminate|].
  destruct (decide (c = "/"%char)); [discriminate|].
  destruct (split_sep s); [contradiction|discriminate].
Qed.

Lemma split_sep_app (a b : string) :
  split_sep (a +:+ "/" +:+ b) = split_sep a ++ split_sep b.
Proof.
  induction a as [|c a IH].
  - reflexivity.
  - change (String c a +:+ "/" +:+ b) with (String c (a +:+ "/" +:+ b)).
    cbn [split_sep]. rewrite IH. destruct (decide (c = "/"%char)); [reflexivity|].
    pose proof (split_sep_not_nil a). destruct (split_sep a); [contradiction|reflexivity].
Qed.

Lemma split_sep_slash (s : string) : split_sep ("/" +:+ s) = EmptyString :: split_sep s.
Proof. reflexivity. Qed.

Lemma split_join (comps : list string) :
  Forall (fun c => split_sep c = [c]) comps -> comps <> [] ->
  split_sep (join_sep comps) = comps.
Proof.
  induction 1 as [|c comps Hc Hall IH]; intros Hne; [contradiction|].
  destruct comps as [|c' comps]; [exact Hc|].
  change (join_sep (c :: c' :: comps)) with (c +:+ "/" +:+ join_sep (c' :: comps)).
  rewrite split_sep_app, Hc, IH by discriminate. reflexivity.
Qed.

(** A name begins with a character that is not a slash, and does not end
    with a slash. *)
Lemma no_slash_head (c : string) :
  split_sep c = [c] -> c <> EmptyString ->
  exists x c', c = String x c' /\ x <> "/"%char /\ split_sep c' = [c'].
Proof.
  intros Hs Hne. destruct c as [|x c']; [contradiction|]. exists x, c'.
  split; [reflexivity|]. simpl in Hs. destruct (decide (x = "/"%char)) as [|Hx].
  - injection Hs as Hs _. discriminate.
  - split; [assumption|]. pose proof (split_sep_not_nil c').
    destruct (split_sep c') as [|comp comps]; [contradiction|].
    injection Hs as -> ->. reflexivity.
Qed.

Lemma no_slash_endswith (c : string) : split_sep c = [c] -> endswith_sep c = false.
Proof.
  induction c as [|x c IH]; [reflexivity|]. intros Hs.
  destruct (no_slash_head _ Hs ltac:(discriminate)) as (x' & c' & [= <- <-] & Hx & Hc).
  simpl. destruct c as [|y c]; [now rewrite bool_decide_eq_false_2|]. now apply IH.
Qed.

Lemma endswith_sep_app (a b : string) :
  b <> EmptyString -> endswith_sep (a +:+ b) = endswith_sep b.
Proof.
  intros Hb. induction a as [|x a IH]; [reflexivity|].
  change (String x a +:+ b) with (String x (a +:+ b)). cbn [endswith_sep].
  destruct (a +:+ b) eqn:Hab.
  - destruct a; [simpl in Hab; contradiction|discriminate].
  - exact IH.
Qed.

Lemma plain_joinable (c : string) : plain_name c -> joinable c.
Proof.
  intros (Hne & _ & _ & Hs).
  destruct (no_slash_head _ Hs Hne) as (x & c' & -> & Hx & _).
  split; [discriminate|]. split; [|now apply no_slash_endswith].
  unfold startswith. cbn [String.prefix].
  destruct (ascii_dec "/" x) as [<-|]; [contradiction|reflexivity].
Qed.

Lemma join_sep_joinable (comps : list string) :
  Forall joinable comps -> comps <> [] ->
  join_sep comps <> EmptyString /\ endswith_sep (join_sep comps) = false.
Proof.
  induction 1 as [|c comps (Hne & _ & He) Hall IH]; intros Hnil; [contradiction|].
  destruct comps as [|c' comps]; [auto|].
  change (join_sep (c :: c' :: comps)) with (c +:+ "/" +:+ join_sep (c' :: comps)).
  destruct (IH ltac:(discriminate)) as [IH1 IH2]. split.
  - destruct c; [contradiction|discriminate].
  - rewrite endswith_sep_app by discriminate.
    change ("/" +:+ join_sep (c' :: comps)) with (String "/" (join_sep (c' :: comps))).
    cbn [endswith_sep]. destruct (join_sep (c' :: comps)); [contradiction|exact IH2].
Qed.

Lemma join_sep_snoc (comps : list string) (c : string) :
  comps <> [] -> join_sep (comps ++ [c]) = join_sep comps +:+ "/" +:+ c.
Proof.
  induction comps as [|a comps IH]; intros Hne; [contradiction|].
  destruct comps as [|a' comps]; [reflexivity|].
  change (join_sep ((a :: a' :: comps) ++ [c]))
    with (a +:+ "/" +:+ join_sep ((a' :: comps) ++ [c])).
  rewrite IH by discriminate.
  change (join_sep (a :: a' :: comps)) with (a +:+ "/" +:+ join_sep (a' :: comps)).
  now rewrite !append_assoc.
Qed.

Lemma join_joinable (p : list string) :
  forall pre, pre <> [] -> Forall joinable pre -> Forall joinable p ->
  foldl join_step (join_sep pre) p = join_sep (pre ++ p).
Proof.
  induction p as [|b p IH]; intros pre Hne Hpre Hp; simpl.
  - now rewrite app_nil_r.
  - apply Forall_cons in Hp as [(Hb & Hbs & Hbe) Hp].
    destruct (join_sep_joinable pre Hpre Hne) as [H1 H2].
    unfold join_step at 2. rewrite Hbs, H2.
    rewrite bool_decide_eq_false_2 by assumption. simpl orb. cbv iota.
    rewrite <- join_sep_snoc by assumption.
    rewrite IH.
    + now rewrite <- app_assoc.
    + destruct pre; discriminate.
    + apply Forall_app. split; [assumption|]. constructor; [|constructor]. now split.
    + assumption.
Qed.

(** The loop of [normpath] below a root *)
Lemma normpath_names (comps : list string) :
  forall acc, Forall plain_name comps ->
  foldl (normpath_step 1) acc comps = acc ++ comps.
Proof.
  induction comps as [|c comps IH]; intros acc Hall; simpl; [now rewrite app_nil_r|].
  apply Forall_cons in Hall as [(Hne & Hdot & Hdd & _) Hall].
  unfold normpath_step at 2.
  rewrite bool_decide_eq_false_2.
  2:{ intros Hin. apply elem_of_cons in Hin as [->|Hin]; [contradiction|].
      apply list_elem_of_singleton in Hin. contradiction. }
  rewrite (bool_decide_eq_false_2 (c = ".."%string)) by assumption. simpl.
  rewrite IH by assumption. now rewrite <- app_assoc.
Qed.

Lemma normpath_pardirs (k : nat) :
  forall acc, Forall plain_name acc -> (k <= length acc)%nat ->
  foldl (normpath_step 1) acc (replicate k ".."%string) = take (length acc - k) acc.
Proof.
  induction k as [|k IH]; intros acc Hacc Hk; simpl.
  - now rewrite Nat.sub_0_r, firstn_all.
  - destruct acc as [|a acc _] using rev_ind; [simpl in Hk; lia|].
    unfold normpath_step at 2.
    rewrite bool_decide_eq_false_2.
    2:{ intros Hin. apply elem_of_cons in Hin as [Hin|Hin]; [discriminate|].
        apply list_elem_of_singleton in Hin. discriminate. }
    rewrite (bool_decide_eq_true_2 (".."%string = ".."%string)) by reflexivity.
    rewrite (bool_decide_eq_false_2 (1%nat = 0%nat)) by discriminate.
    rewrite (bool_decide_eq_false_2 (acc ++ [a] = [])) by (destruct acc; discriminate).
    rewrite last_snoc. apply Forall_app in Hacc as [Hacc Ha].
    apply Forall_cons in Ha as [(_ & _ & Hdd & _) _].
    rewrite (bool_decide_eq_false_2 (Some a = Some ".."%string)) by congruence.
    simpl. rewrite removelast_last. rewrite length_app in Hk |- *. simpl in Hk |- *.
    rewrite IH by (assumption || lia).
    replace (length acc + 1 - S k)%nat with (length acc - k)%nat by lia.
    rewrite take_app_le by lia. reflexivity.
Qed.

Lemma abs_path_slashes (comps : list string) :
  Forall plain_name comps ->
  abs_path_of comps <> EmptyString /\
  startswith "/" (abs_path_of comps) = true /\
  startswith "//" (abs_path_of comps) = false.
Proof.
  intros Hall. split; [discriminate|]. split.
  { unfold abs_path_of, startswith.
    change ("/" +:+ join_sep comps) with (String "/" (join_sep comps)).
    cbn [String.prefix]. destruct (ascii_dec "/" "/") as [_|Hn]; [|now destruct Hn].
    now destruct (join_sep comps). }
  destruct comps as [|c comps].
  { unfold abs_path_of, startswith. cbn [join_sep].
    change ("/" +:+ EmptyString) with (String "/" EmptyString).
    cbn [String.prefix]. destruct (ascii_dec "/" "/") as [_|Hn]; [reflexivity|now destruct Hn]. }
  apply Forall_cons in Hall as [(Hne & _ & _ & Hs) _].
  destruct (no_slash_head _ Hs Hne) as (x & c' & -> & Hx & _).
  unfold abs_path_of, startswith.
  destruct comps as [|c2 comps]; cbn [join_sep];
    match goal with
    | |- String.prefix _ ("/" +:+ String x ?r) = _ =>
        change ("/" +:+ String x r) with (String "/" (String x r))
    | |- String.prefix _ ("/" +:+ String x ?r +:+ ?r') = _ =>
        change ("/" +:+ String x r +:+ r') with (String "/" (String x (r +:+ r')))
    end;
    cbn [String.prefix];
    destruct (ascii_dec "/" "/") as [_|Hn]; try (now destruct Hn);
    destruct (ascii_dec "/" x) as [<-|]; try contradiction; reflexivity.
Qed.

(** The names of an absolute path, as [normpath] and [relpath] take them
    from the text *)
Lemma split_abs_path (comps : list string) :
  Forall plain_name comps ->
  split_sep (abs_path_of comps)
  = EmptyString :: (if decide (comps = []) then [EmptyString] else comps).
Proof.
  intros Hall. unfold abs_path_of. rewrite split_sep_slash. f_equal.
  destruct (decide (comps = [])) as [->|Hne]; [reflexivity|].
  apply split_join; [|assumption].
  eapply Forall_impl; [exact Hall|]. now intros c (_ & _ & _ & Hs).
Qed.

Lemma normpath_root_step (acc : list string) :
  normpath_step 1 acc EmptyString = acc.
Proof.
  unfold normpath_step. rewrite bool_decide_eq_true_2; [reflexivity|left].
Qed.

Lemma normpath_rooted (path : string) :
  startswith "/" path = true -> startswith "//" path = false ->
  normpath path = abs_path_of (foldl (normpath_step 1) [] (split_sep path)).
Proof.
  intros H1 H2. unfold normpath.
  rewrite bool_decide_eq_false_2 by (intros ->; discriminate).
  rewrite H1, H2. cbn [andb]. now rewrite bool_decide_eq_false_2 by discriminate.
Qed.

Lemma startswith_app (prefix a b : string) :
  (String.length prefix <= String.length a)%nat ->
  startswith prefix (a +:+ b) = startswith prefix a.
Proof.
  unfold startswith. revert a. induction prefix as [|x prefix IH]; intros a Hlen.
  - now destruct a, b.
  - destruct a as [|y a]; [simpl in Hlen; lia|].
    change (String y a +:+ b) with (String y (a +:+ b)). cbn [String.prefix].
    destruct (ascii_dec x y); [|reflexivity]. apply IH. simpl in Hlen. lia.
Qed.

Lemma normpath_abs_path (comps : list string) :
  Forall plain_name comps -> normpath (abs_path_of comps) = abs_path_of comps.
Proof.
  intros Hall. destruct (abs_path_slashes comps Hall) as (_ & H1 & H2).
  rewrite (normpath_rooted _ H1 H2), split_abs_path by assumption.
  cbn [foldl]. rewrite normpath_root_step.
  destruct (decide (comps = [])) as [->|Hne]; [reflexivity|].
  now rewrite normpath_names.
Qed.

(** A path written as a base, a number of steps up and names from there *)
Lemma normpath_steps (comps names : list string) (k : nat) :
  Forall plain_name comps -> Forall plain_name names -> (k <= length comps)%nat ->
  comps <> [] -> replicate k ".."%string ++ names <> [] ->
  normpath (abs_path_of comps +:+ "/" +:+ join_sep (replicate k ".."%string ++ names))
  = abs_path_of (take (length comps - k) comps ++ names).
Proof.
  intros Hcomps Hnames Hk Hne Hrel.
  destruct (abs_path_slashes comps Hcomps) as (_ & H1 & H2).
  assert (Hlen : (2 <= String.length (abs_path_of comps))%nat).
  { destruct comps as [|c comps]; [contradiction|].
    apply Forall_cons in Hcomps as [(Hc & _) _].
    unfold abs_path_of. destruct c as [|x c]; [contradiction|].
    destruct comps; simpl; lia. }
  rewrite normpath_rooted.
  2:{ rewrite startswith_app; [exact H1|simpl; lia]. }
  2:{ rewrite startswith_app; [exact H2|exact Hlen]. }
  rewrite split_sep_app, split_abs_path by assumption.
  rewrite decide_False by assumption.
  rewrite split_join.
  2:{ apply Forall_app. split.
      - apply Forall_forall. intros c Hc. apply elem_of_replicate in Hc as [-> _]. reflexivity.
      - eapply Forall_impl; [exact Hnames|]. now intros c (_ & _ & _ & Hs). }
  2:{ assumption. }
  cbn [foldl app]. rewrite normpath_root_step.
  rewrite foldl_app, (normpath_names comps []) by assumption. cbn [app].
  rewrite foldl_app, (normpath_pardirs k comps Hcomps Hk).
  now rewrite normpath_names.
Qed.

Lemma names_of_abs_path (comps : list string) :
  Forall plain_name comps ->
  filter (fun x => x <> EmptyString) (split_sep (abs_path_of comps)) = comps.
Proof.
  intros Hall. rewrite split_abs_path by assumption.
  rewrite filter_cons_False by (intros H; now apply H).
  destruct (decide (comps = [])) as [->|Hne].
  - now rewrite filter_cons_False by (intros H; now apply H).
  - clear Hne. induction Hall as [|c comps (Hc & _) _ IH]; [reflexivity|].
    rewrite filter_cons_True by assumption. now rewrite IH.
Qed.

Lemma commonprefix_spec (s1 s2 : list string) :
  take (length (commonprefix s1 s2)) s1 = take (length (commonprefix s1 s2)) s2 /\
  (length (commonprefix s1 s2) <= length s1)%nat.
Proof.
  revert s2. induction s1 as [|c1 s1 IH]; intros [|c2 s2]; simpl; try (split; [reflexivity|lia]).
  destruct (decide (c1 = c2)) as [->|Hne]; simpl; [|split; [reflexivity|lia]].
  destruct (IH s2) as [-> Hle]. split; [reflexivity|lia].
Qed.

Lemma abs_path_of_inj_nil (comps : list string) :
  Forall plain_name comps -> abs_path_of comps = "/"%string -> comps = [].
Proof.
  intros Hall Heq. destruct comps as [|c comps]; [reflexivity|].
  apply Forall_cons in Hall as [(Hc & _) _]. exfalso.
  unfold abs_path_of in Heq. destruct c as [|x c]; [contradiction|].
  destruct comps; discriminate.
Qed.

Section RoundTrip.
Variable cwd : string.

(** X16. The relative reference of a partname from a base URI, translated
    back onto that base URI, is the partname: for a partname and a base URI
    that are absolute paths of names (no empty, [.] or [..] component),
    [from_rel_ref] of the base URI and [relative_ref] of the partname from
    it returns the partname. *)
Theorem relative_ref_round_trip (base_names part_names : list string) :
  Forall plain_name base_names -> Forall plain_name part_names -> part_names <> [] ->
  exists ref,
    relative_ref cwd (abs_path_of part_names) (abs_path_of base_names) = Ok ref /\
    from_rel_ref cwd (abs_path_of base_names) ref = Ok (abs_path_of part_names).
Proof.
  intros Hbase Hpart Hne.
  destruct (abs_path_slashes part_names Hpart) as (_ & Hp1 & Hp2).
  destruct (abs_path_slashes base_names Hbase) as (_ & Hb1 & Hb2).
  assert (Hnew : Packuri.new (abs_path_of part_names) = Ok (abs_path_of part_names))
    by reflexivity.
  unfold relative_ref, from_rel_ref. case_bool_decide as Hroot.
  - (* from the root *)
    apply abs_path_of_inj_nil in Hroot; [|assumption]. subst base_names.
    eexists. split; [reflexivity|].
    change (PackURI.drop_str 1 (abs_path_of part_names)) with (join_sep part_names).
    assert (Hj : joinable (join_sep part_names)).
    { destruct (join_sep_joinable part_names) as [H1 H2]; [|assumption|].
      - eapply Forall_impl; [exact Hpart|]. apply plain_joinable.
      - split; [assumption|]. split; [|assumption].
        destruct part_names as [|c comps]; [contradiction|].
        apply Forall_cons in Hpart as [Hc _]. apply plain_joinable in Hc as (Hc & Hs & _).
        destruct comps; [exact Hs|].
        change (join_sep (c :: s :: comps)) with (c +:+ "/" +:+ join_sep (s :: comps)).
        rewrite startswith_app; [exact Hs|]. destruct c; [contradiction|simpl; lia]. }
    destruct Hj as (_ & Hs & _).
    unfold join. cbn [foldl]. unfold join_step. rewrite Hs.
    change (endswith_sep (abs_path_of [])) with true. rewrite orb_true_r.
    unfold abspath.
    change (abs_path_of [] +:+ join_sep part_names) with (abs_path_of part_names).
    rewrite Hp1. cbn [negb]. now rewrite normpath_abs_path.
  - assert (Hbne : base_names <> []) by (intros ->; now apply Hroot).
    unfold relpath. rewrite bool_decide_eq_false_2 by discriminate.
    assert (Habs : forall comps, Forall plain_name comps ->
                     abspath cwd (abs_path_of comps) = abs_path_of comps).
    { intros comps Hc. unfold abspath.
      destruct (abs_path_slashes comps Hc) as (_ & -> & _). cbn [negb].
      now apply normpath_abs_path. }
    rewrite !Habs, !names_of_abs_path by assumption.
    destruct (commonprefix_spec base_names part_names) as [Hcommon Hle].
    set (i := length (commonprefix base_names part_names)) in *.
    set (k := (length base_names - i)%nat).
    assert (Hdrop : Forall plain_name (drop i part_names)) by now apply Forall_drop.
    assert (Hback : take (length base_names - k) base_names ++ drop i part_names = part_names).
    { replace (length base_names - k)%nat with i by (unfold k; lia).
      rewrite Hcommon. apply take_drop. }
    assert (Hjoin : forall a p,
              replicate k ".."%string ++ drop i part_names = a :: p ->
              join a p = join_sep (a :: p)).
    { intros a p Heq. unfold join.
      assert (Hall : Forall joinable (a :: p)).
      { rewrite <- Heq. apply Forall_app. split.
        - apply Forall_forall. intros c Hc. apply elem_of_replicate in Hc as [-> _].
          repeat split; reflexivity || discriminate.
        - eapply Forall_impl; [exact Hdrop|]. apply plain_joinable. }
      apply Forall_cons in Hall as [Ha Hp].
      apply (join_joinable p [a]); [discriminate|now constructor|assumption]. }
    assert (Hbase_join : forall ref,
              joinable ref ->
              join (abs_path_of base_names) [ref] = abs_path_of base_names +:+ "/" +:+ ref).
    { intros ref (_ & Hs & _). unfold join. cbn [foldl]. unfold join_step. rewrite Hs.
      rewrite bool_decide_eq_false_2 by discriminate.
      destruct (join_sep_joinable base_names) as [H1 H2]; [|assumption|].
      - eapply Forall_impl; [exact Hbase|]. apply plain_joinable.
      - unfold abs_path_of at 1. rewrite endswith_sep_app by assumption.
        now rewrite H2. }
    destruct (replicate k ".."%string ++ drop i part_names) as [|a p] eqn:Hrel.
    + (* the partname is the base URI *)
      eexists. split; [reflexivity|].
      rewrite Hbase_join by (repeat split; reflexivity || discriminate).
      unfold abspath. rewrite startswith_app by (simpl; lia). rewrite Hb1. cbn [negb].
      apply app_eq_nil in Hrel as [Hk Hd].
      assert (k = 0)%nat by (destruct k; [reflexivity|discriminate]).
      rewrite Hd, app_nil_r in Hback. rewrite H, Nat.sub_0_r, firstn_all in Hback.
      rewrite normpath_rooted.
      2:{ rewrite startswith_app; [exact Hb1|simpl; lia]. }
      2:{ rewrite startswith_app; [exact Hb2|].
          destruct base_names as [|c comps]; [contradiction|].
          apply Forall_cons in Hbase as [(Hc & _) _].
          unfold abs_path_of. destruct c as [|x c]; [contradiction|].
          destruct comps; simpl; lia. }
      rewrite split_sep_app, split_abs_path by assumption.
      rewrite decide_False by assumption.
      change (split_sep ".") with ["."%string]. cbn [foldl app].
      rewrite normpath_root_step, foldl_app, (normpath_names base_names []) by assumption.
      cbn [foldl app]. unfold normpath_step.
      rewrite bool_decide_eq_true_2 by (right; left). now rewrite Hback.
    + eexists. split; [reflexivity|].
      rewrite (Hjoin a p eq_refl).
      assert (Href : joinable (join_sep (a :: p))).
      { assert (Hall : Forall joinable (a :: p)).
        { rewrite <- Hrel. apply Forall_app. split.
          - apply Forall_forall. intros c Hc. apply elem_of_replicate in Hc as [-> _].
            repeat split; reflexivity || discriminate.
          - eapply Forall_impl; [exact Hdrop|]. apply plain_joinable. }
        destruct (join_sep_joinable (a :: p) Hall ltac:(discriminate)) as [H1 H2].
        split; [assumption|]. split; [|assumption].
        apply Forall_cons in Hall as [(Ha & Has & _) _].
        destruct p as [|b p]; [exact Has|].
        change (join_sep (a :: b :: p)) with (a +:+ "/" +:+ join_sep (b :: p)).
        rewrite startswith_app; [exact Has|]. destruct a; [contradiction|simpl; lia]. }
      rewrite (Hbase_join _ Href).
      unfold abspath. rewrite startswith_app by (simpl; lia). rewrite Hb1. cbn [negb].
      rewrite <- Hrel.
      rewrite normpath_steps; try assumption.
      * now rewrite Hback.
      * unfold k. lia.
      * rewrite Hrel. discriminate.
Qed.

End RoundTrip.

Lemma relative_ref_round_trip_witness :
  exists ref,
    relative_ref "/cwd" "/ppt/slideLayouts/slideLayout1.xml" "/ppt/slides" = Ok ref /\
    from_rel_ref "/cwd" "/ppt/slides" ref = Ok "/ppt/slideLayouts/slideLayout1.xml"%string.
Proof.
  apply (relative_ref_round_trip "/cwd" ["ppt"; "slides"]%string
           ["ppt"; "slideLayouts"; "slideLayout1.xml"]%string).
  - repeat constructor; discriminate.
  - repeat constructor; discriminate.
  - discriminate.
Defined.

(** *** The parts of a pack URI *)

Lemma rfind_from_no_slash (s : string) (i : Z) :
  split_sep s = [s] -> PackURI.rfind_from "/" s i = -1.
Proof.
  revert i. induction s as [|x s IH]; intros i Hs; [reflexivity|].
  destruct (no_slash_head _ Hs ltac:(discriminate)) as (x' & s' & [= <- <-] & Hx & Hs').
  cbn [PackURI.rfind_from]. rewrite IH by assumption.
  change (0 <=? -1) with false. cbv iota. now rewrite decide_False.
Qed.

Lemma rfind_from_last (a b : string) (i : Z) :
  split_sep b = [b] -> -1 <= i ->
  PackURI.rfind_from "/" (a +:+ "/" +:+ b) i = i + Z.of_nat (String.length a).
Proof.
  intros Hb. revert i. induction a as [|x a IH]; intros i Hi.
  - change (EmptyString +:+ "/" +:+ b) with (String "/" b). cbn [PackURI.rfind_from].
    rewrite rfind_from_no_slash by assumption.
    change (0 <=? -1) with false. cbv iota. rewrite decide_True by reflexivity. simpl. lia.
  - change (String x a +:+ "/" +:+ b) with (String x (a +:+ "/" +:+ b)).
    cbn [PackURI.rfind_from]. rewrite IH by lia.
    destruct (Z.leb_spec 0 (i + 1 + Z.of_nat (String.length a))); [|lia].
    cbn [String.length]. lia.
Qed.

Lemma rstrip_sep_slash (a : string) : rstrip_sep (a +:+ "/") = rstrip_sep a.
Proof.
  induction a as [|x a IH]; [reflexivity|].
  change (String x a +:+ "/") with (String x (a +:+ "/")). cbn [rstrip_sep]. now rewrite IH.
Qed.

Lemma rstrip_sep_id (a : string) : endswith_sep a = false -> rstrip_sep a = a.
Proof.
  induction a as [|x a IH]; [reflexivity|]. cbn [endswith_sep rstrip_sep].
  destruct a as [|y a].
  - intros Hx. apply bool_decide_eq_false in Hx. simpl. now rewrite decide_False.
  - intros He. rewrite (IH He). reflexivity.
Qed.

Lemma split_last_name (a name : string) :
  split_sep name = [name] ->
  Posixpath.split (a +:+ "/" +:+ name)
  = (if bool_decide (rstrip_sep a = EmptyString) then a +:+ "/" else rstrip_sep a, name).
Proof.
  intros Hname. unfold Posixpath.split, PackURI.rfind.
  rewrite rfind_from_last by (assumption || lia).
  replace (Z.to_nat (0 + Z.of_nat (String.length a) + 1)) with (String.length (a +:+ "/")).
  2:{ rewrite length_append. simpl. lia. }
  rewrite <- append_assoc.
  rewrite take_str_app, drop_str_app.
  rewrite rstrip_sep_slash.
  rewrite (bool_decide_eq_false_2 (a +:+ "/" = EmptyString)) by (destruct a; discriminate).
  cbn [negb andb]. now destruct (bool_decide (rstrip_sep a = EmptyString)).
Qed.

(** X17. The parts of a partname that is an absolute path of names: its
    [baseURI] is the path of the names before the last, its [filename] the
    last name, its [membername] the path without the leading slash, and its
    [rels_uri] the path of [_rels] and the file name followed by [.rels]
    below the base URI; for the package pseudo-partname [/] the base URI
    is [/], the file name is empty and the [rels_uri] is [/_rels/.rels]. *)
Theorem pack_uri_parts (dir_names : list string) (name : string) :
  Forall plain_name dir_names -> plain_name name ->
  baseURI (abs_path_of (dir_names ++ [name])) = abs_path_of dir_names /\
  filename (abs_path_of (dir_names ++ [name])) = name /\
  Packuri.membername (abs_path_of (dir_names ++ [name])) = join_sep (dir_names ++ [name]) /\
  rels_uri (abs_path_of (dir_names ++ [name]))
  = Ok (abs_path_of (dir_names ++ ["_rels"%string; name +:+ ".rels"])) /\
  baseURI "/" = "/"%string /\ filename "/" = EmptyString /\
  rels_uri "/" = Ok "/_rels/.rels"%string.
Proof.
  intros Hdirs Hname. pose proof Hname as (Hne & _ & _ & Hs).
  assert (Hjd : Forall joinable dir_names)
    by (eapply Forall_impl; [exact Hdirs|]; apply plain_joinable).
  assert (Hsplit : Posixpath.split (abs_path_of (dir_names ++ [name]))
                   = (abs_path_of dir_names, name)).
  { destruct (decide (dir_names = [])) as [->|Hd].
    - change (abs_path_of ([] ++ [name])) with (EmptyString +:+ "/" +:+ name).
      now rewrite split_last_name.
    - unfold abs_path_of. rewrite join_sep_snoc by assumption.
      rewrite <- append_assoc. rewrite split_last_name by assumption.
      destruct (join_sep_joinable dir_names Hjd Hd) as [H1 H2].
      rewrite rstrip_sep_id by (rewrite endswith_sep_app by assumption; exact H2).
      now rewrite bool_decide_eq_false_2 by discriminate. }
  unfold baseURI, filename, rels_uri. rewrite Hsplit. cbn [fst snd].
  split; [reflexivity|]. split; [reflexivity|]. split; [reflexivity|].
  split; [|repeat split; vm_compute; reflexivity].
  unfold baseURI, filename. rewrite Hsplit. cbn [fst snd].
  unfold join, fmt1. cbn [foldl].
  change (EmptyString +:+ name +:+ ".rels") with (name +:+ ".rels").
  assert (Hrels : joinable "_rels") by (repeat split; reflexivity || discriminate).
  assert (Hfile : joinable (name +:+ ".rels")).
  { apply plain_joinable in Hname as (_ & Hns & _). split; [destruct name; discriminate|].
    split.
    - rewrite startswith_app; [exact Hns|]. destruct name; [contradiction|simpl; lia].
    - now rewrite endswith_sep_app by discriminate. }
  destruct (decide (dir_names = [])) as [->|Hd].
  - unfold join_step. destruct Hfile as (_ & -> & _).
    change (startswith "/" "_rels") with false.
    change (endswith_sep (abs_path_of [])) with true. rewrite orb_true_r.
    change (abs_path_of [] +:+ "_rels") with "/_rels"%string.
    change (endswith_sep "/_rels") with false.
    rewrite bool_decide_eq_false_2 by discriminate. reflexivity.
  - destruct (join_sep_joinable dir_names Hjd Hd) as [H1 H2].
    assert (Hstep : forall comps c,
              comps <> [] -> Forall joinable comps -> joinable c ->
              join_step (abs_path_of comps) c = abs_path_of (comps ++ [c])).
    { intros comps c Hc Hall (_ & Hcs & _). unfold join_step. rewrite Hcs.
      rewrite bool_decide_eq_false_2 by discriminate.
      destruct (join_sep_joinable comps Hall Hc) as [H1' H2'].
      unfold abs_path_of at 1. rewrite endswith_sep_app by assumption. rewrite H2'.
      cbn [orb]. unfold abs_path_of. rewrite join_sep_snoc by assumption.
      now rewrite !append_assoc. }
    rewrite Hstep by assumption.
    rewrite Hstep.
    + now rewrite <- app_assoc.
    + destruct dir_names; discriminate.
    + apply Forall_app. split; [assumption|]. now constructor.
    + assumption.
Qed.

Lemma pack_uri_parts_witness :
  rels_uri (abs_path_of (["word"%string] ++ ["document.xml"%string]))
  = Ok "/word/_rels/document.xml.rels"%string.
Proof.
  apply (pack_uri_parts ["word"]%string "document.xml").
  - repeat constructor; discriminate.
  - repeat constructor; discriminate.
Defined.

End PackURIFacts.

(* --------------------------------------------------------------------- *)
(** ** Rows and columns added to a table *)

Module TableGrowFacts.
Import Oxml SimpleTypes Table TableCells TableGrow.
Import OxmlFacts SimpleTypesFacts LengthFacts TableFacts ChildFacts CellFacts NewTableFacts.

Lemma find_index_app_l (t : string) (l1 l2 : list Element) (i : nat) :
  find_index t l1 = Some i -> find_index t (l1 ++ l2) = Some i.
Proof.
  revert i. induction l1 as [|c l1 IH]; intros i; simpl; [discriminate|].
  destruct (decide (tag c = t)); [trivial|].
  destruct (find_index t l1) as [j|]; [|discriminate]. simpl. intros [= <-].
  now rewrite (IH j eq_refl).
Qed.

Lemma findall_from_app (first : nat) (t : string) (l1 l2 : list Element) :
  findall_from first t (l1 ++ l2)
  = findall_from first t l1 ++ findall_from (first + length l1) t l2.
Proof.
  revert first. induction l1 as [|c l1 IH]; intros first; simpl.
  - now rewrite Nat.add_0_r.
  - rewrite IH. replace (S first + length l1)%nat with (first + S (length l1))%nat by lia.
    now destruct (decide (tag c = t)).
Qed.

Lemma findall_from_all (first : nat) (t : string) (l : list Element) :
  Forall (fun c => tag c = t) l -> findall_from first t l = seq first (length l).
Proof.
  intros Hall. revert first. induction Hall as [|c l Hc _ IH]; intros first; simpl;
    [reflexivity|].
  rewrite decide_True by assumption. now rewrite IH.
Qed.

(** A child added by a repeating descriptor that has no successors goes
    last. *)
Lemma insert_child_last (d : _BaseChildElement) (obj child : Element) :
  Oxml._successors d = [] ->
  inserted_at d obj = length (children obj) /\
  _insert_child d obj child = set_children obj (children obj ++ [child]).
Proof.
  intros Hs. unfold inserted_at, _insert_child, insert_element_before. rewrite Hs. auto.
Qed.

(** The cell [add_row] and [add_column] leave for a width *)
Lemma set_width_new_cell (twips : Z) :
  0 <= twips <= 2147483647 ->
  CT_Tc_element.set_width CT_Tc_new (635 * twips) = Ok (Examples.tc_of_width (str twips)).
Proof.
  intros Hrange.
  assert (Htwips : Length.twips (635 * twips) = Ok twips)
    by (apply (twips_nearest _ twips 0); lia).
  lazy -[Length.twips str Z.mul Z.ltb Z.gtb]. rewrite Htwips.
  destruct (twips <? -2147483648) eqn:E1; [apply Z.ltb_lt in E1; lia|].
  destruct (twips >? 2147483647) eqn:E2;
    [rewrite Z.gtb_ltb in E2; apply Z.ltb_lt in E2; lia|].
  reflexivity.
Qed.

Lemma width_of_cell (twips : Z) :
  CT_Tc_element.width (Examples.tc_of_width (str twips)) = Ok (Some (635 * twips)).
Proof. lazy -[int str Z.mul]. rewrite int_str. lazy -[Z.mul]. do 2 f_equal. lia. Qed.

Lemma insert_last {A : Type} (pre : list A) (x y : A) :
  <[length pre := y]> (pre ++ [x]) = pre ++ [y].
Proof. induction pre as [|a pre IH]; simpl; [reflexivity|now rewrite IH]. Qed.

Lemma lookup_last {A : Type} `{Inhabited A} (pre : list A) (x : A) :
  (pre ++ [x]) !!! length pre = x.
Proof.
  apply list_lookup_total_correct. rewrite lookup_app_r by lia.
  now rewrite Nat.sub_diag.
Qed.

Section AddRow.
Variable UM : string -> result Z.
Variables (tbl_tag : string) (tbl_attrib : list (string * string)) (pre : list Element).
Variable tblGrid : Element.

Local Abbreviation tbl_with row := (mk_Element tbl_tag tbl_attrib (pre ++ [row])).
Local Abbreviation new_row cells := (mk_Element "w:tr" [] cells).

Lemma add_row_cells_run (gridCol_lst : list nat) (widths : list (option Z)) :
  Forall2 (fun g w => gridCol_w UM (child_at tblGrid g) = Ok w /\ whole_twips w)
          gridCol_lst widths ->
  forall done,
    add_row_cells UM (tbl_with (new_row (row_cell <$> done))) tblGrid (length pre) gridCol_lst
    = Ok (tbl_with (new_row (row_cell <$> (done ++ widths)))).
Proof.
  induction 1 as [|g w gs ws [Hw Hwhole] _ IH]; intros done.
  - now rewrite app_nil_r.
  - cbn [add_row_cells]. unfold child_at at 1. cbn [children]. rewrite lookup_last.
    unfold add_tc.
    destruct (insert_child_last tc (new_row (row_cell <$> done)) CT_Tc_new eq_refl)
      as [-> ->].
    cbn [children set_children tag attrib]. unfold replace at 1.
    cbn [children set_children tag attrib]. rewrite insert_last, Hw.
    cbn [mbind result_bind Py.bind].
    specialize (IH (done ++ [w])). rewrite fmap_app in IH. cbn [fmap list_fmap] in IH.
    rewrite <- app_assoc in IH. cbn [app] in IH. rewrite <- IH. clear IH.
    destruct w as [width|].
    + destruct Hwhole as (twips & -> & Hrange).
      unfold set_children. cbn [children tag attrib].
      unfold child_at at 1. cbn [children].
      rewrite lookup_last, set_width_new_cell by assumption.
      cbn [mbind result_bind Py.bind].
      unfold CT_Tc.put, CT_Tc._tr, replace, child_at, set_children.
      cbn [children tag attrib tr_at tc_at].
      rewrite lookup_last. cbn [children tag attrib].
      rewrite !insert_last.
      change (row_cell (Some (635 * twips)))
        with (Examples.tc_of_width (str (635 * twips / 635))).
      replace (635 * twips / 635) with twips by (rewrite Z.mul_comm, Z.div_mul; lia).
      reflexivity.
    + cbn [mbind result_bind Py.bind]. unfold replace, set_children.
      cbn [children tag attrib]. rewrite insert_last. reflexivity.
Qed.

End AddRow.

(** X19. [add_row] adds one row at the end of the table, with one cell for
    each grid column of the table: when the widths of the grid columns can
    be read and each is absent or a whole number of twips within [XsdInt],
    the new row has as many cells as there are grid columns, each of span 1,
    not vertically merged, and of the width of its grid column (no width
    where the column has none); the rows and the other children the table
    had are untouched. *)
Theorem add_row_cell_per_column (UM : string -> result Z) (tbl : Element)
    (tblGrid : nat) (widths : list (option Z)) :
  find_index "w:tblGrid" (children tbl) = Some tblGrid ->
  Forall2 (fun g w => gridCol_w UM (child_at (child_at tbl tblGrid) g) = Ok w /\
                      whole_twips w)
          (findall_index (child_at tbl tblGrid) (qn "w:gridCol")) widths ->
  exists tbl' row,
    add_row UM tbl = Ok (length (children tbl), tbl') /\
    children tbl' = children tbl ++ [row] /\
    CT_Tbl.tr_lst tbl' = CT_Tbl.tr_lst tbl ++ [length (children tbl)] /\
    col_count tbl' = col_count tbl /\
    CT_Row.tc_lst row = seq 0 (length widths) /\
    Forall2 (fun tc w =>
               CT_Tc_element.width (child_at row tc) = Ok w /\
               CT_Tc_element.grid_span (child_at row tc) = Ok 1 /\
               CT_Tc_element.vMerge (child_at row tc) = Ok None)
            (seq 0 (length widths)) widths.
Proof.
  intros Hgrid Hwidths. destruct tbl as [tbl_tag tbl_attrib pre]. cbn [children] in *.
  exists (mk_Element tbl_tag tbl_attrib (pre ++ [mk_Element "w:tr" [] (row_cell <$> widths)])),
         (mk_Element "w:tr" [] (row_cell <$> widths)).
  assert (Hat : forall row : Element,
            child_at (mk_Element tbl_tag tbl_attrib (pre ++ [row])) tblGrid
            = child_at (mk_Element tbl_tag tbl_attrib pre) tblGrid).
  { intros row. unfold child_at. cbn [children].
    apply find_index_lt in Hgrid as Hlt.
    apply list_lookup_total_correct. rewrite lookup_app_l by assumption.
    apply list_lookup_lookup_total_lt. assumption. }
  split; [|split; [reflexivity|split; [|split; [|split]]]].
  - unfold add_row, add_tr.
    destruct (insert_child_last tr (mk_Element tbl_tag tbl_attrib pre)
                (new_child_element tr) eq_refl) as [Hi Hc].
    unfold _add_child. rewrite Hi, Hc. unfold set_children. cbn [children tag attrib].
    unfold ChoiceGroup.required_child_element, qn. cbn [children].
    rewrite (find_index_app_l _ _ _ _ Hgrid). cbn [mbind result_bind Py.bind].
    rewrite Hat.
    pose proof (add_row_cells_run UM tbl_tag tbl_attrib pre _ _ _ Hwidths []) as Hrun.
    unfold qn in Hrun.
    change (new_child_element tr) with (mk_Element "w:tr" [] (row_cell <$> [])).
    rewrite Hrun. reflexivity.
  - unfold CT_Tbl.tr_lst, findall_index. cbn [children].
    rewrite findall_from_app. cbn [findall_from]. now rewrite decide_True.
  - unfold col_count, ChoiceGroup.required_child_element, qn. cbn [children].
    rewrite (find_index_app_l _ _ _ _ Hgrid), Hgrid. cbn [mbind result_bind Py.bind].
    now rewrite Hat.
  - unfold CT_Row.tc_lst, findall_index. cbn [children].
    rewrite findall_from_all; [now rewrite length_fmap|].
    apply Forall_fmap, Forall_forall. intros [w|] _; reflexivity.
  - apply Forall2_same_length_lookup. split; [now rewrite length_seq|].
    intros i tc w Htc Hw. apply lookup_seq in Htc as [-> _]. simpl.
    assert (Hw' : Forall whole_twips widths).
    { clear -Hwidths. induction Hwidths as [|? ? ? ? [_ ?]]; constructor; auto. }
    rewrite Forall_forall in Hw'. specialize (Hw' w (list_elem_of_lookup_2 _ _ _ Hw)).
    unfold child_at. cbn [children].
    rewrite (list_lookup_total_correct _ i (row_cell w))
      by (now rewrite list_lookup_fmap, Hw).
    destruct w as [width|]; [|repeat split; reflexivity].
    destruct Hw' as (twips & -> & Hrange). unfold row_cell.
    replace (635 * twips / 635) with twips by (rewrite Z.mul_comm, Z.div_mul; lia).
    split; [apply width_of_cell|]. split; reflexivity.
Qed.

Lemma add_row_cell_per_column_witness :
  exists tbl' row,
    add_row (fun _ => Ok 0) (Examples.tbl_3x3 "1440") = Ok (5%nat, tbl') /\
    children tbl' = children (Examples.tbl_3x3 "1440") ++ [row] /\
    CT_Row.tc_lst row = [0; 1; 2]%nat.
Proof.
  destruct (add_row_cell_per_column (fun _ => Ok 0) (Examples.tbl_3x3 "1440") 1
              [Some 914400; Some 914400; Some 914400])
    as (tbl' & row & Hadd & Hch & _ & _ & Htcs & _).
  - reflexivity.
  - change (findall_index (child_at (Examples.tbl_3x3 "1440") 1) (qn "w:gridCol"))
      with [0; 1; 2]%nat.
    assert (Hw : whole_twips (Some 914400)) by (exists 1440; lia).
    repeat (apply List.Forall2_cons; [split; [vm_compute; reflexivity|exact Hw]|]).
    apply List.Forall2_nil.
  - exists tbl', row. auto.
Defined.

(** The decimal digits of a number hold no unit letter *)
Lemma has_char_app (c : ascii) (s1 s2 : string) :
  has_char c (s1 +:+ s2) = has_char c s1 || has_char c s2.
Proof.
  induction s1 as [|a s1 IH]; simpl; [reflexivity|].
  change (has_char c (s1 +:+ s2) = has_char c s1 || has_char c s2) in IH.
  change (bool_decide (a = c) || has_char c (s1 +:+ s2)
          = bool_decide (a = c) || has_char c s1 || has_char c s2).
  rewrite IH. now destruct (bool_decide (a = c)).
Qed.

Lemma pretty_N_char_no_letter (c : ascii) (x : N) :
  digit_value c = None -> (x < 10)%N -> pretty_N_char x <> c.
Proof.
  intros Hc Hx Heq. rewrite <- Heq, digit_value_pretty_N_char in Hc by assumption.
  discriminate.
Qed.

Lemma has_char_pretty_N_go (c : ascii) (x : N) (s : string) :
  digit_value c = None -> has_char c (pretty_N_go x s) = has_char c s.
Proof.
  intros Hc. revert s. induction (N.lt_wf_0 x) as [x _ IH]; intros s.
  destruct (decide (x = 0)%N) as [->|Hx].
  - now rewrite pretty_N_go_0.
  - rewrite pretty_N_go_step by lia.
    rewrite IH by (apply N.div_lt; lia). cbn [has_char].
    rewrite bool_decide_eq_false_2; [reflexivity|].
    apply pretty_N_char_no_letter; [assumption|]. apply N.mod_lt. lia.
Qed.

Lemma has_char_str (c : ascii) (value : Z) :
  digit_value c = None -> 0 <= value -> has_char c (str value) = false.
Proof.
  intros Hc Hv. destruct value as [|p|p]; [| |lia].
  { change (str 0) with "0"%string. cbn [has_char].
    rewrite bool_decide_eq_false_2; [reflexivity|]. intros <-. discriminate. }
  unfold str, pretty, pretty_Z, pretty, pretty_positive, pretty, pretty_N.
  rewrite decide_False by discriminate.
  now rewrite has_char_pretty_N_go.
Qed.

(** The width written to a new grid column reads back *)
Lemma gridCol_set_get (UM : string -> result Z) (twips : Z) :
  0 <= twips <= 2147483647 ->
  exists col,
    set_gridCol_w (new_child_element gridCol) (Some (635 * twips)) = Ok col /\
    tag col = "w:gridCol"%string /\
    gridCol_w UM col = Ok (Some (635 * twips)).
Proof.
  intros Hrange.
  assert (Htwips : Length.twips (635 * twips) = Ok twips)
    by (apply (twips_nearest _ twips 0); lia).
  exists (mk_Element "w:gridCol" [("w:w"%string, str twips)] []).
  split; [|split; [reflexivity|]].
  - lazy -[Length.twips str Z.mul Z.ltb Z.gtb]. rewrite Htwips.
    destruct (635 * twips <? 0) eqn:E1; [apply Z.ltb_lt in E1; lia|].
    destruct (635 * twips >? 18446744073709551615) eqn:E2;
      [rewrite Z.gtb_ltb in E2; apply Z.ltb_lt in E2; lia|].
    reflexivity.
  - unfold gridCol_w, Attribute.optional_get_attr_value, get, qn. cbn [attrib].
    change (OrderedDict.getitem (Attribute._clark_name "w:w") [("w:w"%string, str twips)])
      with (Some (str twips)).
    cbv beta iota. unfold ST_TwipsMeasure_convert_from_xml.
    rewrite !has_char_str by (reflexivity || lia). cbn [orb].
    rewrite int_str. cbn [mbind result_bind Py.bind].
    unfold Length.Twips, Length.Length, Length._EMUS_PER_TWIP.
    replace (twips * 635) with (635 * twips) by lia. reflexivity.
Qed.

(** [findall] and [find] look at the tags of the children only *)
Lemma findall_from_tags (first : nat) (t : string) (l l' : list Element) :
  tag <$> l = tag <$> l' -> findall_from first t l = findall_from first t l'.
Proof.
  revert first l'. induction l as [|c l IH]; intros first [|c' l'] Ht;
    try discriminate; [reflexivity|].
  injection Ht as Hc Hl. simpl. rewrite Hc, (IH (S first) l' Hl). reflexivity.
Qed.

Lemma find_index_tags (t : string) (l l' : list Element) :
  tag <$> l = tag <$> l' -> find_index t l = find_index t l'.
Proof.
  revert l'. induction l as [|c l IH]; intros [|c' l'] Ht; try discriminate; [reflexivity|].
  injection Ht as Hc Hl. simpl. rewrite Hc, (IH l' Hl). reflexivity.
Qed.

Lemma findall_from_count (first : nat) (t : string) (l : list Element) :
  length (findall_from first t l) = length (filter (fun c => tag c = t) l).
Proof.
  revert first. induction l as [|c l IH]; intros first; simpl; [reflexivity|].
  rewrite filter_cons. destruct (decide (tag c = t)); simpl; now rewrite IH.
Qed.

Lemma findall_from_member (first : nat) (t : string) (l : list Element) (i : nat) :
  i ∈ findall_from first t l ->
  exists c, l !! (i - first)%nat = Some c /\ tag c = t /\ (first <= i)%nat.
Proof.
  revert first. induction l as [|c l IH]; intros first; simpl; [intros H; inversion H|].
  intros Hi.
  assert (Hcases : (i = first /\ tag c = t) \/ i ∈ findall_from (S first) t l).
  { destruct (decide (tag c = t)); [|now right].
    apply elem_of_cons in Hi as [->|Hi]; [now left|now right]. }
  destruct Hcases as [[-> Ht]|Hin].
  - exists c. rewrite Nat.sub_diag. auto.
  - destruct (IH _ Hin) as (c' & Hl & Ht & Hle). exists c'.
    replace (i - first)%nat with (S (i - S first)) by lia. simpl. split; [assumption|].
    split; [assumption|lia].
Qed.

Section AddColumn.
Variable cell : Element.
Variable width : Z.
Hypothesis set_width_cell : CT_Tc_element.set_width CT_Tc_new width = Ok cell.

(** A row with the new cell after its children *)
Local Abbreviation grown row := (_insert_child tc row cell).

Lemma grown_tag (row : Element) : tag (grown row) = tag row.
Proof. apply insert_child_tag_attrib. Qed.

Lemma add_column_cells_run (tr_lst : list nat) :
  NoDup tr_lst ->
  forall tbl,
    Forall (fun tr => (tr < length (children tbl))%nat) tr_lst ->
    add_column_cells tbl width tr_lst
    = Ok (set_children tbl
            (imap (fun i row => if decide (i ∈ tr_lst) then grown row else row)
                  (children tbl))).
Proof.
  induction 1 as [|tr rest Hnotin _ IH]; intros tbl Hlt.
  - cbn [add_column_cells]. f_equal. destruct tbl as [t a l]. unfold set_children.
    cbn [tag attrib children]. f_equal. apply list_eq. intros i.
    rewrite list_lookup_imap. destruct (l !! i); [|reflexivity].
    cbn [fmap option_fmap option_map].
    rewrite decide_False by (intros Hin; inversion Hin). reflexivity.
  - apply Forall_cons in Hlt as [Htr Hrest].
    cbn [add_column_cells]. unfold add_tc.
    destruct (insert_child_last tc (child_at tbl tr) CT_Tc_new eq_refl) as [-> ->].
    set (row := child_at tbl tr).
    change (child_at (set_children row (children row ++ [CT_Tc_new]))
                     (length (children row)))
      with ((children row ++ [CT_Tc_new]) !!! length (children row)).
    rewrite lookup_last, set_width_cell. cbn [mbind result_bind Py.bind].
    change (replace (set_children row (children row ++ [CT_Tc_new]))
                    (length (children row)) cell)
      with (set_children row (<[length (children row) := cell]>
                                (children row ++ [CT_Tc_new]))).
    rewrite insert_last. subst row.
    rewrite IH by (unfold replace, set_children; cbn [children];
                   now rewrite length_insert).
    f_equal. destruct tbl as [t a l]. unfold replace, set_children, child_at.
    cbn [tag attrib children] in *. f_equal. apply list_eq. intros i.
    rewrite !list_lookup_imap.
    destruct (lookup_lt_is_Some_2 l tr Htr) as [row Hrow].
    rewrite (list_lookup_total_correct _ _ _ Hrow).
    destruct (decide (i = tr)) as [->|Hne].
    + rewrite list_lookup_insert_eq by assumption. rewrite Hrow.
      cbn [fmap option_fmap option_map].
      rewrite decide_False by assumption.
      rewrite decide_True by (apply elem_of_cons; now left).
      unfold _insert_child, insert_element_before. reflexivity.
    + rewrite list_lookup_insert_ne by congruence.
      destruct (l !! i) as [c|]; [|reflexivity].
      cbn [fmap option_fmap option_map].
      destruct (decide (i ∈ rest)) as [Hin|Hnin].
      * rewrite decide_True by (apply elem_of_cons; now right). reflexivity.
      * rewrite decide_False; [reflexivity|].
        intros Hin. apply elem_of_cons in Hin as [?|?]; congruence.
Qed.

End AddColumn.

Lemma imap_tags (f : nat -> Element -> Element) (l : list Element) :
  (forall i c, tag (f i c) = tag c) -> tag <$> imap f l = tag <$> l.
Proof.
  intros Hf. apply list_eq. intros i.
  rewrite !list_lookup_fmap, list_lookup_imap.
  destruct (l !! i); [|reflexivity]. cbn [fmap option_fmap option_map]. now rewrite Hf.
Qed.

Lemma insert_tags (l : list Element) (i : nat) (c c' : Element) :
  l !! i = Some c -> tag c' = tag c -> tag <$> <[i := c']> l = tag <$> l.
Proof.
  intros Hi Ht. rewrite list_fmap_insert, Ht. apply list_insert_id.
  now rewrite list_lookup_fmap, Hi.
Qed.

(** X20. [add_column] adds one grid column of the given width to the
    table grid and one cell of that width at the end of every row: for a
    width of a whole number of twips within [XsdInt], the column count goes
    up by one, the new grid column reads back the width, the rows stay
    where they are, and each row keeps its children and gains one last cell
    of that width, of span 1 and not vertically merged. *)
Theorem add_column_cell_per_row (UM : string -> result Z) (tbl : Element)
    (tblGrid : nat) (twips : Z) :
  find_index "w:tblGrid" (children tbl) = Some tblGrid ->
  0 <= twips <= 2147483647 ->
  exists gridCol tbl' n cell,
    add_column tbl (635 * twips) = Ok (gridCol, tbl') /\
    col_count tbl = Ok n /\
    col_count tbl' = Ok (n + 1) /\
    gridCol_w UM (child_at (child_at tbl' tblGrid) gridCol) = Ok (Some (635 * twips)) /\
    CT_Tbl.tr_lst tbl' = CT_Tbl.tr_lst tbl /\
    CT_Tc_element.width cell = Ok (Some (635 * twips)) /\
    CT_Tc_element.grid_span cell = Ok 1 /\
    CT_Tc_element.vMerge cell = Ok None /\
    forall tr, tr ∈ CT_Tbl.tr_lst tbl ->
      child_at tbl' tr
      = set_children (child_at tbl tr) (children (child_at tbl tr) ++ [cell]).
Proof.
  intros Hgrid Hrange. destruct tbl as [t a l]. cbn [children] in Hgrid.
  destruct (find_index_Some _ _ _ Hgrid) as (g0 & Hg0 & Hg0tag & _).
  pose proof (lookup_lt_Some _ _ _ Hg0) as Hlt.
  set (i := inserted_at TableGrow.gridCol g0).
  set (g1 := _insert_child TableGrow.gridCol g0 (new_child_element TableGrow.gridCol)).
  assert (Hi : (i <= length (children g0))%nat) by apply inserted_at_le.
  assert (Hg1 : children g1
                = take i (children g0) ++ new_child_element TableGrow.gridCol
                                           :: drop i (children g0))
    by apply insert_child_children.
  assert (Hg1tag : tag g1 = tag g0) by apply insert_child_tag_attrib.
  destruct (gridCol_set_get UM twips Hrange) as (col & Hset & Hcoltag & Hget).
  set (g2 := replace g1 i col).
  assert (Hg2 : children g2 = take i (children g0) ++ col :: drop i (children g0)).
  { unfold g2, replace, set_children. cbn [children]. rewrite Hg1.
    rewrite insert_app_r_alt by (rewrite length_take; lia).
    rewrite length_take. replace (i - i `min` length (children g0))%nat with 0%nat by lia.
    reflexivity. }
  assert (Hg2tag : tag g2 = tag g0) by (unfold g2, replace, set_children; assumption).
  set (l2 := <[tblGrid := g2]> l).
  assert (Hl2tags : tag <$> l2 = tag <$> l) by (apply (insert_tags _ _ g0); assumption).
  set (cell := Examples.tc_of_width (str twips)).
  set (f := fun (k : nat) (row : Element) =>
              if decide (k ∈ CT_Tbl.tr_lst (mk_Element t a l2))
              then _insert_child tc row cell else row).
  assert (Hf : forall k c, tag (f k c) = tag c).
  { intros k c. unfold f. destruct (decide _); [apply insert_child_tag_attrib|reflexivity]. }
  assert (Htrs : CT_Tbl.tr_lst (mk_Element t a l2) = CT_Tbl.tr_lst (mk_Element t a l)).
  { unfold CT_Tbl.tr_lst, findall_index. cbn [children]. now apply findall_from_tags. }
  assert (Hrow : forall tr, tr ∈ CT_Tbl.tr_lst (mk_Element t a l) ->
                            exists row, l !! tr = Some row /\ tag row = "w:tr"%string).
  { intros tr Htr. unfold CT_Tbl.tr_lst, findall_index in Htr. cbn [children] in Htr.
    apply findall_from_member in Htr as (row & Hl & Htag & _).
    rewrite Nat.sub_0_r in Hl. eauto. }
  assert (Hnot : tblGrid ∉ CT_Tbl.tr_lst (mk_Element t a l)).
  { intros Hin. destruct (Hrow _ Hin) as (row & Hl & Htag).
    rewrite Hg0 in Hl. injection Hl as <-. rewrite Hg0tag in Htag. discriminate. }
  assert (Hadd : add_column (mk_Element t a l) (635 * twips)
                 = Ok (i, mk_Element t a (imap f l2))).
  { unfold add_column, ChoiceGroup.required_child_element, qn. cbn [children].
    rewrite Hgrid. cbn [mbind result_bind Py.bind].
    rewrite (child_at_lookup (mk_Element t a l) tblGrid g0 Hg0).
    unfold add_gridCol, _add_child. fold i g1.
    assert (Hnew : child_at g1 i = new_child_element TableGrow.gridCol).
    { apply child_at_lookup. rewrite Hg1.
      rewrite lookup_app_r by (rewrite length_take; lia).
      rewrite length_take. replace (i - i `min` length (children g0))%nat with 0%nat by lia.
      reflexivity. }
    rewrite Hnew, Hset. cbn [mbind result_bind Py.bind]. fold g2.
    change (replace (mk_Element t a l) tblGrid g2) with (mk_Element t a l2).
    rewrite (add_column_cells_run cell (635 * twips) (set_width_new_cell twips Hrange)).
    - reflexivity.
    - apply tr_lst_NoDup.
    - rewrite Htrs. apply Forall_forall. intros tr Htr.
      destruct (Hrow _ Htr) as (row & Hl & _). cbn [children]. unfold l2.
      rewrite length_insert. now apply lookup_lt_Some in Hl. }
  assert (Htags : tag <$> imap f l2 = tag <$> l)
    by (rewrite imap_tags by assumption; assumption).
  assert (Hgrid' : child_at (mk_Element t a (imap f l2)) tblGrid = g2).
  { apply child_at_lookup. cbn [children]. rewrite list_lookup_imap. unfold l2.
    rewrite list_lookup_insert_eq by assumption. cbn [fmap option_fmap option_map].
    unfold f. rewrite Htrs. now rewrite decide_False. }
  exists i, (mk_Element t a (imap f l2)),
         (Z.of_nat (length (findall_index g0 (qn "w:gridCol")))), cell.
  split; [assumption|]. split; [|split; [|split; [|split; [|split; [|split; [|split]]]]]].
  - unfold col_count, ChoiceGroup.required_child_element, qn. cbn [children].
    rewrite Hgrid. cbn [mbind result_bind Py.bind].
    now rewrite (child_at_lookup (mk_Element t a l) tblGrid g0 Hg0).
  - unfold col_count, ChoiceGroup.required_child_element, qn.
    cbn [children]. rewrite (find_index_tags _ _ _ Htags), Hgrid.
    cbn [mbind result_bind Py.bind]. rewrite Hgrid'. f_equal.
    unfold findall_index. rewrite !findall_from_count, Hg2.
    rewrite <- (take_drop i (children g0)) at 3.
    rewrite !filter_app, filter_cons_True by assumption.
    rewrite !length_app. cbn [length]. lia.
  - rewrite Hgrid'. unfold g2. rewrite (child_at_replace g1 i col); [assumption|].
    rewrite Hg1, length_app, length_take. cbn [length]. lia.
  - unfold CT_Tbl.tr_lst, findall_index. cbn [children]. now apply findall_from_tags.
  - apply width_of_cell.
  - reflexivity.
  - reflexivity.
  - intros tr Htr. destruct (Hrow _ Htr) as (row & Hl & _).
    rewrite (child_at_lookup (mk_Element t a l) tr row Hl).
    apply child_at_lookup. cbn [children]. rewrite list_lookup_imap. unfold l2.
    rewrite list_lookup_insert_ne by (intros <-; contradiction).
    rewrite Hl. cbn [fmap option_fmap option_map]. unfold f.
    rewrite Htrs, decide_True by assumption.
    now destruct (insert_child_last tc row cell eq_refl) as [_ ->].
Qed.

Lemma add_column_cell_per_row_witness :
  exists tbl',
    add_column (Examples.tbl_3x3 "1440") 914400 = Ok (3%nat, tbl') /\
    col_count tbl' = Ok 4 /\
    CT_Tbl.tr_lst tbl' = [2; 3; 4]%nat.
Proof.
  destruct (add_column_cell_per_row (fun _ => Ok 0) (Examples.tbl_3x3 "1440") 1 1440)
    as (gridCol & tbl' & n & cell & Hadd & Hn & Hn' & _ & Htrs & _).
  - reflexivity.
  - lia.
  - exists tbl'.
    assert (Hfirst : fst <$> add_column (Examples.tbl_3x3 "1440") 914400 = Ok 3%nat)
      by (vm_compute; reflexivity).
    change (635 * 1440) with 914400 in Hadd. rewrite Hadd in Hfirst.
    injection Hfirst as ->.
    change (col_count (Examples.tbl_3x3 "1440")) with (Ok 3 : result Z) in Hn.
    injection Hn as <-.
    split; [assumption|]. split; [assumption|]. rewrite Htrs. reflexivity.
Defined.

End TableGrowFacts.

(* --------------------------------------------------------------------- *)
(** ** The merge of a rectangle of cells of a new table *)

Module MergeFacts.
Import Oxml SimpleTypes Table TableCells MergedTable.
Import OxmlFacts SimpleTypesFacts LengthFacts TableFacts ChildFacts CellFacts NewTableFacts
       TableGrowFacts.

(** *** The cell of a span, read and written *)

Lemma tc_spanned_one (twips : Z) : tc_spanned twips 1 None = tc_new twips.
Proof. reflexivity. Qed.

Lemma grid_span_tc_spanned (twips grid_span : Z) (vMerge : option string) :
  1 <= grid_span -> CT_Tc_element.grid_span (tc_spanned twips grid_span vMerge) = Ok grid_span.
Proof.
  intros Hk. unfold tc_spanned.
  destruct (grid_span >? 1) eqn:E.
  - destruct vMerge; lazy -[int str]; rewrite int_str; reflexivity.
  - rewrite Z.gtb_ltb in E. apply Z.ltb_ge in E. replace grid_span with 1 by lia.
    destruct vMerge; reflexivity.
Qed.

Lemma width_tc_spanned (twips grid_span : Z) (vMerge : option string) :
  CT_Tc_element.width (tc_spanned twips grid_span vMerge) = Ok (Some (635 * twips)).
Proof.
  unfold tc_spanned. lazy -[int str Z.mul Z.gtb vMerge_children app].
  rewrite int_str. lazy -[Z.mul]. do 2 f_equal. lia.
Qed.

Lemma vMerge_tc_spanned (twips grid_span : Z) (vMerge : option string) :
  merge_value vMerge ->
  CT_Tc_element.vMerge (tc_spanned twips grid_span vMerge) = Ok vMerge.
Proof.
  intros [->|[->| ->]]; unfold tc_spanned; destruct (grid_span >? 1); reflexivity.
Qed.

Lemma is_empty_tc_spanned (twips grid_span : Z) (vMerge : option string) :
  CT_Tc_element._is_empty (tc_spanned twips grid_span vMerge) = Ok true.
Proof. reflexivity. Qed.

Lemma set_vMerge_tc_spanned (twips grid_span : Z) (vMerge : option string) :
  merge_value vMerge ->
  CT_Tc_element.set_vMerge (tc_spanned twips grid_span None) vMerge
  = Ok (tc_spanned twips grid_span vMerge).
Proof.
  intros [->|[->| ->]]; unfold tc_spanned; destruct (grid_span >? 1); reflexivity.
Qed.

Lemma set_grid_span_tc_spanned (twips grid_span value : Z) :
  2 <= value <= 2147483647 ->
  CT_Tc_element.set_grid_span (tc_spanned twips grid_span None) value
  = Ok (tc_spanned twips value None).
Proof.
  intros Hv. unfold tc_spanned.
  assert (E : (value >? 1) = true) by (apply Z.gtb_lt; lia). rewrite E.
  assert (E1 : (value <? -2147483648) = false) by (apply Z.ltb_ge; lia).
  assert (E2 : (value >? 2147483647) = false)
    by (rewrite Z.gtb_ltb; apply Z.ltb_ge; lia).
  destruct (grid_span >? 1); lazy -[str Z.ltb Z.gtb]; rewrite E, E1, E2; reflexivity.
Qed.

Lemma add_width_of_tc_spanned (twips grid_span : Z) :
  0 <= twips -> 1 <= grid_span -> (grid_span + 1) * twips <= 2147483647 ->
  CT_Tc_element._add_width_of (tc_spanned (grid_span * twips) grid_span None) (tc_new twips)
  = Ok (tc_spanned ((grid_span + 1) * twips) grid_span None).
Proof.
  intros Ht Hk Hmax.
  unfold CT_Tc_element._add_width_of, CT_Tc_element.widths_to_add.
  rewrite width_tc_spanned. cbn [mbind result_bind Py.bind].
  change (tc_new twips) with (tc_spanned twips 1 None). rewrite width_tc_spanned.
  cbn [mbind result_bind Py.bind].
  destruct (Z.eqb_spec twips 0) as [->|Hne].
  { rewrite !Z.mul_0_r. reflexivity. }
  destruct (Z.eqb_spec (635 * (grid_span * twips)) 0) as [|_]; [nia|].
  destruct (Z.eqb_spec (635 * twips) 0) as [|_]; [lia|].
  cbn [mbind result_bind Py.bind]. cbv beta iota.
  replace (Length.Length (635 * (grid_span * twips) + 635 * twips))
    with (635 * ((grid_span + 1) * twips)) by (unfold Length.Length; lia).
  assert (Htwips : Length.twips (635 * ((grid_span + 1) * twips))
                   = Ok ((grid_span + 1) * twips))
    by (apply (twips_nearest _ _ 0); lia).
  set (total := (grid_span + 1) * twips) in *.
  assert (E1 : (total <? -2147483648) = false) by (apply Z.ltb_ge; nia).
  assert (E2 : (total >? 2147483647) = false)
    by (rewrite Z.gtb_ltb; apply Z.ltb_ge; lia).
  clearbody total. unfold tc_spanned.
  destruct (grid_span >? 1); lazy -[Length.twips str Z.mul Z.ltb Z.gtb];
    rewrite Htwips; lazy -[str Z.mul Z.ltb Z.gtb]; rewrite E1, E2; reflexivity.
Qed.

(** *** The cells [Table._cells] lists for the cells of a row *)

Lemma cells_of_tcs_app (tbl : Element) (cc : Z) (l1 l2 : list address) :
  forall cells,
    cells_of_tcs tbl cc (l1 ++ l2) cells
    = (cells' ← cells_of_tcs tbl cc l1 cells; cells_of_tcs tbl cc l2 cells').
Proof.
  induction l1 as [|tc l1 IH]; intros cells; [reflexivity|].
  cbn [app cells_of_tcs].
  destruct (CT_Tc_element.grid_span (CT_Tc.element tbl tc)) as [grid_span|e];
    [|reflexivity].
  cbn [mbind result_bind Py.bind].
  destruct (cells_of_tc tbl cc tc (range grid_span) cells) as [cells'|e]; [|reflexivity].
  cbn [mbind result_bind Py.bind]. apply IH.
Qed.

Lemma cells_of_unmerged_tcs (tbl : Element) (cc : Z) (tcs : list address) :
  forall cells,
    Forall (fun tc => CT_Tc_element.grid_span (CT_Tc.element tbl tc) = Ok 1 /\
                      CT_Tc_element.vMerge (CT_Tc.element tbl tc) = Ok None) tcs ->
    cells_of_tcs tbl cc tcs cells = Ok (cells ++ tcs).
Proof.
  induction tcs as [|tc tcs IH]; intros cells Hall; cbn [cells_of_tcs].
  - now rewrite app_nil_r.
  - apply Forall_cons in Hall as [[Hspan Hv] Hall]. rewrite Hspan.
    cbn [mbind result_bind Py.bind]. change (range 1) with [0].
    cbn [cells_of_tc]. rewrite Hv.
    cbn [mbind result_bind Py.bind]. rewrite decide_False by discriminate.
    change (0 >? 0) with false. cbn [mbind result_bind Py.bind].
    rewrite IH by assumption. now rewrite <- app_assoc.
Qed.

Lemma list_getitem_last {A : Type} (l : list A) (x : A) :
  list_getitem (l ++ [x]) (-1) = Ok x.
Proof.
  unfold list_getitem. cbv zeta. change (-1 <? 0) with true. cbv iota.
  rewrite length_app. cbn [length].
  destruct (Z.ltb_spec (Z.of_nat (length l + 1) + -1) 0) as [|_]; [lia|].
  replace (Z.to_nat (Z.of_nat (length l + 1) + -1)) with (length l) by lia.
  now rewrite list_lookup_middle.
Qed.

(** A cell not continuing a vertical merge stands for every grid column it
    spans. *)
Lemma cells_of_tc_more (tbl : Element) (cc : Z) (tc : address) (vMerge : option string) :
  CT_Tc_element.vMerge (CT_Tc.element tbl tc) = Ok vMerge ->
  vMerge <> Some ST_Merge.CONTINUE ->
  forall (n k : nat) (cells : list address),
    (1 <= k)%nat ->
    cells_of_tc tbl cc tc (Z.of_nat <$> seq k n) (cells ++ [tc])
    = Ok ((cells ++ [tc]) ++ replicate n tc).
Proof.
  intros Hv Hne. induction n as [|n IH]; intros k cells Hk.
  - cbn. now rewrite app_nil_r.
  - cbn [seq fmap list_fmap cells_of_tc]. rewrite Hv. cbn [mbind result_bind Py.bind].
    rewrite decide_False by assumption.
    destruct (Z.gtb_spec (Z.of_nat k) 0) as [_|]; [|lia].
    rewrite list_getitem_last. cbn [mbind result_bind Py.bind].
    change (cells_of_tc tbl cc tc (Z.of_nat <$> seq (S k) n) ((cells ++ [tc]) ++ [tc])
            = Ok ((cells ++ [tc]) ++ tc :: replicate n tc)).
    rewrite IH by lia. now rewrite <- (app_assoc _ [tc]).
Qed.

Lemma cells_of_tc_first (tbl : Element) (cc : Z) (tc : address) (vMerge : option string)
    (n : nat) (cells : list address) :
  CT_Tc_element.vMerge (CT_Tc.element tbl tc) = Ok vMerge ->
  vMerge <> Some ST_Merge.CONTINUE ->
  cells_of_tc tbl cc tc (range (Z.of_nat n)) cells = Ok (cells ++ replicate n tc).
Proof.
  intros Hv Hne. unfold range. rewrite Nat2Z.id. destruct n as [|n].
  - cbn. now rewrite app_nil_r.
  - cbn [seq fmap list_fmap cells_of_tc]. rewrite Hv. cbn [mbind result_bind Py.bind].
    rewrite decide_False by assumption. change (Z.of_nat 0 >? 0) with false.
    cbn [mbind result_bind Py.bind].
    change (cells_of_tc tbl cc tc (Z.of_nat <$> seq 1 n) (cells ++ [tc])
            = Ok (cells ++ tc :: replicate n tc)).
    rewrite (cells_of_tc_more tbl cc tc vMerge Hv Hne) by lia.
    now rewrite <- app_assoc.
Qed.

(** A cell continuing a vertical merge stands for what the row above has
    in its grid columns. *)
Lemma cells_of_tc_continue (tbl : Element) (cc : Z) (tc x : address)
    (before above : list address) :
  CT_Tc_element.vMerge (CT_Tc.element tbl tc) = Ok (Some ST_Merge.CONTINUE) ->
  Z.of_nat (length above) = cc ->
  forall (idxs : list Z) (cells : list address),
    (forall i, (i < length idxs)%nat -> above !! (length cells + i)%nat = Some x) ->
    cells_of_tc tbl cc tc idxs (before ++ above ++ cells)
    = Ok ((before ++ above ++ cells) ++ replicate (length idxs) x).
Proof.
  intros Hv Hcc. induction idxs as [|idx idxs IH]; intros cells Habove.
  - cbn. now rewrite app_nil_r.
  - cbn [cells_of_tc]. rewrite Hv. cbn [mbind result_bind Py.bind].
    rewrite decide_True by reflexivity.
    assert (Hx : above !! length cells = Some x).
    { specialize (Habove 0%nat). rewrite Nat.add_0_r in Habove. apply Habove. cbn. lia. }
    assert (Hget : list_getitem (before ++ above ++ cells) (- cc) = Ok x).
    { pose proof (lookup_lt_Some _ _ _ Hx) as Hlt.
      unfold list_getitem. cbv zeta. rewrite !length_app.
      destruct (Z.ltb_spec (- cc) 0) as [_|]; [|lia].
      destruct (Z.ltb_spec
                  (Z.of_nat (length before + (length above + length cells)) + - cc) 0)
        as [|_]; [lia|].
      replace (Z.to_nat (Z.of_nat (length before + (length above + length cells)) + - cc))
        with (length before + length cells)%nat by lia.
      rewrite lookup_app_r by lia.
      replace (length before + length cells - length before)%nat with (length cells)
        by lia.
      rewrite lookup_app_l by assumption. now rewrite Hx. }
    rewrite Hget. cbn [mbind result_bind Py.bind].
    replace ((before ++ above ++ cells) ++ [x]) with (before ++ above ++ (cells ++ [x]))
      by (now rewrite !app_assoc).
    rewrite IH.
    + cbn [length replicate]. rewrite !app_assoc. rewrite <- (app_assoc _ [x]).
      reflexivity.
    + intros i Hi. rewrite length_app. cbn [length].
      replace (length cells + 1 + i)%nat with (length cells + S i)%nat by lia.
      apply Habove. cbn [length]. lia.
Qed.

(** *** Rows and cells of the table by position *)

Lemma head_filter_seq (i n : nat) :
  (S i < n)%nat -> head (filter (fun tc => i < tc)%nat (seq 0 n)) = Some (S i).
Proof.
  intros Hi. replace n with (S i + (n - S i))%nat by lia.
  rewrite seq_app, filter_app.
  rewrite (filter_none (fun tc => (i < tc)%nat) (seq 0 (S i))).
  - destruct (n - S i)%nat as [|k] eqn:E; [lia|]. cbn [app seq].
    rewrite filter_cons_True by lia. reflexivity.
  - apply Forall_forall. intros x Hx. apply elem_of_seq in Hx. lia.
Qed.

Lemma tc_lst_cells (cells : list Element) :
  Forall (fun c => tag c = "w:tc"%string) cells ->
  CT_Row.tc_lst (Examples.tr_of cells) = seq 0 (length cells).
Proof. intros Hall. now apply findall_from_all. Qed.

Section Rows.
Variables (twips : Z) (cols : nat).

Local Abbreviation tbl_of rs := (tbl_of_rows twips cols rs).
Local Abbreviation in_row r i := (mk_address (S (S r)) i).

Lemma tr_of_rows (rs : list Element) (r i : nat) (row : Element) :
  rs !! r = Some row -> CT_Tc._tr (tbl_of rs) (in_row r i) = row.
Proof.
  intros Hr. unfold CT_Tc._tr, child_at. cbn [tr_at].
  change (children (tbl_of rs) !!! S (S r)) with (rs !!! r).
  now apply list_lookup_total_correct.
Qed.

Lemma element_of_rows (rs : list Element) (r i : nat) (cells : list Element) :
  rs !! r = Some (Examples.tr_of cells) ->
  CT_Tc.element (tbl_of rs) (in_row r i) = cells !!! i.
Proof. intros Hr. unfold CT_Tc.element. now rewrite (tr_of_rows _ _ _ _ Hr). Qed.

Lemma put_of_rows (rs : list Element) (r i : nat) (cells : list Element) (x : Element) :
  rs !! r = Some (Examples.tr_of cells) ->
  CT_Tc.put (tbl_of rs) (in_row r i) x
  = tbl_of (<[r := Examples.tr_of (<[i := x]> cells)]> rs).
Proof. intros Hr. unfold CT_Tc.put. now rewrite (tr_of_rows _ _ _ _ Hr). Qed.

Lemma remove_of_rows (rs : list Element) (r i : nat) (cells : list Element) :
  rs !! r = Some (Examples.tr_of cells) ->
  CT_Tc._remove (tbl_of rs) (in_row r i)
  = tbl_of (<[r := Examples.tr_of (delete i cells)]> rs).
Proof. intros Hr. unfold CT_Tc._remove. now rewrite (tr_of_rows _ _ _ _ Hr). Qed.

Lemma next_tc_of_rows (rs : list Element) (r i : nat) (cells : list Element) :
  rs !! r = Some (Examples.tr_of cells) ->
  Forall (fun c => tag c = "w:tc"%string) cells ->
  (S i < length cells)%nat ->
  CT_Tc._next_tc (tbl_of rs) (in_row r i) = Some (in_row r (S i)).
Proof.
  intros Hr Hall Hi. unfold CT_Tc._next_tc. rewrite (tr_of_rows _ _ _ _ Hr).
  rewrite tc_lst_cells by assumption. cbn [tc_at tr_at].
  now rewrite head_filter_seq.
Qed.

End Rows.

(** *** The cells of a row taken in one by one *)

Section Merge.
Variables (twips : Z) (cols : nat).
Hypothesis twips_not_negative : 0 <= twips.
Hypothesis cols_in_range : Z.of_nat cols <= 2147483647.
Hypothesis width_in_range : Z.of_nat cols * twips <= 2147483647.

Local Abbreviation tbl_of rs := (tbl_of_rows twips cols rs).
Local Abbreviation in_row r i := (mk_address (S (S r)) i).
Local Abbreviation tc0 := (tc_new twips).
Local Abbreviation spanned k v := (tc_spanned (Z.of_nat k * twips) (Z.of_nat k) v).

Lemma cells_tagged (b a : nat) (x : Element) :
  tag x = "w:tc"%string ->
  Forall (fun c => tag c = "w:tc"%string) (replicate b tc0 ++ x :: replicate a tc0).
Proof.
  intros Hx. apply Forall_app. split; [|constructor; [assumption|]];
    apply Forall_forall; intros c Hc; apply elem_of_replicate in Hc as [-> _]; reflexivity.
Qed.

Lemma cells_lookup_span (b : nat) (x : Element) (post : list Element) :
  (replicate b tc0 ++ x :: post) !!! b = x.
Proof.
  apply list_lookup_total_correct.
  rewrite lookup_app_r by (rewrite length_replicate; lia).
  rewrite length_replicate, Nat.sub_diag. reflexivity.
Qed.

Lemma cells_lookup_next (b : nat) (x y : Element) (post : list Element) :
  (replicate b tc0 ++ x :: y :: post) !!! S b = y.
Proof.
  apply list_lookup_total_correct.
  rewrite lookup_app_r by (rewrite length_replicate; lia).
  rewrite length_replicate. replace (S b - b)%nat with 1%nat by lia. reflexivity.
Qed.

Lemma cells_insert_span (b : nat) (x y : Element) (post : list Element) :
  <[b := y]> (replicate b tc0 ++ x :: post) = replicate b tc0 ++ y :: post.
Proof.
  rewrite insert_app_r_alt by (rewrite length_replicate; lia).
  rewrite length_replicate, Nat.sub_diag. reflexivity.
Qed.

Lemma cells_delete_next (b : nat) (x y : Element) (post : list Element) :
  delete (S b) (replicate b tc0 ++ x :: y :: post) = replicate b tc0 ++ x :: post.
Proof. induction b as [|b IH]; [reflexivity|]. cbn [replicate app]. cbn. now f_equal. Qed.

Lemma swallow_next_tc_spanned (rs : list Element) (r b k a : nat) (W : Z)
    (top_tc : address) :
  rs !! r = Some (tr_spanned twips b k (S a) None) ->
  (1 <= k)%nat -> (k + 1 <= cols)%nat -> Z.of_nat k + 1 <= W ->
  top_tc <> in_row r (S b) ->
  CT_Tc._swallow_next_tc (tbl_of rs) (in_row r b) W top_tc
  = Ok (tbl_of (<[r := tr_spanned twips b (S k) a None]> rs)).
Proof.
  intros Hr Hk Hcols HW Htop. unfold tr_spanned in *.
  change (replicate (S a) tc0) with (tc0 :: replicate a tc0) in Hr.
  pose proof (lookup_lt_Some _ _ _ Hr) as Hlt.
  unfold CT_Tc._swallow_next_tc.
  rewrite (next_tc_of_rows _ _ _ _ _ _ Hr);
    [|now apply (cells_tagged b (S a))
     |rewrite length_app; cbn [length]; rewrite !length_replicate; lia].
  rewrite !(element_of_rows _ _ _ _ _ _ Hr), cells_lookup_span, cells_lookup_next.
  rewrite grid_span_tc_spanned by lia.
  change (CT_Tc_element.grid_span tc0) with (Ok 1 : result Z).
  cbn [mbind result_bind Py.bind].
  destruct (Z.gtb_spec (Z.of_nat k + 1) W) as [|_]; [lia|].
  unfold CT_Tc._move_content_to. rewrite decide_False by assumption.
  rewrite (element_of_rows _ _ _ _ _ _ Hr), cells_lookup_next.
  change (CT_Tc_element._is_empty tc0) with (Ok true : result bool).
  cbn [mbind result_bind Py.bind].
  rewrite !(element_of_rows _ _ _ _ _ _ Hr), cells_lookup_span, cells_lookup_next.
  rewrite add_width_of_tc_spanned by nia.
  cbn [mbind result_bind Py.bind].
  rewrite (put_of_rows _ _ _ _ _ _ _ Hr), cells_insert_span.
  match goal with
  | |- context [tbl_of (<[r := ?row]> rs)] =>
      assert (Hr' : <[r := row]> rs !! r = Some row) by (now apply list_lookup_insert_eq)
  end.
  rewrite !(element_of_rows _ _ _ _ _ _ Hr'), cells_lookup_span, cells_lookup_next.
  unfold tc_spanned at 1. rewrite grid_span_tc_spanned by lia.
  change (CT_Tc_element.grid_span tc0) with (Ok 1 : result Z).
  cbn [mbind result_bind Py.bind].
  rewrite set_grid_span_tc_spanned by lia.
  cbn [mbind result_bind Py.bind].
  rewrite (put_of_rows _ _ _ _ _ _ _ Hr'), cells_insert_span, list_insert_insert_eq.
  match goal with
  | |- context [tbl_of (<[r := ?row]> rs)] =>
      assert (Hr'' : <[r := row]> rs !! r = Some row) by (now apply list_lookup_insert_eq)
  end.
  rewrite (remove_of_rows _ _ _ _ _ _ Hr''), cells_delete_next, list_insert_insert_eq.
  rewrite Nat2Z.inj_succ. unfold Z.succ. reflexivity.
Qed.

Lemma swallow_while_spanned (r b W : nat) (top_tc : address) :
  (W <= cols)%nat -> top_tc <> in_row r (S b) ->
  forall (d k a fuel : nat) (rs : list Element),
    rs !! r = Some (tr_spanned twips b k a None) ->
    (1 <= k)%nat -> (k + d = W)%nat -> (d <= a)%nat -> (d < fuel)%nat ->
    CT_Tc.swallow_while fuel (tbl_of rs) (in_row r b) (Z.of_nat W) top_tc
    = Some (Ok (tbl_of (<[r := tr_spanned twips b W (a - d) None]> rs))).
Proof.
  intros HW Htop. induction d as [|d IH]; intros k a fuel rs Hr Hk Hd Ha Hfuel;
    (destruct fuel as [|fuel]; [lia|]); cbn [CT_Tc.swallow_while];
    rewrite (element_of_rows _ _ _ _ _ _ Hr), cells_lookup_span;
    rewrite grid_span_tc_spanned by lia; cbn [fuel_bind lift].
  - destruct (Z.ltb_spec (Z.of_nat k) (Z.of_nat W)) as [|_]; [lia|].
    replace W with k by lia. rewrite Nat.sub_0_r, list_insert_id by assumption.
    reflexivity.
  - destruct (Z.ltb_spec (Z.of_nat k) (Z.of_nat W)) as [_|]; [|lia].
    destruct a as [|a]; [lia|].
    rewrite (swallow_next_tc_spanned rs r b k a) by (assumption || lia).
    cbn [fuel_bind lift].
    rewrite (IH (S k) a fuel); try lia.
    + now rewrite list_insert_insert_eq.
    + apply list_lookup_insert_eq. now apply lookup_lt_Some in Hr.
Qed.

Lemma insert_middle {A : Type} (above below : list A) (x y : A) :
  <[length above := y]> (above ++ x :: below) = above ++ y :: below.
Proof.
  rewrite insert_app_r_alt by lia. now rewrite Nat.sub_diag.
Qed.

Lemma span_to_width_spanned (above below : list Element) (b W a : nat)
    (top_tc : address) (vMerge : option string) :
  (1 <= W <= cols)%nat -> (W - 1 <= a)%nat ->
  top_tc <> in_row (length above) (S b) -> merge_value vMerge ->
  CT_Tc._span_to_width (tbl_of (above ++ tr_spanned twips b 1 a None :: below))
    (in_row (length above) b) (Z.of_nat W) top_tc vMerge
  = Some (Ok (tbl_of (above ++ tr_spanned twips b W (a - (W - 1)) vMerge :: below))).
Proof.
  intros HW Ha Htop Hv. unfold CT_Tc._span_to_width.
  set (rs := above ++ tr_spanned twips b 1 a None :: below).
  assert (Hr : rs !! length above = Some (tr_spanned twips b 1 a None))
    by (now apply list_lookup_middle).
  assert (Hmove : CT_Tc._move_content_to (tbl_of rs) (in_row (length above) b) top_tc
                  = Ok (tbl_of rs)).
  { unfold CT_Tc._move_content_to. destruct (decide _); [reflexivity|].
    unfold tr_spanned in Hr.
    rewrite (element_of_rows _ _ _ _ _ _ Hr), cells_lookup_span. reflexivity. }
  rewrite Hmove. cbn [fuel_bind lift].
  rewrite (swallow_while_spanned (length above) b W top_tc (proj2 HW) Htop (W - 1) 1 a)
    by (try assumption; try lia;
        rewrite (tr_of_rows _ _ _ _ _ _ Hr); unfold tr_spanned; cbn [children Examples.tr_of
          CT_Tbl.with_attrs]; rewrite length_app; cbn [length];
        rewrite !length_replicate; lia).
  cbn [fuel_bind lift]. unfold rs. rewrite insert_middle.
  match goal with
  | |- context [tbl_of ?rs'] =>
      assert (Hr' : rs' !! length above = Some (tr_spanned twips b W (a - (W - 1)) None))
        by (now apply list_lookup_middle)
  end.
  unfold tr_spanned in Hr'.
  rewrite (element_of_rows _ _ _ _ _ _ Hr'), cells_lookup_span.
  rewrite set_vMerge_tc_spanned by assumption. cbn [fuel_bind lift].
  rewrite (put_of_rows _ _ _ _ _ _ _ Hr'), cells_insert_span, insert_middle.
  reflexivity.
Qed.

(** *** The rows below taken in one by one *)

Local Abbreviation row_tagged := (Forall (fun row : Element => tag row = "w:tr"%string)).
Local Abbreviation cell_tagged := (Forall (fun c : Element => tag c = "w:tc"%string)).

Lemma tr_lst_of_rows (rs : list Element) :
  row_tagged rs -> CT_Tbl.tr_lst (tbl_of rs) = seq 2 (length rs).
Proof.
  intros Hrs. unfold CT_Tbl.tr_lst, findall_index.
  change (findall_from 0 (qn "w:tr") (children (tbl_of rs)))
    with (findall_from 2 "w:tr" rs).
  now apply findall_from_all.
Qed.

Lemma index_of_seq (r n : nat) :
  (r < n)%nat -> index_of (S (S r)) (seq 2 n) = Ok r.
Proof.
  intros Hr. apply index_of_lookup; [apply NoDup_seq|]. now rewrite lookup_seq_lt.
Qed.

Lemma filter_lt_seq (b n : nat) :
  (b <= n)%nat -> filter (fun tc => tc < b)%nat (seq 0 n) = seq 0 b.
Proof.
  intros Hb. replace n with (b + (n - b))%nat by lia.
  rewrite seq_app, filter_app, filter_all, filter_none.
  - apply app_nil_r.
  - apply Forall_forall. intros x Hx. apply elem_of_seq in Hx. lia.
  - apply Forall_forall. intros x Hx. apply elem_of_seq in Hx. lia.
Qed.

Lemma sum_of_ones (f : nat -> result Z) (l : list nat) (start : Z) :
  Forall (fun x => f x = Ok 1) l ->
  sum_of (f <$> l) start = Ok (start + Z.of_nat (length l)).
Proof.
  intros Hall. revert start. induction Hall as [|x l Hx _ IH]; intros start.
  - cbn. f_equal. lia.
  - cbn [fmap list_fmap sum_of]. rewrite Hx. cbn [mbind result_bind Py.bind].
    change (sum_of (f <$> l) (start + 1) = Ok (start + Z.of_nat (length (x :: l)))).
    rewrite IH. f_equal. cbn [length]. lia.
Qed.

Lemma grid_before_cells (cells : list Element) :
  cell_tagged cells -> CT_Row.grid_before (Examples.tr_of cells) = Ok 0.
Proof.
  intros Hall. unfold CT_Row.grid_before, get_child_element.
  replace (find_index (qn (_nsptagname CT_Row.trPr)) (children (Examples.tr_of cells)))
    with (@None nat); [reflexivity|].
  symmetry. apply find_index_None. eapply Forall_impl; [exact Hall|].
  cbn. intros c ->. discriminate.
Qed.

Lemma grid_offset_in_cells (b : nat) (x : Element) (post : list Element) :
  tag x = "w:tc"%string -> cell_tagged post ->
  CT_Tc.grid_offset_in (Examples.tr_of (replicate b tc0 ++ x :: post)) b
  = Ok (Z.of_nat b).
Proof.
  intros Hx Hpost.
  assert (Hall : cell_tagged (replicate b tc0 ++ x :: post)).
  { apply Forall_app. split; [|now constructor].
    apply Forall_forall. intros c Hc. apply elem_of_replicate in Hc as [-> _]. reflexivity. }
  unfold CT_Tc.grid_offset_in. rewrite grid_before_cells by assumption.
  cbn [mbind result_bind Py.bind]. rewrite tc_lst_cells by assumption.
  rewrite filter_lt_seq
    by (rewrite length_app, length_replicate; lia).
  rewrite sum_of_ones.
  - cbn [mbind result_bind Py.bind]. rewrite length_seq. f_equal.
  - apply Forall_forall. intros i Hi. apply elem_of_seq in Hi.
    unfold child_at. cbn [children Examples.tr_of CT_Tbl.with_attrs].
    rewrite (list_lookup_total_correct _ i tc0); [reflexivity|].
    rewrite lookup_app_l by (rewrite length_replicate; lia).
    apply lookup_replicate_2. lia.
Qed.

Lemma tc_below_spanned (above below : list Element) (b : nat) (x : Element)
    (post : list Element) :
  row_tagged above -> row_tagged below -> tag x = "w:tc"%string -> cell_tagged post ->
  (b < cols)%nat ->
  CT_Tc._tc_below
    (tbl_of (above ++ Examples.tr_of (replicate b tc0 ++ x :: post)
                      :: tr_new twips cols :: below))
    (in_row (length above) b)
  = Ok (Some (in_row (S (length above)) b)).
Proof.
  intros Habove Hbelow Hx Hpost Hb.
  set (row := Examples.tr_of (replicate b tc0 ++ x :: post)).
  set (rs := above ++ row :: tr_new twips cols :: below).
  assert (Hrs : row_tagged rs).
  { apply Forall_app. split; [assumption|]. constructor; [reflexivity|].
    constructor; [reflexivity|assumption]. }
  assert (Hr : rs !! length above = Some row) by (now apply list_lookup_middle).
  assert (Hnext : rs !! S (length above) = Some (tr_new twips cols)).
  { unfold rs. rewrite lookup_app_r by lia.
    replace (S (length above) - length above)%nat with 1%nat by lia. reflexivity. }
  unfold CT_Tc._tc_below, CT_Tc._tr_below. rewrite tr_lst_of_rows by assumption.
  cbn [tr_at]. rewrite index_of_seq by (now apply lookup_lt_Some in Hr).
  cbn [mbind result_bind Py.bind].
  rewrite lookup_seq_lt by (now apply lookup_lt_Some in Hnext).
  unfold CT_Tc.grid_offset. rewrite (tr_of_rows _ _ _ _ _ _ Hr). cbn [tc_at].
  unfold row. rewrite grid_offset_in_cells by assumption.
  cbn [mbind result_bind Py.bind].
  change (child_at (tbl_of rs) (2 + S (length above))) with (rs !!! S (length above)).
  rewrite (list_lookup_total_correct _ _ _ Hnext).
  unfold tr_new, tc_new. rewrite tr0_tc_at_grid_offset by assumption.
  reflexivity.
Qed.

Lemma tr_new_spanned (b : nat) :
  (b < cols)%nat -> tr_new twips cols = tr_spanned twips b 1 (cols - b - 1) None.
Proof.
  intros Hb. unfold tr_new, tr_spanned. f_equal.
  replace cols with (b + S (cols - b - 1))%nat at 1 by lia.
  rewrite replicate_add. cbn [replicate]. do 2 f_equal.
  change (Z.of_nat 1) with 1. rewrite Z.mul_1_l. reflexivity.
Qed.

Lemma grow_to_fuel_spanned (b W : nat) :
  (1 <= W)%nat -> (b + W <= cols)%nat ->
  forall (H fuel : nat) (above below : list Element) (top_tc : option address),
    (1 <= H <= fuel)%nat -> row_tagged above -> row_tagged below ->
    (forall tc, top_tc = Some tc -> (tr_at tc < S (S (length above)))%nat) ->
    CT_Tc._grow_to_fuel fuel (tbl_of (above ++ replicate H (tr_new twips cols) ++ below))
      (in_row (length above) b) (Z.of_nat W) (Z.of_nat H) top_tc
    = Some (Ok (tbl_of
        (above
         ++ tr_spanned twips b W (cols - b - W)
              (if decide (default (in_row (length above) b) top_tc
                          <> in_row (length above) b)
               then Some ST_Merge.CONTINUE
               else if Z.of_nat H =? 1 then None else Some ST_Merge.RESTART)
            :: replicate (H - 1)
                 (tr_spanned twips b W (cols - b - W) (Some ST_Merge.CONTINUE))
         ++ below))).
Proof.
  intros HW Hcols. induction H as [|H IH]; intros fuel above below top_tc Hfuel Habove
    Hbelow Htop; [lia|].
  destruct fuel as [|fuel]; [lia|]. cbn [CT_Tc._grow_to_fuel replicate app].
  set (self := in_row (length above) b).
  set (top := default self top_tc).
  set (vMerge := if decide (top <> self) then Some ST_Merge.CONTINUE
                 else if Z.of_nat (S H) =? 1 then None else Some ST_Merge.RESTART).
  assert (Hv : merge_value vMerge).
  { unfold vMerge, merge_value. destruct (decide _); [auto|].
    destruct (Z.of_nat (S H) =? 1); auto. }
  assert (Htop' : (tr_at top <= S (S (length above)))%nat).
  { unfold top. destruct top_tc as [tc|]; simpl; [|lia].
    specialize (Htop tc eq_refl). lia. }
  rewrite (tr_new_spanned b) at 1 by lia.
  rewrite (span_to_width_spanned above _ b W (cols - b - 1) top vMerge);
    [|lia|lia| |assumption].
  2:{ intros Heq. unfold top in Heq. destruct top_tc as [tc|]; simpl in Heq.
      - specialize (Htop tc eq_refl). rewrite Heq in Htop. simpl in Htop. lia.
      - unfold self in Heq. injection Heq. lia. }
  cbn [fuel_bind lift].
  replace (cols - b - 1 - (W - 1))%nat with (cols - b - W)%nat by lia.
  destruct (Z.gtb_spec (Z.of_nat (S H)) 1) as [Hgt|Hle].
  - destruct H as [|H]; [lia|]. cbn [replicate app].
    unfold tr_spanned at 1.
    rewrite tc_below_spanned; try assumption; try reflexivity; try lia.
    2:{ apply Forall_app. split; [|assumption].
        apply Forall_forall. intros c Hc. apply elem_of_replicate in Hc as [-> _].
        reflexivity. }
    2:{ apply Forall_forall. intros c Hc. apply elem_of_replicate in Hc as [-> _].
        reflexivity. }
    cbn [lift fuel_bind].
    replace (Z.of_nat (S (S H)) - 1) with (Z.of_nat (S H)) by lia.
    fold (tr_spanned twips b W (cols - b - W) vMerge).
    set (X := tr_spanned twips b W (cols - b - W) vMerge).
    change (above ++ X :: tr_new twips cols :: replicate H (tr_new twips cols) ++ below)
      with (above ++ X :: (replicate (S H) (tr_new twips cols) ++ below)).
    rewrite (cons_middle X above), app_assoc.
    replace (S (length above)) with (length (above ++ [X]))
      by (rewrite length_app; cbn; lia).
    rewrite (IH fuel (above ++ [X]) below (Some top)); try assumption; try lia.
    + rewrite decide_True.
      * rewrite <- app_assoc. cbn [app replicate]. replace (S H - 0)%nat with (S H) by lia.
        replace (S (S H) - 1)%nat with (S (S H - 1)) by lia.
        cbn [replicate]. replace (S H - 1)%nat with H by lia. reflexivity.
      * simpl. intros Heq. rewrite Heq in Htop'. simpl in Htop'.
        rewrite length_app in Htop'. simpl in Htop'. lia.
    + apply Forall_app. split; [assumption|]. constructor; [reflexivity|constructor].
    + intros tc [= <-]. rewrite length_app. cbn. lia.
  - assert (H = 0)%nat as -> by lia. cbn [replicate app]. reflexivity.
Qed.

(** *** The merge in the new table *)

Lemma new_rows_tagged (n : nat) : row_tagged (replicate n (tr_new twips cols)).
Proof.
  apply Forall_forall. intros row Hrow. apply elem_of_replicate in Hrow as [-> _].
  reflexivity.
Qed.

Lemma tbl_new_element (rows r c : nat) :
  (r < rows)%nat -> (c < cols)%nat ->
  CT_Tc.element (tbl_new twips cols rows) (in_row r c) = tc0.
Proof.
  intros Hr Hc. unfold tbl_new.
  rewrite (element_of_rows _ _ _ r c (replicate cols tc0))
    by (now apply lookup_replicate_2).
  apply list_lookup_total_correct. now apply lookup_replicate_2.
Qed.

Lemma tbl_new_extent (rows r c : nat) :
  (r < rows)%nat -> (c < cols)%nat ->
  extent_of (tbl_new twips cols rows) (in_row r c)
    (mk_extent (Z.of_nat r) (Z.of_nat c) (Z.of_nat r + 1) (Z.of_nat c + 1)).
Proof.
  intros Hr Hc.
  assert (Helm := tbl_new_element rows r c Hr Hc).
  assert (Hidx : CT_Tc._tr_idx (tbl_new twips cols rows) (in_row r c) = Ok (Z.of_nat r)).
  { unfold CT_Tc._tr_idx, tbl_new. rewrite tr_lst_of_rows by apply new_rows_tagged.
    rewrite length_replicate. cbn [tr_at]. now rewrite index_of_seq. }
  assert (Hleft : CT_Tc.grid_offset (tbl_new twips cols rows) (in_row r c)
                  = Ok (Z.of_nat c)).
  { unfold CT_Tc.grid_offset, tbl_new.
    rewrite (tr_of_rows _ _ _ r c (tr_new twips cols)) by (now apply lookup_replicate_2).
    rewrite (tr_new_spanned c) by assumption. unfold tr_spanned. cbn [tc_at].
    apply grid_offset_in_cells; [reflexivity|].
    apply Forall_forall. intros x Hx. apply elem_of_replicate in Hx as [-> _].
    reflexivity. }
  unfold extent_of. cbn [extent_top extent_left extent_bottom extent_right].
  split; [|split; [|split]].
  - unfold CT_Tc.top. cbn [tr_at CT_Tc.top_fuel]. rewrite Helm.
    change (CT_Tc_element.vMerge tc0) with (Ok None : result (option string)).
    cbn [fuel_bind lift]. rewrite bool_decide_eq_true_2 by (now left).
    now rewrite Hidx.
  - exact Hleft.
  - unfold CT_Tc.bottom. cbn [CT_Tc.bottom_fuel]. rewrite Helm.
    change (CT_Tc_element.vMerge tc0) with (Ok None : result (option string)).
    cbn [fuel_bind lift]. now rewrite Hidx.
  - unfold CT_Tc.right. rewrite Hleft, Helm. reflexivity.
Qed.

Lemma merge_tbl_new (rows r1 c1 r2 c2 : nat) :
  (r1 < rows)%nat -> (r2 < rows)%nat -> (c1 < cols)%nat -> (c2 < cols)%nat ->
  CT_Tc.merge (tbl_new twips cols rows) (in_row r1 c1) (in_row r2 c2)
  = Some (Ok (in_row (r1 `min` r2) (c1 `min` c2),
              tbl_merged twips cols rows (r1 `min` r2) (c1 `min` c2)
                (r1 `max` r2 + 1 - r1 `min` r2) (c1 `max` c2 + 1 - c1 `min` c2))).
Proof.
  intros Hr1 Hr2 Hc1 Hc2.
  destruct (tbl_new_extent rows r1 c1 Hr1 Hc1) as (Ht1 & Hl1 & Hb1 & Hg1).
  destruct (tbl_new_extent rows r2 c2 Hr2 Hc2) as (Ht2 & Hl2 & Hb2 & Hg2).
  cbn [extent_top extent_left extent_bottom extent_right] in *.
  set (top := (r1 `min` r2)%nat). set (left := (c1 `min` c2)%nat).
  set (H := (r1 `max` r2 + 1 - top)%nat). set (W := (c1 `max` c2 + 1 - left)%nat).
  unfold CT_Tc.merge.
  rewrite (span_dimensions_extents _ _ _ _ _ _ _ _ _ _ _ Ht1 Ht2 Hb1 Hb2 Hl1 Hl2 Hg1 Hg2).
  rewrite bool_decide_eq_false_2 by lia. cbn [fuel_bind lift].
  replace (Z.of_nat r1 `min` Z.of_nat r2) with (Z.of_nat top) by (unfold top; lia).
  replace (Z.of_nat c1 `min` Z.of_nat c2) with (Z.of_nat left) by (unfold left; lia).
  replace ((Z.of_nat r1 + 1) `max` (Z.of_nat r2 + 1) - Z.of_nat top) with (Z.of_nat H)
    by (unfold H, top; lia).
  replace ((Z.of_nat c1 + 1) `max` (Z.of_nat c2 + 1) - Z.of_nat left) with (Z.of_nat W)
    by (unfold W, left; lia).
  unfold tbl_new at 1. rewrite tr_lst_of_rows by apply new_rows_tagged.
  rewrite length_replicate.
  rewrite (list_getitem_lookup _ top (S (S top)))
    by (apply lookup_seq_lt; unfold top; lia).
  cbn [fuel_bind lift mbind result_bind Py.bind].
  change (child_at (tbl_new twips cols rows) (S (S top)))
    with (replicate rows (tr_new twips cols) !!! top).
  rewrite (list_lookup_total_correct _ top (tr_new twips cols))
    by (apply lookup_replicate_2; unfold top; lia).
  unfold tr_new at 1, tc_new. rewrite tr0_tc_at_grid_offset by (unfold left; lia).
  cbn [fuel_bind lift mbind result_bind Py.bind].
  unfold CT_Tc._grow_to, tbl_new.
  replace rows with (top + (H + (rows - top - H)))%nat at 1 by (unfold H, top; lia).
  rewrite !replicate_add.
  replace (in_row top left)
    with (in_row (length (replicate top (tr_new twips cols))) left)
    by (now rewrite length_replicate).
  rewrite (grow_to_fuel_spanned left W); try apply new_rows_tagged;
    try (unfold W, H, left, top; lia); [|discriminate].
  cbn [fuel_bind lift]. rewrite length_replicate.
  rewrite decide_False by (simpl; intros Hne; now apply Hne).
  unfold tbl_merged, rows_merged.
  replace (Z.of_nat H =? 1) with (H =? 1)%nat; [reflexivity|].
  destruct (Nat.eqb_spec H 1) as [->|Hne]; [reflexivity|].
  symmetry. apply Z.eqb_neq. lia.
Qed.

(** *** The cells of the table after the merge *)

Lemma col_count_of_rows (rs : list Element) : col_count (tbl_of rs) = Ok (Z.of_nat cols).
Proof.
  unfold tbl_of_rows, col_count, ChoiceGroup.required_child_element. simpl.
  unfold findall_index. simpl. rewrite findall_from_replicate by reflexivity.
  now rewrite length_seq.
Qed.

Lemma unmerged_cells (rs : list Element) (r : nat) (cells : list Element) (tcs : list nat) :
  rs !! r = Some (Examples.tr_of cells) ->
  Forall (fun i => cells !! i = Some tc0) tcs ->
  Forall (fun tc => CT_Tc_element.grid_span (CT_Tc.element (tbl_of rs) tc) = Ok 1 /\
                    CT_Tc_element.vMerge (CT_Tc.element (tbl_of rs) tc) = Ok None)
         (mk_address (S (S r)) <$> tcs).
Proof.
  intros Hr Hall. apply Forall_fmap. eapply Forall_impl; [exact Hall|].
  intros i Hi. unfold compose. cbv beta in *.
  rewrite (element_of_rows _ _ _ _ _ _ Hr).
  rewrite (list_lookup_total_correct _ _ _ Hi). split; reflexivity.
Qed.

Lemma cells_of_row_new (rs : list Element) (r : nat) (cells : list address) :
  rs !! r = Some (tr_new twips cols) ->
  cells_of_tcs (tbl_of rs) (Z.of_nat cols)
    (mk_address (S (S r)) <$> CT_Row.tc_lst (child_at (tbl_of rs) (S (S r)))) cells
  = Ok (cells ++ (mk_address (S (S r)) <$> seq 0 cols)).
Proof.
  intros Hr.
  change (child_at (tbl_of rs) (S (S r))) with (rs !!! r).
  rewrite (list_lookup_total_correct _ _ _ Hr).
  unfold tr_new in *. rewrite tc_lst_cells, length_replicate.
  - apply cells_of_unmerged_tcs. apply (unmerged_cells _ _ _ _ Hr).
    apply Forall_forall. intros i Hi. apply elem_of_seq in Hi.
    apply lookup_replicate_2. lia.
  - apply Forall_forall. intros c Hc. apply elem_of_replicate in Hc as [-> _]. reflexivity.
Qed.

Lemma cells_of_row_spanned (rs : list Element) (r b W a : nat) (vMerge : option string)
    (x : address) (before above : list address) :
  rs !! r = Some (tr_spanned twips b W a vMerge) ->
  (1 <= W)%nat -> merge_value vMerge ->
  (if decide (vMerge = Some ST_Merge.CONTINUE)
   then length above = cols /\ (0 < cols)%nat /\
        forall i, (i < W)%nat -> above !! (b + i)%nat = Some x
   else x = in_row r b) ->
  cells_of_tcs (tbl_of rs) (Z.of_nat cols)
    (mk_address (S (S r)) <$> CT_Row.tc_lst (child_at (tbl_of rs) (S (S r))))
    (before ++ above)
  = Ok ((before ++ above)
        ++ (mk_address (S (S r)) <$> seq 0 b)
        ++ replicate W x
        ++ (mk_address (S (S r)) <$> seq (S b) a)).
Proof.
  intros Hr HW Hv Hx.
  change (child_at (tbl_of rs) (S (S r))) with (rs !!! r).
  rewrite (list_lookup_total_correct _ _ _ Hr).
  unfold tr_spanned in *.
  set (sp := tc_spanned (Z.of_nat W * twips) (Z.of_nat W) vMerge) in *.
  rewrite tc_lst_cells by (now apply cells_tagged; destruct Hv as [->|[->| ->]]).
  rewrite length_app, length_replicate. cbn [length]. rewrite length_replicate.
  replace (b + S a)%nat with (b + (1 + a))%nat by lia.
  rewrite !seq_app, !fmap_app. cbn [seq fmap list_fmap]. rewrite Nat.add_0_l.
  replace (b + 1)%nat with (S b) by lia.
  rewrite cells_of_tcs_app.
  rewrite cells_of_unmerged_tcs.
  2:{ apply (unmerged_cells _ _ _ _ Hr). apply Forall_forall. intros i Hi.
      apply elem_of_seq in Hi. rewrite lookup_app_l by (rewrite length_replicate; lia).
      apply lookup_replicate_2. lia. }
  cbn [mbind result_bind Py.bind].
  rewrite (cells_of_tcs_app _ _ [in_row r b]).
  assert (Hsp : CT_Tc.element (tbl_of rs) (in_row r b) = sp).
  { rewrite (element_of_rows _ _ _ _ _ _ Hr). apply cells_lookup_span. }
  assert (Hmid : cells_of_tcs (tbl_of rs) (Z.of_nat cols) [in_row r b]
                   ((before ++ above) ++ (mk_address (S (S r)) <$> seq 0 b))
                 = Ok (((before ++ above) ++ (mk_address (S (S r)) <$> seq 0 b))
                       ++ replicate W x)).
  { cbn [cells_of_tcs]. rewrite Hsp. unfold sp at 1.
    rewrite grid_span_tc_spanned by lia. cbn [mbind result_bind Py.bind].
    destruct (decide (vMerge = Some ST_Merge.CONTINUE)) as [Hc|Hc].
    - destruct Hx as (Hlen & Hcols & Habove).
      rewrite <- (app_assoc before above).
      rewrite (cells_of_tc_continue _ _ _ x).
      + cbn [mbind result_bind Py.bind]. unfold range.
        now rewrite length_fmap, length_seq, Nat2Z.id.
      + rewrite Hsp. unfold sp. rewrite vMerge_tc_spanned by assumption. now rewrite Hc.
      + now rewrite Hlen.
      + intros i Hi. unfold range in Hi.
        rewrite length_fmap, length_seq, Nat2Z.id in Hi.
        rewrite length_fmap, length_seq. now apply Habove.
    - subst x.
      rewrite (cells_of_tc_first _ _ _ vMerge); [reflexivity| |assumption].
      rewrite Hsp. unfold sp. now apply vMerge_tc_spanned. }
  rewrite Hmid. cbn [mbind result_bind Py.bind].
  rewrite cells_of_unmerged_tcs.
  - now rewrite <- !app_assoc.
  - apply (unmerged_cells _ _ _ _ Hr). apply Forall_forall. intros i Hi.
    apply elem_of_seq in Hi. rewrite lookup_app_r by (rewrite length_replicate; lia).
    rewrite length_replicate.
    rewrite lookup_cons_ne_0 by lia.
    apply lookup_replicate_2. lia.
Qed.

Section Merged.
Variables (rows top left H W : nat).
Hypothesis height_fits : (1 <= H)%nat /\ (top + H <= rows)%nat.
Hypothesis width_fits : (1 <= W)%nat /\ (left + W <= cols)%nat.

Local Abbreviation rows' := (rows_merged twips cols rows top left H W).
Local Abbreviation tbl' := (tbl_merged twips cols rows top left H W).
Local Abbreviation vMerge_top := (if (H =? 1)%nat then None else Some ST_Merge.RESTART).
Local Abbreviation tr_top := (tr_spanned twips left W (cols - left - W) vMerge_top).
Local Abbreviation tr_continue :=
  (tr_spanned twips left W (cols - left - W) (Some ST_Merge.CONTINUE)).
Local Abbreviation row_cells := (row_cells_merged cols top left H W).

Lemma rows_merged_length : length rows' = rows.
Proof.
  unfold rows_merged. rewrite length_app. cbn [length].
  rewrite length_app, !length_replicate. lia.
Qed.

Lemma rows_merged_tagged : row_tagged rows'.
Proof.
  unfold rows_merged. apply Forall_app. split; [apply new_rows_tagged|].
  constructor; [reflexivity|]. apply Forall_app. split; [|apply new_rows_tagged].
  apply Forall_forall. intros row Hrow. apply elem_of_replicate in Hrow as [-> _].
  reflexivity.
Qed.

Lemma rows_merged_top : rows' !! top = Some tr_top.
Proof.
  unfold rows_merged. apply list_lookup_middle. now rewrite length_replicate.
Qed.

Lemma rows_merged_continue (r : nat) :
  (top < r < top + H)%nat -> rows' !! r = Some tr_continue.
Proof.
  intros Hr. unfold rows_merged.
  rewrite lookup_app_r by (rewrite length_replicate; lia). rewrite length_replicate.
  rewrite lookup_cons_ne_0 by lia.
  rewrite lookup_app_l by (rewrite length_replicate; lia).
  apply lookup_replicate_2. lia.
Qed.

Lemma rows_merged_outside (r : nat) :
  (r < rows)%nat -> ~ (top <= r < top + H)%nat -> rows' !! r = Some (tr_new twips cols).
Proof.
  intros Hr Hout. unfold rows_merged.
  destruct (decide (r < top)%nat) as [Hlt|Hge].
  - rewrite lookup_app_l by (rewrite length_replicate; lia).
    now apply lookup_replicate_2.
  - rewrite lookup_app_r by (rewrite length_replicate; lia). rewrite length_replicate.
    rewrite lookup_cons_ne_0 by lia.
    rewrite lookup_app_r by (rewrite length_replicate; lia). rewrite length_replicate.
    apply lookup_replicate_2. lia.
Qed.

Lemma row_cells_length (r : nat) : length (row_cells r) = cols.
Proof.
  unfold row_cells_merged. destruct (decide _).
  - rewrite !length_app, !length_fmap, !length_seq, length_replicate. lia.
  - now rewrite length_fmap, length_seq.
Qed.

Lemma row_cells_span (r i : nat) :
  (top <= r < top + H)%nat -> (i < W)%nat ->
  row_cells r !! (left + i)%nat = Some (in_row top left).
Proof.
  intros Hr Hi. unfold row_cells_merged. rewrite decide_True by assumption.
  rewrite lookup_app_r by (rewrite length_fmap, length_seq; lia).
  rewrite length_fmap, length_seq. replace (left + i - left)%nat with i by lia.
  rewrite lookup_app_l by (rewrite length_replicate; lia).
  now apply lookup_replicate_2.
Qed.

Lemma cells_of_rows (n : nat) :
  (n <= rows)%nat ->
  cells_of_tcs tbl' (Z.of_nat cols)
    (flat_map (fun tr => mk_address tr <$> CT_Row.tc_lst (child_at tbl' tr)) (seq 2 n)) []
  = Ok (flat_map row_cells (seq 0 n)).
Proof.
  induction n as [|n IH]; intros Hn; [reflexivity|].
  rewrite !seq_S, !flat_map_app, cells_of_tcs_app, IH by lia.
  cbn [mbind result_bind Py.bind flat_map Nat.add]. rewrite !app_nil_r.
  unfold tbl_merged.
  destruct (decide (top <= n < top + H)%nat) as [Hin|Hout].
  - destruct (decide (n = top)) as [->|Hne].
    + rewrite <- (app_nil_r (flat_map row_cells (seq 0 top))) at 1.
      rewrite (cells_of_row_spanned rows' top left W _ vMerge_top (in_row top left)
                 (flat_map row_cells (seq 0 top)) [] rows_merged_top).
      * rewrite app_nil_r. unfold row_cells_merged at 3.
        now rewrite decide_True by assumption.
      * lia.
      * unfold merge_value. destruct (H =? 1)%nat; auto.
      * destruct (H =? 1)%nat; rewrite decide_False by discriminate; reflexivity.
    + destruct n as [|n]; [lia|].
      rewrite seq_S, flat_map_app. cbn [flat_map Nat.add]. rewrite app_nil_r.
      rewrite (cells_of_row_spanned rows' (S n) left W (cols - left - W) (Some ST_Merge.CONTINUE)
                 (in_row top left) (flat_map row_cells (seq 0 n)) (row_cells n)).
      * unfold row_cells_merged at 5. now rewrite decide_True by assumption.
      * apply rows_merged_continue. lia.
      * lia.
      * unfold merge_value. auto.
      * rewrite decide_True by reflexivity. split; [apply row_cells_length|].
        split; [lia|]. intros i Hi. apply row_cells_span; lia.
  - rewrite (cells_of_row_new rows' n) by (apply rows_merged_outside; [lia|assumption]).
    unfold row_cells_merged at 3. now rewrite decide_False by assumption.
Qed.

Lemma cells_merged : _cells tbl' = Ok (flat_map row_cells (seq 0 rows)).
Proof.
  unfold _cells, tbl_merged. rewrite col_count_of_rows. cbn [mbind result_bind Py.bind].
  unfold iter_tcs. rewrite tr_lst_of_rows by apply rows_merged_tagged.
  rewrite rows_merged_length. now apply cells_of_rows.
Qed.

(** The cell [Table.cell] answers with in the table after the merge *)
Lemma row_cells_lookup (r c : nat) :
  (c < cols)%nat ->
  row_cells r !! c
  = Some (if decide ((top <= r < top + H)%nat /\ (left <= c < left + W)%nat)
          then in_row top left
          else if decide ((top <= r < top + H)%nat /\ (left + W <= c)%nat)
               then in_row r (c + 1 - W) else in_row r c).
Proof.
  intros Hc. unfold row_cells_merged.
  destruct (decide (top <= r < top + H)%nat) as [Hr|Hr].
  - destruct (decide (c < left)%nat) as [Hlt|Hge].
    + rewrite lookup_app_l by (rewrite length_fmap, length_seq; lia).
      rewrite list_lookup_fmap, lookup_seq_lt by lia.
      rewrite decide_False by lia. rewrite decide_False by lia. reflexivity.
    + rewrite lookup_app_r by (rewrite length_fmap, length_seq; lia).
      rewrite length_fmap, length_seq.
      destruct (decide (c < left + W)%nat) as [Hin|Hafter].
      * rewrite lookup_app_l by (rewrite length_replicate; lia).
        rewrite decide_True by lia. apply lookup_replicate_2. lia.
      * rewrite lookup_app_r by (rewrite length_replicate; lia).
        rewrite length_replicate, list_lookup_fmap, lookup_seq_lt by lia.
        rewrite decide_False by lia. rewrite decide_True by lia.
        cbn. do 2 f_equal. lia.
  - rewrite list_lookup_fmap, lookup_seq_lt by lia.
    rewrite decide_False by tauto. rewrite decide_False by tauto. reflexivity.
Qed.

Lemma cell_merged (r c : nat) :
  (r < rows)%nat -> (c < cols)%nat ->
  cell tbl' (Z.of_nat r) (Z.of_nat c)
  = Ok (if decide ((top <= r < top + H)%nat /\ (left <= c < left + W)%nat)
        then in_row top left
        else if decide ((top <= r < top + H)%nat /\ (left + W <= c)%nat)
             then in_row r (c + 1 - W) else in_row r c).
Proof.
  intros Hr Hc. unfold cell. rewrite cells_merged.
  unfold tbl_merged. rewrite col_count_of_rows. cbn [mbind result_bind Py.bind].
  replace (Z.of_nat c + Z.of_nat r * Z.of_nat cols) with (Z.of_nat (c + r * cols)) by lia.
  apply list_getitem_lookup.
  rewrite (flat_map_blocks_lookup _ 0 rows cols r c) by (apply row_cells_length || assumption).
  now apply row_cells_lookup.
Qed.

Lemma tc_at_grid_offset_cells (b : nat) (x : Element) (post : list Element) :
  tag x = "w:tc"%string -> cell_tagged post ->
  CT_Row.tc_at_grid_offset (Examples.tr_of (replicate b tc0 ++ x :: post)) (Z.of_nat b)
  = Ok b.
Proof.
  intros Hx Hpost.
  assert (Hall : cell_tagged (replicate b tc0 ++ x :: post)).
  { apply Forall_app. split; [|now constructor].
    apply Forall_forall. intros c Hc. apply elem_of_replicate in Hc as [-> _]. reflexivity. }
  unfold CT_Row.tc_at_grid_offset. rewrite grid_before_cells by assumption.
  cbn [mbind result_bind Py.bind]. rewrite tc_lst_cells by assumption.
  rewrite length_app, length_replicate. cbn [length].
  set (row := Examples.tr_of (replicate b tc0 ++ x :: post)).
  assert (Hloop : forall len k, (k <= b < k + len)%nat ->
            CT_Row.tc_at_remaining_offset row (seq k len) (Z.of_nat b - Z.of_nat k)
            = Ok (Some b)).
  { induction len as [|len IH]; intros k Hk; [lia|].
    cbn [seq CT_Row.tc_at_remaining_offset].
    destruct (Z.ltb_spec (Z.of_nat b - Z.of_nat k) 0) as [|_]; [lia|].
    destruct (Z.eqb_spec (Z.of_nat b - Z.of_nat k) 0) as [Heq|Hne].
    - do 2 f_equal. lia.
    - assert (Hk' : child_at row k = tc0).
      { apply child_at_lookup. unfold row. cbn [children Examples.tr_of CT_Tbl.with_attrs].
        rewrite lookup_app_l by (rewrite length_replicate; lia).
        apply lookup_replicate_2. lia. }
      rewrite Hk'. change (CT_Tc_element.grid_span tc0) with (Ok 1 : result Z).
      cbn [mbind result_bind Py.bind].
      replace (Z.of_nat b - Z.of_nat k - 1) with (Z.of_nat b - Z.of_nat (S k)) by lia.
      apply IH. lia. }
  rewrite Z.sub_0_r. specialize (Hloop (b + S (length post))%nat 0%nat).
  rewrite Z.sub_0_r in Hloop. rewrite Hloop by lia. reflexivity.
Qed.

Lemma merged_row_reads (r : nat) :
  (top <= r < top + H)%nat ->
  exists vMerge,
    vMerge = (if decide (r = top) then vMerge_top else Some ST_Merge.CONTINUE) /\
    cell_at tbl' (Z.of_nat r) (Z.of_nat left) = Ok (in_row r left) /\
    CT_Tc.element tbl' (in_row r left)
    = tc_spanned (Z.of_nat W * twips) (Z.of_nat W) vMerge /\
    length (CT_Row.tc_lst (CT_Tc._tr tbl' (in_row r left))) = (cols + 1 - W)%nat.
Proof.
  intros Hr. eexists. split; [reflexivity|].
  set (vMerge := if decide (r = top) then vMerge_top else Some ST_Merge.CONTINUE).
  assert (Hrow : rows' !! r = Some (tr_spanned twips left W (cols - left - W) vMerge)).
  { unfold vMerge. destruct (decide (r = top)) as [->|Hne]; [apply rows_merged_top|].
    apply rows_merged_continue. lia. }
  assert (Hsp : tag (tc_spanned (Z.of_nat W * twips) (Z.of_nat W) vMerge) = "w:tc"%string)
    by reflexivity.
  assert (Hpost : cell_tagged (replicate (cols - left - W) tc0)).
  { apply Forall_forall. intros c Hc. apply elem_of_replicate in Hc as [-> _].
    reflexivity. }
  unfold tbl_merged. split; [|split].
  - unfold cell_at. rewrite tr_lst_of_rows by apply rows_merged_tagged.
    rewrite rows_merged_length.
    rewrite (list_getitem_lookup _ r (S (S r))) by (apply lookup_seq_lt; lia).
    cbn [mbind result_bind Py.bind].
    change (child_at (tbl_of rows') (S (S r))) with (rows' !!! r).
    rewrite (list_lookup_total_correct _ _ _ Hrow). unfold tr_spanned.
    now rewrite tc_at_grid_offset_cells.
  - unfold tr_spanned in Hrow. rewrite (element_of_rows _ _ _ _ _ _ Hrow).
    apply cells_lookup_span.
  - rewrite (tr_of_rows _ _ _ _ _ _ Hrow). unfold tr_spanned.
    rewrite tc_lst_cells by (now apply cells_tagged).
    rewrite length_seq, length_app, length_replicate. cbn [length].
    rewrite length_replicate. lia.
Qed.

Lemma unmerged_row (r : nat) :
  (r < rows)%nat -> ~ (top <= r < top + H)%nat ->
  child_at tbl' (S (S r)) = child_at (tbl_new twips cols rows) (S (S r)).
Proof.
  intros Hr Hout.
  change (rows' !!! r = replicate rows (tr_new twips cols) !!! r).
  rewrite (list_lookup_total_correct _ _ _ (rows_merged_outside r Hr Hout)).
  symmetry. apply list_lookup_total_correct. now apply lookup_replicate_2.
Qed.

End Merged.

End Merge.







Lemma new_tbl_is_tbl_new (rows cols width K t : Z) :
  0 < cols -> width / cols = 635 * K + t -> Z.abs t <= 317 ->
  Z.abs (width / cols) < 2 ^ 52 ->
  CT_Tbl.new_tbl rows cols width = Ok (tbl_new K (Z.to_nat cols) (Z.to_nat rows)).
Proof.
  intros Hcols Hw Ht Hrange.
  assert (Htwips : Length.twips (width / cols) = Ok K)
    by (apply (twips_nearest _ K t); auto).
  unfold CT_Tbl.new_tbl, CT_Tbl._tblGrid_xml, CT_Tbl._trs_xml, CT_Tbl._tcs_xml.
  rewrite (proj2 (Z.gtb_lt cols 0)) by lia.
  destruct (Z.leb_spec cols 0) as [|_]; [lia|].
  unfold Length.Emu, Length.Length. rewrite Htwips. reflexivity.
Qed.

Lemma tbl_new_cell (twips : Z) (cols rows r c : nat) :
  (r < rows)%nat -> (c < cols)%nat ->
  cell (tbl_new twips cols rows) (Z.of_nat r) (Z.of_nat c) = Ok (mk_address (S (S r)) c).
Proof.
  intros Hr Hc. unfold cell, tbl_new. rewrite col_count_of_rows.
  cbn [mbind result_bind Py.bind].
  change (_cells (tbl_of_rows twips cols (replicate rows (tr_new twips cols))))
    with (_cells (CT_Tbl.with_attrs "w:tbl" []
     ([ CT_Tbl.with_attrs "w:tblPr" []
          [ CT_Tbl.with_attrs "w:tblW" [("w:type", "auto"); ("w:w", "0")]%string [];
            CT_Tbl.with_attrs "w:tblLook"
              [ ("w:firstColumn", "1"); ("w:firstRow", "1"); ("w:lastColumn", "0");
                ("w:lastRow", "0"); ("w:noHBand", "0"); ("w:noVBand", "1");
                ("w:val", "04A0") ]%string [] ];
        CT_Tbl.with_attrs "w:tblGrid" []
          (replicate cols (CT_Tbl.with_attrs "w:gridCol" [("w:w"%string, str twips)] [])) ]
      ++ replicate rows
           (Examples.tr_of (replicate cols (Examples.tc_of_width (str twips))))))).
  rewrite tbl0_cells. cbn [mbind result_bind Py.bind].
  replace (Z.of_nat c + Z.of_nat r * Z.of_nat cols) with (Z.of_nat (c + r * cols)) by lia.
  apply list_getitem_lookup.
  rewrite (flat_map_blocks_lookup _ 2 rows cols r c);
    [|intros k; now rewrite length_fmap, length_seq|assumption|assumption].
  rewrite list_lookup_fmap, lookup_seq_lt by assumption. reflexivity.
Qed.

(** The merge of two cells of a new table, on the table written out *)
Lemma merge_of_new_tbl (rows cols width K t r1 c1 r2 c2 : Z) :
  0 < cols <= 2147483647 ->
  width / cols = 635 * K + t -> Z.abs t <= 317 -> Z.abs (width / cols) < 2 ^ 52 ->
  0 <= K -> cols * K <= 2147483647 ->
  0 <= r1 < rows -> 0 <= r2 < rows -> 0 <= c1 < cols -> 0 <= c2 < cols ->
  CT_Tbl.new_tbl rows cols width = Ok (tbl_new K (Z.to_nat cols) (Z.to_nat rows)) /\
  cell (tbl_new K (Z.to_nat cols) (Z.to_nat rows)) r1 c1
  = Ok (mk_address (S (S (Z.to_nat r1))) (Z.to_nat c1)) /\
  cell (tbl_new K (Z.to_nat cols) (Z.to_nat rows)) r2 c2
  = Ok (mk_address (S (S (Z.to_nat r2))) (Z.to_nat c2)) /\
  CT_Tc.merge (tbl_new K (Z.to_nat cols) (Z.to_nat rows))
    (mk_address (S (S (Z.to_nat r1))) (Z.to_nat c1))
    (mk_address (S (S (Z.to_nat r2))) (Z.to_nat c2))
  = Some (Ok (mk_address (S (S (Z.to_nat (Z.min r1 r2)))) (Z.to_nat (Z.min c1 c2)),
              tbl_merged K (Z.to_nat cols) (Z.to_nat rows)
                (Z.to_nat (Z.min r1 r2)) (Z.to_nat (Z.min c1 c2))
                (Z.to_nat (Z.max r1 r2 - Z.min r1 r2 + 1))
                (Z.to_nat (Z.max c1 c2 - Z.min c1 c2 + 1)))).
Proof.
  intros Hcols Hw Ht Hrange HK Hwide Hr1 Hr2 Hc1 Hc2.
  split; [apply (new_tbl_is_tbl_new rows cols width K t); auto; lia|].
  split.
  { rewrite <- (Z2Nat.id r1) at 1 by lia. rewrite <- (Z2Nat.id c1) at 1 by lia.
    apply tbl_new_cell; lia. }
  split.
  { rewrite <- (Z2Nat.id r2) at 1 by lia. rewrite <- (Z2Nat.id c2) at 1 by lia.
    apply tbl_new_cell; lia. }
  rewrite merge_tbl_new by lia.
  replace (Z.to_nat r1 `min` Z.to_nat r2)%nat with (Z.to_nat (Z.min r1 r2)) by lia.
  replace (Z.to_nat c1 `min` Z.to_nat c2)%nat with (Z.to_nat (Z.min c1 c2)) by lia.
  replace (Z.to_nat r1 `max` Z.to_nat r2 + 1 - Z.to_nat (Z.min r1 r2))%nat
    with (Z.to_nat (Z.max r1 r2 - Z.min r1 r2 + 1)) by lia.
  replace (Z.to_nat c1 `max` Z.to_nat c2 + 1 - Z.to_nat (Z.min c1 c2))%nat
    with (Z.to_nat (Z.max c1 c2 - Z.min c1 c2 + 1)) by lia.
  reflexivity.
Qed.

(** X21. Merging two cells of a new table, whatever their order: in the
    table [new_tbl] makes, with a column width of a whole number [K] of
    twips and [cols * K] within [XsdInt], [merge] on the cells at rows [r1],
    [r2] and columns [c1], [c2] returns the cell at the top left of their
    bounding box.  After the merge each row of the box has one cell that
    starts at the left column of the box, spans the columns of the box and
    has the sum of their widths; that cell is [restart] in the top row (not
    merged if the box has one row) and [continue] in the rows below, and each
    of these rows has lost the cells taken in.  The rows outside the box, the
    row count and the column count are unchanged. *)
Theorem merge_in_new_table (rows cols width K t r1 c1 r2 c2 : Z) :
  0 < cols <= 2147483647 ->
  width / cols = 635 * K + t -> Z.abs t <= 317 -> Z.abs (width / cols) < 2 ^ 52 ->
  0 <= K -> cols * K <= 2147483647 ->
  0 <= r1 < rows -> 0 <= r2 < rows -> 0 <= c1 < cols -> 0 <= c2 < cols ->
  exists tbl a b top_tc tbl',
    CT_Tbl.new_tbl rows cols width = Ok tbl /\
    cell tbl r1 c1 = Ok a /\ cell tbl r2 c2 = Ok b /\
    CT_Tc.merge tbl a b = Some (Ok (top_tc, tbl')) /\
    cell_at tbl' (Z.min r1 r2) (Z.min c1 c2) = Ok top_tc /\
    CT_Tc_element.vMerge (CT_Tc.element tbl' top_tc)
    = Ok (if Z.max r1 r2 =? Z.min r1 r2 then None else Some ST_Merge.RESTART) /\
    CT_Tbl.tr_lst tbl' = CT_Tbl.tr_lst tbl /\
    col_count tbl' = Ok cols /\
    (forall r, Z.min r1 r2 <= r <= Z.max r1 r2 ->
       exists tc,
         cell_at tbl' r (Z.min c1 c2) = Ok tc /\
         CT_Tc_element.grid_span (CT_Tc.element tbl' tc)
         = Ok (Z.max c1 c2 - Z.min c1 c2 + 1) /\
         CT_Tc_element.width (CT_Tc.element tbl' tc)
         = Ok (Some (635 * ((Z.max c1 c2 - Z.min c1 c2 + 1) * K))) /\
         (Z.min r1 r2 < r ->
            CT_Tc_element.vMerge (CT_Tc.element tbl' tc) = Ok (Some ST_Merge.CONTINUE)) /\
         Z.of_nat (length (CT_Row.tc_lst (CT_Tc._tr tbl' tc)))
         = cols - (Z.max c1 c2 - Z.min c1 c2)) /\
    (forall r tr, 0 <= r < rows -> ~ (Z.min r1 r2 <= r <= Z.max r1 r2) ->
       list_getitem (CT_Tbl.tr_lst tbl) r = Ok tr -> child_at tbl' tr = child_at tbl tr).
Proof.
  intros Hcols Hw Ht Hrange HK Hwide Hr1 Hr2 Hc1 Hc2.
  destruct (merge_of_new_tbl rows cols width K t r1 c1 r2 c2)
    as (Hnew & Ha & Hb & Hmerge); try assumption.
  set (n := Z.to_nat rows) in *. set (m := Z.to_nat cols) in *.
  set (top := Z.to_nat (Z.min r1 r2)) in *. set (left := Z.to_nat (Z.min c1 c2)) in *.
  set (H := Z.to_nat (Z.max r1 r2 - Z.min r1 r2 + 1)) in *.
  set (W := Z.to_nat (Z.max c1 c2 - Z.min c1 c2 + 1)) in *.
  assert (HH : (1 <= H)%nat /\ (top + H <= n)%nat) by (unfold H, top, n; lia).
  assert (HW : (1 <= W)%nat /\ (left + W <= m)%nat) by (unfold W, left, m; lia).
  assert (Hlen := rows_merged_length K m n top left H W HH HW).
  assert (Htagged := rows_merged_tagged K m n top left H W).
  do 5 eexists.
  split; [exact Hnew|]. split; [exact Ha|]. split; [exact Hb|]. split; [exact Hmerge|].
  split; [|split; [|split; [|split; [|split]]]].
  - destruct (merged_row_reads K m n top left H W HH HW top) as (v & _ & Hat & _);
      [lia|].
    replace (Z.min r1 r2) with (Z.of_nat top) by (unfold top; lia).
    replace (Z.min c1 c2) with (Z.of_nat left) by (unfold left; lia).
    exact Hat.
  - destruct (merged_row_reads K m n top left H W HH HW top) as (v & Hv & _ & Helm & _);
      [lia|].
    rewrite Helm, vMerge_tc_spanned.
    + rewrite Hv, decide_True by reflexivity. f_equal.
      destruct (Nat.eqb_spec H 1) as [H1|H1];
        destruct (Z.eqb_spec (Z.max r1 r2) (Z.min r1 r2)) as [E|E];
        try reflexivity; exfalso; unfold H in H1; lia.
    + rewrite Hv, decide_True by reflexivity. unfold merge_value.
      destruct (H =? 1)%nat; auto.
  - unfold tbl_merged, tbl_new. rewrite !tr_lst_of_rows by (assumption || apply new_rows_tagged).
    now rewrite Hlen, length_replicate.
  - unfold tbl_merged. rewrite col_count_of_rows. f_equal. unfold m. lia.
  - intros r Hr.
    destruct (merged_row_reads K m n top left H W HH HW (Z.to_nat r))
      as (v & Hv & Hat & Helm & Hcount); [unfold top, H; lia|].
    exists (mk_address (S (S (Z.to_nat r))) left).
    rewrite Z2Nat.id in Hat by lia.
    replace (Z.of_nat left) with (Z.min c1 c2) in Hat by (unfold left; lia).
    split; [exact Hat|]. rewrite Helm.
    replace (Z.max c1 c2 - Z.min c1 c2 + 1) with (Z.of_nat W) by (unfold W; lia).
    split; [apply grid_span_tc_spanned; lia|].
    split; [apply width_tc_spanned|]. split.
    + intros Hbelow. rewrite decide_False in Hv by (unfold top; lia). subst v.
      apply vMerge_tc_spanned. unfold merge_value. auto.
    + rewrite Hcount. unfold W, m. lia.
  - intros r tr Hr Hout Htr.
    unfold tbl_new in Htr. rewrite tr_lst_of_rows in Htr by apply new_rows_tagged.
    rewrite length_replicate in Htr.
    rewrite <- (Z2Nat.id r) in Htr by lia.
    rewrite (list_getitem_lookup _ (Z.to_nat r) (S (S (Z.to_nat r)))) in Htr
      by (apply lookup_seq_lt; unfold n; lia).
    injection Htr as <-.
    apply (unmerged_row K m n top left H W HH HW); unfold n, top, H; lia.
Qed.

Lemma merge_in_new_table_witness :
  exists tbl a b top_tc tbl',
    CT_Tbl.new_tbl 3 4 5760000 = Ok tbl /\
    cell tbl 2 3 = Ok a /\ cell tbl 1 1 = Ok b /\
    CT_Tc.merge tbl a b = Some (Ok (top_tc, tbl')) /\
    cell_at tbl' 1 1 = Ok top_tc /\
    CT_Tc_element.grid_span (CT_Tc.element tbl' top_tc) = Ok 3.
Proof.
  destruct (merge_in_new_table 3 4 5760000 2268 (-180) 2 3 1 1)
    as (tbl & a & b & top_tc & tbl' & Hnew & Ha & Hb & Hmerge & Hat & _ & _ & _ & Hrows & _);
    try lia; try reflexivity.
  destruct (Hrows 1) as (tc & Htc & Hspan & _); [lia|].
  change (Z.min 2 1) with 1 in *. change (Z.min 3 1) with 1 in *.
  rewrite Hat in Htc. injection Htc as <-.
  exists tbl, a, b, top_tc, tbl'.
  split; [exact Hnew|]. split; [exact Ha|]. split; [exact Hb|].
  split; [exact Hmerge|]. split; [exact Hat|exact Hspan].
Defined.

(** The cell of a place after the merge: the places of the span share
    one cell, every other place has a cell of its own *)
Lemma cell_of_merged_span (top left H W r c : nat) :
  (1 <= H)%nat -> (1 <= W)%nat ->
  cell_of_merged top left H W r c = mk_address (S (S top)) left
  <-> (top <= r < top + H)%nat /\ (left <= c < left + W)%nat.
Proof.
  intros HH HW. unfold cell_of_merged.
  destruct (decide ((top <= r < top + H)%nat /\ (left <= c < left + W)%nat))
    as [Hin|Hout]; [tauto|].
  split; [|tauto]. intros Heq.
  destruct (decide ((top <= r < top + H)%nat /\ (left + W <= c)%nat)) as [Hafter|Hnot];
    injection Heq as Htr Htc; lia.
Qed.

Lemma cell_of_merged_inj (top left H W r c r' c' : nat) :
  (1 <= H)%nat -> (1 <= W)%nat ->
  cell_of_merged top left H W r' c' = cell_of_merged top left H W r c ->
  cell_of_merged top left H W r c <> mk_address (S (S top)) left ->
  r' = r /\ c' = c.
Proof.
  intros HH HW Hsame Hne.
  assert (Hne' : cell_of_merged top left H W r' c' <> mk_address (S (S top)) left)
    by (now rewrite Hsame).
  rewrite cell_of_merged_span in Hne, Hne' by assumption.
  unfold cell_of_merged in Hsame.
  rewrite (decide_False (P := _ /\ (left <= c < left + W)%nat)) in Hsame by assumption.
  rewrite (decide_False (P := _ /\ (left <= c' < left + W)%nat)) in Hsame by assumption.
  destruct (decide ((top <= r < top + H)%nat /\ (left + W <= c)%nat));
    destruct (decide ((top <= r' < top + H)%nat /\ (left + W <= c')%nat));
    injection Hsame as Htr Htc; lia.
Qed.

(** X22. What [Table.cell] answers with after a merge in a new table:
    after the cells at rows [r1], [r2] and columns [c1], [c2] of the table
    [new_tbl] makes are merged, [Table.cell] answers for every row and
    column of the table; for the rows and columns of the bounding box of the
    two cells, and for no other, it answers with the cell [merge] returned;
    and two different places outside the box never share a cell. *)
Theorem cells_after_merge (rows cols width K t r1 c1 r2 c2 : Z) :
  0 < cols <= 2147483647 ->
  width / cols = 635 * K + t -> Z.abs t <= 317 -> Z.abs (width / cols) < 2 ^ 52 ->
  0 <= K -> cols * K <= 2147483647 ->
  0 <= r1 < rows -> 0 <= r2 < rows -> 0 <= c1 < cols -> 0 <= c2 < cols ->
  exists tbl a b top_tc tbl',
    CT_Tbl.new_tbl rows cols width = Ok tbl /\
    cell tbl r1 c1 = Ok a /\ cell tbl r2 c2 = Ok b /\
    CT_Tc.merge tbl a b = Some (Ok (top_tc, tbl')) /\
    forall r c, 0 <= r < rows -> 0 <= c < cols ->
      exists tc,
        cell tbl' r c = Ok tc /\
        (tc = top_tc <->
         Z.min r1 r2 <= r <= Z.max r1 r2 /\ Z.min c1 c2 <= c <= Z.max c1 c2) /\
        forall r' c', 0 <= r' < rows -> 0 <= c' < cols ->
          cell tbl' r' c' = Ok tc -> tc <> top_tc -> r' = r /\ c' = c.
Proof.
  intros Hcols Hw Ht Hrange HK Hwide Hr1 Hr2 Hc1 Hc2.
  destruct (merge_of_new_tbl rows cols width K t r1 c1 r2 c2)
    as (Hnew & Ha & Hb & Hmerge); try assumption.
  set (n := Z.to_nat rows) in *. set (m := Z.to_nat cols) in *.
  set (top := Z.to_nat (Z.min r1 r2)) in *. set (left := Z.to_nat (Z.min c1 c2)) in *.
  set (H := Z.to_nat (Z.max r1 r2 - Z.min r1 r2 + 1)) in *.
  set (W := Z.to_nat (Z.max c1 c2 - Z.min c1 c2 + 1)) in *.
  assert (Hn : Z.of_nat n = rows) by (unfold n; lia).
  assert (Hm : Z.of_nat m = cols) by (unfold m; lia).
  assert (Htop : Z.of_nat top = Z.min r1 r2) by (unfold top; lia).
  assert (Hleft : Z.of_nat left = Z.min c1 c2) by (unfold left; lia).
  assert (HH : Z.of_nat H = Z.max r1 r2 - Z.min r1 r2 + 1) by (unfold H; lia).
  assert (HW : Z.of_nat W = Z.max c1 c2 - Z.min c1 c2 + 1) by (unfold W; lia).
  clearbody n m top left H W.
  exists (tbl_new K m n), (mk_address (S (S (Z.to_nat r1))) (Z.to_nat c1)),
         (mk_address (S (S (Z.to_nat r2))) (Z.to_nat c2)),
         (mk_address (S (S top)) left), (tbl_merged K m n top left H W).
  split; [exact Hnew|]. split; [exact Ha|]. split; [exact Hb|]. split; [exact Hmerge|].
  clear Hnew Ha Hb Hmerge Hw Ht Hrange HK Hwide.
  assert (Hfits : ((1 <= H)%nat /\ (top + H <= n)%nat) /\
                  ((1 <= W)%nat /\ (left + W <= m)%nat)) by lia.
  destruct Hfits as [HfitH HfitW].
  assert (Hcell : forall r c, 0 <= r < rows -> 0 <= c < cols ->
            cell (tbl_merged K m n top left H W) r c
            = Ok (cell_of_merged top left H W (Z.to_nat r) (Z.to_nat c))).
  { intros r c Hr Hc. rewrite <- (Z2Nat.id r) at 1 by lia.
    rewrite <- (Z2Nat.id c) at 1 by lia.
    apply (cell_merged K m n top left H W HfitH HfitW); lia. }
  intros r c Hr Hc. eexists. split; [apply (Hcell r c Hr Hc)|]. split.
  - rewrite cell_of_merged_span by lia. lia.
  - intros r' c' Hr' Hc' Hsame Hne. rewrite (Hcell r' c' Hr' Hc') in Hsame.
    injection Hsame as Hsame.
    destruct (cell_of_merged_inj top left H W (Z.to_nat r) (Z.to_nat c)
                (Z.to_nat r') (Z.to_nat c')) as [Hrr Hcc];
      [lia|lia|assumption|assumption|].
    lia.
Qed.

Lemma cells_after_merge_witness :
  exists tbl a b top_tc tbl',
    CT_Tbl.new_tbl 3 4 5760000 = Ok tbl /\
    cell tbl 2 3 = Ok a /\ cell tbl 1 1 = Ok b /\
    CT_Tc.merge tbl a b = Some (Ok (top_tc, tbl')) /\
    cell tbl' 2 2 = Ok top_tc.
Proof.
  destruct (cells_after_merge 3 4 5760000 2268 (-180) 2 3 1 1)
    as (tbl & a & b & top_tc & tbl' & Hnew & Ha & Hb & Hmerge & Hcells);
    try lia; try reflexivity.
  destruct (Hcells 2 2) as (tc & Htc & [_ Hin] & _); try lia.
  rewrite (Hin ltac:(lia)) in Htc.
  exists tbl, a, b, top_tc, tbl'.
  split; [exact Hnew|]. split; [exact Ha|]. split; [exact Hb|].
  split; [exact Hmerge|exact Htc].
Defined.

End MergeFacts.
